(** * MLIR bytecode reader: a shallow embedding of
      mlir/lib/Bytecode/Reader/BytecodeReader.cpp

    The development follows the source file top to bottom: the byte cursor
    ([EncodingReader]), the dialect entries, the attribute/type table, the
    string section, the value and forward-reference manager and the IR
    section reader.  Unsigned machine integers are [Z] with their wrap-around
    written out; byte buffers are [list byte]; host services (dialect
    registry, assembly parser, verifier) are section variables. *)

From Stdlib Require Import ZArith Lia List String Bool.
From Stdlib.Strings Require Import Byte.
From stdpp Require Import base list option.
Import ListNotations.
Local Open Scope Z_scope.

(** ** Machine integers *)

Definition UINT64_MOD : Z := 2 ^ 64.
Definition UINT32_MOD : Z := 2 ^ 32.
Definition INT_MAX : Z := 2 ^ 31 - 1.

(** [uint64_t] and [unsigned] arithmetic wraps. *)
Definition u64 (z : Z) : Z := z mod UINT64_MOD.
Definition u32 (z : Z) : Z := z mod UINT32_MOD.

(** The value of one byte of the buffer, as the reader loads it. *)
Definition byteZ (b : byte) : Z := Z.of_N (Byte.to_N b).

(** The byte whose value is [z mod 256]. *)
Definition Zbyte (z : Z) : byte :=
  match Byte.of_N (Z.to_N (z mod 256)) with
  | Some b => b
  | None => x00
  end.

(** ** Diagnostics

    [emitError(args...)] appends its arguments to one diagnostic; a
    diagnostic is the list of the appended fragments: text, numbers,
    strings of the buffer and printed attributes. *)

Inductive Frag : Type :=
| Str (s : string)
| Num (n : Z)
| Bytes (b : list byte)
| Handle (h : nat).

Definition Diagnostic : Type := list Frag.

(** ** EncodingReader *)

Module EncodingReader.

(** The bytes from [dataIt] up to [dataEnd]. *)
Definition t : Type := list byte.

(** A primitive either succeeds with a value and the advanced reader or
    fails after emitting one diagnostic. *)
Inductive res (A : Type) : Type :=
| ROk (a : A) (r : t)
| RErr (d : Diagnostic).
Arguments ROk {A} a r.
Arguments RErr {A} d.

Definition empty (r : t) : bool :=
  match r with [] => true | _ => false end.

Definition size (r : t) : Z := Z.of_nat (length r).

Definition parseByte (r : t) : res Z :=
  match r with
  | [] => RErr [Str "attempting to parse a byte at the end of the bytecode"]
  | b :: r' => ROk (byteZ b) r'
  end.

(** [parseBytes(length, ArrayRef &result)]. *)
Definition parseBytes (len : Z) (r : t) : res (list byte) :=
  if size r <? len
  then RErr [Str "attempting to parse "; Num len;
             Str " bytes when only "; Num (size r); Str " remain"]
  else ROk (take (Z.to_nat len) r) (drop (Z.to_nat len) r).

(** Byte [i] of the little-endian image of a word. *)
Definition byte_at (w : Z) (i : nat) : Z :=
  (w / 2 ^ (8 * Z.of_nat i)) mod 256.

(** Overwrite byte [i] of the little-endian image of [w]. *)
Definition set_byte (w : Z) (i : nat) (b : byte) : Z :=
  w - byte_at w i * 2 ^ (8 * Z.of_nat i) + byteZ b * 2 ^ (8 * Z.of_nat i).

(** [memcpy(reinterpret_cast<uint8_t *>(&w) + off, bs, |bs|)] into a
    64-bit word on a little-endian host. *)
Fixpoint memcpy_word (w : Z) (off : nat) (bs : list byte) : Z :=
  match bs with
  | [] => w
  | b :: bs' => memcpy_word (set_byte w off b) (S off) bs'
  end.

(** [parseBytes(length, uint8_t *result)] where [result] points [off]
    bytes into the word [w]. *)
Definition parseBytesInto (len : Z) (w : Z) (off : nat) (r : t) : res Z :=
  match parseBytes len r with
  | RErr d => RErr d
  | ROk bs r' => ROk (memcpy_word w off bs) r'
  end.

(** [llvm::countTrailingZeros<uint32_t>(x, ZB_Undefined)] for [x <> 0]. *)
Fixpoint ctz_fuel (fuel : nat) (x : Z) : Z :=
  match fuel with
  | O => 0
  | S fuel' => if Z.odd x then 0 else 1 + ctz_fuel fuel' (x / 2)
  end.
Definition countTrailingZeros (x : Z) : Z := ctz_fuel 32 (u32 x).

Definition parseMultiByteVarInt (result : Z) (r : t) : res Z :=
  let numBytes := countTrailingZeros result in
  match parseBytesInto numBytes result 1 r with
  | RErr d => RErr d
  | ROk result' r' => ROk (Z.shiftr result' (numBytes + 1)) r'
  end.

Definition parseVarInt (r : t) : res Z :=
  match parseByte r with
  | RErr d => RErr d
  | ROk result r' =>
      if Z.odd result (* result & 1 *)
      then ROk (Z.shiftr result 1) r'
      else if result =? 0
           then parseBytesInto 8 result 0 r'
           else parseMultiByteVarInt result r'
  end.

Definition parseVarIntWithFlag (r : t) : res (Z * bool) :=
  match parseVarInt r with
  | RErr d => RErr d
  | ROk result r' => ROk (Z.shiftr result 1, Z.odd result) r'
  end.

Definition skipBytes (len : Z) (r : t) : res unit :=
  if size r <? len
  then RErr [Str "attempting to skip "; Num len;
             Str " bytes when only "; Num (size r); Str " remain"]
  else ROk tt (drop (Z.to_nat len) r).

(** [memchr(startIt, 0, size())]: the bytes before the first NUL and the
    bytes after it. *)
Fixpoint split_nul (r : t) : option (list byte * t) :=
  match r with
  | [] => None
  | b :: r' =>
      if Byte.eqb b x00 then Some ([], r')
      else match split_nul r' with
           | Some (s, rest) => Some (b :: s, rest)
           | None => None
           end
  end.

Definition parseNullTerminatedString (r : t) : res (list byte) :=
  match split_nul r with
  | None => RErr [Str "malformed null-terminated string, no null character found"]
  | Some (s, r') => ROk s r'
  end.

(** [bytecode::Section::kNumSections]. *)
Definition kNumSections : Z := 5.

Definition parseSection (r : t) : res (Z * list byte) :=
  match parseByte r with
  | RErr d => RErr d
  | ROk sectionID r1 =>
      match parseVarInt r1 with
      | RErr d => RErr d
      | ROk len r2 =>
          if kNumSections <=? sectionID
          then RErr [Str "invalid section ID: "; Num sectionID]
          else match parseBytes len r2 with
               | RErr d => RErr d
               | ROk data r3 => ROk (sectionID, data) r3
               end
      end
  end.

End EncodingReader.
Import EncodingReader.


(** ** The varint encoding, as the format defines it *)

(** Little-endian image of [v] on [n] bytes. *)
Fixpoint le_bytes (n : nat) (v : Z) : list byte :=
  match n with
  | O => []
  | S n' => Zbyte v :: le_bytes n' (v / 256)
  end.

(** The value of a little-endian byte sequence. *)
Fixpoint le_value (bs : list byte) : Z :=
  match bs with
  | [] => 0
  | b :: bs' => byteZ b + 256 * le_value bs'
  end.

(** Modelled from the spec: the writer's varint emitter is not among the
    sources.  The [m]-byte category ([1 <= m <= 8]) stores
    [(x << m) | (1 << (m-1))] little-endian on [m] bytes, so that the first
    byte has [m-1] trailing zero bits below the marker bit; the 9-byte
    category stores a zero byte followed by the 8 bytes of [x]. *)
Definition encode_varint_len (m : nat) (x : Z) : list byte :=
  if (m <=? 8)%nat
  then le_bytes m (Z.lor (Z.shiftl x (Z.of_nat m))
                         (Z.shiftl 1 (Z.of_nat m - 1)))
  else x00 :: le_bytes 8 x.

(** Modelled from the spec: the minimum length category, 1 byte if
    [x < 2^7], 2 bytes if [x < 2^14], and so on up to 9 bytes if
    [x >= 2^56]. *)
Definition min_varint_len (x : Z) : nat :=
  if x <? 2 ^ 7 then 1
  else if x <? 2 ^ 14 then 2
  else if x <? 2 ^ 21 then 3
  else if x <? 2 ^ 28 then 4
  else if x <? 2 ^ 35 then 5
  else if x <? 2 ^ 42 then 6
  else if x <? 2 ^ 49 then 7
  else if x <? 2 ^ 56 then 8
  else 9.

(** Modelled from the spec: [encode_varint]. *)
Definition encode_varint (x : Z) : list byte :=
  encode_varint_len (min_varint_len x) x.

(** Modelled from the spec: the encoding of [(x << 1) | flag], computed on
    64-bit words. *)
Definition encode_varint_with_flag (x : Z) (flag : bool) : list byte :=
  encode_varint (u64 (Z.lor (Z.shiftl x 1) (if flag then 1 else 0))).

(** ** String section *)

(** A [StringRef] into the string section: the offset of its first byte
    from [sectionData.data()] and its length. *)
Record StringRef : Type := mkStringRef {
  sr_offset : Z;
  sr_size : Z
}.

(** The bytes a [StringRef] denotes, when it lies within the section. *)
Definition StringRef_bytes (sectionData : list byte) (s : StringRef)
  : option (list byte) :=
  if (0 <=? sr_offset s) && (sr_offset s + sr_size s <=? size sectionData)
  then Some (take (Z.to_nat (sr_size s))
                  (drop (Z.to_nat (sr_offset s)) sectionData))
  else None.

Definition string_size_exceeds : Diagnostic :=
  [Str "string size exceeds the available data size"].

Definition string_trailing_data : Diagnostic :=
  [Str "unexpected trailing data between the offsets for strings and their data"].

(** The loop [for (StringRef &string : llvm::reverse(strings))] with [n]
    entries still to fill: the entries already filled, [strings], are those
    of the highest indices, so each new entry goes in front of them. *)
Fixpoint parseStringSizes (n : nat) (stringReader : EncodingReader.t)
    (stringDataEndOffset totalStringDataSize : Z) (strings : list StringRef)
  : res (list StringRef * Z) :=
  match n with
  | O => ROk (strings, totalStringDataSize) stringReader
  | S n' =>
      match parseVarInt stringReader with
      | RErr d => RErr d
      | ROk stringSize r' =>
          if stringDataEndOffset <? stringSize
          then RErr string_size_exceeds
          else
            let stringOffset := stringDataEndOffset - stringSize in
            parseStringSizes n' r' stringOffset
              (u64 (totalStringDataSize + stringSize))
              (mkStringRef stringOffset (u64 (stringSize - 1)) :: strings)
      end
  end.

Definition parseStringSection (sectionData : list byte)
  : res (list StringRef) :=
  match parseVarInt sectionData with
  | RErr d => RErr d
  | ROk numStrings r =>
      match parseStringSizes (Z.to_nat numStrings) r (size sectionData) 0 [] with
      | RErr d => RErr d
      | ROk (strings, totalStringDataSize) r' =>
          if size r' =? totalStringDataSize
          then ROk strings r'
          else RErr string_trailing_data
      end
  end.

(** The [n] varints that follow the string count, in the order they are
    stored, and the bytes after them. *)
Fixpoint readVarInts (n : nat) (r : EncodingReader.t) : res (list Z) :=
  match n with
  | O => ROk [] r
  | S n' =>
      match parseVarInt r with
      | RErr d => RErr d
      | ROk v r' =>
          match readVarInts n' r' with
          | RErr d => RErr d
          | ROk vs r'' => ROk (v :: vs) r''
          end
      end
  end.

(** The sum of a list of sizes. *)
Definition sum_sizes (l : list Z) : Z := foldr Z.add 0 l.

(** The layout read literally off the specification: the size list is
    walked from its last index to its first, each size is subtracted from an
    offset that starts at the section length, and the string at index [i]
    is the one located by the size at index [i].  Returns the table and the
    offset reached. *)
Fixpoint spec_string_layout (sizes : list Z) (sectionLen : Z)
  : list StringRef * Z :=
  match sizes with
  | [] => ([], sectionLen)
  | s :: ss =>
      let '(table, off) := spec_string_layout ss sectionLen in
      (mkStringRef (off - s) (u64 (s - 1)) :: table, off - s)
  end.

(** A section holding the strings "ab" and "c": count 2, stored sizes 2
    and 3, then the five data bytes. *)
Definition two_string_section : list byte :=
  [x05; x05; x07; x61; x62; x00; x63; x00].


(** ** The host: context, attributes, types

    Attributes, types and dialects are uniqued objects of the context; the
    reader only holds handles to them.  A null handle is [None]. *)

Definition Attribute : Type := nat.
Definition MlirType : Type := nat.
Definition Dialect : Type := nat.

(** What [parseAttribute(str, ctx, numRead)] and [parseType] of the assembly
    parser hand back: the parsed object or null, the number of characters
    read, and the diagnostics the parser emitted. *)
Record AsmResult : Type := mkAsmResult {
  asm_result : option nat;
  asm_numRead : Z;
  asm_diags : list Diagnostic
}.

Record MLIRContext : Type := mkContext {
  getOrLoadDialect : list byte -> option Dialect;
  allowsUnregisteredDialects : bool;
  asmParseAttribute : list byte -> AsmResult;
  asmParseType : list byte -> AsmResult;
  isLocationAttr : Attribute -> bool;
  isDictionaryAttr : Attribute -> bool;
  unknownLoc : Attribute;
  noneType : MlirType
}.

(** ** The IR under construction

    Operations, blocks and regions created by the reader live in a heap and
    are named by their index in it. *)

Definition OpId : Type := nat.
Definition BlockId : Type := nat.
Definition RegionId : Type := nat.

Inductive Value : Type :=
| OpResult (op : OpId) (idx : nat)
| BlockArgument (block : BlockId) (idx : nat).

Definition Value_eqb (a b : Value) : bool :=
  match a, b with
  | OpResult o i, OpResult o' i' => Nat.eqb o o' && Nat.eqb i i'
  | BlockArgument k i, BlockArgument k' i' => Nat.eqb k k' && Nat.eqb i i'
  | _, _ => false
  end.

Record Operation : Type := mkOperation {
  op_name : list byte;
  op_loc : Attribute;
  op_attrs : option Attribute;
  op_types : list MlirType;
  op_operands : list Value;
  op_successors : list BlockId;
  op_regions : list RegionId
}.

Record Block : Type := mkBlock {
  blk_args : list (MlirType * Attribute);
  blk_ops : list OpId
}.

Record IR : Type := mkIR {
  ir_ops : list Operation;
  ir_blocks : list Block;
  ir_regions : list (list BlockId)
}.

Definition empty_IR : IR := mkIR [] [] [].

(** An operation of the destination block: one that the host had put there
    or one that the reader created. *)
Inductive DestOp : Type :=
| HostOp (h : nat)
| ParsedOp (op : OpId).

(** ** Reader tables *)

(** [BytecodeDialect]: [dialect] is [None] before any load, [Some None]
    after a load that found nothing, [Some (Some d)] once loaded. *)
Record BytecodeDialect : Type := mkBytecodeDialect {
  dialect : option (option Dialect);
  dialect_name : StringRef
}.

(** [BytecodeOperationName]; the owning dialect is an index into the
    dialect table. *)
Record BytecodeOperationName : Type := mkBytecodeOperationName {
  opName : option (list byte);
  opn_dialect : nat;
  opn_name : StringRef
}.

(** [AttrTypeReader::Entry<T>]. *)
Record Entry : Type := mkEntry {
  entry : option nat;
  entry_dialect : option nat;
  hasCustomEncoding : bool;
  entry_data : list byte
}.

Definition default_Entry : Entry := mkEntry None None false [].

(** [BytecodeReader::ValueScope]. *)
Record ValueScope : Type := mkValueScope {
  values : list (option Value);
  nextValueIDs : list Z
}.

(** [BytecodeReader::RegionReadState].  [curRegion] counts the regions
    already left behind in [regions]; [curBlock] is [None] for the default
    iterator and otherwise the position in the current region. *)
Record RegionReadState : Type := mkRegionReadState {
  regions : list RegionId;
  curRegion : nat;
  numValues : Z;
  curBlocks : list BlockId;
  curBlock : option nat;
  numOpsRemaining : Z;
  isIsolatedFromAbove : bool
}.

(** The fields of [BytecodeReader] and of its [AttrTypeReader], together
    with what the reader acts upon: the IR heap, the operations of the
    destination block, the diagnostics emitted so far and the dialect
    entries for which the context was asked to load a dialect. *)
Record BytecodeReader : Type := mkBytecodeReader {
  attributes : list Entry;
  types : list Entry;
  version : Z;
  producer : list byte;
  dialects : list BytecodeDialect;
  opNames : list BytecodeOperationName;
  stringData : list byte;
  strings : list StringRef;
  valueScopes : list ValueScope;
  forwardRefOps : list OpId;
  openForwardRefOps : list OpId;
  ir : IR;
  destOps : list DestOp;
  diagnostics : list Diagnostic;
  dialectLoads : list nat
}.

Definition initial_BytecodeReader : BytecodeReader :=
  mkBytecodeReader [] [] 0 [] [] [] [] [] [] [] [] empty_IR [] [] [].

(** Field updates of [BytecodeReader]. *)
Definition set_attributes (v : list Entry) (s : BytecodeReader) : BytecodeReader :=
  mkBytecodeReader v (types s) (version s) (producer s) (dialects s) (opNames s) (stringData s) (strings s) (valueScopes s) (forwardRefOps s) (openForwardRefOps s) (ir s) (destOps s) (diagnostics s) (dialectLoads s).
Definition set_types (v : list Entry) (s : BytecodeReader) : BytecodeReader :=
  mkBytecodeReader (attributes s) v (version s) (producer s) (dialects s) (opNames s) (stringData s) (strings s) (valueScopes s) (forwardRefOps s) (openForwardRefOps s) (ir s) (destOps s) (diagnostics s) (dialectLoads s).
Definition set_version (v : Z) (s : BytecodeReader) : BytecodeReader :=
  mkBytecodeReader (attributes s) (types s) v (producer s) (dialects s) (opNames s) (stringData s) (strings s) (valueScopes s) (forwardRefOps s) (openForwardRefOps s) (ir s) (destOps s) (diagnostics s) (dialectLoads s).
Definition set_producer (v : list byte) (s : BytecodeReader) : BytecodeReader :=
  mkBytecodeReader (attributes s) (types s) (version s) v (dialects s) (opNames s) (stringData s) (strings s) (valueScopes s) (forwardRefOps s) (openForwardRefOps s) (ir s) (destOps s) (diagnostics s) (dialectLoads s).
Definition set_dialects (v : list BytecodeDialect) (s : BytecodeReader) : BytecodeReader :=
  mkBytecodeReader (attributes s) (types s) (version s) (producer s) v (opNames s) (stringData s) (strings s) (valueScopes s) (forwardRefOps s) (openForwardRefOps s) (ir s) (destOps s) (diagnostics s) (dialectLoads s).
Definition set_opNames (v : list BytecodeOperationName) (s : BytecodeReader) : BytecodeReader :=
  mkBytecodeReader (attributes s) (types s) (version s) (producer s) (dialects s) v (stringData s) (strings s) (valueScopes s) (forwardRefOps s) (openForwardRefOps s) (ir s) (destOps s) (diagnostics s) (dialectLoads s).
Definition set_stringData (v : list byte) (s : BytecodeReader) : BytecodeReader :=
  mkBytecodeReader (attributes s) (types s) (version s) (producer s) (dialects s) (opNames s) v (strings s) (valueScopes s) (forwardRefOps s) (openForwardRefOps s) (ir s) (destOps s) (diagnostics s) (dialectLoads s).
Definition set_strings (v : list StringRef) (s : BytecodeReader) : BytecodeReader :=
  mkBytecodeReader (attributes s) (types s) (version s) (producer s) (dialects s) (opNames s) (stringData s) v (valueScopes s) (forwardRefOps s) (openForwardRefOps s) (ir s) (destOps s) (diagnostics s) (dialectLoads s).
Definition set_valueScopes (v : list ValueScope) (s : BytecodeReader) : BytecodeReader :=
  mkBytecodeReader (attributes s) (types s) (version s) (producer s) (dialects s) (opNames s) (stringData s) (strings s) v (forwardRefOps s) (openForwardRefOps s) (ir s) (destOps s) (diagnostics s) (dialectLoads s).
Definition set_forwardRefOps (v : list OpId) (s : BytecodeReader) : BytecodeReader :=
  mkBytecodeReader (attributes s) (types s) (version s) (producer s) (dialects s) (opNames s) (stringData s) (strings s) (valueScopes s) v (openForwardRefOps s) (ir s) (destOps s) (diagnostics s) (dialectLoads s).
Definition set_openForwardRefOps (v : list OpId) (s : BytecodeReader) : BytecodeReader :=
  mkBytecodeReader (attributes s) (types s) (version s) (producer s) (dialects s) (opNames s) (stringData s) (strings s) (valueScopes s) (forwardRefOps s) v (ir s) (destOps s) (diagnostics s) (dialectLoads s).
Definition set_ir (v : IR) (s : BytecodeReader) : BytecodeReader :=
  mkBytecodeReader (attributes s) (types s) (version s) (producer s) (dialects s) (opNames s) (stringData s) (strings s) (valueScopes s) (forwardRefOps s) (openForwardRefOps s) v (destOps s) (diagnostics s) (dialectLoads s).
Definition set_destOps (v : list DestOp) (s : BytecodeReader) : BytecodeReader :=
  mkBytecodeReader (attributes s) (types s) (version s) (producer s) (dialects s) (opNames s) (stringData s) (strings s) (valueScopes s) (forwardRefOps s) (openForwardRefOps s) (ir s) v (diagnostics s) (dialectLoads s).
Definition set_diagnostics (v : list Diagnostic) (s : BytecodeReader) : BytecodeReader :=
  mkBytecodeReader (attributes s) (types s) (version s) (producer s) (dialects s) (opNames s) (stringData s) (strings s) (valueScopes s) (forwardRefOps s) (openForwardRefOps s) (ir s) (destOps s) v (dialectLoads s).
Definition set_dialectLoads (v : list nat) (s : BytecodeReader) : BytecodeReader :=
  mkBytecodeReader (attributes s) (types s) (version s) (producer s) (dialects s) (opNames s) (stringData s) (strings s) (valueScopes s) (forwardRefOps s) (openForwardRefOps s) (ir s) (destOps s) (diagnostics s) v.

(** ** Results

    A function of the reader returns [success] with a value, returns
    [failure], runs into behaviour the language leaves undefined (a
    [back()] on an empty vector, an index past the end of one), or, in a
    loop of the model, runs out of fuel. *)
Inductive Outcome (A : Type) : Type :=
| Done (a : A) (s : BytecodeReader)
| Failed (s : BytecodeReader)
| Undefined
| OutOfFuel.
Arguments Done {A} a s.
Arguments Failed {A} s.
Arguments Undefined {A}.
Arguments OutOfFuel {A}.

Definition M (A : Type) : Type := BytecodeReader -> Outcome A.

#[export] Instance M_ret : MRet M := fun A a s => Done a s.

#[export] Instance M_bind : MBind M := fun A B k m s =>
  match m s with
  | Done a s' => k a s'
  | Failed s' => Failed s'
  | Undefined => Undefined
  | OutOfFuel => OutOfFuel
  end.

Definition get : M BytecodeReader := fun s => Done s s.
Definition put (s : BytecodeReader) : M unit := fun _ => Done tt s.
Definition modify (f : BytecodeReader -> BytecodeReader) : M unit :=
  fun s => Done tt (f s).

(** [return failure();] with nothing emitted here. *)
Definition failure {A : Type} : M A := fun s => Failed s.

Definition undefined {A : Type} : M A := fun _ => Undefined.

(** The diagnostic reaches the handler of the context. *)
Definition emit (d : Diagnostic) : M unit :=
  modify (fun s => set_diagnostics (diagnostics s ++ [d]) s).

(** [return emitError(...);]. *)
Definition emitError {A : Type} (d : Diagnostic) : M A :=
  _ ← emit d; failure.

(** A primitive of the byte cursor, run from within the reader. *)
Definition liftR {A : Type} (x : res A) : M (A * EncodingReader.t) :=
  match x with
  | ROk a r => mret (a, r)
  | RErr d => emitError d
  end.

(** ** Table lookups *)

(** [resolveEntry]: the bounds check on an index into a table of
    [numEntries] entries; the result is the position of the entry. *)
Definition resolveEntry (numEntries : nat) (index : Z) (entryStr : string)
  : M nat :=
  if Z.of_nat numEntries <=? index
  then emitError [Str "invalid "; Str entryStr; Str " index: "; Num index]
  else mret (Z.to_nat index).

(** [parseEntry]: parse an index and resolve it. *)
Definition parseEntry (reader : EncodingReader.t) (numEntries : nat)
    (entryStr : string) : M (nat * EncodingReader.t) :=
  '(entryIdx, reader) ← liftR (parseVarInt reader);
  i ← resolveEntry numEntries entryIdx entryStr;
  mret (i, reader).

(** The characters of a string of the string table; a [StringRef] that
    leaves the string section has no defined contents. *)
Definition stringContents (str : StringRef) : M (list byte) :=
  s ← get;
  match StringRef_bytes (stringData s) str with
  | Some bs => mret bs
  | None => undefined
  end.

(** [BytecodeReader::parseSharedString]. *)
Definition parseSharedString (reader : EncodingReader.t)
  : M (StringRef * EncodingReader.t) :=
  s ← get;
  '(i, reader) ← parseEntry reader (length (strings s)) "string";
  match strings s !! i with
  | Some str => mret (str, reader)
  | None => undefined
  end.

Section WithContext.

Variable ctx : MLIRContext.

(** ** BytecodeDialect *)

Definition dialect_unknown (name : list byte) : Diagnostic :=
  [Str "dialect '"; Bytes name;
   Str "' is unknown. If this is intended, please call allowUnregisteredDialects() on the MLIRContext, or use -allow-unregistered-dialect with the MLIR tool used."].

(** [BytecodeDialect::load] on the entry at position [i] of the dialect
    table. *)
Definition load (i : nat) : M unit :=
  s ← get;
  match dialects s !! i with
  | None => undefined
  | Some d =>
      match dialect d with
      | Some _ => mret tt
      | None =>
          name ← stringContents (dialect_name d);
          _ ← modify (fun s => set_dialectLoads (dialectLoads s ++ [i]) s);
          let loadedDialect := getOrLoadDialect ctx name in
          if negb (bool_decide (is_Some loadedDialect))
             && negb (allowsUnregisteredDialects ctx)
          then emitError (dialect_unknown name)
          else modify (fun s =>
                 set_dialects
                   (<[i := mkBytecodeDialect (Some loadedDialect)
                             (dialect_name d)]> (dialects s)) s)
      end
  end.

(** [parseDialectGrouping]: the loop over the entries of one group, the
    callback threading the reader and a value of its own. *)
Fixpoint forEntries {A : Type} (n : nat)
    (entryCallback : nat -> A -> EncodingReader.t -> M (A * EncodingReader.t))
    (dialectIdx : nat) (a : A) (reader : EncodingReader.t)
  : M (A * EncodingReader.t) :=
  match n with
  | O => mret (a, reader)
  | S n' =>
      '(a, reader) ← entryCallback dialectIdx a reader;
      forEntries n' entryCallback dialectIdx a reader
  end.

Definition parseDialectGrouping {A : Type} (reader : EncodingReader.t)
    (entryCallback : nat -> A -> EncodingReader.t -> M (A * EncodingReader.t))
    (a : A) : M (A * EncodingReader.t) :=
  s ← get;
  '(dialectIdx, reader) ← parseEntry reader (length (dialects s)) "dialect";
  '(numEntries, reader) ← liftR (parseVarInt reader);
  forEntries (Z.to_nat numEntries) entryCallback dialectIdx a reader.

(** ** Dialect section *)

(** The loop that reads the names of the dialects [i], [i+1], ... *)
Fixpoint parseDialectNames (n : nat) (i : nat) (reader : EncodingReader.t)
  : M EncodingReader.t :=
  match n with
  | O => mret reader
  | S n' =>
      '(name, reader) ← parseSharedString reader;
      _ ← modify (fun s =>
             set_dialects (<[i := mkBytecodeDialect None name]> (dialects s)) s);
      parseDialectNames n' (S i) reader
  end.

(** The lambda [parseOpName] of [parseDialectSection]. *)
Definition parseOpNameEntry (dialectIdx : nat) (_ : unit)
    (reader : EncodingReader.t) : M (unit * EncodingReader.t) :=
  '(name, reader) ← parseSharedString reader;
  _ ← modify (fun s =>
         set_opNames
           (opNames s ++ [mkBytecodeOperationName None dialectIdx name]) s);
  mret (tt, reader).

(** [while (!sectionReader.empty()) parseDialectGrouping(...)]. *)
Fixpoint parseOpNameGroups (fuel : nat) (reader : EncodingReader.t) : M unit :=
  if empty reader then mret tt
  else match fuel with
       | O => fun _ => OutOfFuel
       | S fuel' =>
           '(_, reader) ← parseDialectGrouping reader parseOpNameEntry tt;
           parseOpNameGroups fuel' reader
       end.

Definition parseDialectSection (sectionData : list byte) : M unit :=
  '(numDialects, reader) ← liftR (parseVarInt sectionData);
  _ ← modify (set_dialects
         (replicate (Z.to_nat numDialects)
                    (mkBytecodeDialect None (mkStringRef 0 0))));
  reader ← parseDialectNames (Z.to_nat numDialects) 0 reader;
  parseOpNameGroups (length reader) reader.

(** [BytecodeReader::parseOpName]. *)
Definition parseOpName (reader : EncodingReader.t)
  : M (list byte * EncodingReader.t) :=
  s ← get;
  '(i, reader) ← parseEntry reader (length (opNames s)) "operation name";
  match opNames s !! i with
  | None => undefined
  | Some entry =>
      match opName entry with
      | Some name => mret (name, reader)
      | None =>
          _ ← load (opn_dialect entry);
          s ← get;
          match dialects s !! opn_dialect entry with
          | None => undefined
          | Some d =>
              dialectName ← stringContents (dialect_name d);
              localName ← stringContents (opn_name entry);
              let name := dialectName ++ [x2e] ++ localName in
              _ ← modify (fun s =>
                     set_opNames
                       (<[i := mkBytecodeOperationName (Some name)
                                 (opn_dialect entry) (opn_name entry)]>
                          (opNames s)) s);
              mret (name, reader)
          end
      end
  end.

(** ** Attribute/Type reader *)

Inductive EntryKind : Type := AttributeKind | TypeKind.

Definition entryType (kind : EntryKind) : string :=
  match kind with AttributeKind => "Attribute" | TypeKind => "Type" end.

Definition entriesOf (kind : EntryKind) (s : BytecodeReader) : list Entry :=
  match kind with AttributeKind => attributes s | TypeKind => types s end.

Definition set_entriesOf (kind : EntryKind) (v : list Entry)
    (s : BytecodeReader) : BytecodeReader :=
  match kind with
  | AttributeKind => set_attributes v s
  | TypeKind => set_types v s
  end.

(** The locals of [AttrTypeReader::initialize] that its lambdas capture by
    reference: [currentIndex] and [currentOffset].  The range being filled
    is the vector [attributes] or [types] of the reader itself, named by
    the [EntryKind]. *)
Record OffsetState : Type := mkOffsetState {
  currentIndex : nat;
  currentOffset : Z
}.

(** The lambda [parseEntryFn].  [entry] is a reference into the table:
    [parseVarIntWithFlag] writes [entry.hasCustomEncoding] before the
    offset is checked, [entry.data] and [entry.dialect] are written after
    the check. *)
Definition parseEntryFn (kind : EntryKind) (sectionData : list byte)
    (dialectIdx : nat) (st : OffsetState) (offsetReader : EncodingReader.t)
  : M (OffsetState * EncodingReader.t) :=
  s ← get;
  match entriesOf kind s !! currentIndex st with
  | None => undefined
  | Some e =>
      '(sizeFlag, offsetReader) ← liftR (parseVarIntWithFlag offsetReader);
      let entrySize := sizeFlag.1 in
      _ ← modify (fun s =>
             set_entriesOf kind
               (<[currentIndex st :=
                    mkEntry (entry e) (entry_dialect e) sizeFlag.2
                            (entry_data e)]> (entriesOf kind s)) s);
      if size sectionData <? u64 (currentOffset st + entrySize)
      then emitError
             [Str "Attribute or Type entry offset points past the end of section"]
      else
        let data := take (Z.to_nat entrySize)
                         (drop (Z.to_nat (currentOffset st)) sectionData) in
        _ ← modify (fun s =>
               set_entriesOf kind
                 (<[currentIndex st :=
                      mkEntry (entry e) (Some dialectIdx) sizeFlag.2 data]>
                    (entriesOf kind s)) s);
        mret (mkOffsetState (S (currentIndex st))
                            (u64 (currentOffset st + entrySize)),
              offsetReader)
  end.

(** The lambda [parseEntries]:
    [while (currentIndex != endIndex) parseDialectGrouping(...)].  Every
    grouping that is read takes bytes from [offsetReader], so a fuel above
    the number of bytes left is never used up
    ([parseEntries_fueled] below). *)
Fixpoint parseEntries (kind : EntryKind) (fuel : nat)
    (sectionData : list byte) (st : OffsetState)
    (offsetReader : EncodingReader.t)
  : M (OffsetState * EncodingReader.t) :=
  s ← get;
  if Nat.eqb (currentIndex st) (length (entriesOf kind s))
  then mret (st, offsetReader)
  else match fuel return M (OffsetState * EncodingReader.t) with
       | O => fun _ => OutOfFuel
       | S fuel' =>
           '(st, offsetReader) ←
             parseDialectGrouping offsetReader
               (parseEntryFn kind sectionData) st;
           parseEntries kind fuel' sectionData st offsetReader
       end.

(** [AttrTypeReader::initialize]. *)
Definition initialize (sectionData offsetSectionData : list byte) : M unit :=
  '(numAttributes, offsetReader) ← liftR (parseVarInt offsetSectionData);
  '(numTypes, offsetReader) ← liftR (parseVarInt offsetReader);
  _ ← modify (set_attributes (replicate (Z.to_nat numAttributes) default_Entry));
  _ ← modify (set_types (replicate (Z.to_nat numTypes) default_Entry));
  '(st, offsetReader) ←
    parseEntries AttributeKind (S (length offsetReader)) sectionData
      (mkOffsetState 0 0) offsetReader;
  '(st, offsetReader) ←
    parseEntries TypeKind (S (length offsetReader)) sectionData
      (mkOffsetState 0 (currentOffset st)) offsetReader;
  if negb (empty offsetReader)
  then emitError
         [Str "unexpected trailing data in the Attribute/Type offset section"]
  else mret tt.

(** [AttrTypeReader::parseEntry], for attributes and for types: the result
    is written into the entry at position [i] as soon as the assembly
    parser returns it. *)
Definition parseAsmEntry (kind : EntryKind) (i : nat)
    (reader : EncodingReader.t) (custom : bool) : M EncodingReader.t :=
  if negb custom then
    '(str, reader) ← liftR (parseNullTerminatedString reader);
    let parsed := match kind with
                  | AttributeKind => asmParseAttribute ctx str
                  | TypeKind => asmParseType ctx str
                  end in
    _ ← modify (fun s =>
           set_diagnostics (diagnostics s ++ asm_diags parsed) s);
    match asm_result parsed with
    | None => failure
    | Some h =>
        _ ← modify (fun s =>
               set_entriesOf kind
                 (alter (fun e => mkEntry (Some h) (entry_dialect e)
                                    (hasCustomEncoding e) (entry_data e))
                        i (entriesOf kind s)) s);
        if negb (asm_numRead parsed =? size str)
        then emitError
               [Str "trailing characters found after "; Str (entryType kind);
                Str " assembly format: ";
                Bytes (drop (Z.to_nat (asm_numRead parsed)) str)]
        else mret reader
    end
  else emitError [Str "unexpected "; Str (entryType kind); Str " encoding"].

(** [AttrTypeReader::resolveEntry].  A null result is a failure of the
    model: every caller returns [failure()] on a null attribute or type. *)
Definition resolveAttrType (kind : EntryKind) (index : Z) : M nat :=
  s ← get;
  if Z.of_nat (length (entriesOf kind s)) <=? index
  then emitError [Str "invalid "; Str (entryType kind); Str " index: "; Num index]
  else
    match entriesOf kind s !! Z.to_nat index with
    | None => undefined
    | Some e =>
        match entry e with
        | Some h => mret h
        | None =>
            reader ← parseAsmEntry kind (Z.to_nat index) (entry_data e)
                                   (hasCustomEncoding e);
            if negb (empty reader)
            then emitError [Str "unexpected trailing bytes after ";
                            Str (entryType kind); Str " entry"]
            else
              s ← get;
              match entriesOf kind s !! Z.to_nat index with
              | Some (mkEntry (Some h) _ _ _) => mret h
              | _ => undefined
              end
        end
    end.

(** [BytecodeReader::parseAttribute] and [parseType]. *)
Definition parseAttribute (reader : EncodingReader.t)
  : M (Attribute * EncodingReader.t) :=
  '(attrIdx, reader) ← liftR (parseVarInt reader);
  attr ← resolveAttrType AttributeKind attrIdx;
  mret (attr, reader).

Definition parseType (reader : EncodingReader.t)
  : M (MlirType * EncodingReader.t) :=
  '(typeIdx, reader) ← liftR (parseVarInt reader);
  type ← resolveAttrType TypeKind typeIdx;
  mret (type, reader).

(** [parseAttribute<T>]: the attribute must be of the derived kind. *)
Definition parseAttributeOf (isa : Attribute -> bool) (typeName : string)
    (reader : EncodingReader.t) : M (Attribute * EncodingReader.t) :=
  '(attr, reader) ← parseAttribute reader;
  if isa attr then mret (attr, reader)
  else emitError [Str "expected attribute of type: "; Str typeName;
                  Str ", but got: "; Handle attr].

(** ** The IR heap *)

Definition set_ir_ops (v : list Operation) (i : IR) : IR :=
  mkIR v (ir_blocks i) (ir_regions i).
Definition set_ir_blocks (v : list Block) (i : IR) : IR :=
  mkIR (ir_ops i) v (ir_regions i).
Definition set_ir_regions (v : list (list BlockId)) (i : IR) : IR :=
  mkIR (ir_ops i) (ir_blocks i) v.

(** [Operation::create]. *)
Definition createOperation (op : Operation) : M OpId :=
  s ← get;
  _ ← put (set_ir (set_ir_ops (ir_ops (ir s) ++ [op]) (ir s)) s);
  mret (length (ir_ops (ir s))).

(** [new Block()]. *)
Definition createBlock : M BlockId :=
  s ← get;
  _ ← put (set_ir (set_ir_blocks (ir_blocks (ir s) ++ [mkBlock [] []]) (ir s)) s);
  mret (length (ir_blocks (ir s))).

(** [std::make_unique<Region>()]. *)
Definition createRegion : M RegionId :=
  s ← get;
  _ ← put (set_ir (set_ir_regions (ir_regions (ir s) ++ [[]]) (ir s)) s);
  mret (length (ir_regions (ir s))).

(** [block->push_back(op)]. *)
Definition Block_push_back (b : BlockId) (op : OpId) : M unit :=
  modify (fun s =>
    set_ir (set_ir_blocks
              (alter (fun k => mkBlock (blk_args k) (blk_ops k ++ [op])) b
                     (ir_blocks (ir s))) (ir s)) s).

(** [region->push_back(block)]. *)
Definition Region_push_back (r : RegionId) (b : BlockId) : M unit :=
  modify (fun s =>
    set_ir (set_ir_regions (alter (fun bs => bs ++ [b]) r (ir_regions (ir s)))
                           (ir s)) s).

(** [block->addArguments(argTypes, argLocs)]. *)
Definition addArguments (b : BlockId) (args : list (MlirType * Attribute))
  : M unit :=
  modify (fun s =>
    set_ir (set_ir_blocks
              (alter (fun k => mkBlock (blk_args k ++ args) (blk_ops k)) b
                     (ir_blocks (ir s))) (ir s)) s).

(** [block->getArguments()]. *)
Definition getArguments (b : BlockId) : M (list Value) :=
  s ← get;
  match ir_blocks (ir s) !! b with
  | None => undefined
  | Some k => mret (map (BlockArgument b) (seq 0 (length (blk_args k))))
  end.

(** [op->getResults()] of an operation with [n] results. *)
Definition getResults (op : OpId) (n : nat) : list Value :=
  map (OpResult op) (seq 0 n).

Definition replaceUse (oldValue newValue v : Value) : Value :=
  if Value_eqb v oldValue then newValue else v.

Definition replaceUsesIn (oldValue newValue : Value) (op : Operation)
  : Operation :=
  mkOperation (op_name op) (op_loc op) (op_attrs op) (op_types op)
    (map (replaceUse oldValue newValue) (op_operands op))
    (op_successors op) (op_regions op).

(** [oldValue.replaceAllUsesWith(newValue)]. *)
Definition replaceAllUsesWith (oldValue newValue : Value) : M unit :=
  modify (fun s =>
    set_ir (set_ir_ops (map (replaceUsesIn oldValue newValue) (ir_ops (ir s)))
                       (ir s)) s).

(** ** Value processing

    The stacks [valueScopes], [nextValueIDs] and [regionStack] are lists
    whose head is [back()]; the blocks [forwardRefOps] and
    [openForwardRefOps] are lists in block order. *)

(** [ValueScope::push]. *)
Definition ValueScope_push (readState : RegionReadState) (v : ValueScope)
  : ValueScope :=
  mkValueScope
    (values v ++ replicate (Z.to_nat (numValues readState)) None)
    (u32 (Z.of_nat (length (values v))) :: nextValueIDs v).

(** [ValueScope::pop]; shrinking below zero and popping an empty stack of
    ids are not defined. *)
Definition ValueScope_pop (readState : RegionReadState) (v : ValueScope)
  : option ValueScope :=
  match nextValueIDs v with
  | [] => None
  | _ :: ids =>
      if Z.of_nat (length (values v)) <? numValues readState then None
      else Some (mkValueScope
                   (take (length (values v) - Z.to_nat (numValues readState))
                         (values v))
                   ids)
  end.

(** Apply a function to [valueScopes.back()]. *)
Definition onBackScope (f : ValueScope -> option ValueScope) : M unit :=
  s ← get;
  match valueScopes s with
  | [] => undefined
  | v :: vs =>
      match f v with
      | None => undefined
      | Some v' => put (set_valueScopes (v' :: vs) s)
      end
  end.

(** [forwardRefOpState]: the builtin unrealized conversion cast, with no
    operand and one result of [NoneType]. *)
Definition forwardRefOpState : Operation :=
  mkOperation
    (String.list_byte_of_string "builtin.unrealized_conversion_cast")
    (unknownLoc ctx) None [noneType ctx] [] [] [].

(** [BytecodeReader::createForwardRef]. *)
Definition createForwardRef : M Value :=
  s ← get;
  match list.last (openForwardRefOps s) with
  | Some op =>
      _ ← put (set_forwardRefOps (forwardRefOps s ++ [op])
                 (set_openForwardRefOps
                    (take (length (openForwardRefOps s) - 1)
                          (openForwardRefOps s)) s));
      mret (OpResult op 0)
  | None =>
      op ← createOperation forwardRefOpState;
      _ ← modify (fun s => set_forwardRefOps (forwardRefOps s ++ [op]) s);
      mret (OpResult op 0)
  end.

(** [BytecodeReader::parseOperand]. *)
Definition parseOperand (reader : EncodingReader.t)
  : M (Value * EncodingReader.t) :=
  s ← get;
  match valueScopes s with
  | [] => undefined
  | scope :: _ =>
      '(i, reader) ← parseEntry reader (length (values scope)) "value";
      match values scope !! i with
      | None => undefined
      | Some (Some v) => mret (v, reader)
      | Some None =>
          v ← createForwardRef;
          _ ← onBackScope (fun scope =>
                 Some (mkValueScope (<[i := Some v]> (values scope))
                                    (nextValueIDs scope)));
          mret (v, reader)
      end
  end.

Definition value_index_out_of_range (valueID valueIDEnd maxIndex : Z)
  : Diagnostic :=
  [Str "value index range was outside of the expected range for the parent region, got [";
   Num valueID; Str ", "; Num valueIDEnd;
   Str "), but the maximum index was "; Num maxIndex].

(** The body of the loop of [defineValues], for the value whose id is
    [nextValueIDs.back()]: exchange the slot, and when it held a forward
    reference, replace the uses of the old value and move its operation
    from [forwardRefOps] to the end of [openForwardRefOps]. *)
Definition defineValue (newValue : Value) : M unit :=
  s ← get;
  match valueScopes s with
  | [] => undefined
  | scope :: scopes =>
      match nextValueIDs scope with
      | [] => undefined
      | valueID :: ids =>
          match values scope !! Z.to_nat valueID with
          | None => undefined
          | Some oldValue =>
              _ ← put (set_valueScopes
                         (mkValueScope
                            (<[Z.to_nat valueID := Some newValue]> (values scope))
                            (u32 (valueID + 1) :: ids) :: scopes) s);
              match oldValue with
              | None => mret tt
              | Some (BlockArgument _ _) => undefined
              | Some (OpResult forwardRef idx) =>
                  s ← get;
                  if bool_decide (forwardRef ∈ forwardRefOps s)
                  then
                    _ ← replaceAllUsesWith (OpResult forwardRef idx) newValue;
                    modify (fun s =>
                      set_openForwardRefOps (openForwardRefOps s ++ [forwardRef])
                        (set_forwardRefOps
                           (filter (fun o => o <> forwardRef) (forwardRefOps s))
                           s))
                  else undefined
              end
          end
      end
  end.

Fixpoint defineValuesLoop (newValues : list Value) : M unit :=
  match newValues with
  | [] => mret tt
  | newValue :: rest =>
      _ ← defineValue newValue;
      defineValuesLoop rest
  end.

(** [BytecodeReader::defineValues]. *)
Definition defineValues (newValues : list Value) : M unit :=
  s ← get;
  match valueScopes s with
  | [] => undefined
  | valueScope :: _ =>
      match nextValueIDs valueScope with
      | [] => undefined
      | valueID :: _ =>
          let valueIDEnd := u32 (valueID + Z.of_nat (length newValues)) in
          if Z.of_nat (length (values valueScope)) <? valueIDEnd
          then emitError
                 (value_index_out_of_range valueID valueIDEnd
                    (u64 (Z.of_nat (length (values valueScope)) - 1)))
          else defineValuesLoop newValues
      end
  end.

(** ** IR section *)

(** Modelled from the spec: the bits of the operation mask
    ([bytecode::OpEncodingMask], declared in a header that is not among the
    sources). *)
Definition kHasAttrs : Z := 1.
Definition kHasResults : Z := 2.
Definition kHasOperands : Z := 4.
Definition kHasSuccessors : Z := 8.
Definition kHasInlineRegions : Z := 16.

Definition hasMask (opMask bit : Z) : bool := negb (Z.land opMask bit =? 0).

(** [int e = n] for a 64-bit [n]. *)
Definition to_int (n : Z) : Z :=
  let w := u32 n in if w <=? INT_MAX then w else w - UINT32_MOD.

(** Field updates of [RegionReadState]. *)
Definition set_curRegion (v : nat) (r : RegionReadState) : RegionReadState :=
  mkRegionReadState (regions r) v (numValues r) (curBlocks r) (curBlock r)
    (numOpsRemaining r) (isIsolatedFromAbove r).
Definition set_numValues (v : Z) (r : RegionReadState) : RegionReadState :=
  mkRegionReadState (regions r) (curRegion r) v (curBlocks r) (curBlock r)
    (numOpsRemaining r) (isIsolatedFromAbove r).
Definition set_curBlocks (v : list BlockId) (r : RegionReadState)
  : RegionReadState :=
  mkRegionReadState (regions r) (curRegion r) (numValues r) v (curBlock r)
    (numOpsRemaining r) (isIsolatedFromAbove r).
Definition set_curBlock (v : option nat) (r : RegionReadState)
  : RegionReadState :=
  mkRegionReadState (regions r) (curRegion r) (numValues r) (curBlocks r) v
    (numOpsRemaining r) (isIsolatedFromAbove r).
Definition set_numOpsRemaining (v : Z) (r : RegionReadState)
  : RegionReadState :=
  mkRegionReadState (regions r) (curRegion r) (numValues r) (curBlocks r)
    (curBlock r) v (isIsolatedFromAbove r).

(** The blocks of [*readState.curRegion]. *)
Definition curRegionBlocks (readState : RegionReadState) : M (list BlockId) :=
  s ← get;
  match regions readState !! curRegion readState with
  | None => undefined
  | Some r =>
      match ir_regions (ir s) !! r with
      | None => undefined
      | Some bs => mret bs
      end
  end.

(** [&*readState.curBlock]. *)
Definition curBlockOf (readState : RegionReadState) : M BlockId :=
  bs ← curRegionBlocks readState;
  match curBlock readState with
  | None => undefined
  | Some i =>
      match bs !! i with
      | None => undefined
      | Some b => mret b
      end
  end.

(** The loop of [parseBlockArguments]. *)
Fixpoint parseArgs (n : nat) (reader : EncodingReader.t)
  : M (list (MlirType * Attribute) * EncodingReader.t) :=
  match n with
  | O => mret ([], reader)
  | S n' =>
      '(argType, reader) ← parseType reader;
      '(argLoc, reader) ← parseAttributeOf (isLocationAttr ctx) "LocationAttr" reader;
      '(args, reader) ← parseArgs n' reader;
      mret ((argType, argLoc) :: args, reader)
  end.

(** [BytecodeReader::parseBlockArguments]. *)
Definition parseBlockArguments (reader : EncodingReader.t) (block : BlockId)
  : M EncodingReader.t :=
  '(numArgs, reader) ← liftR (parseVarInt reader);
  '(args, reader) ← parseArgs (Z.to_nat numArgs) reader;
  _ ← addArguments block args;
  newValues ← getArguments block;
  _ ← defineValues newValues;
  mret reader.

(** [BytecodeReader::parseBlock]. *)
Definition parseBlock (reader : EncodingReader.t) (readState : RegionReadState)
  : M (RegionReadState * EncodingReader.t) :=
  '(opsFlag, reader) ← liftR (parseVarIntWithFlag reader);
  let readState := set_numOpsRemaining opsFlag.1 readState in
  if (opsFlag.2 : bool) then
    block ← curBlockOf readState;
    reader ← parseBlockArguments reader block;
    mret (readState, reader)
  else mret (readState, reader).

(** The loop of [parseRegion] that creates the blocks. *)
Fixpoint createBlocks (n : nat) (region : RegionId) : M (list BlockId) :=
  match n with
  | O => mret []
  | S n' =>
      b ← createBlock;
      _ ← Region_push_back region b;
      bs ← createBlocks n' region;
      mret (b :: bs)
  end.

(** [BytecodeReader::parseRegion]. *)
Definition parseRegion (reader : EncodingReader.t) (readState : RegionReadState)
  : M (RegionReadState * EncodingReader.t) :=
  '(numBlocks, reader) ← liftR (parseVarInt reader);
  if numBlocks =? 0 then mret (readState, reader)
  else
    '(numValues, reader) ← liftR (parseVarInt reader);
    let readState := set_numValues (u32 numValues) readState in
    match regions readState !! curRegion readState with
    | None => undefined
    | Some region =>
        blocks ← createBlocks (Z.to_nat numBlocks) region;
        let readState := set_curBlocks blocks readState in
        _ ← onBackScope (fun v => Some (ValueScope_push readState v));
        let readState := set_curBlock (Some 0%nat) readState in
        parseBlock reader readState
    end.

Fixpoint parseTypes (n : nat) (reader : EncodingReader.t)
  : M (list MlirType * EncodingReader.t) :=
  match n with
  | O => mret ([], reader)
  | S n' =>
      '(type, reader) ← parseType reader;
      '(rest, reader) ← parseTypes n' reader;
      mret (type :: rest, reader)
  end.

Fixpoint parseOperands (n : nat) (reader : EncodingReader.t)
  : M (list Value * EncodingReader.t) :=
  match n with
  | O => mret ([], reader)
  | S n' =>
      '(operand, reader) ← parseOperand reader;
      '(rest, reader) ← parseOperands n' reader;
      mret (operand :: rest, reader)
  end.

Fixpoint parseSuccessors (n : nat) (curBlocks : list BlockId)
    (reader : EncodingReader.t) : M (list BlockId * EncodingReader.t) :=
  match n with
  | O => mret ([], reader)
  | S n' =>
      '(i, reader) ← parseEntry reader (length curBlocks) "successor";
      match curBlocks !! i with
      | None => undefined
      | Some b =>
          '(rest, reader) ← parseSuccessors n' curBlocks reader;
          mret (b :: rest, reader)
      end
  end.

Fixpoint createRegions (n : nat) : M (list RegionId) :=
  match n with
  | O => mret []
  | S n' =>
      r ← createRegion;
      rs ← createRegions n';
      mret (r :: rs)
  end.

(** A component of an operation whose count is read into a 64-bit word,
    used to resize a vector and then walked with an [int] bound: beyond
    [INT_MAX] the vector keeps null entries, which the model does not
    follow. *)
Definition counted {A : Type} (count : Z) (body : nat -> M A) : M A :=
  if INT_MAX <? count then undefined else body (Z.to_nat count).

Definition when_ {A : Type} (b : bool) (dflt : A)
    (reader : EncodingReader.t)
    (body : M (A * EncodingReader.t)) : M (A * EncodingReader.t) :=
  if b then body else mret (dflt, reader).

(** The part of [BytecodeReader::parseOpWithoutRegions] that fills
    [opState]: name, mask, location, attributes, result types, operands,
    successors and regions.  The result carries the flag
    [isIsolatedFromAbove]. *)
Definition parseOperationState (reader : EncodingReader.t)
    (readState : RegionReadState)
  : M (Operation * bool * EncodingReader.t) :=
  '(opName, reader) ← parseOpName reader;
  '(opMask, reader) ← liftR (parseByte reader);
  '(opLoc, reader) ← parseAttributeOf (isLocationAttr ctx) "LocationAttr" reader;
  '(attrs, reader) ←
    when_ (hasMask opMask kHasAttrs) None reader
      ('(dictAttr, reader) ←
         parseAttributeOf (isDictionaryAttr ctx) "DictionaryAttr" reader;
       mret (Some dictAttr, reader));
  '(resultTypes, reader) ←
    when_ (hasMask opMask kHasResults) [] reader
      ('(numResults, reader) ← liftR (parseVarInt reader);
       counted numResults (fun n => parseTypes n reader));
  '(operands, reader) ←
    when_ (hasMask opMask kHasOperands) [] reader
      ('(numOperands, reader) ← liftR (parseVarInt reader);
       counted numOperands (fun n => parseOperands n reader));
  '(successors, reader) ←
    when_ (hasMask opMask kHasSuccessors) [] reader
      ('(numSuccs, reader) ← liftR (parseVarInt reader);
       counted numSuccs (fun n =>
         parseSuccessors n (curBlocks readState) reader));
  '(regionsFlag, reader) ←
    when_ (hasMask opMask kHasInlineRegions) ([], false) reader
      ('(numFlag, reader) ← liftR (parseVarIntWithFlag reader);
       rs ← createRegions (Z.to_nat (to_int numFlag.1));
       mret ((rs, numFlag.2), reader));
  mret (mkOperation opName opLoc attrs resultTypes operands successors
                    regionsFlag.1, regionsFlag.2, reader).

(** [BytecodeReader::parseOpWithoutRegions]: once [opState] is filled, the
    operation is created at the back of the current block and its results
    are defined. *)
Definition parseOpWithoutRegions (reader : EncodingReader.t)
    (readState : RegionReadState)
  : M (OpId * bool * EncodingReader.t) :=
  '(opState, isolated, reader) ← parseOperationState reader readState;
  op ← createOperation opState;
  block ← curBlockOf readState;
  _ ← Block_push_back block op;
  _ ← (if Nat.eqb (length (op_types opState)) 0 then mret tt
       else defineValues (getResults op (length (op_types opState))));
  mret (op, isolated, reader).

(** [RegionReadState(op, isIsolatedFromAbove)]. *)
Definition RegionReadState_of (opRegions : list RegionId) (isolated : bool)
  : RegionReadState :=
  mkRegionReadState opRegions 0 0 [] None 0 isolated.

(** [BytecodeReader::parseRegions].  [readState] is [regionStack.back()]
    and [stack] the frames below it; the result is the region stack when
    the call returns.  One unit of fuel is spent each time one of the loops
    of the function comes round. *)
Fixpoint parseRegions (fuel : nat) (reader : EncodingReader.t)
    (stack : list RegionReadState) (readState : RegionReadState)
  : M (list RegionReadState * EncodingReader.t) :=
  match fuel with
  | O => fun _ => OutOfFuel
  | S fuel' =>
      if Nat.eqb (curRegion readState) (length (regions readState)) then
        (* the regions have been fully parsed *)
        _ ← (if isIsolatedFromAbove readState
             then s ← get;
                  match valueScopes s with
                  | [] => undefined
                  | _ :: vs => put (set_valueScopes vs s)
                  end
             else mret tt);
        mret (stack, reader)
      else
        match curBlock readState with
        | None =>
            '(readState, reader) ← parseRegion reader readState;
            blocks ← curRegionBlocks readState;
            match blocks with
            | [] =>
                parseRegions fuel' reader stack
                  (set_curRegion (S (curRegion readState)) readState)
            | _ => parseRegions fuel' reader stack readState
            end
        | Some i =>
            if numOpsRemaining readState =? 0 then
              let readState := set_numOpsRemaining (u64 (0 - 1)) readState in
              blocks ← curRegionBlocks readState;
              if Nat.eqb (S i) (length blocks) then
                _ ← onBackScope (ValueScope_pop readState);
                parseRegions fuel' reader stack
                  (set_curRegion (S (curRegion readState))
                     (set_curBlock None readState))
              else
                '(readState, reader) ←
                  parseBlock reader (set_curBlock (Some (S i)) readState);
                parseRegions fuel' reader stack readState
            else
              let readState :=
                set_numOpsRemaining (numOpsRemaining readState - 1) readState in
              '(opIso, reader) ← parseOpWithoutRegions reader readState;
              s ← get;
              match ir_ops (ir s) !! opIso.1 with
              | None => undefined
              | Some op =>
                  match op_regions op with
                  | [] => parseRegions fuel' reader stack readState
                  | _ =>
                      _ ← (if (opIso.2 : bool)
                           then modify (fun s =>
                                  set_valueScopes
                                    (mkValueScope [] [] :: valueScopes s) s)
                           else mret tt);
                      mret (RegionReadState_of (op_regions op) opIso.2
                              :: readState :: stack, reader)
                  end
              end
        end
  end.

(** [while (!regionStack.empty()) parseRegions(...)]. *)
Fixpoint parseRegionStack (fuel : nat) (reader : EncodingReader.t)
    (regionStack : list RegionReadState) : M EncodingReader.t :=
  match regionStack with
  | [] => mret reader
  | readState :: stack =>
      match fuel with
      | O => fun _ => OutOfFuel
      | S fuel' =>
          '(regionStack, reader) ← parseRegions (S fuel') reader stack readState;
          parseRegionStack fuel' reader regionStack
      end
  end.

Definition unresolved_forward_references : Diagnostic :=
  [Str "not all forward unresolved forward operand references"].

(** The verifier of the host: whether the module is valid, and the
    diagnostics it emitted. *)
Record VerifyResult : Type := mkVerifyResult {
  verify_ok : bool;
  verify_diags : list Diagnostic
}.

Variable verify : IR -> OpId -> VerifyResult.

(** [destOps.splice(destOps.empty() ? destOps.end()
                                    : std::prev(destOps.end()), parsedOps)]. *)
Definition splice (destOps : list DestOp) (parsedOps : list OpId)
  : list DestOp :=
  match destOps with
  | [] => map ParsedOp parsedOps
  | _ => take (length destOps - 1) destOps
         ++ map ParsedOp parsedOps
         ++ drop (length destOps - 1) destOps
  end.

(** [ModuleOp::create(fileLoc)]: a module with one region of one block. *)
Definition ModuleOp_create (fileLoc : Attribute)
  : M (OpId * RegionId * BlockId) :=
  r ← createRegion;
  b ← createBlock;
  _ ← Region_push_back r b;
  op ← createOperation
         (mkOperation (String.list_byte_of_string "builtin.module") fileLoc
                      None [] [] [] [r]);
  mret (op, r, b).

(** The fuel of the loops over the IR section: every turn of a loop but
    the one that pops a frame reads at least one byte, and a frame is
    pushed only after an operation has been read. *)
Definition irFuel (sectionData : list byte) : nat :=
  2 * length sectionData + 2.

(** The beginning of [BytecodeReader::parseIRSection]: the temporary
    module, the first frame of the region stack, the header of the module
    block, and then the initial value scope.  Returns the module, its body,
    the frame and the reader. *)
Definition enterModule (fileLoc : Attribute) (reader : EncodingReader.t)
  : M (OpId * BlockId * RegionReadState * EncodingReader.t) :=
  '(moduleOp, region, body) ← ModuleOp_create fileLoc;
  let readState :=
    set_curBlock (Some 0%nat)
      (set_curBlocks [body] (RegionReadState_of [region] true)) in
  '(readState, reader) ← parseBlock reader readState;
  _ ← modify (fun s => set_valueScopes (mkValueScope [] [] :: valueScopes s) s);
  _ ← onBackScope (fun v => Some (ValueScope_push readState v));
  mret (moduleOp, body, readState, reader).

(** The first part of [BytecodeReader::parseIRSection], up to the end of
    the loop over the region stack.  Returns the module and its body. *)
Definition parseTopLevel (fileLoc : Attribute) (sectionData : list byte)
  : M (OpId * BlockId) :=
  '(moduleOp, body, readState, reader) ← enterModule fileLoc sectionData;
  reader ← parseRegionStack (irFuel sectionData) reader [readState];
  mret (moduleOp, body).

(** The second part of [BytecodeReader::parseIRSection]: the check of the
    forward references, the verifier, and the splice of the parsed
    operations into the destination block. *)
Definition spliceModule (moduleOp : OpId) (body : BlockId) : M unit :=
  s ← get;
  if negb (bool_decide (forwardRefOps s = []))
  then emitError unresolved_forward_references
  else
    let verified := verify (ir s) moduleOp in
    _ ← modify (fun s =>
           set_diagnostics (diagnostics s ++ verify_diags verified) s);
    if negb (verify_ok verified) then failure
    else
      match ir_blocks (ir s) !! body with
      | None => undefined
      | Some k =>
          (* the parsed operations leave the body of the module *)
          _ ← modify (fun s =>
                 set_ir (set_ir_blocks
                           (<[body := mkBlock (blk_args k) []]>
                              (ir_blocks (ir s))) (ir s)) s);
          modify (fun s => set_destOps (splice (destOps s) (blk_ops k)) s)
      end.

(** [BytecodeReader::parseIRSection]. *)
Definition parseIRSection (fileLoc : Attribute) (sectionData : list byte)
  : M unit :=
  '(moduleOp, body) ← parseTopLevel fileLoc sectionData;
  spliceModule moduleOp body.

(** ** Top level *)

(** [bytecode::kVersion], declared in a header that is not among the
    sources. *)
Variable kVersion : Z.

(** Modelled from the spec: the section ids 0 to 4. *)
Definition kString : nat := 0.
Definition kDialect : nat := 1.
Definition kAttrType : nat := 2.
Definition kAttrTypeOffset : nat := 3.
Definition kIR : nat := 4.

(** [toString(bytecode::Section::ID)]. *)
Definition Section_toString (sectionID : nat) : list Frag :=
  match sectionID with
  | 0%nat => [Str "String (0)"]
  | 1%nat => [Str "Dialect (1)"]
  | 2%nat => [Str "AttrType (2)"]
  | 3%nat => [Str "AttrTypeOffset (3)"]
  | 4%nat => [Str "IR (4)"]
  | _ => [Str "Unknown ("; Num (Z.of_nat sectionID); Str ")"]
  end.

(** [BytecodeReader::parseVersion]. *)
Definition parseVersion (reader : EncodingReader.t) : M EncodingReader.t :=
  '(v, reader) ← liftR (parseVarInt reader);
  _ ← modify (set_version v);
  if v <? kVersion
  then emitError [Str "bytecode version "; Num v;
                  Str " is older than the current version of "; Num kVersion;
                  Str ", and upgrade is not supported"]
  else if kVersion <? v
  then emitError [Str "bytecode version "; Num v;
                  Str " is newer than the current version "; Num kVersion]
  else mret reader.

(** The loop of [read] that gathers the top-level sections. *)
Fixpoint parseSections (fuel : nat) (reader : EncodingReader.t)
    (sectionDatas : list (option (list byte)))
  : M (list (option (list byte))) :=
  if empty reader then mret sectionDatas
  else match fuel with
       | O => fun _ => OutOfFuel
       | S fuel' =>
           '(idData, reader) ← liftR (parseSection reader);
           let sectionID := Z.to_nat idData.1 in
           match sectionDatas !! sectionID with
           | None => undefined
           | Some (Some _) =>
               emitError (Str "duplicate top-level section: "
                            :: Section_toString sectionID)
           | Some None =>
               parseSections fuel' reader
                 (<[sectionID := Some idData.2]> sectionDatas)
           end
       end.

(** The loop of [read] that checks that every section was found. *)
Fixpoint checkSections (i : nat) (sectionDatas : list (option (list byte)))
  : M unit :=
  match sectionDatas with
  | [] => mret tt
  | None :: _ =>
      emitError (Str "missing data for top-level section: "
                   :: Section_toString i)
  | Some _ :: rest => checkSections (S i) rest
  end.

Definition sectionData_of (sectionDatas : list (option (list byte)))
    (sectionID : nat) : M (list byte) :=
  match sectionDatas !! sectionID with
  | Some (Some d) => mret d
  | _ => undefined
  end.

(** [BytecodeReader::parseStringSection], storing the table. *)
Definition parseStringSectionM (sectionData : list byte) : M unit :=
  '(strs, _) ← liftR (parseStringSection sectionData);
  modify (fun s => set_strings strs (set_stringData sectionData s)).

(** [BytecodeReader::read]. *)
Definition read (fileLoc : Attribute) (buffer : list byte) : M unit :=
  '(_, reader) ← liftR (skipBytes 4 buffer);
  reader ← parseVersion reader;
  '(prod, reader) ← liftR (parseNullTerminatedString reader);
  _ ← modify (set_producer prod);
  sectionDatas ← parseSections (length reader) reader (replicate 5 None);
  _ ← checkSections 0 sectionDatas;
  stringSection ← sectionData_of sectionDatas kString;
  _ ← parseStringSectionM stringSection;
  dialectSection ← sectionData_of sectionDatas kDialect;
  _ ← parseDialectSection dialectSection;
  attrTypeSection ← sectionData_of sectionDatas kAttrType;
  offsetSection ← sectionData_of sectionDatas kAttrTypeOffset;
  _ ← initialize attrTypeSection offsetSection;
  irSection ← sectionData_of sectionDatas kIR;
  parseIRSection fileLoc irSection.

(** The part of [BytecodeReader::read] that comes before the IR section:
    the header, the sections and the tables; it returns the data of the IR
    section.  [read] is [readTables] followed by [parseIRSection]
    ([read_split] below). *)
Definition readTables (buffer : list byte) : M (list byte) :=
  '(_, reader) ← liftR (skipBytes 4 buffer);
  reader ← parseVersion reader;
  '(prod, reader) ← liftR (parseNullTerminatedString reader);
  _ ← modify (set_producer prod);
  sectionDatas ← parseSections (length reader) reader (replicate 5 None);
  _ ← checkSections 0 sectionDatas;
  stringSection ← sectionData_of sectionDatas kString;
  _ ← parseStringSectionM stringSection;
  dialectSection ← sectionData_of sectionDatas kDialect;
  _ ← parseDialectSection dialectSection;
  attrTypeSection ← sectionData_of sectionDatas kAttrType;
  offsetSection ← sectionData_of sectionDatas kAttrTypeOffset;
  _ ← initialize attrTypeSection offsetSection;
  sectionData_of sectionDatas kIR.

(** [mlir::isBytecode]. *)
Definition isBytecode (buffer : list byte) : bool :=
  match buffer with
  | x4d :: x4c :: xef :: x52 :: _ => true
  | _ => false
  end.

(** [mlir::readBytecodeFile]: the reader is fresh, the destination block
    holds the operations [block]. *)
Definition readBytecodeFile (fileLoc : Attribute) (buffer : list byte)
    (block : list DestOp) : Outcome unit :=
  let s0 := set_destOps block initial_BytecodeReader in
  if negb (isBytecode buffer)
  then emitError [Str "input buffer is not an MLIR bytecode file"] s0
  else read fileLoc buffer s0.

End WithContext.

(** ** A concrete host and concrete buffers *)

(** The handle the test parser gives to the object written [str]. *)
Definition test_handle (str : list byte) : nat :=
  match str with
  | [] => 0
  | b :: _ => Z.to_nat (byteZ b)
  end.

(** A context that knows every dialect and whose assembly parser reads the
    whole string. *)
Definition test_context : MLIRContext :=
  mkContext (fun _ => Some 1%nat) false
    (fun str => mkAsmResult (Some (test_handle str)) (size str) [])
    (fun str => mkAsmResult (Some (test_handle str)) (size str) [])
    (fun _ => true) (fun _ => true) 0%nat 0%nat.

(** A verifier that accepts every module. *)
Definition test_verify (_ : IR) (_ : OpId) : VerifyResult :=
  mkVerifyResult true [].

(** The header of a file of version 0 produced by "x". *)
Definition test_header : list byte := [x4d; x4c; xef; x52; x01; x78; x00].

(** The strings "test", "op" and "wrap"; one dialect "test" with the
    operation names "op" and "wrap"; the attribute "loc" and the type
    "i32". *)
Definition test_tables : list byte :=
  [x00; x23; x07; x0b; x07; x0b;
   x74; x65; x73; x74; x00; x6f; x70; x00; x77; x72; x61; x70; x00]
  ++ [x01; x0d; x03; x01; x01; x05; x03; x05]
  ++ [x02; x11; x6c; x6f; x63; x00; x69; x33; x32; x00]
  ++ [x03; x11; x03; x03; x01; x03; x11; x01; x03; x11].

(** An IR section: one top-level "test.wrap" with one region of one block
    and two values; in the block, a "test.op" with one result whose operand
    is value 1, then the "test.op" that defines value 1. *)
Definition forward_ref_ir : list byte :=
  [x05; x03; x10; x01; x05; x03; x05; x09;
   x01; x06; x01; x03; x01; x03; x03;
   x01; x02; x01; x03; x01].

Definition forward_ref_file : list byte :=
  test_header ++ test_tables ++ [x04; x29] ++ forward_ref_ir.

(** An IR section with one top-level "test.op" that declares one result. *)
Definition top_level_result_ir : list byte :=
  [x05; x01; x02; x01; x03; x01].

Definition top_level_result_file : list byte :=
  test_header ++ test_tables ++ [x04; x0d] ++ top_level_result_ir.

(** An IR section whose module block header announces block arguments
    (no operation, the flag set, then zero arguments). *)
Definition block_args_ir : list byte := [x03; x01].

Definition block_args_file : list byte :=
  test_header ++ test_tables ++ [x04; x05] ++ block_args_ir.

(** A file whose offset section announces one attribute and stops there:
    the reader runs out of bytes while it reads the table of the
    attributes. *)
Definition truncated_offsets_file : list byte :=
  test_header ++ take 37 test_tables ++ [x03; x05; x03; x01]
  ++ [x04; x03; x01].

(** A file with the test tables and a module without operation. *)
Definition empty_module_file : list byte :=
  test_header ++ test_tables ++ [x04; x03] ++ [x01].

(** The reader once [empty_module_file] has been read: the tables are
    there and no value scope is left. *)
Definition tables_state : BytecodeReader :=
  match readBytecodeFile test_context test_verify 0 7%nat
          empty_module_file [] with
  | Done _ s => s
  | _ => initial_BytecodeReader
  end.

(** The reader once [forward_ref_file] has been read: the dialect "test"
    is loaded. *)
Definition loaded_state : BytecodeReader :=
  match readBytecodeFile test_context test_verify 0 7%nat
          forward_ref_file [] with
  | Done _ s => s
  | _ => initial_BytecodeReader
  end.

(** The placement the specification describes: before the terminator of
    the destination block when the block ends with one, at the end of the
    block otherwise.  [isTerminator] tells which operations are
    terminators. *)
Definition spec_splice (isTerminator : DestOp -> bool)
    (destOps : list DestOp) (parsedOps : list OpId) : list DestOp :=
  match list.last destOps with
  | Some t =>
      if isTerminator t
      then take (length destOps - 1) destOps ++ map ParsedOp parsedOps ++ [t]
      else destOps ++ map ParsedOp parsedOps
  | None => map ParsedOp parsedOps
  end.

(** ** Specifications of reader functions

    [wp m Q F s]: from the state [s], if [m] returns with success then [Q]
    holds of its value and final state, and if it returns failure then [F]
    holds of its final state. *)
Definition wp {A : Type} (m : M A) (Q : A -> BytecodeReader -> Prop)
    (F : BytecodeReader -> Prop) (s : BytecodeReader) : Prop :=
  match m s with
  | Done a s' => Q a s'
  | Failed s' => F s'
  | Undefined => True
  | OutOfFuel => True
  end.

(** [wpR RD RF s0 m s]: running [m] from [s] ends in a state related to the
    reference state [s0], by [RD] on success and by [RF] on failure. *)
Definition wpR (RD RF : BytecodeReader -> BytecodeReader -> Prop) {A : Type}
    (s0 : BytecodeReader) (m : M A) (s : BytecodeReader) : Prop :=
  wp m (fun _ s' => RD s0 s') (fun s' => RF s0 s') s.

(** [m] relates every state it is run from to the state it ends in. *)
Definition rel_spec (RD RF : BytecodeReader -> BytecodeReader -> Prop)
    {A : Type} (m : M A) : Prop :=
  forall s, wpR RD RF s m s.

(** [fueled m Q s]: run from [s], [m] does not run out of fuel, and when
    it returns with success its value satisfies [Q]. *)
Definition fueled {A : Type} (m : M A) (Q : A -> Prop)
    (s : BytecodeReader) : Prop :=
  match m s with
  | Done a _ => Q a
  | Failed _ => True
  | Undefined => True
  | OutOfFuel => False
  end.

(** What the rules ask of a pair of relations. *)
Class Frame (RD RF : BytecodeReader -> BytecodeReader -> Prop) : Prop :=
  mkFrame {
    frame_refl : forall s, RD s s;
    frame_trans : forall s1 s2 s3, RD s1 s2 -> RD s2 s3 -> RD s1 s3;
    frame_fail : forall s1 s2 s3, RD s1 s2 -> RF s2 s3 -> RF s1 s3
  }.

(** ** Failure leaves the destination block alone and is reported *)

(** On success the destination block is as it was and no diagnostic was
    lost. *)
Definition RD_err (s s' : BytecodeReader) : Prop :=
  destOps s' = destOps s
  /\ (length (diagnostics s) <= length (diagnostics s'))%nat.

(** On failure the destination block is as it was and a diagnostic was
    emitted. *)
Definition RF_err (s s' : BytecodeReader) : Prop :=
  destOps s' = destOps s
  /\ (length (diagnostics s) < length (diagnostics s'))%nat.

(** The destination block is as it was. *)
Definition RD_dest (s s' : BytecodeReader) : Prop :=
  destOps s' = destOps s.
Definition RF_dest (s s' : BytecodeReader) : Prop := True.

(** The value scopes are as they were. *)
Definition RD_scope (s s' : BytecodeReader) : Prop :=
  valueScopes s' = valueScopes s.
Definition RF_scope (s s' : BytecodeReader) : Prop := True.

(** ** The value scope of the module

    The shape of a value scope: the number of its slots and its stack of
    next ids. *)
Definition shape (sc : ValueScope) : nat * list Z :=
  (length (values sc), nextValueIDs sc).

(** The shapes of the value scopes are as they were. *)
Definition RD_shape (s s' : BytecodeReader) : Prop :=
  map shape (valueScopes s') = map shape (valueScopes s).
Definition RF_shape (s s' : BytecodeReader) : Prop := True.

(** The shape of a value scope but for its current next id. *)
Definition wshape (sc : ValueScope) : nat * list Z * nat :=
  (length (values sc), tail (nextValueIDs sc), length (nextValueIDs sc)).

(** The shapes are as they were, but for the next id on top of the stack
    of the current scope. *)
Definition RD_weak (s s' : BytecodeReader) : Prop :=
  map wshape (take 1 (valueScopes s')) = map wshape (take 1 (valueScopes s))
  /\ map shape (drop 1 (valueScopes s')) = map shape (drop 1 (valueScopes s)).
Definition RF_weak (s s' : BytecodeReader) : Prop := True.

(** What [ValueScope::pop] will do to the shapes when the region that the
    frame is reading comes to its end. *)
Definition closeRegion (f : RegionReadState) (sh : list (nat * list Z))
  : option (list (nat * list Z)) :=
  match curBlock f with
  | None => Some sh
  | Some _ =>
      match sh with
      | (len, _ :: ids) :: rest =>
          if Z.of_nat len <? numValues f then None
          else Some ((len - Z.to_nat (numValues f), ids)%nat :: rest)
      | _ => None
      end
  end.

(** The shapes once the frame has been popped. *)
Definition leaveFrame (f : RegionReadState) (sh : list (nat * list Z))
  : option (list (nat * list Z)) :=
  match closeRegion f sh with
  | None => None
  | Some sh' =>
      if isIsolatedFromAbove f
      then match sh' with [] => None | _ :: rest => Some rest end
      else Some sh'
  end.

(** The invariant of the region stack (top frame first): a frame that has
    read all its regions has no current block; and once the frames above
    the frame of the module have been left, the only value scope is the one
    pushed for the module, with no slot and 0 as its next id, for as long
    as the frame of the module is reading the block of the module. *)
Fixpoint TopInv (frames : list RegionReadState) (sh : list (nat * list Z))
  : Prop :=
  match frames with
  | [] => True
  | f :: rest =>
      (curRegion f = length (regions f) -> curBlock f = None)
      /\ match rest with
         | [] =>
             (curBlock f = None /\ curRegion f = length (regions f))
             \/ (sh = [(0%nat, [0])] /\ numValues f = 0
                 /\ S (curRegion f) = length (regions f)
                 /\ curBlock f <> None)
         | _ :: _ =>
             match leaveFrame f sh with
             | Some sh' => TopInv rest sh'
             | None => False
             end
         end
  end.

(** Two lists of shapes that differ at most by the next id on top of the
    stack of the first scope. *)
Definition wrel (sh sh' : list (nat * list Z)) : Prop :=
  match sh, sh' with
  | [], [] => True
  | (len, ids) :: rest, (len', ids') :: rest' =>
      len' = len /\ tail ids' = tail ids /\ length ids' = length ids
      /\ rest' = rest
  | _, _ => False
  end.

(** The regions of the heap are as they were. *)
Definition RD_regs (s s' : BytecodeReader) : Prop :=
  ir_regions (ir s') = ir_regions (ir s).
Definition RF_regs (s s' : BytecodeReader) : Prop := True.

(** ** The loads of the dialects

    [dialectLoads] lists the entries for which the host was asked, in the
    order of the calls of [getOrLoadDialect]. *)

(** The host was not asked since. *)
Definition RD_asked (s s' : BytecodeReader) : Prop :=
  dialectLoads s' = dialectLoads s.
Definition RF_asked (s s' : BytecodeReader) : Prop :=
  dialectLoads s' = dialectLoads s.

(** The host was asked at most once for each entry, and every entry it
    was asked for has recorded the answer. *)
Definition loads_ok (s : BytecodeReader) : Prop :=
  NoDup (dialectLoads s)
  /\ forall i, i ∈ dialectLoads s ->
       exists d v, dialects s !! i = Some d /\ dialect d = Some v.

(** The entries that have recorded an answer are as they were. *)
Definition entries_stable (s s' : BytecodeReader) : Prop :=
  forall i d v,
    dialects s !! i = Some d -> dialect d = Some v ->
    dialects s' !! i = Some d.

Definition RD_loads (s s' : BytecodeReader) : Prop :=
  loads_ok s -> loads_ok s' /\ entries_stable s s'.
Definition RF_loads (s s' : BytecodeReader) : Prop :=
  loads_ok s -> NoDup (dialectLoads s').

(** A context that knows no dialect and does not allow unregistered
    dialects. *)
Definition strict_context : MLIRContext :=
  mkContext (fun _ => None) false
    (fun str => mkAsmResult (Some (test_handle str)) (size str) [])
    (fun str => mkAsmResult (Some (test_handle str)) (size str) [])
    (fun _ => true) (fun _ => true) 0%nat 0%nat.

(** ** Forward references

    The operations of [forwardRefOps] are the placeholders in use, those
    of [openForwardRefOps] the placeholders that are free. *)

(** The pools, the operations of the heap and the value scopes are as they
    were. *)
Definition RD_refs (s s' : BytecodeReader) : Prop :=
  forwardRefOps s' = forwardRefOps s
  /\ openForwardRefOps s' = openForwardRefOps s
  /\ ir_ops (ir s') = ir_ops (ir s)
  /\ valueScopes s' = valueScopes s.
Definition RF_refs (s s' : BytecodeReader) : Prop := True.

(** Slot [i] of the value scope [a] (counted from the back of
    [valueScopes]) holds the value [v]. *)
Definition slot_at (scopes : list ValueScope) (a i : nat) (v : Value)
  : Prop :=
  exists sc, scopes !! a = Some sc /\ values sc !! i = Some (Some v).

(** A value that an operand or a slot may hold: the result of an operation
    of the heap that is not a free placeholder, and result 0 when the
    operation is a placeholder in use. *)
Definition valid (s : BytecodeReader) (v : Value) : Prop :=
  match v with
  | OpResult p k =>
      (p < length (ir_ops (ir s)))%nat
      /\ (p ∉ openForwardRefOps s)
      /\ (p ∈ forwardRefOps s -> k = 0%nat)
  | BlockArgument _ _ => True
  end.

(** A value that a definition may bring: not the result of a
    placeholder. *)
Definition defined (s : BytecodeReader) (v : Value) : Prop :=
  match v with
  | OpResult p _ =>
      (p < length (ir_ops (ir s)))%nat
      /\ (p ∉ forwardRefOps s) /\ (p ∉ openForwardRefOps s)
  | BlockArgument _ _ => True
  end.

(** The invariant of the forward references: no placeholder is in the two
    pools or twice in one; the placeholders are operations of the heap;
    the slots and the operands hold valid values; and a placeholder in use
    is held by at most one slot. *)
Definition refs_ok (s : BytecodeReader) : Prop :=
  NoDup (forwardRefOps s ++ openForwardRefOps s)
  /\ (forall p, p ∈ forwardRefOps s ++ openForwardRefOps s ->
                (p < length (ir_ops (ir s)))%nat)
  /\ (forall a i v, slot_at (valueScopes s) a i v -> valid s v)
  /\ (forall o v, o ∈ ir_ops (ir s) -> v ∈ op_operands o -> valid s v)
  /\ (forall a i b j p k k',
        slot_at (valueScopes s) a i (OpResult p k) ->
        slot_at (valueScopes s) b j (OpResult p k') ->
        p ∈ forwardRefOps s -> a = b /\ i = j).

(** What happens to the pools and the heap while the operands of an
    operation are read: placeholders are put in use, none is resolved. *)
Definition grows (s s' : BytecodeReader) : Prop :=
  (length (ir_ops (ir s)) <= length (ir_ops (ir s')))%nat
  /\ (forall p, p ∈ openForwardRefOps s' -> p ∈ openForwardRefOps s)
  /\ (forall p, p ∈ forwardRefOps s -> p ∈ forwardRefOps s')
  /\ (forall p, p ∈ forwardRefOps s' ->
                p ∈ forwardRefOps s \/ p ∈ openForwardRefOps s
                \/ (length (ir_ops (ir s)) <= p)%nat).

(** ** The offsets of the attributes and of the types

    What the loop of [AttrTypeReader::initialize] has done when it has
    filled the entries below [currentIndex]: their data are the
    consecutive slices of the section data from [off0] up to
    [currentOffset], none is resolved, and each has one of the
    [numDialects] dialects. *)
Definition entries_tile (sectionData : list byte) (numDialects : nat)
    (off0 : Z) (range : list Entry) (st : OffsetState) : Prop :=
  (currentIndex st <= length range)%nat
  /\ 0 <= off0 <= currentOffset st
  /\ currentOffset st <= size sectionData
  /\ concat (map entry_data (take (currentIndex st) range))
     = take (Z.to_nat (currentOffset st - off0))
            (drop (Z.to_nat off0) sectionData)
  /\ (forall e, e ∈ range -> entry e = None)
  /\ (forall e, e ∈ take (currentIndex st) range ->
                exists d, entry_dialect e = Some d /\ (d < numDialects)%nat).

(** ** The body of the module

    What the functions that read the tables leave alone: the heap, the
    value scopes and the destination block. *)
Definition RD_tab (s s' : BytecodeReader) : Prop :=
  ir s' = ir s /\ valueScopes s' = valueScopes s /\ destOps s' = destOps s.
Definition RF_tab (s s' : BytecodeReader) : Prop := RD_tab s s'.

(** What every function but those that put an operation into a block or a
    block into a region does to the heap: a region that has blocks has not
    changed, new regions are empty; the blocks keep their operations; the
    operations keep their name, their result types and their regions. *)
Definition RD_heap (s s' : BytecodeReader) : Prop :=
  (forall r bs, ir_regions (ir s) !! r = Some bs ->
                ir_regions (ir s') !! r = Some bs)
  /\ (forall r bs, ir_regions (ir s') !! r = Some bs -> bs <> [] ->
                   ir_regions (ir s) !! r = Some bs)
  /\ (forall b k, ir_blocks (ir s) !! b = Some k ->
        exists k', ir_blocks (ir s') !! b = Some k'
                   /\ blk_ops k' = blk_ops k)
  /\ (forall o op, ir_ops (ir s) !! o = Some op ->
        exists op', ir_ops (ir s') !! o = Some op'
                    /\ op_name op' = op_name op
                    /\ op_types op' = op_types op
                    /\ op_regions op' = op_regions op).
Definition RF_heap (s s' : BytecodeReader) : Prop := RD_heap s s'.

(** The operation [o] of the heap has no result. *)
Definition no_result (s : BytecodeReader) (o : OpId) : Prop :=
  exists op, ir_ops (ir s) !! o = Some op /\ op_types op = [].

(** The invariant of the module that [parseIRSection] creates: the
    operation [moduleOp] is a module whose one region is [region]; the one
    block of [region] is [body], which is in no other region; and the
    operations of [body] have no result. *)
Definition BodyInv (moduleOp : OpId) (region : RegionId) (body : BlockId)
    (s : BytecodeReader) : Prop :=
  (exists op, ir_ops (ir s) !! moduleOp = Some op
              /\ op_name op = String.list_byte_of_string "builtin.module"
              /\ op_regions op = [region])
  /\ ir_regions (ir s) !! region = Some [body]
  /\ (exists k, ir_blocks (ir s) !! body = Some k)
  /\ (forall r bs, ir_regions (ir s) !! r = Some bs -> body ∈ bs ->
                   r = region)
  /\ (forall k o, ir_blocks (ir s) !! body = Some k -> o ∈ blk_ops k ->
                  no_result s o).

(** The part of the invariant that does not look at the operations of
    the body. *)
Definition ModuleShape (moduleOp : OpId) (region : RegionId) (body : BlockId)
    (s : BytecodeReader) : Prop :=
  (exists op, ir_ops (ir s) !! moduleOp = Some op
              /\ op_name op = String.list_byte_of_string "builtin.module"
              /\ op_regions op = [region])
  /\ ir_regions (ir s) !! region = Some [body]
  /\ (exists k, ir_blocks (ir s) !! body = Some k)
  /\ (forall r bs, ir_regions (ir s) !! r = Some bs -> body ∈ bs ->
                   r = region).

(** What a failed parse says of the block [body]: if it holds an operation
    that declares results, the last diagnostic is the value-index error of
    that operation. *)
Definition BodyFail (body : BlockId) (s : BytecodeReader) : Prop :=
  forall k o op,
    ir_blocks (ir s) !! body = Some k -> o ∈ blk_ops k ->
    ir_ops (ir s) !! o = Some op -> op_types op <> [] ->
    list.last (diagnostics s)
    = Some (value_index_out_of_range 0 (Z.of_nat (length (op_types op)))
              (2 ^ 64 - 1)).

(** What holds when the parse fails once the module has been created. *)
Definition FailInv (moduleOp : OpId) (region : RegionId) (body : BlockId)
    (s : BytecodeReader) : Prop :=
  ModuleShape moduleOp region body s /\ BodyFail body s.

(** No region of the heap holds a block that is not in the heap. *)
Definition heap_closed (s : BytecodeReader) : Prop :=
  forall r bs b,
    ir_regions (ir s) !! r = Some bs -> b ∈ bs ->
    (b < length (ir_blocks (ir s)))%nat.

(** The frames of the region stack (top frame first): the last one is the
    frame of the module, which reads [region]; the others read the regions
    of operations. *)
Fixpoint frames_ok (region : RegionId) (frames : list RegionReadState)
  : Prop :=
  match frames with
  | [] => True
  | f :: rest =>
      match rest with
      | [] => regions f = [region]
      | _ :: _ => (region ∉ regions f) /\ frames_ok region rest
      end
  end.

(** A state that differs from [s] in the table of [kind] only, which has
    kept its length. *)
Definition fills (kind : EntryKind) (s s' : BytecodeReader) : Prop :=
  s' = set_entriesOf kind (entriesOf kind s') s
  /\ length (entriesOf kind s') = length (entriesOf kind s).

(** The contract of the host: the assembly parser and the verifier emit a
    diagnostic whenever they fail. *)
Definition host_reports (ctx : MLIRContext)
    (verify : IR -> OpId -> VerifyResult) : Prop :=
  (forall str, asm_result (asmParseAttribute ctx str) = None ->
               asm_diags (asmParseAttribute ctx str) <> [])
  /\ (forall str, asm_result (asmParseType ctx str) = None ->
                  asm_diags (asmParseType ctx str) <> [])
  /\ (forall i op, verify_ok (verify i op) = false ->
                   verify_diags (verify i op) <> []).

(** * Properties *)

(** ** Bytes and little-endian words *)

Lemma byteZ_range (b : byte) : 0 <= byteZ b < 256.
Proof.
  unfold byteZ. pose proof (Byte.to_N_bounded b) as H.
  lia.
Qed.

Lemma byteZ_Zbyte (z : Z) : byteZ (Zbyte z) = z mod 256.
Proof.
  unfold byteZ, Zbyte.
  assert (Hr : 0 <= z mod 256 < 256) by (apply Z.mod_pos_bound; lia).
  destruct (Byte.of_N (Z.to_N (z mod 256))) as [b|] eqn:E.
  - apply Byte.to_of_N in E. rewrite E. lia.
  - apply Byte.of_N_None_iff in E. lia.
Qed.

Lemma length_le_bytes (n : nat) (v : Z) : length (le_bytes n v) = n.
Proof. revert v. induction n as [|n IH]; intros v; simpl; [done|]. by rewrite IH. Qed.

Lemma le_value_le_bytes (n : nat) (v : Z) :
  0 <= v -> le_value (le_bytes n v) = v mod 2 ^ (8 * Z.of_nat n).
Proof.
  revert v. induction n as [|n IH]; intros v Hv.
  - simpl. by rewrite Z.mod_1_r.
  - cbn [le_bytes le_value]. rewrite byteZ_Zbyte, IH by (apply Z.div_pos; lia).
    replace (8 * Z.of_nat (S n)) with (8 + 8 * Z.of_nat n) by lia.
    rewrite Z.pow_add_r by lia. change (2 ^ 8) with 256.
    rewrite Z.rem_mul_r by lia. lia.
Qed.

Lemma le_value_range (bs : list byte) :
  0 <= le_value bs < 2 ^ (8 * Z.of_nat (length bs)).
Proof.
  induction bs as [|b bs IH]; [simpl; lia|].
  cbn [le_value length]. pose proof (byteZ_range b).
  replace (8 * Z.of_nat (S (length bs))) with (8 + 8 * Z.of_nat (length bs)) by lia.
  rewrite Z.pow_add_r by lia. change (2 ^ 8) with 256. lia.
Qed.

Lemma memcpy_word_le (bs : list byte) (w : Z) (off : nat) :
  0 <= w < 2 ^ (8 * Z.of_nat off) ->
  memcpy_word w off bs = w + 2 ^ (8 * Z.of_nat off) * le_value bs.
Proof.
  revert w off. induction bs as [|b bs IH]; intros w off Hw.
  - simpl. lia.
  - cbn [memcpy_word le_value].
    assert (Hb : byte_at w off = 0).
    { unfold byte_at. rewrite Z.div_small by lia. reflexivity. }
    pose proof (byteZ_range b) as Hr.
    assert (Hp : 2 ^ (8 * Z.of_nat (S off)) = 256 * 2 ^ (8 * Z.of_nat off)).
    { replace (8 * Z.of_nat (S off)) with (8 + 8 * Z.of_nat off) by lia.
      rewrite Z.pow_add_r by lia. reflexivity. }
    unfold set_byte. rewrite Hb, IH; [rewrite Hp; lia|].
    rewrite Hp. nia.
Qed.

Lemma parseBytes_app (bs rest : list byte) :
  parseBytes (Z.of_nat (length bs)) (bs ++ rest) = ROk bs rest.
Proof.
  unfold parseBytes, size. rewrite length_app.
  destruct (Z.ltb_spec (Z.of_nat (length bs + length rest)) (Z.of_nat (length bs)));
    [lia|].
  by rewrite Nat2Z.id, take_app_length, drop_app_length.
Qed.

Lemma ctz_fuel_pow2 (k fuel : nat) (o : Z) :
  Z.odd o = true -> (k <= fuel)%nat -> (0 < fuel)%nat ->
  ctz_fuel fuel (2 ^ Z.of_nat k * o) = Z.of_nat k.
Proof.
  intros Ho. revert fuel. induction k as [|k IH]; intros fuel Hk Hf.
  - destruct fuel; [lia|]. simpl. rewrite Z.mul_1_l, Ho. reflexivity.
  - destruct fuel as [|fuel]; [lia|].
    cbn [ctz_fuel].
    replace (2 ^ Z.of_nat (S k) * o) with (2 * (2 ^ Z.of_nat k * o))
      by (rewrite Nat2Z.inj_succ, Z.pow_succ_r by lia; ring).
    rewrite Z.odd_mul. cbn [Z.odd andb].
    rewrite (Z.mul_comm 2), Z.div_mul by lia.
    destruct fuel as [|fuel'].
    + assert (k = 0)%nat by lia. subst. reflexivity.
    + rewrite IH by lia. lia.
Qed.

Lemma marker_lor (x : Z) (m : Z) :
  0 < m ->
  Z.lor (Z.shiftl x m) (Z.shiftl 1 (m - 1)) = x * 2 ^ m + 2 ^ (m - 1).
Proof.
  intros Hm.
  assert (Hd : Z.land (Z.shiftl x m) (Z.shiftl 1 (m - 1)) = 0).
  { apply Z.bits_inj'. intros i Hi.
    rewrite Z.land_spec, Z.bits_0.
    destruct (Z.lt_ge_cases i m) as [Hlt|Hge].
    - rewrite (Z.shiftl_spec_low x m i) by lia. reflexivity.
    - rewrite (Z.shiftl_spec 1 (m - 1) i) by lia.
      rewrite (Z.bits_above_log2 1 (i - (m - 1))); [apply andb_false_r|lia|].
      simpl. lia. }
  rewrite <- Z.lxor_lor by exact Hd.
  rewrite <- Z.add_nocarry_lxor by exact Hd.
  rewrite !Z.shiftl_mul_pow2 by lia. lia.
Qed.

(** ** Decoding the varint encodings *)

Lemma first_byte_shape (k : nat) (x : Z) :
  (1 <= k <= 7)%nat -> 0 <= x ->
  exists o, Z.odd o = true /\ 0 < o /\
    (x * 2 ^ Z.of_nat (S k) + 2 ^ Z.of_nat k) mod 256 = 2 ^ Z.of_nat k * o.
Proof.
  intros Hk Hx.
  exists ((2 * x + 1) mod 2 ^ (8 - Z.of_nat k)).
  assert (H2 : 2 ^ (8 - Z.of_nat k) = 2 * 2 ^ (7 - Z.of_nat k)).
  { rewrite <- Z.pow_succ_r by lia. f_equal. lia. }
  assert (Hpos : 0 < 2 ^ (7 - Z.of_nat k)) by (apply Z.pow_pos_nonneg; lia).
  assert (Hodd : (2 * x + 1) mod 2 ^ (8 - Z.of_nat k)
                 = 1 + 2 * (x mod 2 ^ (7 - Z.of_nat k))).
  { rewrite H2, Z.rem_mul_r by lia.
    replace (2 * x + 1) with (1 + x * 2) by lia.
    rewrite Z.mod_add, Z.div_add by lia. reflexivity. }
  split; [|split].
  - rewrite Hodd, Z.odd_add_mul_2. reflexivity.
  - rewrite Hodd. pose proof (Z.mod_pos_bound x _ Hpos). lia.
  - replace (x * 2 ^ Z.of_nat (S k) + 2 ^ Z.of_nat k)
      with (2 ^ Z.of_nat k * (2 * x + 1))
      by (rewrite Nat2Z.inj_succ, Z.pow_succ_r by lia; ring).
    replace 256 with (2 ^ Z.of_nat k * 2 ^ (8 - Z.of_nat k))
      by (rewrite <- Z.pow_add_r by lia;
          replace (Z.of_nat k + (8 - Z.of_nat k)) with 8 by lia; reflexivity).
    rewrite Z.mul_mod_distr_l; [reflexivity| |];
      apply Z.pow_nonzero; lia.
Qed.

Lemma parseVarInt_short (k : nat) (x : Z) (rest : list byte) :
  (k <= 7)%nat -> 0 <= x < 2 ^ (7 * Z.of_nat (S k)) ->
  parseVarInt (encode_varint_len (S k) x ++ rest) = ROk x rest.
Proof.
  intros Hk Hx. unfold encode_varint_len.
  destruct (Nat.leb_spec (S k) 8) as [_|]; [|lia].
  rewrite marker_lor by lia.
  replace (Z.of_nat (S k) - 1) with (Z.of_nat k) by lia.
  set (v := x * 2 ^ Z.of_nat (S k) + 2 ^ Z.of_nat k).
  assert (Hv : 0 <= v < 2 ^ (8 * Z.of_nat (S k))).
  { subst v.
    assert (0 < 2 ^ Z.of_nat k) by (apply Z.pow_pos_nonneg; lia).
    assert (E1 : 2 ^ Z.of_nat (S k) = 2 * 2 ^ Z.of_nat k)
      by (rewrite Nat2Z.inj_succ, Z.pow_succ_r by lia; reflexivity).
    assert (E2 : 2 ^ (8 * Z.of_nat (S k))
                 = 2 ^ Z.of_nat (S k) * 2 ^ (7 * Z.of_nat (S k)))
      by (rewrite <- Z.pow_add_r by lia; f_equal; lia).
    rewrite E2, E1. nia. }
  cbn [le_bytes app]. unfold parseVarInt, parseByte. rewrite byteZ_Zbyte.
  destruct k as [|j].
  - (* one byte: the marker is bit 0 *)
    subst v. change (2 ^ Z.of_nat 1) with 2 in *. change (2 ^ Z.of_nat 0) with 1 in *.
    change (7 * Z.of_nat 1) with 7 in Hx. change (2 ^ 7) with 128 in Hx.
    rewrite Z.mod_small by lia.
    replace (x * 2 + 1) with (1 + 2 * x) by lia.
    rewrite Z.odd_add_mul_2. cbn [Z.odd le_bytes app].
    rewrite Z.shiftr_div_pow2 by lia. change (2 ^ 1) with 2.
    f_equal. rewrite (Z.mul_comm 2), Z.div_add by lia. reflexivity.
  - (* S j additional bytes *)
    destruct (first_byte_shape (S j) x) as (o & Ho & Hopos & Hb0); [lia|lia|].
    fold v in Hb0. rewrite Hb0.
    assert (Hp : 0 < 2 ^ Z.of_nat (S j)) by (apply Z.pow_pos_nonneg; lia).
    assert (Hrange : 0 <= 2 ^ Z.of_nat (S j) * o < 256).
    { rewrite <- Hb0. apply Z.mod_pos_bound. lia. }
    assert (Heven : Z.odd (2 ^ Z.of_nat (S j) * o) = false).
    { rewrite Nat2Z.inj_succ, Z.pow_succ_r, <- Z.mul_assoc by lia.
      rewrite Z.odd_mul. reflexivity. }
    rewrite Heven.
    destruct (Z.eqb_spec (2 ^ Z.of_nat (S j) * o) 0) as [E0|_]; [nia|].
    unfold parseMultiByteVarInt, countTrailingZeros, u32, UINT32_MOD.
    rewrite (Z.mod_small (2 ^ Z.of_nat (S j) * o)) by lia.
    rewrite ctz_fuel_pow2 by (trivial; lia).
    unfold parseBytesInto.
    rewrite <- (length_le_bytes (S j) (v / 256)) at 1.
    rewrite parseBytes_app.
    rewrite memcpy_word_le by (change (2 ^ (8 * Z.of_nat 1)) with 256; lia).
    rewrite le_value_le_bytes by (apply Z.div_pos; lia).
    f_equal.
    change (2 ^ (8 * Z.of_nat 1)) with 256.
    assert (Hdiv : 0 <= v / 256 < 2 ^ (8 * Z.of_nat (S j))).
    { split; [apply Z.div_pos; lia|].
      apply Z.div_lt_upper_bound; [lia|].
      replace (8 * Z.of_nat (S (S j))) with (8 + 8 * Z.of_nat (S j)) in Hv by lia.
      rewrite Z.pow_add_r in Hv by lia. exact (proj2 Hv). }
    rewrite (Z.mod_small (v / 256)) by exact Hdiv.
    rewrite <- Hb0, (Z.add_comm (v mod 256)), <- Z.div_mod by lia.
    rewrite Z.shiftr_div_pow2 by lia.
    replace (Z.of_nat (S j) + 1) with (Z.of_nat (S (S j))) by lia.
    subst v.
    assert (E1 : 2 ^ Z.of_nat (S (S j)) = 2 * 2 ^ Z.of_nat (S j))
      by (rewrite (Nat2Z.inj_succ (S j)), Z.pow_succ_r by lia; reflexivity).
    rewrite Z.div_add_l by lia.
    rewrite E1, Z.div_small by lia. lia.
Qed.

Lemma parseVarInt_long (x : Z) (rest : list byte) :
  0 <= x < 2 ^ 64 ->
  parseVarInt (encode_varint_len 9 x ++ rest) = ROk x rest.
Proof.
  intros Hx. unfold encode_varint_len. cbn [Nat.leb].
  change ((x00 :: le_bytes 8 x) ++ rest) with (x00 :: (le_bytes 8 x ++ rest)).
  unfold parseVarInt, parseByte. change (byteZ x00) with 0.
  cbn [Z.odd Z.eqb]. unfold parseBytesInto.
  change 8 with (Z.of_nat 8) at 1.
  rewrite <- (length_le_bytes 8 x) at 1. rewrite parseBytes_app.
  rewrite memcpy_word_le by (simpl; lia).
  rewrite le_value_le_bytes by lia.
  change (2 ^ (8 * Z.of_nat 0)) with 1. change (8 * Z.of_nat 8) with 64.
  rewrite Z.mod_small by lia. f_equal. lia.
Qed.

Lemma min_varint_len_bound (x : Z) (m : nat) :
  (min_varint_len x <= m <= 8)%nat -> x < 2 ^ (7 * Z.of_nat m).
Proof.
  unfold min_varint_len. intros [Hlo Hhi].
  repeat match type of Hlo with
         | context [?a <? ?b] => destruct (Z.ltb_spec a b)
         end;
    do 9 (destruct m as [|m]; [try lia; simpl; lia|]); lia.
Qed.

Lemma min_varint_len_range (x : Z) : (1 <= min_varint_len x <= 9)%nat.
Proof.
  unfold min_varint_len.
  repeat match goal with
         | |- context [?a <? ?b] => destruct (a <? b)
         end; lia.
Qed.

(** C10: [parseVarInt] does not enforce minimal-length encoding.  For every
    64-bit value [x] and every length category [m] from the minimal category
    of [x] up to 9 bytes, the [m]-byte little-endian encoding of [x] with the
    marker bits of that category decodes to [x], whatever follows it. *)
Theorem parseVarInt_accepts_every_category (x : Z) (m : nat) (rest : list byte) :
  0 <= x < 2 ^ 64 ->
  (min_varint_len x <= m <= 9)%nat ->
  parseVarInt (encode_varint_len m x ++ rest) = ROk x rest.
Proof.
  intros Hx [Hlo Hhi].
  destruct (Nat.eq_dec m 9%nat) as [->|Hne].
  - by apply parseVarInt_long.
  - pose proof (min_varint_len_range x).
    destruct m as [|k]; [lia|].
    apply parseVarInt_short; [lia|].
    split; [lia|]. apply min_varint_len_bound. lia.
Qed.

Lemma parseVarInt_accepts_every_category_witness :
  0 <= 5 < 2 ^ 64 /\ (min_varint_len 5 <= 3 <= 9)%nat /\
  parseVarInt (encode_varint_len 3 5 ++ [x07]) = ROk 5 [x07].
Proof.
  split; [lia|]. split; [vm_compute; lia|].
  apply (parseVarInt_accepts_every_category 5 3 [x07]).
  - lia.
  - vm_compute. lia.
Defined.

Lemma length_encode_varint_len (m : nat) (x : Z) :
  (m <= 9)%nat -> length (encode_varint_len m x) = m.
Proof.
  intros Hm. unfold encode_varint_len.
  destruct (Nat.leb_spec m 8).
  - apply length_le_bytes.
  - cbn [length]. rewrite length_le_bytes. lia.
Qed.

Lemma flag_word (x : Z) (flag : bool) :
  0 <= x < 2 ^ 63 ->
  u64 (Z.lor (Z.shiftl x 1) (if flag then 1 else 0))
  = 2 * x + (if flag then 1 else 0).
Proof.
  intros Hx. unfold u64, UINT64_MOD.
  assert (E : Z.lor (Z.shiftl x 1) (if flag then 1 else 0)
              = 2 * x + (if flag then 1 else 0)).
  { destruct flag.
    - change 1 with (Z.shiftl 1 (1 - 1)) at 2.
      rewrite marker_lor by lia. change (2 ^ (1 - 1)) with 1.
      change (2 ^ 1) with 2. lia.
    - rewrite Z.lor_0_r, Z.shiftl_mul_pow2 by lia. change (2 ^ 1) with 2. lia. }
  rewrite E. apply Z.mod_small. destruct flag; lia.
Qed.

(** C2 (amended): for every 64-bit [x], decoding the minimal-length encoding
    of [x] yields [x]; that encoding has [k] bytes when [x] lies in the
    [k]-th category ([x < 2^7] for one byte, [2^(7(k-1)) <= x < 2^(7k)] for
    [k] bytes up to 8, and 9 bytes when [x >= 2^56]); and for every
    [x < 2^63] and every flag, [parseVarIntWithFlag] applied to the encoding
    of [(x << 1) | flag] yields [(x, flag)]. *)
Theorem varint_roundtrip (x : Z) (flag : bool) (rest : list byte) :
  0 <= x < 2 ^ 64 ->
  parseVarInt (encode_varint x ++ rest) = ROk x rest /\
  (forall k : nat, (1 <= k <= 8)%nat ->
     (k = 1%nat \/ 2 ^ (7 * (Z.of_nat k - 1)) <= x) ->
     x < 2 ^ (7 * Z.of_nat k) ->
     length (encode_varint x) = k) /\
  (2 ^ 56 <= x -> length (encode_varint x) = 9%nat) /\
  (x < 2 ^ 63 ->
   parseVarIntWithFlag (encode_varint_with_flag x flag ++ rest)
   = ROk (x, flag) rest).
Proof.
  intros Hx.
  assert (Hdec : forall y, 0 <= y < 2 ^ 64 ->
                   parseVarInt (encode_varint y ++ rest) = ROk y rest).
  { intros y Hy. unfold encode_varint.
    pose proof (min_varint_len_range y).
    apply parseVarInt_accepts_every_category; [exact Hy|lia]. }
  split; [by apply Hdec|]. split; [|split].
  - intros k Hk Hlo Hhi. unfold encode_varint.
    rewrite length_encode_varint_len by (pose proof (min_varint_len_range x); lia).
    unfold min_varint_len.
    do 9 (destruct k as [|k]; [try lia; simpl in Hlo, Hhi;
      repeat match goal with
             | |- context [?a <? ?b] => destruct (Z.ltb_spec a b)
             end; lia|]); lia.
  - intros Hbig. unfold encode_varint.
    rewrite length_encode_varint_len by (pose proof (min_varint_len_range x); lia).
    unfold min_varint_len.
    repeat match goal with
           | |- context [?a <? ?b] => destruct (Z.ltb_spec a b)
           end; lia.
  - intros Hsmall. unfold parseVarIntWithFlag, encode_varint_with_flag.
    rewrite flag_word by lia.
    rewrite Hdec by (destruct flag; lia).
    rewrite Z.shiftr_div_pow2 by lia. change (2 ^ 1) with 2.
    f_equal. f_equal.
    + rewrite Z.add_comm, Z.mul_comm, Z.div_add by lia.
      destruct flag; rewrite Z.div_small by lia; lia.
    + rewrite Z.add_comm, Z.odd_add_mul_2. by destruct flag.
Qed.

Lemma varint_roundtrip_witness :
  0 <= 300 < 2 ^ 64 /\
  parseVarInt (encode_varint 300 ++ []) = ROk 300 [] /\
  parseVarIntWithFlag (encode_varint_with_flag 300 true ++ [])
  = ROk (300, true) [].
Proof.
  split; [lia|].
  destruct (varint_roundtrip 300 true []) as (H1 & _ & _ & H4); [lia|].
  split; [exact H1|apply H4; lia].
Defined.

(** C2, as stated, fails for a flagged value whose top bit is set: the
    64-bit word [(x << 1) | flag] loses bit 63 of [x]. *)
Lemma varint_with_flag_drops_bit_63 :
  0 <= 2 ^ 63 < 2 ^ 64 /\
  parseVarIntWithFlag (encode_varint_with_flag (2 ^ 63) false)
  = ROk (0, false) [] /\
  parseVarIntWithFlag (encode_varint_with_flag (2 ^ 63) false)
  <> ROk (2 ^ 63, false) [].
Proof.
  split; [lia|]. split; [vm_compute; reflexivity|].
  vm_compute. discriminate.
Qed.

(** ** Range and progress of [parseVarInt] *)

Lemma ctz_fuel_lt (fuel : nat) (n : nat) (x : Z) :
  0 < x < 2 ^ Z.of_nat n -> 0 <= ctz_fuel fuel x < Z.of_nat n.
Proof.
  revert n x. induction fuel as [|fuel IH]; intros n x Hx.
  - simpl. destruct n; [simpl in Hx; lia|lia].
  - cbn [ctz_fuel]. destruct n as [|n]; [simpl in Hx; lia|].
    destruct (Z.odd x) eqn:Ho; [lia|].
    rewrite Nat2Z.inj_succ, Z.pow_succ_r in Hx by lia.
    assert (He : x = 2 * (x / 2)).
    { rewrite (Z.div_mod x 2) at 1 by lia.
      rewrite Zmod_odd, Ho. lia. }
    specialize (IH n (x / 2)). lia.
Qed.

Lemma parseBytes_ok (len : Z) (r r' : EncodingReader.t) (bs : list byte) :
  0 <= len ->
  parseBytes len r = ROk bs r' ->
  r = bs ++ r' /\ Z.of_nat (length bs) = len.
Proof.
  unfold parseBytes, size. intros Hlen.
  destruct (Z.ltb_spec (Z.of_nat (length r)) len); [discriminate|].
  intros [= <- <-]. split; [by rewrite take_drop|].
  rewrite length_take. lia.
Qed.

Lemma parseVarInt_range (r r' : EncodingReader.t) (v : Z) :
  parseVarInt r = ROk v r' ->
  0 <= v < 2 ^ 64 /\ (length r' < length r)%nat.
Proof.
  unfold parseVarInt, parseByte. destruct r as [|b r0]; [discriminate|].
  pose proof (byteZ_range b) as Hb.
  destruct (Z.odd (byteZ b)) eqn:Ho.
  - intros [= <- <-]. rewrite Z.shiftr_div_pow2 by lia. change (2 ^ 1) with 2.
    split; [|simpl; lia].
    split; [apply Z.div_pos; lia|].
    apply Z.div_lt_upper_bound; lia.
  - destruct (Z.eqb_spec (byteZ b) 0) as [E0|Hne].
    + unfold parseBytesInto.
      destruct (parseBytes 8 r0) as [bs r1|d] eqn:E; [|discriminate].
      apply parseBytes_ok in E as [-> Hl]; [|lia].
      intros [= <- <-]. rewrite E0, memcpy_word_le by (simpl; lia).
      pose proof (le_value_range bs) as Hr.
      replace (8 * Z.of_nat (length bs)) with 64 in Hr by lia.
      change (2 ^ (8 * Z.of_nat 0)) with 1.
      split; [lia|]. cbn [length]. rewrite length_app. lia.
    + unfold parseMultiByteVarInt, parseBytesInto, countTrailingZeros, u32, UINT32_MOD.
      rewrite (Z.mod_small (byteZ b)) by lia.
      pose proof (ctz_fuel_lt 32 8 (byteZ b)) as Hc.
      change (2 ^ Z.of_nat 8) with 256 in Hc.
      set (k := ctz_fuel 32 (byteZ b)) in *.
      destruct (parseBytes k r0) as [bs r1|d] eqn:E; [|discriminate].
      apply parseBytes_ok in E as [-> Hl]; [|lia].
      intros [= <- <-].
      rewrite memcpy_word_le by (change (2 ^ (8 * Z.of_nat 1)) with 256; lia).
      change (2 ^ (8 * Z.of_nat 1)) with 256.
      pose proof (le_value_range bs) as Hr. rewrite Hl in Hr.
      rewrite Z.shiftr_div_pow2 by lia.
      assert (Hp : 0 < 2 ^ (k + 1)) by (apply Z.pow_pos_nonneg; lia).
      split; [|cbn [length]; rewrite length_app; lia].
      split; [apply Z.div_pos; lia|].
      apply Z.div_lt_upper_bound; [lia|].
      assert (Hw : byteZ b + 256 * le_value bs < 256 * 2 ^ (8 * k)) by lia.
      assert (H56 : 2 ^ (8 * k) <= 2 ^ 56) by (apply Z.pow_le_mono_r; lia).
      nia.
Qed.

(** ** String section *)

Example two_string_section_parses :
  parseStringSection two_string_section
  = ROk [mkStringRef 3 2; mkStringRef 6 1] [x61; x62; x00; x63; x00]
  /\ StringRef_bytes two_string_section (mkStringRef 3 2) = Some [x61; x62]
  /\ StringRef_bytes two_string_section (mkStringRef 6 1) = Some [x63].
Proof. repeat split; vm_compute; reflexivity. Qed.

Lemma readVarInts_length (n : nat) (r data : EncodingReader.t) (sizes : list Z) :
  readVarInts n r = ROk sizes data -> length sizes = n.
Proof.
  revert r sizes. induction n as [|n IH]; intros r sizes; cbn [readVarInts].
  - by intros [= <- <-].
  - destruct (parseVarInt r) as [v r1|d]; [|discriminate].
    destruct (readVarInts n r1) as [vs r2|d] eqn:E; [|discriminate].
    intros [= <- <-]. cbn [length]. f_equal. eauto.
Qed.

Lemma readVarInts_nonneg (n : nat) (r data : EncodingReader.t) (sizes : list Z) :
  readVarInts n r = ROk sizes data -> Forall (fun s => 0 <= s < 2 ^ 64) sizes.
Proof.
  revert r sizes. induction n as [|n IH]; intros r sizes; cbn [readVarInts].
  - intros [= <- <-]. constructor.
  - destruct (parseVarInt r) as [v r1|d] eqn:Ev; [|discriminate].
    destruct (readVarInts n r1) as [vs r2|d] eqn:E; [|discriminate].
    intros [= <- <-]. constructor; [|eauto].
    by apply parseVarInt_range in Ev as [? _].
Qed.

Lemma sum_sizes_nonneg (l : list Z) :
  Forall (fun s => 0 <= s < 2 ^ 64) l -> 0 <= sum_sizes l.
Proof. induction 1; cbn [sum_sizes foldr]; [lia|]. fold (sum_sizes l). lia. Qed.

Lemma u64_add_l (a b : Z) : u64 (u64 a + b) = u64 (a + b).
Proof. unfold u64, UINT64_MOD. by rewrite Zplus_mod_idemp_l. Qed.

(** The loop stops at the first stored size that exceeds the offset left. *)
Lemma parseStringSizes_exceeds (n : nat) :
  forall (r data : EncodingReader.t) (sizes : list Z) (e tot : Z)
         (strs : list StringRef),
    readVarInts n r = ROk sizes data ->
    (exists j s, sizes !! j = Some s /\ e - sum_sizes (take j sizes) < s) ->
    parseStringSizes n r e tot strs = RErr string_size_exceeds.
Proof.
  induction n as [|n IH]; intros r data sizes e tot strs; cbn [readVarInts].
  - intros [= <- <-] (j & s & Hj & _). by rewrite lookup_nil in Hj.
  - destruct (parseVarInt r) as [v r1|d] eqn:Ev; [|discriminate].
    destruct (readVarInts n r1) as [vs r2|d] eqn:E; [|discriminate].
    intros [= <- <-] (j & s & Hj & Hs).
    cbn [parseStringSizes]. rewrite Ev.
    destruct (Z.ltb_spec e v) as [|Hfit]; [reflexivity|].
    destruct j as [|j].
    + simpl in Hj, Hs. injection Hj as <-. lia.
    + apply (IH r1 r2 vs); [exact E|].
      exists j, s. split; [exact Hj|].
      cbn [take sum_sizes foldr] in Hs. fold (sum_sizes (take j vs)) in Hs. lia.
Qed.

(** When every stored size fits, the loop fills the table from its last
    index to its first while the sizes are read first to last. *)
Lemma parseStringSizes_fits (n : nat) :
  forall (r data : EncodingReader.t) (sizes : list Z) (e tot : Z)
         (strs : list StringRef),
    readVarInts n r = ROk sizes data ->
    (forall j s, sizes !! j = Some s -> s <= e - sum_sizes (take j sizes)) ->
    0 <= tot < 2 ^ 64 ->
    exists tbl,
      parseStringSizes n r e tot strs
      = ROk (tbl ++ strs, u64 (tot + sum_sizes sizes)) data
      /\ length tbl = n
      /\ forall j s, sizes !! j = Some s ->
           tbl !! (n - 1 - j)%nat
           = Some (mkStringRef (e - sum_sizes (take (S j) sizes)) (u64 (s - 1))).
Proof.
  induction n as [|n IH]; intros r data sizes e tot strs; cbn [readVarInts].
  - intros [= <- <-] _ Htot. exists []. cbn [parseStringSizes sum_sizes foldr app].
    split; [|split; [done|]].
    + unfold u64, UINT64_MOD. rewrite Z.add_0_r, Z.mod_small by lia. done.
    + intros j s Hj. by rewrite lookup_nil in Hj.
  - destruct (parseVarInt r) as [v r1|d] eqn:Ev; [|discriminate].
    destruct (readVarInts n r1) as [vs r2|d] eqn:E; [|discriminate].
    intros [= <- <-] Hfit Htot.
    cbn [parseStringSizes]. rewrite Ev.
    pose proof (Hfit 0%nat v eq_refl) as H0. cbn in H0.
    destruct (Z.ltb_spec e v) as [|_]; [lia|].
    destruct (IH r1 r2 vs (e - v) (u64 (tot + v))
                (mkStringRef (e - v) (u64 (v - 1)) :: strs) E)
      as (tbl & Hrun & Hlen & Hidx).
    { intros j s Hj. specialize (Hfit (S j) s Hj).
      cbn [take sum_sizes foldr] in Hfit. fold (sum_sizes (take j vs)) in Hfit. lia. }
    { unfold u64, UINT64_MOD. apply Z.mod_pos_bound. lia. }
    exists (tbl ++ [mkStringRef (e - v) (u64 (v - 1))]).
    split; [|split].
    + rewrite Hrun, <- app_assoc. cbn [app sum_sizes foldr].
      fold (sum_sizes vs). rewrite u64_add_l. do 3 f_equal. lia.
    + rewrite length_app, Hlen. simpl. lia.
    + intros j s Hj. destruct j as [|j].
      * injection Hj as <-.
        replace (S n - 1 - 0)%nat with (length tbl + 0)%nat by lia.
        rewrite lookup_app_r by lia.
        replace (length tbl + 0 - length tbl)%nat with 0%nat by lia.
        change (take 1 (v :: vs)) with (v :: take 0 vs). rewrite take_0. cbn. do 2 f_equal. lia.
      * cbn in Hj. pose proof (lookup_lt_Some _ _ _ Hj) as Hlt.
        apply readVarInts_length in E. rewrite E in Hlt.
        rewrite lookup_app_l by lia.
        replace (S n - 1 - S j)%nat with (n - 1 - j)%nat by lia.
        rewrite (Hidx j s Hj). do 2 f_equal.
        cbn [take sum_sizes foldr]. fold (sum_sizes (take (S j) vs)).
        change (take (S j) vs) with (take (S j) vs). lia.
Qed.

(** C7 (amended): in a string section whose count and [N] stored sizes can
    be read, the stored sizes are walked from the first to the last, each
    one subtracted from an offset that starts at the section length, and the
    [j]-th stored size locates the string of index [N-1-j]; so the first
    stored size is that of the last string, at the tail of the section, and
    the last stored size is that of string 0, at offset 0 of the string-data
    region.  The returned slice is one byte shorter than the stored size.
    Parsing fails with [string_size_exceeds] when a stored size exceeds the
    offset left before it, and with [string_trailing_data] when all sizes
    fit but do not sum to the size of the remaining data. *)
Theorem parseStringSection_layout
    (sectionData : list byte) (numStrings : Z) (r data : EncodingReader.t)
    (sizes : list Z) :
  size sectionData < 2 ^ 64 ->
  parseVarInt sectionData = ROk numStrings r ->
  readVarInts (Z.to_nat numStrings) r = ROk sizes data ->
  ((exists j s, sizes !! j = Some s
                /\ size sectionData - sum_sizes (take j sizes) < s) ->
   parseStringSection sectionData = RErr string_size_exceeds)
  /\
  ((forall j s, sizes !! j = Some s ->
                s <= size sectionData - sum_sizes (take j sizes)) ->
   (sum_sizes sizes <> size data ->
    parseStringSection sectionData = RErr string_trailing_data)
   /\
   (sum_sizes sizes = size data ->
    exists strings,
      parseStringSection sectionData = ROk strings data
      /\ length strings = length sizes
      /\ (forall j s, sizes !! j = Some s ->
            strings !! (length sizes - 1 - j)%nat
            = Some (mkStringRef
                      (size sectionData - sum_sizes (take (S j) sizes))
                      (u64 (s - 1))))
      /\ (forall s, list.last sizes = Some s ->
            strings !! 0%nat
            = Some (mkStringRef (size sectionData - size data) (u64 (s - 1)))))).
Proof.
  intros Hlen Hn Hsizes. unfold parseStringSection. rewrite Hn.
  pose proof (readVarInts_length _ _ _ _ Hsizes) as HN.
  pose proof (sum_sizes_nonneg _ (readVarInts_nonneg _ _ _ _ Hsizes)) as Hpos.
  split.
  - intros Hex. by rewrite (parseStringSizes_exceeds _ _ _ _ _ _ _ Hsizes Hex).
  - intros Hfit.
    destruct (parseStringSizes_fits _ r data sizes (size sectionData) 0 []
                Hsizes Hfit ltac:(lia)) as (tbl & Hrun & Hl & Hidx).
    rewrite Hrun, app_nil_r, Z.add_0_l.
    assert (Hsum : sum_sizes sizes <= size sectionData).
    { destruct sizes as [|s0 ss] using rev_ind; [unfold size; cbn; lia|].
      clear IHss.
      specialize (Hfit (length ss) s0).
      rewrite lookup_app_r, Nat.sub_diag in Hfit by lia.
      specialize (Hfit eq_refl). rewrite take_app_length in Hfit.
      unfold sum_sizes in *. rewrite foldr_app. cbn [foldr].
      assert (Hacc : forall l a, foldr Z.add a l = a + foldr Z.add 0 l).
      { induction l as [|x l IHl]; intros a; cbn [foldr]; [lia|].
        rewrite (IHl a). lia. }
      rewrite Hacc. lia. }
    assert (Hu : u64 (sum_sizes sizes) = sum_sizes sizes).
    { unfold u64, UINT64_MOD. apply Z.mod_small. lia. }
    rewrite Hu. split.
    + intros Hne. by destruct (Z.eqb_spec (size data) (sum_sizes sizes)); [lia|].
    + intros Heq. destruct (Z.eqb_spec (size data) (sum_sizes sizes)); [|lia].
      exists tbl. split; [done|]. split; [lia|]. split.
      * intros j s Hj. rewrite HN. by apply Hidx.
      * intros s Hlast. rewrite last_lookup in Hlast.
        specialize (Hidx _ _ Hlast).
        replace (Z.to_nat numStrings - 1 - Nat.pred (length sizes))%nat
          with 0%nat in Hidx by lia.
        rewrite Hidx. do 2 f_equal.
        assert (Hlt : (Nat.pred (length sizes) < length sizes)%nat)
          by (apply lookup_lt_Some in Hlast; lia).
        rewrite take_ge by lia. lia.
Qed.

Lemma parseStringSection_layout_witness :
  size two_string_section < 2 ^ 64
  /\ parseVarInt two_string_section
     = ROk 2 [x05; x07; x61; x62; x00; x63; x00]
  /\ readVarInts (Z.to_nat 2) [x05; x07; x61; x62; x00; x63; x00]
     = ROk [2; 3] [x61; x62; x00; x63; x00]
  /\ exists strings,
       parseStringSection two_string_section
       = ROk strings [x61; x62; x00; x63; x00]
       /\ strings !! 0%nat = Some (mkStringRef 3 2)
       /\ strings !! 1%nat = Some (mkStringRef 6 1).
Proof.
  split; [vm_compute; reflexivity|].
  split; [vm_compute; reflexivity|].
  split; [vm_compute; reflexivity|].
  destruct (parseStringSection_layout two_string_section 2
              [x05; x07; x61; x62; x00; x63; x00]
              [x61; x62; x00; x63; x00] [2; 3])
    as [_ Hfit]; [vm_compute; reflexivity|vm_compute; reflexivity
                 |vm_compute; reflexivity|].
  destruct Hfit as [_ Hok].
  - intros [|[|j]] s Hj; vm_compute in Hj; try discriminate;
      injection Hj as <-; vm_compute; discriminate.
  - destruct Hok as (strings & Hrun & _ & Hidx & Hlast);
      [vm_compute; reflexivity|].
    exists strings. split; [exact Hrun|]. split.
    + apply (Hlast 3). reflexivity.
    + apply (Hidx 0%nat 2). reflexivity.
Defined.

(** C7, as stated, does not describe the reader.  On [two_string_section]
    the stored sizes are 2 then 3.  Walking the stored sizes from the last
    to the first gives another table than the reader's; and if the size
    list is taken in index order (3 then 2), the walk agrees with the reader
    but the string of the last size then lies at offset 6, not at the start
    of the string data (offset 3). *)
Lemma string_sizes_are_walked_first_to_last :
  parseStringSection two_string_section
  = ROk [mkStringRef 3 2; mkStringRef 6 1] [x61; x62; x00; x63; x00]
  /\ readVarInts 2 [x05; x07; x61; x62; x00; x63; x00]
     = ROk [2; 3] [x61; x62; x00; x63; x00]
  /\ fst (spec_string_layout [2; 3] (size two_string_section))
     = [mkStringRef 3 1; mkStringRef 5 2]
  /\ fst (spec_string_layout [2; 3] (size two_string_section))
     <> [mkStringRef 3 2; mkStringRef 6 1]
  /\ fst (spec_string_layout [3; 2] (size two_string_section))
     = [mkStringRef 3 2; mkStringRef 6 1]
  /\ list.last (fst (spec_string_layout [3; 2] (size two_string_section)))
     <> Some (mkStringRef
                (size two_string_section - size [x61; x62; x00; x63; x00]) 1).
Proof.
  repeat split; try (vm_compute; reflexivity); vm_compute; discriminate.
Qed.

Lemma sum_sizes_app (l1 l2 : list Z) :
  sum_sizes (l1 ++ l2) = sum_sizes l1 + sum_sizes l2.
Proof.
  unfold sum_sizes. induction l1 as [|x l1 IH]; cbn [app foldr]; lia.
Qed.

Lemma sum_sizes_take_S (sizes : list Z) (j : nat) (s : Z) :
  sizes !! j = Some s ->
  sum_sizes (take (S j) sizes) = sum_sizes (take j sizes) + s.
Proof.
  intros Hj. rewrite (take_S_r _ _ _ Hj), sum_sizes_app.
  unfold sum_sizes. cbn [foldr]. lia.
Qed.

Lemma sum_sizes_take_le (sizes : list Z) (j : nat) :
  Forall (fun s => 0 <= s < 2 ^ 64) sizes ->
  0 <= sum_sizes (take j sizes) <= sum_sizes sizes.
Proof.
  intros Hpos. rewrite <- (take_drop j sizes) at 3. rewrite sum_sizes_app.
  pose proof (sum_sizes_nonneg _ (Forall_take _ j _ Hpos)).
  pose proof (sum_sizes_nonneg _ (Forall_drop _ j _ Hpos)).
  lia.
Qed.

Lemma readVarInts_shorter (n : nat) :
  forall (r data : EncodingReader.t) (sizes : list Z),
    readVarInts n r = ROk sizes data -> (length data + n <= length r)%nat.
Proof.
  induction n as [|n IH]; intros r data sizes; cbn [readVarInts].
  - intros [= _ <-]. lia.
  - destruct (parseVarInt r) as [v r1|d] eqn:Ev; [|discriminate].
    destruct (readVarInts n r1) as [vs r2|d] eqn:E; [|discriminate].
    intros [= _ <-]. apply IH in E.
    apply parseVarInt_range in Ev as [_ Ev]. lia.
Qed.

(** C9: in a string section with an entry whose stored size is 0, that
    entry does not take the branch of [string_size_exceeds]: whatever its
    place among the entries, the check [stringDataEndOffset < stringSize]
    passes for it.  So when the other entries fit and the sizes sum to the
    size of the string data the section is accepted, and the table gives
    the string of that entry the length [0 - 1] taken modulo [2^64], that
    is [2^64 - 1]; such a string does not lie within the section. *)
Theorem zero_string_size_wraps
    (sectionData : list byte) (numStrings : Z) (r data : EncodingReader.t)
    (sizes : list Z) (j : nat) :
  size sectionData < 2 ^ 64 ->
  parseVarInt sectionData = ROk numStrings r ->
  readVarInts (Z.to_nat numStrings) r = ROk sizes data ->
  sizes !! j = Some 0 ->
  (forall i s, i <> j -> sizes !! i = Some s ->
               s <= size sectionData - sum_sizes (take i sizes)) ->
  sum_sizes sizes = size data ->
  exists strings,
    let zeroSized :=
      mkStringRef (size sectionData - sum_sizes (take j sizes)) (2 ^ 64 - 1) in
    parseStringSection sectionData = ROk strings data
    /\ length strings = length sizes
    /\ strings !! (length sizes - 1 - j)%nat = Some zeroSized
    /\ StringRef_bytes sectionData zeroSized = None.
Proof.
  intros Hlen Hn Hsizes Hj Hothers Hsum. cbv zeta.
  pose proof (readVarInts_length _ _ _ _ Hsizes) as HN.
  pose proof (readVarInts_nonneg _ _ _ _ Hsizes) as Hnn.
  pose proof (readVarInts_shorter _ _ _ _ Hsizes) as Hshort.
  pose proof (proj2 (parseVarInt_range _ _ _ Hn)) as Hr.
  pose proof (lookup_lt_Some _ _ _ Hj) as Hjlt.
  pose proof (sum_sizes_take_le sizes j Hnn) as Htake.
  assert (Hdata : size data + 2 <= size sectionData) by (unfold size; lia).
  assert (Hfit : forall i s, sizes !! i = Some s ->
                   s <= size sectionData - sum_sizes (take i sizes)).
  { intros i s Hi. destruct (decide (i = j)) as [->|Hne]; [|by apply Hothers].
    rewrite Hj in Hi. injection Hi as <-. lia. }
  unfold parseStringSection. rewrite Hn.
  destruct (parseStringSizes_fits _ r data sizes (size sectionData) 0 []
              Hsizes Hfit ltac:(lia)) as (tbl & Hrun & Hl & Hidx).
  rewrite Hrun, app_nil_r, Z.add_0_l.
  assert (Hu : u64 (sum_sizes sizes) = sum_sizes sizes).
  { unfold u64, UINT64_MOD. apply Z.mod_small. unfold size in *. lia. }
  rewrite Hu. destruct (Z.eqb_spec (size data) (sum_sizes sizes)); [|lia].
  exists tbl. split; [done|]. split; [lia|]. split.
  - rewrite HN, (Hidx j 0 Hj), (sum_sizes_take_S _ _ _ Hj), Z.add_0_r.
    reflexivity.
  - unfold StringRef_bytes. cbn [sr_offset sr_size].
    destruct (Z.leb_spec
                (size sectionData - sum_sizes (take j sizes) + (2 ^ 64 - 1))
                (size sectionData)); [lia|].
    by rewrite andb_false_r.
Qed.

(** The section with the count 2, the stored sizes 0 and 2 and the string
    data "a": the entry of stored size 0 is that of string 1. *)
Lemma zero_string_size_wraps_witness :
  exists strings,
    parseStringSection [x05; x01; x05; x61; x00] = ROk strings [x61; x00]
    /\ length strings = 2%nat
    /\ strings !! 1%nat = Some (mkStringRef 5 (2 ^ 64 - 1))
    /\ StringRef_bytes [x05; x01; x05; x61; x00]
         (mkStringRef 5 (2 ^ 64 - 1)) = None.
Proof.
  apply (zero_string_size_wraps [x05; x01; x05; x61; x00] 2
           [x01; x05; x61; x00] [x61; x00] [0; 2] 0).
  - vm_compute. reflexivity.
  - vm_compute. reflexivity.
  - vm_compute. reflexivity.
  - reflexivity.
  - intros [|[|i]] s Hne Hi; [done| |discriminate].
    injection Hi as <-. vm_compute. discriminate.
  - vm_compute. reflexivity.
Defined.

(** A whole section made of the count 1 and the stored size 0 is accepted,
    with a string of length [2^64 - 1] that lies outside the section. *)
Example zero_size_section_accepted :
  parseStringSection [x03; x01] = ROk [mkStringRef 2 (2 ^ 64 - 1)] []
  /\ StringRef_bytes [x03; x01] (mkStringRef 2 (2 ^ 64 - 1)) = None.
Proof. split; vm_compute; reflexivity. Qed.

(** ** Rules of [wp] *)

Lemma wp_ret {A} (a : A) Q F s : Q a s -> wp (mret a) Q F s.
Proof. done. Qed.

Lemma wp_bind {A B} (m : M A) (k : A -> M B) Q F s :
  wp m (fun a s' => wp (k a) Q F s') F s -> wp (m ≫= k) Q F s.
Proof.
  unfold wp, mbind, M_bind. by destruct (m s).
Qed.

Lemma wp_mono {A} (m : M A) (Q Q' : A -> BytecodeReader -> Prop)
    (F F' : BytecodeReader -> Prop) s :
  wp m Q F s ->
  (forall a s', Q a s' -> Q' a s') ->
  (forall s', F s' -> F' s') ->
  wp m Q' F' s.
Proof. unfold wp. destruct (m s); auto. Qed.

Lemma wp_get Q F s : Q s s -> wp get Q F s.
Proof. done. Qed.

Lemma wp_put s' Q F s : Q tt s' -> wp (put s') Q F s.
Proof. done. Qed.

Lemma wp_modify f Q F s : Q tt (f s) -> wp (modify f) Q F s.
Proof. done. Qed.

Lemma wp_failure {A} (Q : A -> BytecodeReader -> Prop) F s :
  F s -> wp failure Q F s.
Proof. done. Qed.

Lemma wp_undefined {A} (Q : A -> BytecodeReader -> Prop) F s :
  wp undefined Q F s.
Proof. done. Qed.

Lemma wp_out_of_fuel {A} (Q : A -> BytecodeReader -> Prop) F s :
  wp (fun _ => OutOfFuel) Q F s.
Proof. done. Qed.

Lemma wp_emitError {A} d (Q : A -> BytecodeReader -> Prop) F s :
  F (set_diagnostics (diagnostics s ++ [d]) s) -> wp (emitError d) Q F s.
Proof. done. Qed.

Lemma wp_liftR {A} (x : res A) Q F s :
  (forall a r, x = ROk a r -> Q (a, r) s) ->
  (forall d, x = RErr d -> F (set_diagnostics (diagnostics s ++ [d]) s)) ->
  wp (liftR x) Q F s.
Proof. destruct x; intros HQ HF; [by apply HQ|by apply HF]. Qed.

Lemma wp_bind_assoc {A B C} (m : M A) (k1 : A -> M B) (k2 : B -> M C) Q F s :
  wp (m ≫= (fun a => k1 a ≫= k2)) Q F s -> wp ((m ≫= k1) ≫= k2) Q F s.
Proof. unfold wp, mbind, M_bind. by destruct (m s). Qed.

Lemma wp_conj {A} (m : M A) (Q1 Q2 : A -> BytecodeReader -> Prop)
    (F1 F2 : BytecodeReader -> Prop) s :
  wp m Q1 F1 s -> wp m Q2 F2 s ->
  wp m (fun a s' => Q1 a s' /\ Q2 a s') (fun s' => F1 s' /\ F2 s') s.
Proof. unfold wp. destruct (m s); auto. Qed.

Lemma wp_Done {A} (m : M A) Q F s a s' :
  wp m Q F s -> m s = Done a s' -> Q a s'.
Proof. unfold wp. intros H E. by rewrite E in H. Qed.

Lemma wp_Failed {A} (m : M A) Q F s s' :
  wp m Q F s -> m s = Failed s' -> F s'.
Proof. unfold wp. intros H E. by rewrite E in H. Qed.

Section FrameRules.

Context {RD RF : BytecodeReader -> BytecodeReader -> Prop}.
Context (HF : Frame RD RF).

Lemma wpR_ret {A} (a : A) s0 s : RD s0 s -> wpR RD RF s0 (mret a) s.
Proof. done. Qed.

Lemma wpR_bind_spec {A B} (m : M A) (k : A -> M B) s0 s :
  rel_spec RD RF m -> RD s0 s ->
  (forall a s', RD s0 s' -> wpR RD RF s0 (k a) s') ->
  wpR RD RF s0 (m ≫= k) s.
Proof.
  intros Hm Hs Hk. apply wp_bind. specialize (Hm s).
  eapply wp_mono; [exact Hm| |]; cbn.
  - intros a s' H. apply Hk. eapply frame_trans; eauto.
  - intros s' H. eapply frame_fail; eauto.
Qed.

Lemma wpR_call {A} (m : M A) s0 s :
  rel_spec RD RF m -> RD s0 s -> wpR RD RF s0 m s.
Proof.
  intros Hm Hs. specialize (Hm s).
  eapply wp_mono; [exact Hm| |]; cbn.
  - intros a s' H. eapply frame_trans; eauto.
  - intros s' H. eapply frame_fail; eauto.
Qed.

Lemma wpR_bind_assoc {A B C} (m : M A) (k1 : A -> M B) (k2 : B -> M C) s0 s :
  wpR RD RF s0 (m ≫= (fun a => k1 a ≫= k2)) s ->
  wpR RD RF s0 ((m ≫= k1) ≫= k2) s.
Proof.
  unfold wpR, wp, mbind, M_bind. by destruct (m s).
Qed.

Lemma wpR_get_bind {B} (k : BytecodeReader -> M B) s0 s :
  wpR RD RF s0 (k s) s -> wpR RD RF s0 (get ≫= k) s.
Proof. done. Qed.

Lemma wpR_put_bind {B} s' (k : unit -> M B) s0 s :
  wpR RD RF s0 (k tt) s' -> wpR RD RF s0 (put s' ≫= k) s.
Proof. done. Qed.

Lemma wpR_modify_bind {B} f (k : unit -> M B) s0 s :
  wpR RD RF s0 (k tt) (f s) -> wpR RD RF s0 (modify f ≫= k) s.
Proof. done. Qed.

Lemma wpR_ret_bind {A B} (a : A) (k : A -> M B) s0 s :
  wpR RD RF s0 (k a) s -> wpR RD RF s0 (mret a ≫= k) s.
Proof. done. Qed.

Lemma wpR_put s' s0 s : RD s0 s' -> wpR RD RF s0 (put s') s.
Proof. done. Qed.

Lemma wpR_modify f s0 s : RD s0 (f s) -> wpR RD RF s0 (modify f) s.
Proof. done. Qed.

Lemma wpR_failure {A} s0 s : RF s0 s -> wpR RD RF s0 (@failure A) s.
Proof. done. Qed.

Lemma wpR_undefined {A} s0 s : wpR RD RF s0 (@undefined A) s.
Proof. done. Qed.

Lemma wpR_undefined_bind {A B} (k : A -> M B) s0 s :
  wpR RD RF s0 (undefined ≫= k) s.
Proof. done. Qed.

Lemma wpR_out_of_fuel {A} s0 s :
  wpR RD RF s0 (fun _ => @OutOfFuel A) s.
Proof. done. Qed.

Lemma wpR_emitError {A} d s0 s :
  RF s0 (set_diagnostics (diagnostics s ++ [d]) s) ->
  wpR RD RF s0 (@emitError A d) s.
Proof. done. Qed.

Lemma wpR_emitError_bind {A B} d (k : A -> M B) s0 s :
  RF s0 (set_diagnostics (diagnostics s ++ [d]) s) ->
  wpR RD RF s0 (emitError d ≫= k) s.
Proof. done. Qed.

Lemma wpR_failure_bind {A B} (k : A -> M B) s0 s :
  RF s0 s -> wpR RD RF s0 (failure ≫= k) s.
Proof. done. Qed.

Lemma wpR_liftR_bind {A B} (x : res A) (k : A * EncodingReader.t -> M B) s0 s :
  (forall a r, x = ROk a r -> wpR RD RF s0 (k (a, r)) s) ->
  (forall d, x = RErr d -> RF s0 (set_diagnostics (diagnostics s ++ [d]) s)) ->
  wpR RD RF s0 (liftR x ≫= k) s.
Proof. destruct x; intros HQ HE; [by apply HQ|by apply HE]. Qed.

Lemma wpR_liftR {A} (x : res A) s0 s :
  RD s0 s ->
  (forall d, x = RErr d -> RF s0 (set_diagnostics (diagnostics s ++ [d]) s)) ->
  wpR RD RF s0 (liftR x) s.
Proof. destruct x; intros HQ HE; [done|by apply HE]. Qed.

Lemma wpQ_bind_spec {A B} (m : M A) (k : A -> M B) Q s0 s :
  rel_spec RD RF m -> RD s0 s ->
  (forall a s', RD s0 s' -> wp (k a) Q (RF s0) s') ->
  wp (m ≫= k) Q (RF s0) s.
Proof.
  intros Hm Hs Hk. apply wp_bind. specialize (Hm s).
  eapply wp_mono; [exact Hm| |]; cbn.
  - intros a s' H. apply Hk. eapply frame_trans; eauto.
  - intros s' H. eapply frame_fail; eauto.
Qed.

Lemma rel_spec_intro {A} (m : M A) :
  (forall s, RD s s -> wpR RD RF s m s) -> rel_spec RD RF m.
Proof. intros H s. apply H. apply frame_refl. Qed.

End FrameRules.

Lemma nonempty_length {A} (l : list A) : l <> [] -> (0 < length l)%nat.
Proof. destruct l; [done|simpl; lia]. Qed.

(** ** Stepping through a reader function *)

Ltac wpR_step leaf :=
  lazymatch goal with
  | |- wpR _ _ _ (mret _) _ => apply wpR_ret; leaf
  | |- wpR _ _ _ ((_ ≫= _) ≫= _) _ => apply wpR_bind_assoc
  | |- wpR _ _ _ (mret _ ≫= _) _ => apply wpR_ret_bind; cbv beta
  | |- wpR _ _ _ (get ≫= _) _ => apply wpR_get_bind; cbv beta
  | |- wpR _ _ _ (put _ ≫= _) _ => apply wpR_put_bind; cbv beta
  | |- wpR _ _ _ (modify _ ≫= _) _ => apply wpR_modify_bind; cbv beta
  | |- wpR _ _ _ (liftR _ ≫= _) _ =>
      apply wpR_liftR_bind; [intros ? ? ?; cbv beta|intros ? ?; leaf]
  | |- wpR _ _ _ (emitError _ ≫= _) _ => apply wpR_emitError_bind; leaf
  | |- wpR _ _ _ (failure ≫= _) _ => apply wpR_failure_bind; leaf
  | |- wpR _ _ _ (undefined ≫= _) _ => apply wpR_undefined_bind
  | |- wpR _ _ _ (put _) _ => apply wpR_put; leaf
  | |- wpR _ _ _ (modify _) _ => apply wpR_modify; leaf
  | |- wpR _ _ _ (liftR _) _ => apply wpR_liftR; [leaf|intros ? ?; leaf]
  | |- wpR _ _ _ (emitError _) _ => apply wpR_emitError; leaf
  | |- wpR _ _ _ failure _ => apply wpR_failure; leaf
  | |- wpR _ _ _ undefined _ => apply wpR_undefined
  | |- wpR _ _ _ (fun _ => OutOfFuel) _ => apply wpR_out_of_fuel
  | |- wpR _ _ _ (match ?x with _ => _ end ≫= _) _ => destruct x eqn:?
  | |- wpR _ _ _ (match ?x with _ => _ end) _ => destruct x eqn:?
  | |- wpR _ _ _ (let (_, _) := ?x in _) _ => destruct x eqn:?
  end.


(** The same steps for a goal stated with [wp]; calls are left to the
    proof. *)
Ltac wp_step :=
  lazymatch goal with
  | |- wp (mret _) _ _ _ => apply wp_ret
  | |- wp ((_ ≫= _) ≫= _) _ _ _ => apply wp_bind_assoc
  | |- wp (mret _ ≫= _) _ _ _ => apply wp_bind, wp_ret; cbv beta
  | |- wp (get ≫= _) _ _ _ => apply wp_bind, wp_get; cbv beta
  | |- wp (put _ ≫= _) _ _ _ => apply wp_bind, wp_put; cbv beta
  | |- wp (modify _ ≫= _) _ _ _ => apply wp_bind, wp_modify; cbv beta
  | |- wp (liftR _ ≫= _) _ _ _ =>
      apply wp_bind, wp_liftR; [intros ? ? ?; cbv beta|intros ? ?]
  | |- wp (emitError _ ≫= _) _ _ _ => apply wp_bind, wp_emitError
  | |- wp (failure ≫= _) _ _ _ => apply wp_bind, wp_failure
  | |- wp (undefined ≫= _) _ _ _ => apply wp_bind, wp_undefined
  | |- wp get _ _ _ => apply wp_get
  | |- wp (put _) _ _ _ => apply wp_put
  | |- wp (modify _) _ _ _ => apply wp_modify
  | |- wp (liftR _) _ _ _ => apply wp_liftR; [intros ? ? ?|intros ? ?]
  | |- wp (emitError _) _ _ _ => apply wp_emitError
  | |- wp failure _ _ _ => apply wp_failure
  | |- wp undefined _ _ _ => apply wp_undefined
  | |- wp (fun _ => OutOfFuel) _ _ _ => apply wp_out_of_fuel
  | |- wp (match ?x with _ => _ end ≫= _) _ _ _ => destruct x eqn:?
  | |- wp (match ?x with _ => _ end) _ _ _ => destruct x eqn:?
  | |- wp (let (_, _) := ?x in _) _ _ _ => destruct x eqn:?
  end.

(** ** The loops of the model do not run out of fuel *)

Lemma fueled_ret {A} (a : A) (Q : A -> Prop) s : Q a -> fueled (mret a) Q s.
Proof. done. Qed.

Lemma fueled_bind {A B} (m : M A) (k : A -> M B) (Q : B -> Prop) s :
  fueled m (fun a => forall s', fueled (k a) Q s') s -> fueled (m ≫= k) Q s.
Proof.
  unfold fueled, mbind, M_bind. destruct (m s); [|done..]. intros H. apply H.
Qed.

Lemma fueled_mono {A} (m : M A) (Q Q' : A -> Prop) s :
  fueled m Q s -> (forall a, Q a -> Q' a) -> fueled m Q' s.
Proof. unfold fueled. destruct (m s); auto. Qed.

Lemma fueled_bind_assoc {A B C} (m : M A) (k1 : A -> M B) (k2 : B -> M C)
    (Q : C -> Prop) s :
  fueled (m ≫= (fun a => k1 a ≫= k2)) Q s -> fueled ((m ≫= k1) ≫= k2) Q s.
Proof. unfold fueled, mbind, M_bind. by destruct (m s). Qed.

Lemma fueled_ret_bind {A B} (a : A) (k : A -> M B) (Q : B -> Prop) s :
  fueled (k a) Q s -> fueled (mret a ≫= k) Q s.
Proof. done. Qed.

Lemma fueled_get_bind {B} (k : BytecodeReader -> M B) (Q : B -> Prop) s :
  fueled (k s) Q s -> fueled (get ≫= k) Q s.
Proof. done. Qed.

Lemma fueled_put_bind {B} s' (k : unit -> M B) (Q : B -> Prop) s :
  fueled (k tt) Q s' -> fueled (put s' ≫= k) Q s.
Proof. done. Qed.

Lemma fueled_modify_bind {B} f (k : unit -> M B) (Q : B -> Prop) s :
  fueled (k tt) Q (f s) -> fueled (modify f ≫= k) Q s.
Proof. done. Qed.

Lemma fueled_liftR_bind {A B} (x : res A) (k : A * EncodingReader.t -> M B)
    (Q : B -> Prop) s :
  (forall a r, x = ROk a r -> fueled (k (a, r)) Q s) ->
  fueled (liftR x ≫= k) Q s.
Proof. destruct x; intros H; [by apply H|done]. Qed.

Lemma fueled_emitError_bind {A B} d (k : A -> M B) (Q : B -> Prop) s :
  fueled (emitError d ≫= k) Q s.
Proof. done. Qed.

Lemma fueled_failure_bind {A B} (k : A -> M B) (Q : B -> Prop) s :
  fueled (failure ≫= k) Q s.
Proof. done. Qed.

Lemma fueled_undefined_bind {A B} (k : A -> M B) (Q : B -> Prop) s :
  fueled (undefined ≫= k) Q s.
Proof. done. Qed.

Lemma fueled_get (Q : BytecodeReader -> Prop) s : Q s -> fueled get Q s.
Proof. done. Qed.

Lemma fueled_put s' (Q : unit -> Prop) s : Q tt -> fueled (put s') Q s.
Proof. done. Qed.

Lemma fueled_modify f (Q : unit -> Prop) s : Q tt -> fueled (modify f) Q s.
Proof. done. Qed.

Lemma fueled_liftR {A} (x : res A) (Q : A * EncodingReader.t -> Prop) s :
  (forall a r, x = ROk a r -> Q (a, r)) -> fueled (liftR x) Q s.
Proof. destruct x; intros H; [by apply H|done]. Qed.

Lemma fueled_emitError {A} d (Q : A -> Prop) s : fueled (emitError d) Q s.
Proof. done. Qed.

Lemma fueled_failure {A} (Q : A -> Prop) s : fueled failure Q s.
Proof. done. Qed.

Lemma fueled_undefined {A} (Q : A -> Prop) s : fueled undefined Q s.
Proof. done. Qed.

Lemma fueled_not_OutOfFuel {A} (m : M A) (Q : A -> Prop) s :
  fueled m Q s -> m s <> OutOfFuel.
Proof. unfold fueled. by destruct (m s). Qed.

Lemma fueled_Done {A} (m : M A) (Q : A -> Prop) s a s' :
  fueled m Q s -> m s = Done a s' -> Q a.
Proof. unfold fueled. intros H E. by rewrite E in H. Qed.

(** The primitives of the byte cursor take bytes. *)
Lemma parseByte_len (r r' : EncodingReader.t) (v : Z) :
  parseByte r = ROk v r' -> (length r' < length r)%nat.
Proof. destruct r; [done|]. intros [= _ <-]. simpl. lia. Qed.

Lemma parseVarInt_len (r r' : EncodingReader.t) (v : Z) :
  parseVarInt r = ROk v r' -> (length r' < length r)%nat.
Proof. intros H. by apply parseVarInt_range in H as [_ H]. Qed.

Lemma parseVarIntWithFlag_len (r r' : EncodingReader.t) (x : Z * bool) :
  parseVarIntWithFlag r = ROk x r' -> (length r' < length r)%nat.
Proof.
  unfold parseVarIntWithFlag.
  destruct (parseVarInt r) as [w r1|] eqn:E; [|done].
  apply parseVarInt_len in E. by intros [= _ <-].
Qed.

Lemma parseSection_len (r r' : EncodingReader.t) (x : Z * list byte) :
  parseSection r = ROk x r' -> (length r' < length r)%nat.
Proof.
  unfold parseSection.
  destruct (parseByte r) as [i r1|] eqn:E1; [|done].
  destruct (parseVarInt r1) as [len r2|] eqn:E2; [|done].
  destruct (kNumSections <=? i); [done|].
  unfold parseBytes. destruct (size r2 <? len); [done|].
  intros [= _ <-]. apply parseByte_len in E1. apply parseVarInt_len in E2.
  rewrite length_drop. lia.
Qed.

Ltac len_facts :=
  repeat match goal with
  | H : parseVarInt _ = ROk _ _ |- _ => apply parseVarInt_len in H
  | H : parseVarIntWithFlag _ = ROk _ _ |- _ =>
      apply parseVarIntWithFlag_len in H
  | H : parseByte _ = ROk _ _ |- _ => apply parseByte_len in H
  | H : parseSection _ = ROk _ _ |- _ => apply parseSection_len in H
  end.

Ltac fl_fin :=
  cbv beta in *; cbn [fst snd] in *; len_facts;
  first [done | lia | idtac].

Create HintDb fuel.

Ltac fl_step :=
  lazymatch goal with
  | |- fueled (mret _) _ _ => apply fueled_ret; fl_fin
  | |- fueled ((_ ≫= _) ≫= _) _ _ => apply fueled_bind_assoc
  | |- fueled (mret _ ≫= _) _ _ => apply fueled_ret_bind; cbv beta
  | |- fueled (get ≫= _) _ _ => apply fueled_get_bind; cbv beta
  | |- fueled (put _ ≫= _) _ _ => apply fueled_put_bind; cbv beta
  | |- fueled (modify _ ≫= _) _ _ => apply fueled_modify_bind; cbv beta
  | |- fueled (liftR _ ≫= _) _ _ =>
      apply fueled_liftR_bind; intros ? ? ?; cbv beta
  | |- fueled (emitError _ ≫= _) _ _ => apply fueled_emitError_bind
  | |- fueled (failure ≫= _) _ _ => apply fueled_failure_bind
  | |- fueled (undefined ≫= _) _ _ => apply fueled_undefined_bind
  | |- fueled get _ _ => apply fueled_get; fl_fin
  | |- fueled (put _) _ _ => apply fueled_put; fl_fin
  | |- fueled (modify _) _ _ => apply fueled_modify; fl_fin
  | |- fueled (liftR _) _ _ => apply fueled_liftR; intros ? ? ?; fl_fin
  | |- fueled (emitError _) _ _ => apply fueled_emitError
  | |- fueled failure _ _ => apply fueled_failure
  | |- fueled undefined _ _ => apply fueled_undefined
  | |- fueled (match ?x with _ => _ end ≫= _) _ _ => destruct x eqn:?
  | |- fueled (match ?x with _ => _ end) _ _ => destruct x eqn:?
  | |- fueled (let (_, _) := ?x in _) _ _ => destruct x eqn:?
  end.

Ltac fl_call :=
  lazymatch goal with
  | |- fueled (_ ≫= _) _ _ =>
      eapply fueled_bind; eapply fueled_mono;
      [solve [eauto with fuel]|cbv beta; intros ? ? ?]
  | |- fueled _ _ _ =>
      eapply fueled_mono; [solve [eauto with fuel]|cbv beta; intros ? ?; fl_fin]
  end.

Ltac fl_auto := repeat first [fl_step | fl_call].

Section Fuel.

Variable ctx : MLIRContext.
Variable verify : IR -> OpId -> VerifyResult.
Variable kVersion : Z.

Lemma resolveEntry_fueled n index str :
  forall s, fueled (resolveEntry n index str) (fun _ => True) s.
Proof. intros s. unfold resolveEntry. fl_auto. Qed.
Hint Resolve resolveEntry_fueled : fuel.

Lemma parseEntry_fueled reader n str :
  forall s, fueled (parseEntry reader n str) (fun x => (length x.2 < length reader)%nat) s.
Proof. intros s. unfold parseEntry. fl_auto. Qed.
Hint Resolve parseEntry_fueled : fuel.

Lemma stringContents_fueled str :
  forall s, fueled (stringContents str) (fun _ => True) s.
Proof. intros s. unfold stringContents. fl_auto. Qed.
Hint Resolve stringContents_fueled : fuel.

Lemma parseSharedString_fueled reader :
  forall s, fueled (parseSharedString reader) (fun x => (length x.2 < length reader)%nat) s.
Proof. intros s. unfold parseSharedString. fl_auto. Qed.
Hint Resolve parseSharedString_fueled : fuel.

Lemma load_fueled i :
  forall s, fueled (load ctx i) (fun _ => True) s.
Proof. intros s. unfold load. fl_auto. Qed.
Hint Resolve load_fueled : fuel.

Lemma forEntries_fueled {A} n cb d (a : A) reader :
  (forall d a r s, fueled (cb d a r) (fun x => (length x.2 < length r)%nat) s) ->
  forall s, fueled (forEntries n cb d a reader) (fun x => (length x.2 <= length reader)%nat) s.
Proof.
  intros Hcb. revert a reader.
  induction n as [|? IH]; intros a reader s; cbn [forEntries]; fl_auto.
Qed.
Hint Resolve forEntries_fueled : fuel.

Lemma parseDialectGrouping_fueled {A} reader cb (a : A) :
  (forall d a r s, fueled (cb d a r) (fun x => (length x.2 < length r)%nat) s) ->
  forall s, fueled (parseDialectGrouping reader cb a) (fun x => (length x.2 < length reader)%nat) s.
Proof. intros Hcb s. unfold parseDialectGrouping. fl_auto. Qed.
Hint Resolve parseDialectGrouping_fueled : fuel.

Lemma parseDialectNames_fueled n i reader :
  forall s, fueled (parseDialectNames n i reader) (fun _ => True) s.
Proof.
  revert i reader.
  induction n as [|? IH]; intros i reader s; cbn [parseDialectNames]; fl_auto.
Qed.
Hint Resolve parseDialectNames_fueled : fuel.

Lemma parseOpNameEntry_fueled d u reader :
  forall s, fueled (parseOpNameEntry d u reader) (fun x => (length x.2 < length reader)%nat) s.
Proof. intros s. unfold parseOpNameEntry. fl_auto. Qed.
Hint Resolve parseOpNameEntry_fueled : fuel.

Lemma parseOpName_fueled reader :
  forall s, fueled (parseOpName ctx reader) (fun x => (length x.2 < length reader)%nat) s.
Proof. intros s. unfold parseOpName. fl_auto. Qed.
Hint Resolve parseOpName_fueled : fuel.

Lemma parseEntryFn_fueled kind data d st reader :
  forall s, fueled (parseEntryFn kind data d st reader) (fun x => (length x.2 < length reader)%nat) s.
Proof. intros s. unfold parseEntryFn. fl_auto. Qed.
Hint Resolve parseEntryFn_fueled : fuel.

Lemma parseAsmEntry_fueled kind i reader custom :
  forall s, fueled (parseAsmEntry ctx kind i reader custom) (fun _ => True) s.
Proof. intros s. unfold parseAsmEntry. fl_auto. Qed.
Hint Resolve parseAsmEntry_fueled : fuel.

Lemma resolveAttrType_fueled kind index :
  forall s, fueled (resolveAttrType ctx kind index) (fun _ => True) s.
Proof. intros s. unfold resolveAttrType. fl_auto. Qed.
Hint Resolve resolveAttrType_fueled : fuel.

Lemma parseAttribute_fueled reader :
  forall s, fueled (parseAttribute ctx reader) (fun x => (length x.2 < length reader)%nat) s.
Proof. intros s. unfold parseAttribute. fl_auto. Qed.
Hint Resolve parseAttribute_fueled : fuel.

Lemma parseType_fueled reader :
  forall s, fueled (parseType ctx reader) (fun x => (length x.2 < length reader)%nat) s.
Proof. intros s. unfold parseType. fl_auto. Qed.
Hint Resolve parseType_fueled : fuel.

Lemma parseAttributeOf_fueled isa name reader :
  forall s, fueled (parseAttributeOf ctx isa name reader) (fun x => (length x.2 < length reader)%nat) s.
Proof. intros s. unfold parseAttributeOf. fl_auto. Qed.
Hint Resolve parseAttributeOf_fueled : fuel.

Lemma createOperation_fueled op :
  forall s, fueled (createOperation op) (fun _ => True) s.
Proof. intros s. unfold createOperation. fl_auto. Qed.
Hint Resolve createOperation_fueled : fuel.

Lemma createBlock_fueled  :
  forall s, fueled createBlock (fun _ => True) s.
Proof. intros s. unfold createBlock. fl_auto. Qed.
Hint Resolve createBlock_fueled : fuel.

Lemma createRegion_fueled  :
  forall s, fueled createRegion (fun _ => True) s.
Proof. intros s. unfold createRegion. fl_auto. Qed.
Hint Resolve createRegion_fueled : fuel.

Lemma Block_push_back_fueled b op :
  forall s, fueled (Block_push_back b op) (fun _ => True) s.
Proof. intros s. unfold Block_push_back. fl_auto. Qed.
Hint Resolve Block_push_back_fueled : fuel.

Lemma Region_push_back_fueled r b :
  forall s, fueled (Region_push_back r b) (fun _ => True) s.
Proof. intros s. unfold Region_push_back. fl_auto. Qed.
Hint Resolve Region_push_back_fueled : fuel.

Lemma addArguments_fueled b args :
  forall s, fueled (addArguments b args) (fun _ => True) s.
Proof. intros s. unfold addArguments. fl_auto. Qed.
Hint Resolve addArguments_fueled : fuel.

Lemma getArguments_fueled b :
  forall s, fueled (getArguments b) (fun _ => True) s.
Proof. intros s. unfold getArguments. fl_auto. Qed.
Hint Resolve getArguments_fueled : fuel.

Lemma replaceAllUsesWith_fueled a b :
  forall s, fueled (replaceAllUsesWith a b) (fun _ => True) s.
Proof. intros s. unfold replaceAllUsesWith. fl_auto. Qed.
Hint Resolve replaceAllUsesWith_fueled : fuel.

Lemma onBackScope_fueled f :
  forall s, fueled (onBackScope f) (fun _ => True) s.
Proof. intros s. unfold onBackScope. fl_auto. Qed.
Hint Resolve onBackScope_fueled : fuel.

Lemma createForwardRef_fueled  :
  forall s, fueled (createForwardRef ctx) (fun _ => True) s.
Proof. intros s. unfold createForwardRef. fl_auto. Qed.
Hint Resolve createForwardRef_fueled : fuel.

Lemma parseOperand_fueled reader :
  forall s, fueled (parseOperand ctx reader) (fun x => (length x.2 < length reader)%nat) s.
Proof. intros s. unfold parseOperand. fl_auto. Qed.
Hint Resolve parseOperand_fueled : fuel.

Lemma defineValue_fueled v :
  forall s, fueled (defineValue v) (fun _ => True) s.
Proof. intros s. unfold defineValue. fl_auto. Qed.
Hint Resolve defineValue_fueled : fuel.

Lemma defineValuesLoop_fueled vs :
  forall s, fueled (defineValuesLoop vs) (fun _ => True) s.
Proof.
  induction vs as [|? ? IH]; intros s; cbn [defineValuesLoop]; fl_auto.
Qed.
Hint Resolve defineValuesLoop_fueled : fuel.

Lemma defineValues_fueled vs :
  forall s, fueled (defineValues vs) (fun _ => True) s.
Proof. intros s. unfold defineValues. fl_auto. Qed.
Hint Resolve defineValues_fueled : fuel.

Lemma curRegionBlocks_fueled rs :
  forall s, fueled (curRegionBlocks rs) (fun _ => True) s.
Proof. intros s. unfold curRegionBlocks. fl_auto. Qed.
Hint Resolve curRegionBlocks_fueled : fuel.

Lemma curBlockOf_fueled rs :
  forall s, fueled (curBlockOf rs) (fun _ => True) s.
Proof. intros s. unfold curBlockOf. fl_auto. Qed.
Hint Resolve curBlockOf_fueled : fuel.

Lemma parseArgs_fueled n reader :
  forall s, fueled (parseArgs ctx n reader) (fun x => (length x.2 <= length reader)%nat) s.
Proof.
  revert reader.
  induction n as [|? IH]; intros reader s; cbn [parseArgs]; fl_auto.
Qed.
Hint Resolve parseArgs_fueled : fuel.

Lemma parseBlockArguments_fueled reader b :
  forall s, fueled (parseBlockArguments ctx reader b) (fun x => (length x < length reader)%nat) s.
Proof. intros s. unfold parseBlockArguments. fl_auto. Qed.
Hint Resolve parseBlockArguments_fueled : fuel.

Lemma parseBlock_fueled reader rs :
  forall s, fueled (parseBlock ctx reader rs) (fun x => (length x.2 < length reader)%nat) s.
Proof. intros s. unfold parseBlock. fl_auto. Qed.
Hint Resolve parseBlock_fueled : fuel.

Lemma createBlocks_fueled n r :
  forall s, fueled (createBlocks n r) (fun _ => True) s.
Proof.
  induction n as [|? IH]; intros s; cbn [createBlocks]; fl_auto.
Qed.
Hint Resolve createBlocks_fueled : fuel.

Lemma parseRegion_fueled reader rs :
  forall s, fueled (parseRegion ctx reader rs) (fun x => (length x.2 < length reader)%nat) s.
Proof. intros s. unfold parseRegion. fl_auto. Qed.
Hint Resolve parseRegion_fueled : fuel.

Lemma parseTypes_fueled n reader :
  forall s, fueled (parseTypes ctx n reader) (fun x => (length x.2 <= length reader)%nat) s.
Proof.
  revert reader.
  induction n as [|? IH]; intros reader s; cbn [parseTypes]; fl_auto.
Qed.
Hint Resolve parseTypes_fueled : fuel.

Lemma parseOperands_fueled n reader :
  forall s, fueled (parseOperands ctx n reader) (fun x => (length x.2 <= length reader)%nat) s.
Proof.
  revert reader.
  induction n as [|? IH]; intros reader s; cbn [parseOperands]; fl_auto.
Qed.
Hint Resolve parseOperands_fueled : fuel.

Lemma parseSuccessors_fueled n bs reader :
  forall s, fueled (parseSuccessors n bs reader) (fun x => (length x.2 <= length reader)%nat) s.
Proof.
  revert reader.
  induction n as [|? IH]; intros reader s; cbn [parseSuccessors]; fl_auto.
Qed.
Hint Resolve parseSuccessors_fueled : fuel.

Lemma createRegions_fueled n :
  forall s, fueled (createRegions n) (fun _ => True) s.
Proof.
  induction n as [|? IH]; intros s; cbn [createRegions]; fl_auto.
Qed.
Hint Resolve createRegions_fueled : fuel.

Lemma parseOperationState_fueled reader rs :
  forall s, fueled (parseOperationState ctx reader rs) (fun x => (length x.2 < length reader)%nat) s.
Proof. intros s. unfold parseOperationState, when_, counted. fl_auto. Qed.
Hint Resolve parseOperationState_fueled : fuel.

Lemma parseOpWithoutRegions_fueled reader rs :
  forall s, fueled (parseOpWithoutRegions ctx reader rs) (fun x => (length x.2 < length reader)%nat) s.
Proof. intros s. unfold parseOpWithoutRegions. fl_auto. Qed.
Hint Resolve parseOpWithoutRegions_fueled : fuel.

Lemma ModuleOp_create_fueled fileLoc :
  forall s, fueled (ModuleOp_create fileLoc) (fun _ => True) s.
Proof. intros s. unfold ModuleOp_create. fl_auto. Qed.
Hint Resolve ModuleOp_create_fueled : fuel.

Lemma enterModule_fueled fileLoc reader :
  forall s, fueled (enterModule ctx fileLoc reader) (fun x => (length x.2 < length reader)%nat) s.
Proof. intros s. unfold enterModule. fl_auto. Qed.
Hint Resolve enterModule_fueled : fuel.

Lemma parseVersion_fueled reader :
  forall s, fueled (parseVersion kVersion reader) (fun _ => True) s.
Proof. intros s. unfold parseVersion. fl_auto. Qed.
Hint Resolve parseVersion_fueled : fuel.

Lemma checkSections_fueled i datas :
  forall s, fueled (checkSections i datas) (fun _ => True) s.
Proof.
  revert i. induction datas as [|[d|] datas IH]; intros i s;
    cbn [checkSections]; fl_auto.
Qed.
Hint Resolve checkSections_fueled : fuel.

Lemma sectionData_of_fueled datas i :
  forall s, fueled (sectionData_of datas i) (fun _ => True) s.
Proof. intros s. unfold sectionData_of. fl_auto. Qed.
Hint Resolve sectionData_of_fueled : fuel.

Lemma parseStringSectionM_fueled data :
  forall s, fueled (parseStringSectionM data) (fun _ => True) s.
Proof. intros s. unfold parseStringSectionM. fl_auto. Qed.
Hint Resolve parseStringSectionM_fueled : fuel.

Lemma spliceModule_fueled moduleOp body :
  forall s, fueled (spliceModule verify moduleOp body) (fun _ => True) s.
Proof. intros s. unfold spliceModule. fl_auto. Qed.
Hint Resolve spliceModule_fueled : fuel.


(** The loop over the groups of operation names stops when the reader is
    empty, and every group takes bytes. *)
Lemma parseOpNameGroups_fueled fuel :
  forall reader s,
    (length reader <= fuel)%nat ->
    fueled (parseOpNameGroups fuel reader) (fun _ => True) s.
Proof.
  induction fuel as [|fuel IH]; intros reader s Hlen; cbn [parseOpNameGroups].
  - destruct reader; [done|simpl in Hlen; lia].
  - destruct (empty reader); [done|].
    eapply fueled_bind, fueled_mono;
      [apply parseDialectGrouping_fueled, parseOpNameEntry_fueled|].
    intros [u r1] Hr1 s1. cbn in Hr1. apply IH. lia.
Qed.

Lemma parseDialectSection_fueled data :
  forall s, fueled (parseDialectSection data) (fun _ => True) s.
Proof.
  intros s. unfold parseDialectSection. fl_auto.
  apply parseOpNameGroups_fueled. lia.
Qed.
Hint Resolve parseDialectSection_fueled : fuel.

(** The loop over the groups of entries: a group that is read takes bytes,
    so a fuel above the number of bytes left is never used up. *)
Lemma parseEntries_fueled kind fuel data :
  forall st reader s,
    (length reader < fuel)%nat ->
    fueled (parseEntries kind fuel data st reader) (fun _ => True) s.
Proof.
  induction fuel as [|fuel IH]; intros st reader s Hlen; [lia|].
  cbn [parseEntries]. apply fueled_get_bind.
  destruct (Nat.eqb _ _); [done|].
  eapply fueled_bind, fueled_mono;
    [apply parseDialectGrouping_fueled, parseEntryFn_fueled|].
  intros [st1 r1] Hr1 s1. cbn in Hr1. apply IH. lia.
Qed.

Lemma initialize_fueled data offsets :
  forall s, fueled (initialize data offsets) (fun _ => True) s.
Proof.
  intros s. unfold initialize. fl_auto.
  eapply fueled_bind, fueled_mono; [apply parseEntries_fueled; lia|].
  intros [st1 r1] _ s1.
  eapply fueled_bind, fueled_mono; [apply parseEntries_fueled; lia|].
  intros [st2 r2] _ s2. fl_auto.
Qed.
Hint Resolve initialize_fueled : fuel.

Lemma parseSections_fueled fuel :
  forall reader datas s,
    (length reader <= fuel)%nat ->
    fueled (parseSections fuel reader datas) (fun _ => True) s.
Proof.
  induction fuel as [|fuel IH]; intros reader datas s Hlen;
    cbn [parseSections].
  - destruct reader; [done|simpl in Hlen; lia].
  - destruct (empty reader); [done|].
    apply fueled_liftR_bind. intros [i d] r1 Hr1. cbv beta.
    apply parseSection_len in Hr1.
    destruct (datas !! _) as [[?|]|]; [done| |done].
    apply IH. lia.
Qed.

(** One call of [parseRegions]: of two turns of its loops, one reads a
    byte at least; a frame is pushed only after an operation was read. *)
Lemma parseRegions_fueled fuel :
  forall reader stack rs s,
    (2 * length reader
       + (if curBlock rs is Some _ then 2 else 1) <= fuel)%nat ->
    fueled (parseRegions ctx fuel reader stack rs)
      (fun x => (2 * length x.2 + length x.1
                 <= 2 * length reader + length stack)%nat) s.
Proof.
  induction fuel as [|fuel IH]; intros reader stack rs s Hfuel.
  { destruct (curBlock rs); lia. }
  cbn [parseRegions].
  destruct (Nat.eqb (curRegion rs) (length (regions rs))).
  { fl_auto. }
  destruct (curBlock rs) as [i|] eqn:Hcb.
  - destruct (numOpsRemaining rs =? 0).
    + cbv zeta.
      eapply fueled_bind, fueled_mono; [apply curRegionBlocks_fueled|].
      intros blocks _ s1. destruct (Nat.eqb (S i) (length blocks)).
      * eapply fueled_bind, fueled_mono; [apply onBackScope_fueled|].
        intros _ _ s2. eapply fueled_mono; [apply IH; cbn; lia|].
        cbv beta. intros x Hx. lia.
      * eapply fueled_bind, fueled_mono; [apply parseBlock_fueled|].
        intros [rs1 r1] Hr1 s2. cbn in Hr1.
        eapply fueled_mono;
          [apply IH; destruct (curBlock rs1); lia|].
        cbv beta. intros x Hx. lia.
    + cbv zeta.
      eapply fueled_bind, fueled_mono; [apply parseOpWithoutRegions_fueled|].
      intros [opIso r1] Hr1 s1. cbn in Hr1.
      apply fueled_get_bind.
      destruct (ir_ops (ir s1) !! opIso.1) as [op|]; [|done].
      destruct (op_regions op).
      * eapply fueled_mono; [apply IH; cbn; rewrite Hcb; lia|].
        cbv beta. intros x Hx. lia.
      * destruct (opIso.2); fl_auto; cbn; lia.
  - eapply fueled_bind, fueled_mono; [apply parseRegion_fueled|].
    intros [rs1 r1] Hr1 s1. cbn in Hr1.
    eapply fueled_bind, fueled_mono; [apply curRegionBlocks_fueled|].
    intros blocks _ s2.
    destruct blocks;
      (eapply fueled_mono;
       [apply IH; cbn; destruct (curBlock rs1); lia|]);
      cbv beta; intros x Hx; lia.
Qed.

(** The loop over the region stack. *)
Lemma parseRegionStack_fueled fuel :
  forall reader stack s,
    (2 * length reader + 2 + length stack <= fuel)%nat ->
    fueled (parseRegionStack ctx fuel reader stack) (fun _ => True) s.
Proof.
  induction fuel as [|fuel IH]; intros reader [|rs stack] s Hfuel;
    cbn [parseRegionStack]; try done.
  { simpl in Hfuel. lia. }
  simpl in Hfuel.
  eapply fueled_bind, fueled_mono;
    [apply parseRegions_fueled; destruct (curBlock rs); lia|].
  intros [stack1 r1] Hr1 s1. cbn in Hr1. apply IH. lia.
Qed.

Lemma parseTopLevel_fueled fileLoc data :
  forall s, fueled (parseTopLevel ctx fileLoc data) (fun _ => True) s.
Proof.
  intros s. unfold parseTopLevel.
  eapply fueled_bind, fueled_mono; [apply enterModule_fueled|].
  intros [[[moduleOp body] rs] r1] Hr1 s1. cbn in Hr1.
  eapply fueled_bind, fueled_mono;
    [apply parseRegionStack_fueled; unfold irFuel; simpl; lia|].
  intros r2 _ s2. done.
Qed.
Hint Resolve parseTopLevel_fueled : fuel.

Lemma parseIRSection_fueled fileLoc data :
  forall s, fueled (parseIRSection ctx verify fileLoc data) (fun _ => True) s.
Proof. intros s. unfold parseIRSection. fl_auto. Qed.
Hint Resolve parseIRSection_fueled : fuel.

Lemma read_fueled fileLoc buffer :
  forall s, fueled (read ctx verify kVersion fileLoc buffer) (fun _ => True) s.
Proof.
  intros s. unfold read. fl_auto.
  eapply fueled_bind, fueled_mono; [apply parseSections_fueled; lia|].
  intros datas _ s1. fl_auto.
Qed.

(** Whatever the buffer, [readBytecodeFile] returns: with success, with
    failure, or at a step the language leaves undefined; the fuel of the
    loops of the model is never used up. *)
Lemma readBytecodeFile_fueled fileLoc buffer block :
  readBytecodeFile ctx verify kVersion fileLoc buffer block <> OutOfFuel.
Proof.
  unfold readBytecodeFile. destruct (negb (isBytecode buffer)); [done|].
  eapply fueled_not_OutOfFuel, read_fueled.
Qed.

End Fuel.

(** ** Failures are reported and leave the destination block alone *)

Create HintDb spec_err.

Ltac err_leaf :=
  unfold RD_err, RF_err in *; simpl in *;
  rewrite ?length_app in *; simpl in *;
  try (intuition (auto; first [lia | congruence])).

Ltac err_rel :=
  first
    [ solve [eauto with spec_err]
    | apply rel_spec_intro; [typeclasses eauto|]; intros ? ?; err_auto ]
with err_call :=
  lazymatch goal with
  | |- wpR _ _ _ (_ ≫= _) _ =>
      eapply wpR_bind_spec;
      [typeclasses eauto|err_rel|err_leaf|intros ? ? ?; cbv beta]
  | |- wpR _ _ _ _ _ =>
      eapply wpR_call; [typeclasses eauto|err_rel|err_leaf]
  end
with err_auto := repeat first [wpR_step err_leaf | err_call].

Ltac err_spec :=
  intros; apply rel_spec_intro; [typeclasses eauto|];
  intros ? ?; err_auto.

#[export] Instance Frame_err : Frame RD_err RF_err.
Proof.
  split; unfold RD_err, RF_err.
  - intros s. split; [done|lia].
  - intros s1 s2 s3 [E1 L1] [E2 L2]. split; [congruence|lia].
  - intros s1 s2 s3 [E1 L1] [E2 L2]. split; [congruence|lia].
Qed.

Section Family_err.

Variable ctx : MLIRContext.
Variable verify : IR -> OpId -> VerifyResult.
Hypothesis Hhost : host_reports ctx verify.

Lemma resolveEntry_err n index str :
  rel_spec RD_err RF_err (resolveEntry n index str).
Proof. unfold resolveEntry. err_spec. Qed.
Hint Resolve resolveEntry_err : spec_err.

Lemma parseEntry_err reader n str :
  rel_spec RD_err RF_err (parseEntry reader n str).
Proof. unfold parseEntry. err_spec. Qed.
Hint Resolve parseEntry_err : spec_err.

Lemma stringContents_err str :
  rel_spec RD_err RF_err (stringContents str).
Proof. unfold stringContents. err_spec. Qed.
Hint Resolve stringContents_err : spec_err.

Lemma parseSharedString_err reader :
  rel_spec RD_err RF_err (parseSharedString reader).
Proof. unfold parseSharedString. err_spec. Qed.
Hint Resolve parseSharedString_err : spec_err.

Lemma load_err i :
  rel_spec RD_err RF_err (load ctx i).
Proof. unfold load. err_spec. Qed.
Hint Resolve load_err : spec_err.

Lemma forEntries_err {A} n cb d (a : A) reader :
  (forall d a r, rel_spec RD_err RF_err (cb d a r)) ->
  rel_spec RD_err RF_err (forEntries n cb d a reader).
Proof.
  intros Hcb. revert a reader.
  induction n as [|? IH]; intros a reader; cbn [forEntries]; err_spec.
Qed.
Hint Resolve forEntries_err : spec_err.

Lemma parseDialectGrouping_err {A} reader cb (a : A) :
  (forall d a r, rel_spec RD_err RF_err (cb d a r)) ->
  rel_spec RD_err RF_err (parseDialectGrouping reader cb a).
Proof. intros Hcb. unfold parseDialectGrouping. err_spec. Qed.
Hint Resolve parseDialectGrouping_err : spec_err.

Lemma parseDialectNames_err n i reader :
  rel_spec RD_err RF_err (parseDialectNames n i reader).
Proof.
  revert i reader.
  induction n as [|? IH]; intros i reader; cbn [parseDialectNames]; err_spec.
Qed.
Hint Resolve parseDialectNames_err : spec_err.

Lemma parseOpNameEntry_err d u reader :
  rel_spec RD_err RF_err (parseOpNameEntry d u reader).
Proof. unfold parseOpNameEntry. err_spec. Qed.
Hint Resolve parseOpNameEntry_err : spec_err.

Lemma parseOpNameGroups_err fuel reader :
  rel_spec RD_err RF_err (parseOpNameGroups fuel reader).
Proof.
  revert reader.
  induction fuel as [|? IH]; intros reader; cbn [parseOpNameGroups]; err_spec.
Qed.
Hint Resolve parseOpNameGroups_err : spec_err.

Lemma parseDialectSection_err data :
  rel_spec RD_err RF_err (parseDialectSection data).
Proof. unfold parseDialectSection. err_spec. Qed.
Hint Resolve parseDialectSection_err : spec_err.

Lemma parseOpName_err reader :
  rel_spec RD_err RF_err (parseOpName ctx reader).
Proof. unfold parseOpName. err_spec. Qed.
Hint Resolve parseOpName_err : spec_err.

Lemma parseEntryFn_err kind data d st reader :
  rel_spec RD_err RF_err (parseEntryFn kind data d st reader).
Proof. unfold parseEntryFn. destruct kind; err_spec. Qed.
Hint Resolve parseEntryFn_err : spec_err.

Lemma parseEntries_err kind fuel data st reader :
  rel_spec RD_err RF_err (parseEntries kind fuel data st reader).
Proof.
  revert st reader.
  induction fuel as [|? IH]; intros st reader; cbn [parseEntries]; err_spec.
Qed.
Hint Resolve parseEntries_err : spec_err.

Lemma initialize_err data offsets :
  rel_spec RD_err RF_err (initialize data offsets).
Proof. unfold initialize. err_spec. Qed.
Hint Resolve initialize_err : spec_err.

Lemma parseAsmEntry_err kind i reader custom :
  rel_spec RD_err RF_err (parseAsmEntry ctx kind i reader custom).
Proof.
  destruct Hhost as (Hattr & Htype & _).
  unfold parseAsmEntry. err_spec.
  - destruct kind; err_leaf.
  - destruct kind; err_leaf.
  - destruct kind;
      [apply Hattr, nonempty_length in Heqo|apply Htype, nonempty_length in Heqo];
      err_leaf.
Qed.
Hint Resolve parseAsmEntry_err : spec_err.

Lemma resolveAttrType_err kind index :
  rel_spec RD_err RF_err (resolveAttrType ctx kind index).
Proof. unfold resolveAttrType. err_spec. Qed.
Hint Resolve resolveAttrType_err : spec_err.

Lemma parseAttribute_err reader :
  rel_spec RD_err RF_err (parseAttribute ctx reader).
Proof. unfold parseAttribute. err_spec. Qed.
Hint Resolve parseAttribute_err : spec_err.

Lemma parseType_err reader :
  rel_spec RD_err RF_err (parseType ctx reader).
Proof. unfold parseType. err_spec. Qed.
Hint Resolve parseType_err : spec_err.

Lemma parseAttributeOf_err isa name reader :
  rel_spec RD_err RF_err (parseAttributeOf ctx isa name reader).
Proof. unfold parseAttributeOf. err_spec. Qed.
Hint Resolve parseAttributeOf_err : spec_err.

Lemma createOperation_err op :
  rel_spec RD_err RF_err (createOperation op).
Proof. unfold createOperation. err_spec. Qed.
Hint Resolve createOperation_err : spec_err.

Lemma createBlock_err  :
  rel_spec RD_err RF_err createBlock.
Proof. unfold createBlock. err_spec. Qed.
Hint Resolve createBlock_err : spec_err.

Lemma createRegion_err  :
  rel_spec RD_err RF_err createRegion.
Proof. unfold createRegion. err_spec. Qed.
Hint Resolve createRegion_err : spec_err.

Lemma Block_push_back_err b op :
  rel_spec RD_err RF_err (Block_push_back b op).
Proof. unfold Block_push_back. err_spec. Qed.
Hint Resolve Block_push_back_err : spec_err.

Lemma Region_push_back_err r b :
  rel_spec RD_err RF_err (Region_push_back r b).
Proof. unfold Region_push_back. err_spec. Qed.
Hint Resolve Region_push_back_err : spec_err.

Lemma addArguments_err b args :
  rel_spec RD_err RF_err (addArguments b args).
Proof. unfold addArguments. err_spec. Qed.
Hint Resolve addArguments_err : spec_err.

Lemma getArguments_err b :
  rel_spec RD_err RF_err (getArguments b).
Proof. unfold getArguments. err_spec. Qed.
Hint Resolve getArguments_err : spec_err.

Lemma replaceAllUsesWith_err a b :
  rel_spec RD_err RF_err (replaceAllUsesWith a b).
Proof. unfold replaceAllUsesWith. err_spec. Qed.
Hint Resolve replaceAllUsesWith_err : spec_err.

Lemma onBackScope_err f :
  rel_spec RD_err RF_err (onBackScope f).
Proof. unfold onBackScope. err_spec. Qed.
Hint Resolve onBackScope_err : spec_err.

Lemma createForwardRef_err  :
  rel_spec RD_err RF_err (createForwardRef ctx).
Proof. unfold createForwardRef. err_spec. Qed.
Hint Resolve createForwardRef_err : spec_err.

Lemma parseOperand_err reader :
  rel_spec RD_err RF_err (parseOperand ctx reader).
Proof. unfold parseOperand. err_spec. Qed.
Hint Resolve parseOperand_err : spec_err.

Lemma defineValue_err v :
  rel_spec RD_err RF_err (defineValue v).
Proof. unfold defineValue. err_spec. Qed.
Hint Resolve defineValue_err : spec_err.

Lemma defineValuesLoop_err vs :
  rel_spec RD_err RF_err (defineValuesLoop vs).
Proof.
  induction vs as [|? ? IH]; cbn [defineValuesLoop]; err_spec.
Qed.
Hint Resolve defineValuesLoop_err : spec_err.

Lemma defineValues_err vs :
  rel_spec RD_err RF_err (defineValues vs).
Proof. unfold defineValues. err_spec. Qed.
Hint Resolve defineValues_err : spec_err.

Lemma curRegionBlocks_err rs :
  rel_spec RD_err RF_err (curRegionBlocks rs).
Proof. unfold curRegionBlocks. err_spec. Qed.
Hint Resolve curRegionBlocks_err : spec_err.

Lemma curBlockOf_err rs :
  rel_spec RD_err RF_err (curBlockOf rs).
Proof. unfold curBlockOf. err_spec. Qed.
Hint Resolve curBlockOf_err : spec_err.

Lemma parseArgs_err n reader :
  rel_spec RD_err RF_err (parseArgs ctx n reader).
Proof.
  revert reader.
  induction n as [|? IH]; intros reader; cbn [parseArgs]; err_spec.
Qed.
Hint Resolve parseArgs_err : spec_err.

Lemma parseBlockArguments_err reader b :
  rel_spec RD_err RF_err (parseBlockArguments ctx reader b).
Proof. unfold parseBlockArguments. err_spec. Qed.
Hint Resolve parseBlockArguments_err : spec_err.

Lemma parseBlock_err reader rs :
  rel_spec RD_err RF_err (parseBlock ctx reader rs).
Proof. unfold parseBlock. err_spec. Qed.
Hint Resolve parseBlock_err : spec_err.

Lemma createBlocks_err n r :
  rel_spec RD_err RF_err (createBlocks n r).
Proof.
  induction n as [|? IH]; cbn [createBlocks]; err_spec.
Qed.
Hint Resolve createBlocks_err : spec_err.

Lemma parseRegion_err reader rs :
  rel_spec RD_err RF_err (parseRegion ctx reader rs).
Proof. unfold parseRegion. err_spec. Qed.
Hint Resolve parseRegion_err : spec_err.

Lemma parseTypes_err n reader :
  rel_spec RD_err RF_err (parseTypes ctx n reader).
Proof.
  revert reader.
  induction n as [|? IH]; intros reader; cbn [parseTypes]; err_spec.
Qed.
Hint Resolve parseTypes_err : spec_err.

Lemma parseOperands_err n reader :
  rel_spec RD_err RF_err (parseOperands ctx n reader).
Proof.
  revert reader.
  induction n as [|? IH]; intros reader; cbn [parseOperands]; err_spec.
Qed.
Hint Resolve parseOperands_err : spec_err.

Lemma parseSuccessors_err n bs reader :
  rel_spec RD_err RF_err (parseSuccessors n bs reader).
Proof.
  revert reader.
  induction n as [|? IH]; intros reader; cbn [parseSuccessors]; err_spec.
Qed.
Hint Resolve parseSuccessors_err : spec_err.

Lemma createRegions_err n :
  rel_spec RD_err RF_err (createRegions n).
Proof.
  induction n as [|? IH]; cbn [createRegions]; err_spec.
Qed.
Hint Resolve createRegions_err : spec_err.

Lemma parseOperationState_err reader rs :
  rel_spec RD_err RF_err (parseOperationState ctx reader rs).
Proof. unfold parseOperationState, when_, counted. err_spec. Qed.
Hint Resolve parseOperationState_err : spec_err.

Lemma parseOpWithoutRegions_err reader rs :
  rel_spec RD_err RF_err (parseOpWithoutRegions ctx reader rs).
Proof. unfold parseOpWithoutRegions. err_spec. Qed.
Hint Resolve parseOpWithoutRegions_err : spec_err.

Lemma parseRegions_err fuel reader stack rs :
  rel_spec RD_err RF_err (parseRegions ctx fuel reader stack rs).
Proof.
  revert reader stack rs.
  induction fuel as [|? IH]; intros reader stack rs; cbn [parseRegions]; err_spec.
Qed.
Hint Resolve parseRegions_err : spec_err.

Lemma parseRegionStack_err fuel reader stack :
  rel_spec RD_err RF_err (parseRegionStack ctx fuel reader stack).
Proof.
  revert reader stack.
  induction fuel as [|? IH]; intros reader [|rs stack];
    cbn [parseRegionStack]; err_spec.
Qed.
Hint Resolve parseRegionStack_err : spec_err.

Lemma ModuleOp_create_err fileLoc :
  rel_spec RD_err RF_err (ModuleOp_create fileLoc).
Proof. unfold ModuleOp_create. err_spec. Qed.
Hint Resolve ModuleOp_create_err : spec_err.

Lemma enterModule_err fileLoc reader :
  rel_spec RD_err RF_err (enterModule ctx fileLoc reader).
Proof. unfold enterModule. err_spec. Qed.
Hint Resolve enterModule_err : spec_err.

Lemma parseTopLevel_err fileLoc data :
  rel_spec RD_err RF_err (parseTopLevel ctx fileLoc data).
Proof. unfold parseTopLevel. err_spec. Qed.
Hint Resolve parseTopLevel_err : spec_err.

Lemma parseVersion_err kVersion reader :
  rel_spec RD_err RF_err (parseVersion kVersion reader).
Proof. unfold parseVersion. err_spec. Qed.
Hint Resolve parseVersion_err : spec_err.

Lemma parseSections_err fuel reader datas :
  rel_spec RD_err RF_err (parseSections fuel reader datas).
Proof.
  revert reader datas.
  induction fuel as [|? IH]; intros reader datas; cbn [parseSections]; err_spec.
Qed.
Hint Resolve parseSections_err : spec_err.

Lemma checkSections_err i datas :
  rel_spec RD_err RF_err (checkSections i datas).
Proof.
  revert i. induction datas as [|[d|] datas IH]; intros i;
    cbn [checkSections]; err_spec.
Qed.
Hint Resolve checkSections_err : spec_err.

Lemma sectionData_of_err datas i :
  rel_spec RD_err RF_err (sectionData_of datas i).
Proof. unfold sectionData_of. err_spec. Qed.
Hint Resolve sectionData_of_err : spec_err.

Lemma parseStringSectionM_err data :
  rel_spec RD_err RF_err (parseStringSectionM data).
Proof. unfold parseStringSectionM. err_spec. Qed.
Hint Resolve parseStringSectionM_err : spec_err.

(** The splice is the last step: a failure of the second part is reported
    and happens before the destination block is touched. *)
Lemma spliceModule_err moduleOp body s :
  wp (spliceModule verify moduleOp body) (fun _ _ => True)
     (fun s' => RF_err s s') s.
Proof.
  destruct Hhost as (_ & _ & Hver).
  unfold spliceModule, wp, mbind, M_bind, get, emitError, emit, modify, failure.
  cbn.
  destruct (bool_decide (forwardRefOps s = [])); cbn.
  - destruct (verify_ok (verify (ir s) moduleOp)) eqn:Hok; cbn.
    + by destruct (ir_blocks (ir s) !! body).
    + apply Hver, nonempty_length in Hok. err_leaf.
  - err_leaf.
Qed.

Lemma parseIRSection_err fileLoc data s :
  wp (parseIRSection ctx verify fileLoc data) (fun _ _ => True)
     (fun s' => RF_err s s') s.
Proof.
  unfold parseIRSection. apply wp_bind.
  eapply wp_mono; [apply parseTopLevel_err| |]; cbn.
  - intros [moduleOp body] s1 H1.
    eapply wp_mono; [apply spliceModule_err|done|].
    intros s2 H2. eapply frame_fail; eauto.
  - auto.
Qed.


Ltac errQ_step :=
  lazymatch goal with
  | |- wp (liftR _ ≫= _) _ _ _ =>
      apply wp_bind, wp_liftR; [intros ? ? ?; cbv beta|intros ? ?; err_leaf]
  | |- wp (modify _ ≫= _) _ _ _ => apply wp_bind, wp_modify; cbv beta
  | |- wp (let (_, _) := ?x in _) _ _ _ => destruct x
  | |- wp (_ ≫= _) _ _ _ =>
      eapply wpQ_bind_spec;
      [typeclasses eauto|err_rel|err_leaf|intros ? ? ?; cbv beta]
  end.

Lemma read_err kVersion fileLoc buffer s :
  wp (read ctx verify kVersion fileLoc buffer) (fun _ _ => True)
     (RF_err s) s.
Proof.
  assert (H0 : RD_err s s) by apply frame_refl.
  unfold read. repeat errQ_step.
  eapply wp_mono; [apply parseIRSection_err|done|].
  intros sF HsF. cbn in HsF. err_leaf.
Qed.

(** C4: whatever the buffer, [readBytecodeFile] returns (the loops of the
    model never run out of fuel, so no run of the reader is left out), and
    when it returns failure, at whatever stage (framing, tables, IR
    construction or verification), the destination block holds exactly the
    operations it held before the call and at least one diagnostic has
    been emitted; the host is only asked to emit a diagnostic whenever its
    assembly parser or its verifier fails. *)
Theorem readBytecodeFile_failure kVersion fileLoc buffer block :
  readBytecodeFile ctx verify kVersion fileLoc buffer block <> OutOfFuel
  /\ forall s',
       readBytecodeFile ctx verify kVersion fileLoc buffer block = Failed s' ->
       destOps s' = block /\ diagnostics s' <> [].
Proof.
  split; [apply readBytecodeFile_fueled|].
  unfold readBytecodeFile. intros s' Hrun.
  assert (HRF : RF_err (set_destOps block initial_BytecodeReader) s').
  { destruct (isBytecode buffer); cbn [negb] in Hrun.
    - eapply wp_Failed; [apply read_err|exact Hrun].
    - cbn in Hrun. injection Hrun as <-. err_leaf. }
  destruct HRF as [Hd Hl]. cbn in Hd, Hl. split; [done|].
  intros E. rewrite E in Hl. cbn in Hl. lia.
Qed.

End Family_err.

(** ** Only the splice touches the destination block *)

Create HintDb spec_dest.

Ltac dest_leaf :=
  unfold RD_dest, RF_dest in *;
  try match goal with |- context [set_entriesOf ?k] => destruct k end;
  simpl in *; try (intuition (auto; congruence)).

Ltac dest_rel :=
  first
    [ solve [eauto with spec_dest]
    | apply rel_spec_intro; [typeclasses eauto|]; intros ? ?; dest_auto ]
with dest_call :=
  lazymatch goal with
  | |- wpR _ _ _ (_ ≫= _) _ =>
      eapply wpR_bind_spec;
      [typeclasses eauto|dest_rel|dest_leaf|intros ? ? ?; cbv beta]
  | |- wpR _ _ _ _ _ =>
      eapply wpR_call; [typeclasses eauto|dest_rel|dest_leaf]
  end
with dest_auto := repeat first [wpR_step dest_leaf | dest_call].

Ltac dest_spec :=
  intros; apply rel_spec_intro; [typeclasses eauto|];
  intros ? ?; dest_auto.

#[export] Instance Frame_dest : Frame RD_dest RF_dest.
Proof.
  split; unfold RD_dest, RF_dest; [done|congruence|done].
Qed.

Section Family_dest.

Variable ctx : MLIRContext.

Lemma resolveEntry_dest n index str :
  rel_spec RD_dest RF_dest (resolveEntry n index str).
Proof. unfold resolveEntry. dest_spec. Qed.
Hint Resolve resolveEntry_dest : spec_dest.

Lemma parseEntry_dest reader n str :
  rel_spec RD_dest RF_dest (parseEntry reader n str).
Proof. unfold parseEntry. dest_spec. Qed.
Hint Resolve parseEntry_dest : spec_dest.

Lemma stringContents_dest str :
  rel_spec RD_dest RF_dest (stringContents str).
Proof. unfold stringContents. dest_spec. Qed.
Hint Resolve stringContents_dest : spec_dest.

Lemma parseSharedString_dest reader :
  rel_spec RD_dest RF_dest (parseSharedString reader).
Proof. unfold parseSharedString. dest_spec. Qed.
Hint Resolve parseSharedString_dest : spec_dest.

Lemma load_dest i :
  rel_spec RD_dest RF_dest (load ctx i).
Proof. unfold load. dest_spec. Qed.
Hint Resolve load_dest : spec_dest.

Lemma forEntries_dest {A} n cb d (a : A) reader :
  (forall d a r, rel_spec RD_dest RF_dest (cb d a r)) ->
  rel_spec RD_dest RF_dest (forEntries n cb d a reader).
Proof.
  intros Hcb. revert a reader.
  induction n as [|? IH]; intros a reader; cbn [forEntries]; dest_spec.
Qed.
Hint Resolve forEntries_dest : spec_dest.

Lemma parseDialectGrouping_dest {A} reader cb (a : A) :
  (forall d a r, rel_spec RD_dest RF_dest (cb d a r)) ->
  rel_spec RD_dest RF_dest (parseDialectGrouping reader cb a).
Proof. intros Hcb. unfold parseDialectGrouping. dest_spec. Qed.
Hint Resolve parseDialectGrouping_dest : spec_dest.

Lemma parseDialectNames_dest n i reader :
  rel_spec RD_dest RF_dest (parseDialectNames n i reader).
Proof.
  revert i reader.
  induction n as [|? IH]; intros i reader; cbn [parseDialectNames]; dest_spec.
Qed.
Hint Resolve parseDialectNames_dest : spec_dest.

Lemma parseOpNameEntry_dest d u reader :
  rel_spec RD_dest RF_dest (parseOpNameEntry d u reader).
Proof. unfold parseOpNameEntry. dest_spec. Qed.
Hint Resolve parseOpNameEntry_dest : spec_dest.

Lemma parseOpNameGroups_dest fuel reader :
  rel_spec RD_dest RF_dest (parseOpNameGroups fuel reader).
Proof.
  revert reader.
  induction fuel as [|? IH]; intros reader; cbn [parseOpNameGroups]; dest_spec.
Qed.
Hint Resolve parseOpNameGroups_dest : spec_dest.

Lemma parseDialectSection_dest data :
  rel_spec RD_dest RF_dest (parseDialectSection data).
Proof. unfold parseDialectSection. dest_spec. Qed.
Hint Resolve parseDialectSection_dest : spec_dest.

Lemma parseOpName_dest reader :
  rel_spec RD_dest RF_dest (parseOpName ctx reader).
Proof. unfold parseOpName. dest_spec. Qed.
Hint Resolve parseOpName_dest : spec_dest.

Lemma parseEntryFn_dest kind data d st reader :
  rel_spec RD_dest RF_dest (parseEntryFn kind data d st reader).
Proof. unfold parseEntryFn. dest_spec. Qed.
Hint Resolve parseEntryFn_dest : spec_dest.

Lemma parseEntries_dest kind fuel data st reader :
  rel_spec RD_dest RF_dest (parseEntries kind fuel data st reader).
Proof.
  revert st reader.
  induction fuel as [|? IH]; intros st reader; cbn [parseEntries]; dest_spec.
Qed.
Hint Resolve parseEntries_dest : spec_dest.

Lemma initialize_dest data offsets :
  rel_spec RD_dest RF_dest (initialize data offsets).
Proof. unfold initialize. dest_spec. Qed.
Hint Resolve initialize_dest : spec_dest.

Lemma parseAsmEntry_dest kind i reader custom :
  rel_spec RD_dest RF_dest (parseAsmEntry ctx kind i reader custom).
Proof. unfold parseAsmEntry. dest_spec. Qed.
Hint Resolve parseAsmEntry_dest : spec_dest.

Lemma resolveAttrType_dest kind index :
  rel_spec RD_dest RF_dest (resolveAttrType ctx kind index).
Proof. unfold resolveAttrType. dest_spec. Qed.
Hint Resolve resolveAttrType_dest : spec_dest.

Lemma parseAttribute_dest reader :
  rel_spec RD_dest RF_dest (parseAttribute ctx reader).
Proof. unfold parseAttribute. dest_spec. Qed.
Hint Resolve parseAttribute_dest : spec_dest.

Lemma parseType_dest reader :
  rel_spec RD_dest RF_dest (parseType ctx reader).
Proof. unfold parseType. dest_spec. Qed.
Hint Resolve parseType_dest : spec_dest.

Lemma parseAttributeOf_dest isa name reader :
  rel_spec RD_dest RF_dest (parseAttributeOf ctx isa name reader).
Proof. unfold parseAttributeOf. dest_spec. Qed.
Hint Resolve parseAttributeOf_dest : spec_dest.

Lemma createOperation_dest op :
  rel_spec RD_dest RF_dest (createOperation op).
Proof. unfold createOperation. dest_spec. Qed.
Hint Resolve createOperation_dest : spec_dest.

Lemma createBlock_dest  :
  rel_spec RD_dest RF_dest createBlock.
Proof. unfold createBlock. dest_spec. Qed.
Hint Resolve createBlock_dest : spec_dest.

Lemma createRegion_dest  :
  rel_spec RD_dest RF_dest createRegion.
Proof. unfold createRegion. dest_spec. Qed.
Hint Resolve createRegion_dest : spec_dest.

Lemma Block_push_back_dest b op :
  rel_spec RD_dest RF_dest (Block_push_back b op).
Proof. unfold Block_push_back. dest_spec. Qed.
Hint Resolve Block_push_back_dest : spec_dest.

Lemma Region_push_back_dest r b :
  rel_spec RD_dest RF_dest (Region_push_back r b).
Proof. unfold Region_push_back. dest_spec. Qed.
Hint Resolve Region_push_back_dest : spec_dest.

Lemma addArguments_dest b args :
  rel_spec RD_dest RF_dest (addArguments b args).
Proof. unfold addArguments. dest_spec. Qed.
Hint Resolve addArguments_dest : spec_dest.

Lemma getArguments_dest b :
  rel_spec RD_dest RF_dest (getArguments b).
Proof. unfold getArguments. dest_spec. Qed.
Hint Resolve getArguments_dest : spec_dest.

Lemma replaceAllUsesWith_dest a b :
  rel_spec RD_dest RF_dest (replaceAllUsesWith a b).
Proof. unfold replaceAllUsesWith. dest_spec. Qed.
Hint Resolve replaceAllUsesWith_dest : spec_dest.

Lemma onBackScope_dest f :
  rel_spec RD_dest RF_dest (onBackScope f).
Proof. unfold onBackScope. dest_spec. Qed.
Hint Resolve onBackScope_dest : spec_dest.

Lemma createForwardRef_dest  :
  rel_spec RD_dest RF_dest (createForwardRef ctx).
Proof. unfold createForwardRef. dest_spec. Qed.
Hint Resolve createForwardRef_dest : spec_dest.

Lemma parseOperand_dest reader :
  rel_spec RD_dest RF_dest (parseOperand ctx reader).
Proof. unfold parseOperand. dest_spec. Qed.
Hint Resolve parseOperand_dest : spec_dest.

Lemma defineValue_dest v :
  rel_spec RD_dest RF_dest (defineValue v).
Proof. unfold defineValue. dest_spec. Qed.
Hint Resolve defineValue_dest : spec_dest.

Lemma defineValuesLoop_dest vs :
  rel_spec RD_dest RF_dest (defineValuesLoop vs).
Proof.
  induction vs as [|? ? IH]; cbn [defineValuesLoop]; dest_spec.
Qed.
Hint Resolve defineValuesLoop_dest : spec_dest.

Lemma defineValues_dest vs :
  rel_spec RD_dest RF_dest (defineValues vs).
Proof. unfold defineValues. dest_spec. Qed.
Hint Resolve defineValues_dest : spec_dest.

Lemma curRegionBlocks_dest rs :
  rel_spec RD_dest RF_dest (curRegionBlocks rs).
Proof. unfold curRegionBlocks. dest_spec. Qed.
Hint Resolve curRegionBlocks_dest : spec_dest.

Lemma curBlockOf_dest rs :
  rel_spec RD_dest RF_dest (curBlockOf rs).
Proof. unfold curBlockOf. dest_spec. Qed.
Hint Resolve curBlockOf_dest : spec_dest.

Lemma parseArgs_dest n reader :
  rel_spec RD_dest RF_dest (parseArgs ctx n reader).
Proof.
  revert reader.
  induction n as [|? IH]; intros reader; cbn [parseArgs]; dest_spec.
Qed.
Hint Resolve parseArgs_dest : spec_dest.

Lemma parseBlockArguments_dest reader b :
  rel_spec RD_dest RF_dest (parseBlockArguments ctx reader b).
Proof. unfold parseBlockArguments. dest_spec. Qed.
Hint Resolve parseBlockArguments_dest : spec_dest.

Lemma parseBlock_dest reader rs :
  rel_spec RD_dest RF_dest (parseBlock ctx reader rs).
Proof. unfold parseBlock. dest_spec. Qed.
Hint Resolve parseBlock_dest : spec_dest.

Lemma createBlocks_dest n r :
  rel_spec RD_dest RF_dest (createBlocks n r).
Proof.
  induction n as [|? IH]; cbn [createBlocks]; dest_spec.
Qed.
Hint Resolve createBlocks_dest : spec_dest.

Lemma parseRegion_dest reader rs :
  rel_spec RD_dest RF_dest (parseRegion ctx reader rs).
Proof. unfold parseRegion. dest_spec. Qed.
Hint Resolve parseRegion_dest : spec_dest.

Lemma parseTypes_dest n reader :
  rel_spec RD_dest RF_dest (parseTypes ctx n reader).
Proof.
  revert reader.
  induction n as [|? IH]; intros reader; cbn [parseTypes]; dest_spec.
Qed.
Hint Resolve parseTypes_dest : spec_dest.

Lemma parseOperands_dest n reader :
  rel_spec RD_dest RF_dest (parseOperands ctx n reader).
Proof.
  revert reader.
  induction n as [|? IH]; intros reader; cbn [parseOperands]; dest_spec.
Qed.
Hint Resolve parseOperands_dest : spec_dest.

Lemma parseSuccessors_dest n bs reader :
  rel_spec RD_dest RF_dest (parseSuccessors n bs reader).
Proof.
  revert reader.
  induction n as [|? IH]; intros reader; cbn [parseSuccessors]; dest_spec.
Qed.
Hint Resolve parseSuccessors_dest : spec_dest.

Lemma createRegions_dest n :
  rel_spec RD_dest RF_dest (createRegions n).
Proof.
  induction n as [|? IH]; cbn [createRegions]; dest_spec.
Qed.
Hint Resolve createRegions_dest : spec_dest.

Lemma parseOperationState_dest reader rs :
  rel_spec RD_dest RF_dest (parseOperationState ctx reader rs).
Proof. unfold parseOperationState, when_, counted. dest_spec. Qed.
Hint Resolve parseOperationState_dest : spec_dest.

Lemma parseOpWithoutRegions_dest reader rs :
  rel_spec RD_dest RF_dest (parseOpWithoutRegions ctx reader rs).
Proof. unfold parseOpWithoutRegions. dest_spec. Qed.
Hint Resolve parseOpWithoutRegions_dest : spec_dest.

Lemma parseRegions_dest fuel reader stack rs :
  rel_spec RD_dest RF_dest (parseRegions ctx fuel reader stack rs).
Proof.
  revert reader stack rs.
  induction fuel as [|? IH]; intros reader stack rs; cbn [parseRegions]; dest_spec.
Qed.
Hint Resolve parseRegions_dest : spec_dest.

Lemma parseRegionStack_dest fuel reader stack :
  rel_spec RD_dest RF_dest (parseRegionStack ctx fuel reader stack).
Proof.
  revert reader stack.
  induction fuel as [|? IH]; intros reader [|rs stack];
    cbn [parseRegionStack]; dest_spec.
Qed.
Hint Resolve parseRegionStack_dest : spec_dest.

Lemma ModuleOp_create_dest fileLoc :
  rel_spec RD_dest RF_dest (ModuleOp_create fileLoc).
Proof. unfold ModuleOp_create. dest_spec. Qed.
Hint Resolve ModuleOp_create_dest : spec_dest.

Lemma enterModule_dest fileLoc reader :
  rel_spec RD_dest RF_dest (enterModule ctx fileLoc reader).
Proof. unfold enterModule. dest_spec. Qed.
Hint Resolve enterModule_dest : spec_dest.

Lemma parseTopLevel_dest fileLoc data :
  rel_spec RD_dest RF_dest (parseTopLevel ctx fileLoc data).
Proof. unfold parseTopLevel. dest_spec. Qed.
Hint Resolve parseTopLevel_dest : spec_dest.

Lemma parseVersion_dest kVersion reader :
  rel_spec RD_dest RF_dest (parseVersion kVersion reader).
Proof. unfold parseVersion. dest_spec. Qed.
Hint Resolve parseVersion_dest : spec_dest.

Lemma parseSections_dest fuel reader datas :
  rel_spec RD_dest RF_dest (parseSections fuel reader datas).
Proof.
  revert reader datas.
  induction fuel as [|? IH]; intros reader datas; cbn [parseSections]; dest_spec.
Qed.
Hint Resolve parseSections_dest : spec_dest.

Lemma checkSections_dest i datas :
  rel_spec RD_dest RF_dest (checkSections i datas).
Proof.
  revert i. induction datas as [|[d|] datas IH]; intros i;
    cbn [checkSections]; dest_spec.
Qed.
Hint Resolve checkSections_dest : spec_dest.

Lemma sectionData_of_dest datas i :
  rel_spec RD_dest RF_dest (sectionData_of datas i).
Proof. unfold sectionData_of. dest_spec. Qed.
Hint Resolve sectionData_of_dest : spec_dest.

Lemma parseStringSectionM_dest data :
  rel_spec RD_dest RF_dest (parseStringSectionM data).
Proof. unfold parseStringSectionM. dest_spec. Qed.
Hint Resolve parseStringSectionM_dest : spec_dest.

Variable verify : IR -> OpId -> VerifyResult.

Lemma spliceModule_dest moduleOp body s :
  wp (spliceModule verify moduleOp body)
     (fun _ s' => exists parsedOps,
        destOps s' = splice (destOps s) parsedOps)
     (fun _ => True) s.
Proof.
  unfold spliceModule, wp, mbind, M_bind, get, emitError, emit, modify, failure.
  cbn.
  destruct (bool_decide (forwardRefOps s = [])); cbn; [|done].
  destruct (verify_ok (verify (ir s) moduleOp)); cbn; [|done].
  destruct (ir_blocks (ir s) !! body) as [k|]; cbn; [|done].
  by exists (blk_ops k).
Qed.

Lemma parseIRSection_dest fileLoc data s :
  wp (parseIRSection ctx verify fileLoc data)
     (fun _ s' => exists parsedOps,
        destOps s' = splice (destOps s) parsedOps)
     (fun _ => True) s.
Proof.
  unfold parseIRSection. apply wp_bind.
  eapply wp_mono; [apply parseTopLevel_dest| |done]; cbn.
  intros [moduleOp body] s1 H1. unfold RD_dest in H1.
  eapply wp_mono; [apply spliceModule_dest| |done]; cbn.
  intros _ s2 [ops H2]. exists ops. by rewrite H2, H1.
Qed.

Lemma wpD_bind_spec {A B} (m : M A) (k : A -> M B) Q s0 s :
  rel_spec RD_dest RF_dest m -> RD_dest s0 s ->
  (forall a s', RD_dest s0 s' -> wp (k a) Q (fun _ => True) s') ->
  wp (m ≫= k) Q (fun _ => True) s.
Proof.
  intros Hm Hs Hk. apply wp_bind. specialize (Hm s).
  eapply wp_mono; [exact Hm| |done]; cbn.
  intros a s' H. apply Hk. eapply frame_trans; eauto.
Qed.

Ltac destQ_step :=
  lazymatch goal with
  | |- wp (liftR _ ≫= _) _ _ _ =>
      apply wp_bind, wp_liftR; [intros ? ? ?; cbv beta|done]
  | |- wp (modify _ ≫= _) _ _ _ => apply wp_bind, wp_modify; cbv beta
  | |- wp (let (_, _) := ?x in _) _ _ _ => destruct x
  | |- wp (_ ≫= _) _ _ _ =>
      eapply wpD_bind_spec; [dest_rel|dest_leaf|intros ? ? ?; cbv beta]
  end.

Lemma read_dest kVersion fileLoc buffer s :
  wp (read ctx verify kVersion fileLoc buffer)
     (fun _ s' => exists parsedOps,
        destOps s' = splice (destOps s) parsedOps)
     (fun _ => True) s.
Proof.
  assert (H0 : RD_dest s s) by apply frame_refl.
  unfold read. repeat destQ_step.
  eapply wp_mono; [apply parseIRSection_dest| |done]; cbn.
  intros _ sD [ops HD]. exists ops. rewrite HD. f_equal. dest_leaf.
Qed.


Lemma splice_nil parsedOps : splice [] parsedOps = map ParsedOp parsedOps.
Proof. done. Qed.

Lemma splice_snoc init lastOp parsedOps :
  splice (init ++ [lastOp]) parsedOps
  = init ++ map ParsedOp parsedOps ++ [lastOp].
Proof.
  unfold splice. destruct (init ++ [lastOp]) as [|x l] eqn:E.
  - by destruct init.
  - rewrite <- E, length_app. cbn [length].
    replace (length init + 1 - 1)%nat with (length init) by lia.
    by rewrite take_app_length, drop_app_length.
Qed.


End Family_dest.

(** ** Functions that leave the value scopes alone *)

Create HintDb spec_scope.

Ltac scope_leaf :=
  unfold RD_scope, RF_scope in *;
  try match goal with |- context [set_entriesOf ?k] => destruct k end;
  simpl in *; try (intuition (auto; congruence)).

Ltac scope_rel :=
  first
    [ solve [eauto with spec_scope]
    | apply rel_spec_intro; [typeclasses eauto|]; intros ? ?; scope_auto ]
with scope_call :=
  lazymatch goal with
  | |- wpR _ _ _ (_ ≫= _) _ =>
      eapply wpR_bind_spec;
      [typeclasses eauto|scope_rel|scope_leaf|intros ? ? ?; cbv beta]
  | |- wpR _ _ _ _ _ =>
      eapply wpR_call; [typeclasses eauto|scope_rel|scope_leaf]
  end
with scope_auto := repeat first [wpR_step scope_leaf | scope_call].

Ltac scope_spec :=
  intros; apply rel_spec_intro; [typeclasses eauto|];
  intros ? ?; scope_auto.

#[export] Instance Frame_scope : Frame RD_scope RF_scope.
Proof.
  split; unfold RD_scope, RF_scope; [done|congruence|done].
Qed.

Section Family_scope.

Variable ctx : MLIRContext.

Lemma resolveEntry_scope n index str :
  rel_spec RD_scope RF_scope (resolveEntry n index str).
Proof. unfold resolveEntry. scope_spec. Qed.
Hint Resolve resolveEntry_scope : spec_scope.

Lemma parseEntry_scope reader n str :
  rel_spec RD_scope RF_scope (parseEntry reader n str).
Proof. unfold parseEntry. scope_spec. Qed.
Hint Resolve parseEntry_scope : spec_scope.

Lemma stringContents_scope str :
  rel_spec RD_scope RF_scope (stringContents str).
Proof. unfold stringContents. scope_spec. Qed.
Hint Resolve stringContents_scope : spec_scope.

Lemma parseSharedString_scope reader :
  rel_spec RD_scope RF_scope (parseSharedString reader).
Proof. unfold parseSharedString. scope_spec. Qed.
Hint Resolve parseSharedString_scope : spec_scope.

Lemma load_scope i :
  rel_spec RD_scope RF_scope (load ctx i).
Proof. unfold load. scope_spec. Qed.
Hint Resolve load_scope : spec_scope.

Lemma forEntries_scope {A} n cb d (a : A) reader :
  (forall d a r, rel_spec RD_scope RF_scope (cb d a r)) ->
  rel_spec RD_scope RF_scope (forEntries n cb d a reader).
Proof.
  intros Hcb. revert a reader.
  induction n as [|? IH]; intros a reader; cbn [forEntries]; scope_spec.
Qed.
Hint Resolve forEntries_scope : spec_scope.

Lemma parseDialectGrouping_scope {A} reader cb (a : A) :
  (forall d a r, rel_spec RD_scope RF_scope (cb d a r)) ->
  rel_spec RD_scope RF_scope (parseDialectGrouping reader cb a).
Proof. intros Hcb. unfold parseDialectGrouping. scope_spec. Qed.
Hint Resolve parseDialectGrouping_scope : spec_scope.

Lemma parseDialectNames_scope n i reader :
  rel_spec RD_scope RF_scope (parseDialectNames n i reader).
Proof.
  revert i reader.
  induction n as [|? IH]; intros i reader; cbn [parseDialectNames]; scope_spec.
Qed.
Hint Resolve parseDialectNames_scope : spec_scope.

Lemma parseOpNameEntry_scope d u reader :
  rel_spec RD_scope RF_scope (parseOpNameEntry d u reader).
Proof. unfold parseOpNameEntry. scope_spec. Qed.
Hint Resolve parseOpNameEntry_scope : spec_scope.

Lemma parseOpNameGroups_scope fuel reader :
  rel_spec RD_scope RF_scope (parseOpNameGroups fuel reader).
Proof.
  revert reader.
  induction fuel as [|? IH]; intros reader; cbn [parseOpNameGroups]; scope_spec.
Qed.
Hint Resolve parseOpNameGroups_scope : spec_scope.

Lemma parseDialectSection_scope data :
  rel_spec RD_scope RF_scope (parseDialectSection data).
Proof. unfold parseDialectSection. scope_spec. Qed.
Hint Resolve parseDialectSection_scope : spec_scope.

Lemma parseOpName_scope reader :
  rel_spec RD_scope RF_scope (parseOpName ctx reader).
Proof. unfold parseOpName. scope_spec. Qed.
Hint Resolve parseOpName_scope : spec_scope.

Lemma parseEntryFn_scope kind data d st reader :
  rel_spec RD_scope RF_scope (parseEntryFn kind data d st reader).
Proof. unfold parseEntryFn. scope_spec. Qed.
Hint Resolve parseEntryFn_scope : spec_scope.

Lemma parseEntries_scope kind fuel data st reader :
  rel_spec RD_scope RF_scope (parseEntries kind fuel data st reader).
Proof.
  revert st reader.
  induction fuel as [|? IH]; intros st reader; cbn [parseEntries]; scope_spec.
Qed.
Hint Resolve parseEntries_scope : spec_scope.

Lemma initialize_scope data offsets :
  rel_spec RD_scope RF_scope (initialize data offsets).
Proof. unfold initialize. scope_spec. Qed.
Hint Resolve initialize_scope : spec_scope.

Lemma parseAsmEntry_scope kind i reader custom :
  rel_spec RD_scope RF_scope (parseAsmEntry ctx kind i reader custom).
Proof. unfold parseAsmEntry. scope_spec. Qed.
Hint Resolve parseAsmEntry_scope : spec_scope.

Lemma resolveAttrType_scope kind index :
  rel_spec RD_scope RF_scope (resolveAttrType ctx kind index).
Proof. unfold resolveAttrType. scope_spec. Qed.
Hint Resolve resolveAttrType_scope : spec_scope.

Lemma parseAttribute_scope reader :
  rel_spec RD_scope RF_scope (parseAttribute ctx reader).
Proof. unfold parseAttribute. scope_spec. Qed.
Hint Resolve parseAttribute_scope : spec_scope.

Lemma parseType_scope reader :
  rel_spec RD_scope RF_scope (parseType ctx reader).
Proof. unfold parseType. scope_spec. Qed.
Hint Resolve parseType_scope : spec_scope.

Lemma parseAttributeOf_scope isa name reader :
  rel_spec RD_scope RF_scope (parseAttributeOf ctx isa name reader).
Proof. unfold parseAttributeOf. scope_spec. Qed.
Hint Resolve parseAttributeOf_scope : spec_scope.

Lemma createOperation_scope op :
  rel_spec RD_scope RF_scope (createOperation op).
Proof. unfold createOperation. scope_spec. Qed.
Hint Resolve createOperation_scope : spec_scope.

Lemma createBlock_scope  :
  rel_spec RD_scope RF_scope createBlock.
Proof. unfold createBlock. scope_spec. Qed.
Hint Resolve createBlock_scope : spec_scope.

Lemma createRegion_scope  :
  rel_spec RD_scope RF_scope createRegion.
Proof. unfold createRegion. scope_spec. Qed.
Hint Resolve createRegion_scope : spec_scope.

Lemma Block_push_back_scope b op :
  rel_spec RD_scope RF_scope (Block_push_back b op).
Proof. unfold Block_push_back. scope_spec. Qed.
Hint Resolve Block_push_back_scope : spec_scope.

Lemma Region_push_back_scope r b :
  rel_spec RD_scope RF_scope (Region_push_back r b).
Proof. unfold Region_push_back. scope_spec. Qed.
Hint Resolve Region_push_back_scope : spec_scope.

Lemma addArguments_scope b args :
  rel_spec RD_scope RF_scope (addArguments b args).
Proof. unfold addArguments. scope_spec. Qed.
Hint Resolve addArguments_scope : spec_scope.

Lemma getArguments_scope b :
  rel_spec RD_scope RF_scope (getArguments b).
Proof. unfold getArguments. scope_spec. Qed.
Hint Resolve getArguments_scope : spec_scope.

Lemma replaceAllUsesWith_scope a b :
  rel_spec RD_scope RF_scope (replaceAllUsesWith a b).
Proof. unfold replaceAllUsesWith. scope_spec. Qed.
Hint Resolve replaceAllUsesWith_scope : spec_scope.

Lemma createForwardRef_scope  :
  rel_spec RD_scope RF_scope (createForwardRef ctx).
Proof. unfold createForwardRef. scope_spec. Qed.
Hint Resolve createForwardRef_scope : spec_scope.

Lemma curRegionBlocks_scope rs :
  rel_spec RD_scope RF_scope (curRegionBlocks rs).
Proof. unfold curRegionBlocks. scope_spec. Qed.
Hint Resolve curRegionBlocks_scope : spec_scope.

Lemma curBlockOf_scope rs :
  rel_spec RD_scope RF_scope (curBlockOf rs).
Proof. unfold curBlockOf. scope_spec. Qed.
Hint Resolve curBlockOf_scope : spec_scope.

Lemma parseArgs_scope n reader :
  rel_spec RD_scope RF_scope (parseArgs ctx n reader).
Proof.
  revert reader.
  induction n as [|? IH]; intros reader; cbn [parseArgs]; scope_spec.
Qed.
Hint Resolve parseArgs_scope : spec_scope.


Lemma defineValues_no_scope newValues s :
  valueScopes s = [] -> defineValues newValues s = Undefined.
Proof. intros H. unfold defineValues, mbind, M_bind, get. by rewrite H. Qed.

(** With no value scope, the arguments of a block cannot be defined: the
    function fails while it reads them or ends in [valueScopes.back()] of
    an empty vector. *)
Lemma parseBlockArguments_no_scope reader block s :
  valueScopes s = [] ->
  wp (parseBlockArguments ctx reader block) (fun _ _ => False)
     (fun _ => True) s.
Proof.
  intros Hs. unfold parseBlockArguments.
  apply wp_bind, wp_liftR; [intros numArgs r1 _; cbv beta|done].
  apply wp_bind.
  eapply wp_mono; [apply parseArgs_scope| |done]; cbn.
  intros [args r2] s1 H1. unfold RD_scope in H1.
  unfold addArguments, getArguments. repeat wp_step.
  unfold wp, mbind, M_bind. rewrite defineValues_no_scope; [done|].
  cbn. congruence.
Qed.

Lemma ModuleOp_create_scope fileLoc :
  rel_spec RD_scope RF_scope (ModuleOp_create fileLoc).
Proof. unfold ModuleOp_create. scope_spec. Qed.

(** [parseIRSection] parses the header of the module block before it
    pushes the first value scope: on a reader without value scopes, a
    header that announces block arguments never lets the function return
    with success. *)
Lemma parseTopLevel_header_before_scope fileLoc data numOps r s :
  valueScopes s = [] ->
  parseVarIntWithFlag data = ROk (numOps, true) r ->
  forall x s', parseTopLevel ctx fileLoc data s <> Done x s'.
Proof.
  intros Hs Hhdr x s' Hrun.
  assert (Hwp : wp (parseTopLevel ctx fileLoc data) (fun _ _ => False)
                   (fun _ => True) s).
  { unfold parseTopLevel, enterModule. apply wp_bind_assoc, wp_bind.
    eapply wp_mono; [apply ModuleOp_create_scope| |done]; cbn.
    intros [[moduleOp region] body] s1 H1. unfold RD_scope in H1.
    apply wp_bind_assoc, wp_bind. unfold parseBlock.
    apply wp_bind, wp_liftR; [intros [n f] r0 E; cbv beta|done].
    rewrite Hhdr in E. injection E as <- <- <-. cbn [fst snd].
    apply wp_bind.
    eapply wp_mono; [apply curBlockOf_scope| |done]; cbn.
    intros b s2 H2. unfold RD_scope in H2.
    apply wp_bind.
    eapply wp_mono; [apply parseBlockArguments_no_scope; congruence| |done].
    done. }
  exact (wp_Done _ _ _ _ _ _ Hwp Hrun).
Qed.

End Family_scope.

(** ** Functions that leave the regions of the heap alone *)

Create HintDb spec_regs.

Ltac regs_leaf :=
  unfold RD_regs, RF_regs in *;
  try match goal with |- context [set_entriesOf ?k] => destruct k end;
  simpl in *; try (intuition (auto; congruence)).

Ltac regs_rel :=
  first
    [ solve [eauto with spec_regs]
    | apply rel_spec_intro; [typeclasses eauto|]; intros ? ?; regs_auto ]
with regs_call :=
  lazymatch goal with
  | |- wpR _ _ _ (_ ≫= _) _ =>
      eapply wpR_bind_spec;
      [typeclasses eauto|regs_rel|regs_leaf|intros ? ? ?; cbv beta]
  | |- wpR _ _ _ _ _ =>
      eapply wpR_call; [typeclasses eauto|regs_rel|regs_leaf]
  end
with regs_auto := repeat first [wpR_step regs_leaf | regs_call].

Ltac regs_spec :=
  intros; apply rel_spec_intro; [typeclasses eauto|];
  intros ? ?; regs_auto.

#[export] Instance Frame_regs : Frame RD_regs RF_regs.
Proof.
  split; unfold RD_regs, RF_regs; [done|congruence|done].
Qed.

Section Family_regs.

Variable ctx : MLIRContext.

Lemma resolveEntry_regs n index str :
  rel_spec RD_regs RF_regs (resolveEntry n index str).
Proof. unfold resolveEntry. regs_spec. Qed.
Hint Resolve resolveEntry_regs : spec_regs.

Lemma parseEntry_regs reader n str :
  rel_spec RD_regs RF_regs (parseEntry reader n str).
Proof. unfold parseEntry. regs_spec. Qed.
Hint Resolve parseEntry_regs : spec_regs.

Lemma stringContents_regs str :
  rel_spec RD_regs RF_regs (stringContents str).
Proof. unfold stringContents. regs_spec. Qed.
Hint Resolve stringContents_regs : spec_regs.

Lemma parseSharedString_regs reader :
  rel_spec RD_regs RF_regs (parseSharedString reader).
Proof. unfold parseSharedString. regs_spec. Qed.
Hint Resolve parseSharedString_regs : spec_regs.

Lemma load_regs i :
  rel_spec RD_regs RF_regs (load ctx i).
Proof. unfold load. regs_spec. Qed.
Hint Resolve load_regs : spec_regs.

Lemma forEntries_regs {A} n cb d (a : A) reader :
  (forall d a r, rel_spec RD_regs RF_regs (cb d a r)) ->
  rel_spec RD_regs RF_regs (forEntries n cb d a reader).
Proof.
  intros Hcb. revert a reader.
  induction n as [|? IH]; intros a reader; cbn [forEntries]; regs_spec.
Qed.
Hint Resolve forEntries_regs : spec_regs.

Lemma parseDialectGrouping_regs {A} reader cb (a : A) :
  (forall d a r, rel_spec RD_regs RF_regs (cb d a r)) ->
  rel_spec RD_regs RF_regs (parseDialectGrouping reader cb a).
Proof. intros Hcb. unfold parseDialectGrouping. regs_spec. Qed.
Hint Resolve parseDialectGrouping_regs : spec_regs.

Lemma parseDialectNames_regs n i reader :
  rel_spec RD_regs RF_regs (parseDialectNames n i reader).
Proof.
  revert i reader.
  induction n as [|? IH]; intros i reader; cbn [parseDialectNames]; regs_spec.
Qed.
Hint Resolve parseDialectNames_regs : spec_regs.

Lemma parseOpNameEntry_regs d u reader :
  rel_spec RD_regs RF_regs (parseOpNameEntry d u reader).
Proof. unfold parseOpNameEntry. regs_spec. Qed.
Hint Resolve parseOpNameEntry_regs : spec_regs.

Lemma parseOpNameGroups_regs fuel reader :
  rel_spec RD_regs RF_regs (parseOpNameGroups fuel reader).
Proof.
  revert reader.
  induction fuel as [|? IH]; intros reader; cbn [parseOpNameGroups]; regs_spec.
Qed.
Hint Resolve parseOpNameGroups_regs : spec_regs.

Lemma parseDialectSection_regs data :
  rel_spec RD_regs RF_regs (parseDialectSection data).
Proof. unfold parseDialectSection. regs_spec. Qed.
Hint Resolve parseDialectSection_regs : spec_regs.

Lemma parseOpName_regs reader :
  rel_spec RD_regs RF_regs (parseOpName ctx reader).
Proof. unfold parseOpName. regs_spec. Qed.
Hint Resolve parseOpName_regs : spec_regs.

Lemma parseEntryFn_regs kind data d st reader :
  rel_spec RD_regs RF_regs (parseEntryFn kind data d st reader).
Proof. unfold parseEntryFn. regs_spec. Qed.
Hint Resolve parseEntryFn_regs : spec_regs.

Lemma parseEntries_regs kind fuel data st reader :
  rel_spec RD_regs RF_regs (parseEntries kind fuel data st reader).
Proof.
  revert st reader.
  induction fuel as [|? IH]; intros st reader; cbn [parseEntries]; regs_spec.
Qed.
Hint Resolve parseEntries_regs : spec_regs.

Lemma initialize_regs data offsets :
  rel_spec RD_regs RF_regs (initialize data offsets).
Proof. unfold initialize. regs_spec. Qed.
Hint Resolve initialize_regs : spec_regs.

Lemma parseAsmEntry_regs kind i reader custom :
  rel_spec RD_regs RF_regs (parseAsmEntry ctx kind i reader custom).
Proof. unfold parseAsmEntry. regs_spec. Qed.
Hint Resolve parseAsmEntry_regs : spec_regs.

Lemma resolveAttrType_regs kind index :
  rel_spec RD_regs RF_regs (resolveAttrType ctx kind index).
Proof. unfold resolveAttrType. regs_spec. Qed.
Hint Resolve resolveAttrType_regs : spec_regs.

Lemma parseAttribute_regs reader :
  rel_spec RD_regs RF_regs (parseAttribute ctx reader).
Proof. unfold parseAttribute. regs_spec. Qed.
Hint Resolve parseAttribute_regs : spec_regs.

Lemma parseType_regs reader :
  rel_spec RD_regs RF_regs (parseType ctx reader).
Proof. unfold parseType. regs_spec. Qed.
Hint Resolve parseType_regs : spec_regs.

Lemma parseAttributeOf_regs isa name reader :
  rel_spec RD_regs RF_regs (parseAttributeOf ctx isa name reader).
Proof. unfold parseAttributeOf. regs_spec. Qed.
Hint Resolve parseAttributeOf_regs : spec_regs.

Lemma createOperation_regs op :
  rel_spec RD_regs RF_regs (createOperation op).
Proof. unfold createOperation. regs_spec. Qed.
Hint Resolve createOperation_regs : spec_regs.

Lemma createBlock_regs  :
  rel_spec RD_regs RF_regs createBlock.
Proof. unfold createBlock. regs_spec. Qed.
Hint Resolve createBlock_regs : spec_regs.

Lemma Block_push_back_regs b op :
  rel_spec RD_regs RF_regs (Block_push_back b op).
Proof. unfold Block_push_back. regs_spec. Qed.
Hint Resolve Block_push_back_regs : spec_regs.

Lemma addArguments_regs b args :
  rel_spec RD_regs RF_regs (addArguments b args).
Proof. unfold addArguments. regs_spec. Qed.
Hint Resolve addArguments_regs : spec_regs.

Lemma getArguments_regs b :
  rel_spec RD_regs RF_regs (getArguments b).
Proof. unfold getArguments. regs_spec. Qed.
Hint Resolve getArguments_regs : spec_regs.

Lemma replaceAllUsesWith_regs a b :
  rel_spec RD_regs RF_regs (replaceAllUsesWith a b).
Proof. unfold replaceAllUsesWith. regs_spec. Qed.
Hint Resolve replaceAllUsesWith_regs : spec_regs.

Lemma onBackScope_regs f :
  rel_spec RD_regs RF_regs (onBackScope f).
Proof. unfold onBackScope. regs_spec. Qed.
Hint Resolve onBackScope_regs : spec_regs.

Lemma createForwardRef_regs  :
  rel_spec RD_regs RF_regs (createForwardRef ctx).
Proof. unfold createForwardRef. regs_spec. Qed.
Hint Resolve createForwardRef_regs : spec_regs.

Lemma parseOperand_regs reader :
  rel_spec RD_regs RF_regs (parseOperand ctx reader).
Proof. unfold parseOperand. regs_spec. Qed.
Hint Resolve parseOperand_regs : spec_regs.

Lemma defineValue_regs v :
  rel_spec RD_regs RF_regs (defineValue v).
Proof. unfold defineValue. regs_spec. Qed.
Hint Resolve defineValue_regs : spec_regs.

Lemma defineValuesLoop_regs vs :
  rel_spec RD_regs RF_regs (defineValuesLoop vs).
Proof.
  induction vs as [|? ? IH]; cbn [defineValuesLoop]; regs_spec.
Qed.
Hint Resolve defineValuesLoop_regs : spec_regs.

Lemma defineValues_regs vs :
  rel_spec RD_regs RF_regs (defineValues vs).
Proof. unfold defineValues. regs_spec. Qed.
Hint Resolve defineValues_regs : spec_regs.

Lemma curRegionBlocks_regs rs :
  rel_spec RD_regs RF_regs (curRegionBlocks rs).
Proof. unfold curRegionBlocks. regs_spec. Qed.
Hint Resolve curRegionBlocks_regs : spec_regs.

Lemma curBlockOf_regs rs :
  rel_spec RD_regs RF_regs (curBlockOf rs).
Proof. unfold curBlockOf. regs_spec. Qed.
Hint Resolve curBlockOf_regs : spec_regs.

Lemma parseArgs_regs n reader :
  rel_spec RD_regs RF_regs (parseArgs ctx n reader).
Proof.
  revert reader.
  induction n as [|? IH]; intros reader; cbn [parseArgs]; regs_spec.
Qed.
Hint Resolve parseArgs_regs : spec_regs.

Lemma parseBlockArguments_regs reader b :
  rel_spec RD_regs RF_regs (parseBlockArguments ctx reader b).
Proof. unfold parseBlockArguments. regs_spec. Qed.
Hint Resolve parseBlockArguments_regs : spec_regs.

Lemma parseBlock_regs reader rs :
  rel_spec RD_regs RF_regs (parseBlock ctx reader rs).
Proof. unfold parseBlock. regs_spec. Qed.
Hint Resolve parseBlock_regs : spec_regs.

End Family_regs.

(** ** The shapes of the value scopes *)

Create HintDb spec_shape.

Ltac shape_leaf :=
  unfold RD_shape, RF_shape, shape in *;
  try match goal with |- context [set_entriesOf ?k] => destruct k end;
  simpl in *;
  repeat match goal with H : valueScopes _ = _ |- _ => rewrite H in * end;
  simpl in *; rewrite ?length_insert in *;
  try (intuition (auto; congruence)).

Ltac shape_rel :=
  first
    [ solve [eauto with spec_shape]
    | apply rel_spec_intro; [typeclasses eauto|]; intros ? ?; shape_auto ]
with shape_call :=
  lazymatch goal with
  | |- wpR _ _ _ (_ ≫= _) _ =>
      eapply wpR_bind_spec;
      [typeclasses eauto|shape_rel|shape_leaf|intros ? ? ?; cbv beta]
  | |- wpR _ _ _ _ _ =>
      eapply wpR_call; [typeclasses eauto|shape_rel|shape_leaf]
  end
with shape_auto := repeat first [wpR_step shape_leaf | shape_call].

Ltac shape_spec :=
  intros; apply rel_spec_intro; [typeclasses eauto|];
  intros ? ?; shape_auto.

#[export] Instance Frame_shape : Frame RD_shape RF_shape.
Proof.
  split; unfold RD_shape, RF_shape; [done|congruence|done].
Qed.

Section Family_shape.

Variable ctx : MLIRContext.

Lemma resolveEntry_shape n index str :
  rel_spec RD_shape RF_shape (resolveEntry n index str).
Proof. unfold resolveEntry. shape_spec. Qed.
Hint Resolve resolveEntry_shape : spec_shape.

Lemma parseEntry_shape reader n str :
  rel_spec RD_shape RF_shape (parseEntry reader n str).
Proof. unfold parseEntry. shape_spec. Qed.
Hint Resolve parseEntry_shape : spec_shape.

Lemma stringContents_shape str :
  rel_spec RD_shape RF_shape (stringContents str).
Proof. unfold stringContents. shape_spec. Qed.
Hint Resolve stringContents_shape : spec_shape.

Lemma parseSharedString_shape reader :
  rel_spec RD_shape RF_shape (parseSharedString reader).
Proof. unfold parseSharedString. shape_spec. Qed.
Hint Resolve parseSharedString_shape : spec_shape.

Lemma load_shape i :
  rel_spec RD_shape RF_shape (load ctx i).
Proof. unfold load. shape_spec. Qed.
Hint Resolve load_shape : spec_shape.

Lemma forEntries_shape {A} n cb d (a : A) reader :
  (forall d a r, rel_spec RD_shape RF_shape (cb d a r)) ->
  rel_spec RD_shape RF_shape (forEntries n cb d a reader).
Proof.
  intros Hcb. revert a reader.
  induction n as [|? IH]; intros a reader; cbn [forEntries]; shape_spec.
Qed.
Hint Resolve forEntries_shape : spec_shape.

Lemma parseDialectGrouping_shape {A} reader cb (a : A) :
  (forall d a r, rel_spec RD_shape RF_shape (cb d a r)) ->
  rel_spec RD_shape RF_shape (parseDialectGrouping reader cb a).
Proof. intros Hcb. unfold parseDialectGrouping. shape_spec. Qed.
Hint Resolve parseDialectGrouping_shape : spec_shape.

Lemma parseDialectNames_shape n i reader :
  rel_spec RD_shape RF_shape (parseDialectNames n i reader).
Proof.
  revert i reader.
  induction n as [|? IH]; intros i reader; cbn [parseDialectNames]; shape_spec.
Qed.
Hint Resolve parseDialectNames_shape : spec_shape.

Lemma parseOpNameEntry_shape d u reader :
  rel_spec RD_shape RF_shape (parseOpNameEntry d u reader).
Proof. unfold parseOpNameEntry. shape_spec. Qed.
Hint Resolve parseOpNameEntry_shape : spec_shape.

Lemma parseOpNameGroups_shape fuel reader :
  rel_spec RD_shape RF_shape (parseOpNameGroups fuel reader).
Proof.
  revert reader.
  induction fuel as [|? IH]; intros reader; cbn [parseOpNameGroups]; shape_spec.
Qed.
Hint Resolve parseOpNameGroups_shape : spec_shape.

Lemma parseDialectSection_shape data :
  rel_spec RD_shape RF_shape (parseDialectSection data).
Proof. unfold parseDialectSection. shape_spec. Qed.
Hint Resolve parseDialectSection_shape : spec_shape.

Lemma parseOpName_shape reader :
  rel_spec RD_shape RF_shape (parseOpName ctx reader).
Proof. unfold parseOpName. shape_spec. Qed.
Hint Resolve parseOpName_shape : spec_shape.

Lemma parseEntryFn_shape kind data d st reader :
  rel_spec RD_shape RF_shape (parseEntryFn kind data d st reader).
Proof. unfold parseEntryFn. shape_spec. Qed.
Hint Resolve parseEntryFn_shape : spec_shape.

Lemma parseEntries_shape kind fuel data st reader :
  rel_spec RD_shape RF_shape (parseEntries kind fuel data st reader).
Proof.
  revert st reader.
  induction fuel as [|? IH]; intros st reader; cbn [parseEntries]; shape_spec.
Qed.
Hint Resolve parseEntries_shape : spec_shape.

Lemma initialize_shape data offsets :
  rel_spec RD_shape RF_shape (initialize data offsets).
Proof. unfold initialize. shape_spec. Qed.
Hint Resolve initialize_shape : spec_shape.

Lemma parseAsmEntry_shape kind i reader custom :
  rel_spec RD_shape RF_shape (parseAsmEntry ctx kind i reader custom).
Proof. unfold parseAsmEntry. shape_spec. Qed.
Hint Resolve parseAsmEntry_shape : spec_shape.

Lemma resolveAttrType_shape kind index :
  rel_spec RD_shape RF_shape (resolveAttrType ctx kind index).
Proof. unfold resolveAttrType. shape_spec. Qed.
Hint Resolve resolveAttrType_shape : spec_shape.

Lemma parseAttribute_shape reader :
  rel_spec RD_shape RF_shape (parseAttribute ctx reader).
Proof. unfold parseAttribute. shape_spec. Qed.
Hint Resolve parseAttribute_shape : spec_shape.

Lemma parseType_shape reader :
  rel_spec RD_shape RF_shape (parseType ctx reader).
Proof. unfold parseType. shape_spec. Qed.
Hint Resolve parseType_shape : spec_shape.

Lemma parseAttributeOf_shape isa name reader :
  rel_spec RD_shape RF_shape (parseAttributeOf ctx isa name reader).
Proof. unfold parseAttributeOf. shape_spec. Qed.
Hint Resolve parseAttributeOf_shape : spec_shape.

Lemma createOperation_shape op :
  rel_spec RD_shape RF_shape (createOperation op).
Proof. unfold createOperation. shape_spec. Qed.
Hint Resolve createOperation_shape : spec_shape.

Lemma createBlock_shape  :
  rel_spec RD_shape RF_shape createBlock.
Proof. unfold createBlock. shape_spec. Qed.
Hint Resolve createBlock_shape : spec_shape.

Lemma createRegion_shape  :
  rel_spec RD_shape RF_shape createRegion.
Proof. unfold createRegion. shape_spec. Qed.
Hint Resolve createRegion_shape : spec_shape.

Lemma Block_push_back_shape b op :
  rel_spec RD_shape RF_shape (Block_push_back b op).
Proof. unfold Block_push_back. shape_spec. Qed.
Hint Resolve Block_push_back_shape : spec_shape.

Lemma Region_push_back_shape r b :
  rel_spec RD_shape RF_shape (Region_push_back r b).
Proof. unfold Region_push_back. shape_spec. Qed.
Hint Resolve Region_push_back_shape : spec_shape.

Lemma addArguments_shape b args :
  rel_spec RD_shape RF_shape (addArguments b args).
Proof. unfold addArguments. shape_spec. Qed.
Hint Resolve addArguments_shape : spec_shape.

Lemma getArguments_shape b :
  rel_spec RD_shape RF_shape (getArguments b).
Proof. unfold getArguments. shape_spec. Qed.
Hint Resolve getArguments_shape : spec_shape.

Lemma replaceAllUsesWith_shape a b :
  rel_spec RD_shape RF_shape (replaceAllUsesWith a b).
Proof. unfold replaceAllUsesWith. shape_spec. Qed.
Hint Resolve replaceAllUsesWith_shape : spec_shape.

Lemma createForwardRef_shape  :
  rel_spec RD_shape RF_shape (createForwardRef ctx).
Proof. unfold createForwardRef. shape_spec. Qed.
Hint Resolve createForwardRef_shape : spec_shape.

Lemma parseOperand_shape reader :
  rel_spec RD_shape RF_shape (parseOperand ctx reader).
Proof. unfold parseOperand, onBackScope. shape_spec. Qed.
Hint Resolve parseOperand_shape : spec_shape.

Lemma curRegionBlocks_shape rs :
  rel_spec RD_shape RF_shape (curRegionBlocks rs).
Proof. unfold curRegionBlocks. shape_spec. Qed.
Hint Resolve curRegionBlocks_shape : spec_shape.

Lemma curBlockOf_shape rs :
  rel_spec RD_shape RF_shape (curBlockOf rs).
Proof. unfold curBlockOf. shape_spec. Qed.
Hint Resolve curBlockOf_shape : spec_shape.

Lemma parseArgs_shape n reader :
  rel_spec RD_shape RF_shape (parseArgs ctx n reader).
Proof.
  revert reader.
  induction n as [|? IH]; intros reader; cbn [parseArgs]; shape_spec.
Qed.
Hint Resolve parseArgs_shape : spec_shape.

Lemma createBlocks_shape n r :
  rel_spec RD_shape RF_shape (createBlocks n r).
Proof.
  induction n as [|? IH]; cbn [createBlocks]; shape_spec.
Qed.
Hint Resolve createBlocks_shape : spec_shape.

Lemma parseTypes_shape n reader :
  rel_spec RD_shape RF_shape (parseTypes ctx n reader).
Proof.
  revert reader.
  induction n as [|? IH]; intros reader; cbn [parseTypes]; shape_spec.
Qed.
Hint Resolve parseTypes_shape : spec_shape.

Lemma parseOperands_shape n reader :
  rel_spec RD_shape RF_shape (parseOperands ctx n reader).
Proof.
  revert reader.
  induction n as [|? IH]; intros reader; cbn [parseOperands]; shape_spec.
Qed.
Hint Resolve parseOperands_shape : spec_shape.

Lemma parseSuccessors_shape n bs reader :
  rel_spec RD_shape RF_shape (parseSuccessors n bs reader).
Proof.
  revert reader.
  induction n as [|? IH]; intros reader; cbn [parseSuccessors]; shape_spec.
Qed.
Hint Resolve parseSuccessors_shape : spec_shape.

Lemma createRegions_shape n :
  rel_spec RD_shape RF_shape (createRegions n).
Proof.
  induction n as [|? IH]; cbn [createRegions]; shape_spec.
Qed.
Hint Resolve createRegions_shape : spec_shape.

Lemma parseOperationState_shape reader rs :
  rel_spec RD_shape RF_shape (parseOperationState ctx reader rs).
Proof. unfold parseOperationState, when_, counted. shape_spec. Qed.
Hint Resolve parseOperationState_shape : spec_shape.

End Family_shape.

(** ** The shapes of the value scopes, up to the current next id *)

Create HintDb spec_weak.

Ltac weak_leaf :=
  unfold RD_weak, RF_weak, wshape, shape in *;
  try match goal with |- context [set_entriesOf ?k] => destruct k end;
  simpl in *;
  repeat match goal with H : valueScopes _ = _ |- _ => rewrite H in * end;
  simpl in *;
  repeat match goal with H : nextValueIDs _ = _ |- _ => rewrite H in * end;
  simpl in *; rewrite ?length_insert in *;
  try (intuition (auto; congruence)).

Ltac weak_rel :=
  first
    [ solve [eauto with spec_weak]
    | apply rel_spec_intro; [typeclasses eauto|]; intros ? ?; weak_auto ]
with weak_call :=
  lazymatch goal with
  | |- wpR _ _ _ (_ ≫= _) _ =>
      eapply wpR_bind_spec;
      [typeclasses eauto|weak_rel|weak_leaf|intros ? ? ?; cbv beta]
  | |- wpR _ _ _ _ _ =>
      eapply wpR_call; [typeclasses eauto|weak_rel|weak_leaf]
  end
with weak_auto := repeat first [wpR_step weak_leaf | weak_call].

Ltac weak_spec :=
  intros; apply rel_spec_intro; [typeclasses eauto|];
  intros ? ?; weak_auto.

#[export] Instance Frame_weak : Frame RD_weak RF_weak.
Proof.
  split; unfold RD_weak, RF_weak; [done| |done].
  intros s1 s2 s3 [E1 L1] [E2 L2]. split; congruence.
Qed.

Section Family_weak.

Variable ctx : MLIRContext.

Lemma resolveEntry_weak n index str :
  rel_spec RD_weak RF_weak (resolveEntry n index str).
Proof. unfold resolveEntry. weak_spec. Qed.
Hint Resolve resolveEntry_weak : spec_weak.

Lemma parseEntry_weak reader n str :
  rel_spec RD_weak RF_weak (parseEntry reader n str).
Proof. unfold parseEntry. weak_spec. Qed.
Hint Resolve parseEntry_weak : spec_weak.

Lemma stringContents_weak str :
  rel_spec RD_weak RF_weak (stringContents str).
Proof. unfold stringContents. weak_spec. Qed.
Hint Resolve stringContents_weak : spec_weak.

Lemma parseSharedString_weak reader :
  rel_spec RD_weak RF_weak (parseSharedString reader).
Proof. unfold parseSharedString. weak_spec. Qed.
Hint Resolve parseSharedString_weak : spec_weak.

Lemma load_weak i :
  rel_spec RD_weak RF_weak (load ctx i).
Proof. unfold load. weak_spec. Qed.
Hint Resolve load_weak : spec_weak.

Lemma forEntries_weak {A} n cb d (a : A) reader :
  (forall d a r, rel_spec RD_weak RF_weak (cb d a r)) ->
  rel_spec RD_weak RF_weak (forEntries n cb d a reader).
Proof.
  intros Hcb. revert a reader.
  induction n as [|? IH]; intros a reader; cbn [forEntries]; weak_spec.
Qed.
Hint Resolve forEntries_weak : spec_weak.

Lemma parseDialectGrouping_weak {A} reader cb (a : A) :
  (forall d a r, rel_spec RD_weak RF_weak (cb d a r)) ->
  rel_spec RD_weak RF_weak (parseDialectGrouping reader cb a).
Proof. intros Hcb. unfold parseDialectGrouping. weak_spec. Qed.
Hint Resolve parseDialectGrouping_weak : spec_weak.

Lemma parseDialectNames_weak n i reader :
  rel_spec RD_weak RF_weak (parseDialectNames n i reader).
Proof.
  revert i reader.
  induction n as [|? IH]; intros i reader; cbn [parseDialectNames]; weak_spec.
Qed.
Hint Resolve parseDialectNames_weak : spec_weak.

Lemma parseOpNameEntry_weak d u reader :
  rel_spec RD_weak RF_weak (parseOpNameEntry d u reader).
Proof. unfold parseOpNameEntry. weak_spec. Qed.
Hint Resolve parseOpNameEntry_weak : spec_weak.

Lemma parseOpNameGroups_weak fuel reader :
  rel_spec RD_weak RF_weak (parseOpNameGroups fuel reader).
Proof.
  revert reader.
  induction fuel as [|? IH]; intros reader; cbn [parseOpNameGroups]; weak_spec.
Qed.
Hint Resolve parseOpNameGroups_weak : spec_weak.

Lemma parseDialectSection_weak data :
  rel_spec RD_weak RF_weak (parseDialectSection data).
Proof. unfold parseDialectSection. weak_spec. Qed.
Hint Resolve parseDialectSection_weak : spec_weak.

Lemma parseOpName_weak reader :
  rel_spec RD_weak RF_weak (parseOpName ctx reader).
Proof. unfold parseOpName. weak_spec. Qed.
Hint Resolve parseOpName_weak : spec_weak.

Lemma parseEntryFn_weak kind data d st reader :
  rel_spec RD_weak RF_weak (parseEntryFn kind data d st reader).
Proof. unfold parseEntryFn. weak_spec. Qed.
Hint Resolve parseEntryFn_weak : spec_weak.

Lemma parseEntries_weak kind fuel data st reader :
  rel_spec RD_weak RF_weak (parseEntries kind fuel data st reader).
Proof.
  revert st reader.
  induction fuel as [|? IH]; intros st reader; cbn [parseEntries]; weak_spec.
Qed.
Hint Resolve parseEntries_weak : spec_weak.

Lemma initialize_weak data offsets :
  rel_spec RD_weak RF_weak (initialize data offsets).
Proof. unfold initialize. weak_spec. Qed.
Hint Resolve initialize_weak : spec_weak.

Lemma parseAsmEntry_weak kind i reader custom :
  rel_spec RD_weak RF_weak (parseAsmEntry ctx kind i reader custom).
Proof. unfold parseAsmEntry. weak_spec. Qed.
Hint Resolve parseAsmEntry_weak : spec_weak.

Lemma resolveAttrType_weak kind index :
  rel_spec RD_weak RF_weak (resolveAttrType ctx kind index).
Proof. unfold resolveAttrType. weak_spec. Qed.
Hint Resolve resolveAttrType_weak : spec_weak.

Lemma parseAttribute_weak reader :
  rel_spec RD_weak RF_weak (parseAttribute ctx reader).
Proof. unfold parseAttribute. weak_spec. Qed.
Hint Resolve parseAttribute_weak : spec_weak.

Lemma parseType_weak reader :
  rel_spec RD_weak RF_weak (parseType ctx reader).
Proof. unfold parseType. weak_spec. Qed.
Hint Resolve parseType_weak : spec_weak.

Lemma parseAttributeOf_weak isa name reader :
  rel_spec RD_weak RF_weak (parseAttributeOf ctx isa name reader).
Proof. unfold parseAttributeOf. weak_spec. Qed.
Hint Resolve parseAttributeOf_weak : spec_weak.

Lemma createOperation_weak op :
  rel_spec RD_weak RF_weak (createOperation op).
Proof. unfold createOperation. weak_spec. Qed.
Hint Resolve createOperation_weak : spec_weak.

Lemma createBlock_weak  :
  rel_spec RD_weak RF_weak createBlock.
Proof. unfold createBlock. weak_spec. Qed.
Hint Resolve createBlock_weak : spec_weak.

Lemma createRegion_weak  :
  rel_spec RD_weak RF_weak createRegion.
Proof. unfold createRegion. weak_spec. Qed.
Hint Resolve createRegion_weak : spec_weak.

Lemma Block_push_back_weak b op :
  rel_spec RD_weak RF_weak (Block_push_back b op).
Proof. unfold Block_push_back. weak_spec. Qed.
Hint Resolve Block_push_back_weak : spec_weak.

Lemma Region_push_back_weak r b :
  rel_spec RD_weak RF_weak (Region_push_back r b).
Proof. unfold Region_push_back. weak_spec. Qed.
Hint Resolve Region_push_back_weak : spec_weak.

Lemma addArguments_weak b args :
  rel_spec RD_weak RF_weak (addArguments b args).
Proof. unfold addArguments. weak_spec. Qed.
Hint Resolve addArguments_weak : spec_weak.

Lemma getArguments_weak b :
  rel_spec RD_weak RF_weak (getArguments b).
Proof. unfold getArguments. weak_spec. Qed.
Hint Resolve getArguments_weak : spec_weak.

Lemma replaceAllUsesWith_weak a b :
  rel_spec RD_weak RF_weak (replaceAllUsesWith a b).
Proof. unfold replaceAllUsesWith. weak_spec. Qed.
Hint Resolve replaceAllUsesWith_weak : spec_weak.

Lemma createForwardRef_weak  :
  rel_spec RD_weak RF_weak (createForwardRef ctx).
Proof. unfold createForwardRef. weak_spec. Qed.
Hint Resolve createForwardRef_weak : spec_weak.

Lemma parseOperand_weak reader :
  rel_spec RD_weak RF_weak (parseOperand ctx reader).
Proof. unfold parseOperand, onBackScope. weak_spec. Qed.
Hint Resolve parseOperand_weak : spec_weak.

Lemma defineValue_weak v :
  rel_spec RD_weak RF_weak (defineValue v).
Proof. unfold defineValue. weak_spec. Qed.
Hint Resolve defineValue_weak : spec_weak.

Lemma defineValuesLoop_weak vs :
  rel_spec RD_weak RF_weak (defineValuesLoop vs).
Proof.
  induction vs as [|? ? IH]; cbn [defineValuesLoop]; weak_spec.
Qed.
Hint Resolve defineValuesLoop_weak : spec_weak.

Lemma defineValues_weak vs :
  rel_spec RD_weak RF_weak (defineValues vs).
Proof. unfold defineValues. weak_spec. Qed.
Hint Resolve defineValues_weak : spec_weak.

Lemma curRegionBlocks_weak rs :
  rel_spec RD_weak RF_weak (curRegionBlocks rs).
Proof. unfold curRegionBlocks. weak_spec. Qed.
Hint Resolve curRegionBlocks_weak : spec_weak.

Lemma curBlockOf_weak rs :
  rel_spec RD_weak RF_weak (curBlockOf rs).
Proof. unfold curBlockOf. weak_spec. Qed.
Hint Resolve curBlockOf_weak : spec_weak.

Lemma parseArgs_weak n reader :
  rel_spec RD_weak RF_weak (parseArgs ctx n reader).
Proof.
  revert reader.
  induction n as [|? IH]; intros reader; cbn [parseArgs]; weak_spec.
Qed.
Hint Resolve parseArgs_weak : spec_weak.

Lemma parseBlockArguments_weak reader b :
  rel_spec RD_weak RF_weak (parseBlockArguments ctx reader b).
Proof. unfold parseBlockArguments. weak_spec. Qed.
Hint Resolve parseBlockArguments_weak : spec_weak.

Lemma parseBlock_weak reader rs :
  rel_spec RD_weak RF_weak (parseBlock ctx reader rs).
Proof. unfold parseBlock. weak_spec. Qed.
Hint Resolve parseBlock_weak : spec_weak.

Lemma createBlocks_weak n r :
  rel_spec RD_weak RF_weak (createBlocks n r).
Proof.
  induction n as [|? IH]; cbn [createBlocks]; weak_spec.
Qed.
Hint Resolve createBlocks_weak : spec_weak.

Lemma parseTypes_weak n reader :
  rel_spec RD_weak RF_weak (parseTypes ctx n reader).
Proof.
  revert reader.
  induction n as [|? IH]; intros reader; cbn [parseTypes]; weak_spec.
Qed.
Hint Resolve parseTypes_weak : spec_weak.

Lemma parseOperands_weak n reader :
  rel_spec RD_weak RF_weak (parseOperands ctx n reader).
Proof.
  revert reader.
  induction n as [|? IH]; intros reader; cbn [parseOperands]; weak_spec.
Qed.
Hint Resolve parseOperands_weak : spec_weak.

Lemma parseSuccessors_weak n bs reader :
  rel_spec RD_weak RF_weak (parseSuccessors n bs reader).
Proof.
  revert reader.
  induction n as [|? IH]; intros reader; cbn [parseSuccessors]; weak_spec.
Qed.
Hint Resolve parseSuccessors_weak : spec_weak.

Lemma createRegions_weak n :
  rel_spec RD_weak RF_weak (createRegions n).
Proof.
  induction n as [|? IH]; cbn [createRegions]; weak_spec.
Qed.
Hint Resolve createRegions_weak : spec_weak.

Lemma parseOperationState_weak reader rs :
  rel_spec RD_weak RF_weak (parseOperationState ctx reader rs).
Proof. unfold parseOperationState, when_, counted. weak_spec. Qed.
Hint Resolve parseOperationState_weak : spec_weak.

Lemma parseOpWithoutRegions_weak reader rs :
  rel_spec RD_weak RF_weak (parseOpWithoutRegions ctx reader rs).
Proof. unfold parseOpWithoutRegions. weak_spec. Qed.
Hint Resolve parseOpWithoutRegions_weak : spec_weak.


Lemma RD_weak_wrel s s' :
  RD_weak s s' ->
  wrel (map shape (valueScopes s)) (map shape (valueScopes s')).
Proof.
  unfold RD_weak, wrel, wshape, shape.
  destruct (valueScopes s) as [|sc r], (valueScopes s') as [|sc' r'];
    cbn; try done.
  - intros [H _]. discriminate.
  - intros [H _]. discriminate.
  - rewrite !drop_0. intros [[= H1 H2 H3] H4]. repeat split; try done.
Qed.

Lemma closeRegion_wrel f sh sh' :
  curBlock f <> None -> wrel sh sh' -> closeRegion f sh' = closeRegion f sh.
Proof.
  unfold closeRegion, wrel. intros Hb.
  destruct (curBlock f); [|done].
  destruct sh as [|[len ids] rest], sh' as [|[len' ids'] rest']; try done.
  intros (-> & Ht & Hl & ->).
  destruct ids as [|i ids], ids' as [|i' ids']; try done.
  cbn in Ht. by subst.
Qed.

(** While a frame above the frame of the module reads a block, the
    invariant does not look at the next id of its region. *)
Lemma TopInv_wrel f g rest sh sh' :
  curBlock f <> None -> wrel sh sh' ->
  TopInv (f :: g :: rest) sh -> TopInv (f :: g :: rest) sh'.
Proof.
  intros Hb Hw. cbn [TopInv]. unfold leaveFrame.
  by rewrite (closeRegion_wrel f sh sh' Hb Hw).
Qed.

Ltac wp_call lem :=
  apply wp_bind; eapply wp_mono; [apply lem|cbv beta|done].

Lemma module_shape s :
  map shape (valueScopes s) = [(0%nat, [0])] ->
  exists sc, valueScopes s = [sc] /\ values sc = [] /\ nextValueIDs sc = [0].
Proof.
  destruct (valueScopes s) as [|sc [|? ?]]; cbn; try done.
  unfold shape. intros [= Hl Hi]. exists sc. repeat split; [|done].
  by destruct (values sc).
Qed.

(** In the value scope of the module no value can be defined. *)
Lemma defineValues_module newValues s :
  map shape (valueScopes s) = [(0%nat, [0])] -> newValues <> [] ->
  wp (defineValues newValues) (fun _ _ => False) (fun _ => True) s.
Proof.
  intros Hsh Hne. destruct (module_shape s Hsh) as (sc & Hs & Hv & Hi).
  unfold defineValues, wp, mbind, M_bind, get. rewrite Hs, Hi, Hv. cbn.
  destruct (_ <? _); [done|].
  destruct newValues as [|v vs]; [done|].
  cbn. unfold defineValue, mbind, M_bind, get. by rewrite Hs, Hi, Hv.
Qed.

Lemma defineValues_module_nil s :
  map shape (valueScopes s) = [(0%nat, [0])] -> defineValues [] s = Done tt s.
Proof.
  intros Hsh. destruct (module_shape s Hsh) as (sc & Hs & Hv & Hi).
  unfold defineValues, mbind, M_bind, get. by rewrite Hs, Hi, Hv.
Qed.

Lemma defineValues_module_diag newValues s :
  map shape (valueScopes s) = [(0%nat, [0])] ->
  0 < Z.of_nat (length newValues) < 2 ^ 32 ->
  defineValues newValues s
  = Failed (set_diagnostics
              (diagnostics s
               ++ [value_index_out_of_range 0 (Z.of_nat (length newValues))
                     (2 ^ 64 - 1)]) s).
Proof.
  intros Hsh Hn. destruct (module_shape s Hsh) as (sc & Hs & Hv & Hi).
  unfold defineValues, mbind, M_bind, get. rewrite Hs, Hi, Hv.
  cbn [length]. change (Z.of_nat 0) with 0. rewrite Z.add_0_l.
  unfold u32, UINT32_MOD. rewrite Z.mod_small by lia.
  destruct (Z.ltb_spec 0 (Z.of_nat (length newValues))); [|lia].
  reflexivity.
Qed.

Lemma curRegionBlocks_pure rs s :
  wp (curRegionBlocks rs)
     (fun bs s' =>
        s' = s
        /\ exists r, regions rs !! curRegion rs = Some r
                     /\ ir_regions (ir s) !! r = Some bs)
     (fun _ => False) s.
Proof. unfold curRegionBlocks. repeat wp_step; try done. split; eauto. Qed.

Lemma curBlockOf_pure rs s :
  wp (curBlockOf rs) (fun _ s' => s' = s) (fun _ => False) s.
Proof.
  unfold curBlockOf. apply wp_bind.
  eapply wp_mono; [apply curRegionBlocks_pure|cbv beta|done].
  intros bs s' [-> _]. repeat wp_step; done.
Qed.

(** At the level of the module, [parseOpWithoutRegions] returns with
    success only for an operation without results, and leaves the value
    scope as it is. *)
Lemma parseOpWithoutRegions_module reader rs s :
  map shape (valueScopes s) = [(0%nat, [0])] ->
  wp (parseOpWithoutRegions ctx reader rs)
     (fun x s' =>
        map shape (valueScopes s') = [(0%nat, [0])]
        /\ exists o, ir_ops (ir s') !! x.1.1 = Some o /\ op_types o = [])
     (fun _ => True) s.
Proof.
  intros Hsh. unfold parseOpWithoutRegions.
  wp_call (parseOperationState_shape ctx reader rs).
  intros [[opState isolated] reader1] s1 H1. unfold RD_shape in H1.
  unfold createOperation. repeat wp_step.
  wp_call curBlockOf_pure.
  intros block s2 ->.
  unfold Block_push_back. repeat wp_step.
  - (* no result *)
    cbn. split; [congruence|].
    exists opState. split.
    + by rewrite lookup_app_r, Nat.sub_diag.
    + apply Nat.eqb_eq in Heqb. by destruct (op_types opState).
  - apply wp_bind. eapply wp_mono; [apply defineValues_module| |done].
    + cbn. congruence.
    + apply Nat.eqb_neq in Heqb. unfold getResults.
      destruct (op_types opState); [done|]. done.
    + done.
Qed.

Lemma parseBlock_frame reader rs s :
  wp (parseBlock ctx reader rs)
     (fun x s' => RD_weak s s' /\ exists n, x.1 = set_numOpsRemaining n rs)
     (fun _ => True) s.
Proof.
  unfold parseBlock. repeat wp_step; try done.
  - wp_call curBlockOf_pure. intros block s1 ->.
    wp_call (parseBlockArguments_weak r block).
    intros reader1 s2 H2. apply wp_ret. split; [exact H2|by eexists].
  - split; [apply frame_refl|by eexists].
Qed.

Lemma parseBlock_module reader rs s :
  map shape (valueScopes s) = [(0%nat, [0])] ->
  wp (parseBlock ctx reader rs)
     (fun x s' => map shape (valueScopes s') = [(0%nat, [0])]
                  /\ exists n, x.1 = set_numOpsRemaining n rs)
     (fun _ => True) s.
Proof.
  intros Hsh. unfold parseBlock. repeat wp_step; try done.
  - wp_call curBlockOf_pure. intros block s1 ->.
    unfold parseBlockArguments. repeat wp_step; [|done].
    wp_call (parseArgs_shape ctx (Z.to_nat a0) r0).
    intros [args reader2] s2 H2. unfold RD_shape in H2.
    unfold addArguments, getArguments. repeat wp_step.
    set (s3 := set_ir _ s2).
    assert (H3 : map shape (valueScopes s3) = [(0%nat, [0])])
      by (cbn; congruence).
    destruct (map (BlockArgument block) _) as [|v vs] eqn:Hvs.
    + unfold wp, mbind, M_bind. rewrite (defineValues_module_nil s3 H3).
      cbn. split; [exact H3|by eexists].
    + apply wp_bind.
      eapply wp_mono; [by apply defineValues_module| |done]. done.
  - split; [done|by eexists].
Qed.

Lemma createBlocks_keeps_nonempty n r s :
  ir_regions (ir s) !! r <> Some [] ->
  wp (createBlocks n r) (fun _ s' => ir_regions (ir s') !! r <> Some [])
     (fun _ => True) s.
Proof.
  revert s. induction n as [|n IH]; intros s Hs; cbn [createBlocks].
  - by apply wp_ret.
  - unfold createBlock, Region_push_back. repeat wp_step.
    wp_call IH.
    + cbn. rewrite list_lookup_alter_eq.
      intros HH. apply fmap_Some in HH as (l & _ & E). by destruct l.
    + intros bs s' Hs'. by apply wp_ret.
Qed.

Lemma createBlocks_nonempty n r s :
  n <> 0%nat ->
  wp (createBlocks n r) (fun _ s' => ir_regions (ir s') !! r <> Some [])
     (fun _ => True) s.
Proof.
  destruct n as [|n]; [done|]. intros _. cbn [createBlocks].
  unfold createBlock, Region_push_back. repeat wp_step.
  wp_call createBlocks_keeps_nonempty.
  - cbn. rewrite list_lookup_alter_eq.
    intros HH. apply fmap_Some in HH as (l & _ & E). by destruct l.
  - intros bs s' Hs'. by apply wp_ret.
Qed.

(** [parseRegion] either finds an empty region and changes nothing, or
    pushes the values of the region on the current scope, gives the region
    its blocks and reads the header of the first one. *)
Lemma parseRegion_frame reader rs s :
  wp (parseRegion ctx reader rs)
     (fun x s' =>
        (x.1 = rs /\ map shape (valueScopes s') = map shape (valueScopes s))
        \/ exists sc rest (nv : Z) bs n,
             valueScopes s = sc :: rest
             /\ 0 <= nv
             /\ wrel ((length (values sc) + Z.to_nat nv,
                       u32 (Z.of_nat (length (values sc)))
                         :: nextValueIDs sc)%nat :: map shape rest)
                     (map shape (valueScopes s'))
             /\ x.1 = set_numOpsRemaining n
                        (set_curBlock (Some 0%nat)
                           (set_curBlocks bs (set_numValues nv rs)))
             /\ (forall r, regions rs !! curRegion rs = Some r ->
                           ir_regions (ir s') !! r <> Some []))
     (fun _ => True) s.
Proof.
  unfold parseRegion. repeat wp_step; try done.
  - left. done.
  - assert (Ha : Z.to_nat a <> 0%nat).
    { apply parseVarInt_range in H as [Hr _].
      apply Z.eqb_neq in Heqb. lia. }
    apply wp_bind.
    eapply wp_mono;
      [exact (wp_conj _ _ _ _ _ _ (createBlocks_shape (Z.to_nat a) r1 s)
                (createBlocks_nonempty (Z.to_nat a) r1 s Ha))
      |cbv beta|done].
    intros blocks s1 [H1 Hne]. unfold RD_shape in H1.
    unfold onBackScope. repeat wp_step.
    set (rs1 := set_curBlock _ _). set (s2 := set_valueScopes _ s1).
    eapply wp_mono;
      [exact (wp_conj _ _ _ _ _ _ (parseBlock_frame r0 rs1 s2)
                (parseBlock_regs ctx r0 rs1 s2))
      |cbv beta|done].
    intros [rs2 reader2] s3 [[Hw [n Hn]] Hregs]. cbn in Hn. subst rs2. right.
    destruct (valueScopes s) as [|sc rest] eqn:Hs; [done|].
    cbn [map] in H1. unfold shape at 1 3 in H1.
    injection H1 as Hlen Hids Hrest.
    exists sc, rest, (u32 a0), blocks, n.
    split; [done|]. split; [unfold u32, UINT32_MOD; apply Z.mod_pos_bound; lia|].
    split; [|split; [done|]].
    + apply RD_weak_wrel in Hw. subst s2. cbn in Hw.
      unfold shape at 1 in Hw. cbn in Hw.
      rewrite length_app, length_replicate in Hw.
      by rewrite Hlen, Hids, Hrest in Hw.
    + intros rg Hr. cbn in Heqo. rewrite Hr in Heqo. injection Heqo as <-.
      unfold RD_regs in Hregs. subst s2. cbn in Hregs. by rewrite Hregs.
Qed.

(** The invariant looks at a frame only through its regions, its current
    region, its number of values, its isolation and whether it has a
    current block. *)
Lemma TopInv_ext f f' rest sh :
  regions f' = regions f -> curRegion f' = curRegion f ->
  numValues f' = numValues f ->
  isIsolatedFromAbove f' = isIsolatedFromAbove f ->
  (curBlock f = None <-> curBlock f' = None) ->
  TopInv (f :: rest) sh -> TopInv (f' :: rest) sh.
Proof.
  intros Hr Hc Hn Hi Hb. cbn [TopInv]. unfold leaveFrame, closeRegion.
  rewrite Hr, Hc, Hn, Hi.
  destruct (curBlock f) as [i|], (curBlock f') as [i'|];
    try (destruct Hb as [Hb1 Hb2]; (by specialize (Hb1 eq_refl))
                                   || (by specialize (Hb2 eq_refl))).
  intros [Hwf Hrest]. split; [intros E; by specialize (Hwf E)|].
  destruct rest; [|done].
  destruct Hrest as [[? ?]|(? & ? & ? & ?)]; [done|]. right. done.
Qed.

(** Pushing the frame of an operation that has regions, and a value scope
    with it when the operation is isolated from above. *)
Lemma TopInv_push f rest sh opRegions isolated :
  TopInv (f :: rest) sh ->
  TopInv (RegionReadState_of opRegions isolated :: f :: rest)
         (if isolated then (0%nat, []) :: sh else sh).
Proof.
  intros H. cbn [TopInv]. split; [done|].
  unfold leaveFrame, closeRegion. cbn.
  by destruct isolated.
Qed.

(** The current frame has read all its regions: it is popped, with its
    value scope when it is isolated from above. *)
Lemma TopInv_pop f rest sh :
  curRegion f = length (regions f) ->
  TopInv (f :: rest) sh ->
  if isIsolatedFromAbove f
  then match sh with [] => True | _ :: sh' => TopInv rest sh' end
  else TopInv rest sh.
Proof.
  intros Hc [Hwf Hrest]. specialize (Hwf Hc).
  destruct rest as [|g rest].
  { destruct (isIsolatedFromAbove f), sh; done. }
  unfold leaveFrame, closeRegion in Hrest. rewrite Hwf in Hrest.
  destruct (isIsolatedFromAbove f); [|done].
  by destruct sh.
Qed.

(** The region that the current frame reads has come to its end. *)
Lemma TopInv_close f rest sc scs sc' :
  curBlock f <> None ->
  ValueScope_pop f sc = Some sc' ->
  TopInv (f :: rest) (map shape (sc :: scs)) ->
  TopInv (set_curRegion (S (curRegion f)) (set_curBlock None f) :: rest)
         (map shape (sc' :: scs)).
Proof.
  intros Hb Hpop [Hwf Hrest]. cbn [TopInv]. split; [done|].
  destruct rest as [|g rest].
  - destruct Hrest as [[? ?]|(? & ? & ? & ?)]; [done|]. left. by cbn.
  - unfold leaveFrame, closeRegion in *. cbn.
    destruct (curBlock f); [|done].
    unfold ValueScope_pop in Hpop. cbn [map] in Hrest.
    unfold shape in Hrest |- *.
    destruct (nextValueIDs sc) as [|id ids] eqn:Hids; [done|].
    destruct (Z.of_nat (length (values sc)) <? numValues f); [done|].
    injection Hpop as <-. cbn.
    rewrite length_take, Nat.min_l by lia.
    done.
Qed.

(** The current frame enters a region that has blocks. *)
Lemma TopInv_open f rest sc scs nv bs n sh' :
  curBlock f = None -> curRegion f <> length (regions f) -> 0 <= nv ->
  wrel ((length (values sc) + Z.to_nat nv,
         u32 (Z.of_nat (length (values sc))) :: nextValueIDs sc)%nat
        :: map shape scs) sh' ->
  TopInv (f :: rest) (map shape (sc :: scs)) ->
  TopInv (set_numOpsRemaining n
            (set_curBlock (Some 0%nat)
               (set_curBlocks bs (set_numValues nv f))) :: rest) sh'.
Proof.
  intros Hb Hc Hnv Hw [Hwf Hrest]. cbn [TopInv]. split; [done|].
  destruct rest as [|g rest].
  - destruct Hrest as [[? ?]|(? & ? & ? & ?)]; done.
  - unfold leaveFrame, closeRegion in *. rewrite Hb in Hrest. cbn.
    unfold wrel in Hw. destruct sh' as [|[len' ids'] rest']; [done|].
    destruct Hw as (-> & Ht & Hl & ->).
    destruct ids' as [|id' ids']; [done|]. cbn in Ht. subst ids'.
    destruct (Z.ltb_spec (Z.of_nat (length (values sc) + Z.to_nat nv)) nv);
      [lia|].
    replace (length (values sc) + Z.to_nat nv - Z.to_nat nv)%nat
      with (length (values sc)) by lia.
    exact Hrest.
Qed.

(** Each call of [parseRegions] keeps the invariant of the region
    stack. *)
Lemma parseRegions_TopInv fuel :
  forall reader stack rs s,
    TopInv (rs :: stack) (map shape (valueScopes s)) ->
    wp (parseRegions ctx fuel reader stack rs)
       (fun x s' => TopInv x.1 (map shape (valueScopes s')))
       (fun _ => True) s.
Proof.
  induction fuel as [|fuel IH]; intros reader stack rs s Hinv;
    cbn [parseRegions]; [apply wp_out_of_fuel|].
  destruct (Nat.eqb_spec (curRegion rs) (length (regions rs))) as [Hend|Hend].
  { (* the frame is popped *)
    pose proof (TopInv_pop _ _ _ Hend Hinv) as Hpop.
    destruct (isIsolatedFromAbove rs); repeat wp_step; done. }
  destruct (curBlock rs) as [i|] eqn:Hb.
  - destruct (numOpsRemaining rs =? 0) eqn:Hops.
    + (* end of the block *)
      wp_call curRegionBlocks_pure. intros blocks s1 [-> _].
      destruct (S i =? length blocks)%nat.
      * (* end of the region *)
        unfold onBackScope. repeat wp_step. apply IH. cbn.
        assert (Hb' : curBlock (set_numOpsRemaining (u64 (0 - 1)) rs) <> None)
          by (cbn; congruence).
        match goal with
        | Hp : ValueScope_pop _ ?sc = Some ?sc' |- _ =>
            apply (TopInv_close (set_numOpsRemaining (u64 (0 - 1)) rs)
                     stack sc _ sc' Hb' Hp)
        end.
        eapply TopInv_ext; [..|exact Hinv]; done.
      * (* next block *)
        set (rs1 := set_curBlock (Some (S i))
                      (set_numOpsRemaining (u64 (0 - 1)) rs)).
        assert (Hinv1 : TopInv (rs1 :: stack) (map shape (valueScopes s))).
        { eapply TopInv_ext; [..|exact Hinv]; try done.
          subst rs1; cbn; rewrite Hb; split; discriminate. }
        destruct stack as [|g stack'].
        -- destruct Hinv1 as [Hwf [[Hn _]|(Hsh & Hnv & Hcr & Hbn)]]; [done|].
           wp_call (parseBlock_module reader rs1 s Hsh).
           intros [rs2 reader2] s2 [Hsh2 [n Hn]]. cbn in Hn. subst rs2.
           apply IH. cbn. split; [done|]. right. by rewrite Hsh2.
        -- wp_call (parseBlock_frame reader rs1 s).
           intros [rs2 reader2] s2 [Hw [n Hn]]. cbn in Hn. subst rs2.
           apply IH. apply RD_weak_wrel in Hw.
           eapply TopInv_wrel; [|exact Hw|]; [done|].
           eapply TopInv_ext; [..|exact Hinv1]; done.
    + (* an operation *)
      set (rs1 := set_numOpsRemaining (numOpsRemaining rs - 1) rs).
      assert (Hinv1 : TopInv (rs1 :: stack) (map shape (valueScopes s))).
      { eapply TopInv_ext; [..|exact Hinv]; done. }
      assert (Hb1 : curBlock rs1 <> None) by (subst rs1; cbn; congruence).
      assert (Hop : wp (parseOpWithoutRegions ctx reader rs1)
                (fun _ s' => TopInv (rs1 :: stack)
                                    (map shape (valueScopes s')))
                (fun _ => True) s).
      { destruct stack as [|g stack'].
        - destruct Hinv1 as [Hwf [[Hn _]|(Hsh & Hnv & Hcr & Hbn)]]; [done|].
          eapply wp_mono;
            [apply (parseOpWithoutRegions_module reader rs1 s Hsh)| |done].
          intros x s1 [Hsh1 _]. cbn. split; [done|]. right. by rewrite Hsh1.
        - eapply wp_mono; [apply (parseOpWithoutRegions_weak reader rs1)| |done].
          intros x s1 Hw. cbn in Hw. apply RD_weak_wrel in Hw.
          eapply TopInv_wrel; [|exact Hw|]; done. }
      apply wp_bind. eapply wp_mono; [exact Hop|cbv beta|done].
      intros [[op isolated] reader1] s1 Hinv2.
      repeat wp_step; cbn [fst snd] in *.
      * by apply IH.
      * apply (TopInv_push rs1 stack _ (r :: l) true Hinv2).
      * apply (TopInv_push rs1 stack _ (r :: l) false Hinv2).
  - (* the header of a region *)
    wp_call (parseRegion_frame reader rs s).
    intros [rs' reader'] s1 Hcase. cbn [fst] in Hcase.
    wp_call curRegionBlocks_pure. intros blocks s2 [-> (rg & Hrg & Hbs)].
    destruct Hcase
      as [[-> Hsh]|(sc & rest & nv & bs & n & Hs & Hnv & Hw & -> & Hne)].
    + rewrite <- Hsh in Hinv. destruct blocks; [|by apply IH].
      apply IH. destruct Hinv as [Hwf Hrest]. cbn [TopInv]. split; [done|].
      destruct stack as [|g stack'].
      * destruct Hrest as [[? ?]|(? & ? & ? & ?)]; done.
      * unfold leaveFrame, closeRegion in *. cbn.
        rewrite Hb in Hrest |- *. exact Hrest.
    + cbn in Hrg. specialize (Hne rg Hrg).
      destruct blocks as [|b blocks]; [done|].
      apply IH. rewrite Hs in Hinv.
      by apply (TopInv_open rs stack sc rest nv bs n).
Qed.

(** The loop over the region stack keeps the invariant as well. *)
Lemma parseRegionStack_TopInv fuel :
  forall reader stack s,
    TopInv stack (map shape (valueScopes s)) ->
    wp (parseRegionStack ctx fuel reader stack) (fun _ _ => True)
       (fun _ => True) s.
Proof.
  induction fuel as [|fuel IH]; intros reader [|rs stack] s Hinv;
    cbn [parseRegionStack]; try done.
  wp_call (parseRegions_TopInv (S fuel) reader stack rs s Hinv).
  intros [stack' reader'] s' H'. by apply IH.
Qed.

Lemma parseBlock_no_scope reader rs s :
  valueScopes s = [] ->
  wp (parseBlock ctx reader rs)
     (fun x s' => valueScopes s' = []
                  /\ exists n, x.1 = set_numOpsRemaining n rs)
     (fun _ => True) s.
Proof.
  intros Hs. unfold parseBlock. repeat wp_step; try done.
  - wp_call curBlockOf_pure. intros block s1 ->.
    apply wp_bind.
    eapply wp_mono;
      [apply (parseBlockArguments_no_scope ctx r block s Hs)|done|done].
  - split; [done|by eexists].
Qed.

(** [parseIRSection] starts the loop over the region stack with the frame
    of the module and a value scope that has no slot. *)
Lemma enterModule_TopInv fileLoc reader s :
  valueScopes s = [] ->
  wp (enterModule ctx fileLoc reader)
     (fun x s' => numValues x.1.2 = 0
                  /\ TopInv [x.1.2] (map shape (valueScopes s')))
     (fun _ => True) s.
Proof.
  intros Hs. unfold enterModule.
  wp_call (ModuleOp_create_scope fileLoc).
  intros [[moduleOp region] body] s1 H1. unfold RD_scope in H1.
  apply wp_bind.
  eapply wp_mono; [apply parseBlock_no_scope; congruence|cbv beta|done].
  intros [rs reader1] s2 [Hs2 [n Hn]]. cbn in Hn. subst rs.
  unfold onBackScope. repeat wp_step; cbn in *; try done.
  simplify_eq. cbn. split; [done|]. split; [done|]. right.
  rewrite Hs2. cbn. done.
Qed.

(** A call whose outcome does not matter for what follows. *)
Lemma wp_skip {A B} (m : M A) (k : A -> M B) Q s :
  (forall a s', wp (k a) Q (fun _ => True) s') ->
  wp (m ≫= k) Q (fun _ => True) s.
Proof. intros H. apply wp_bind. unfold wp. destruct (m s); try done. apply H. Qed.

Lemma parseTypes_length n :
  forall reader s,
    wp (parseTypes ctx n reader) (fun x _ => length x.1 = n) (fun _ => True) s.
Proof.
  induction n as [|n IH]; intros reader s; cbn [parseTypes]; [by apply wp_ret|].
  apply wp_skip. intros [type reader1] s1.
  apply wp_bind. eapply wp_mono; [apply IH|cbv beta|done].
  intros [rest reader2] s2 Hlen. apply wp_ret. cbn in *. by rewrite Hlen.
Qed.

(** The number of results of an operation fits an [int]. *)
Lemma parseOperationState_types reader rs s :
  wp (parseOperationState ctx reader rs)
     (fun x _ => Z.of_nat (length (op_types x.1.1)) <= INT_MAX)
     (fun _ => True) s.
Proof.
  unfold parseOperationState.
  apply wp_skip. intros [opName reader1] s1.
  apply wp_skip. intros [opMask reader2] s2.
  apply wp_skip. intros [opLoc reader3] s3.
  apply wp_skip. intros [attrs reader4] s4.
  apply wp_bind.
  eapply (wp_mono _ (fun x _ => Z.of_nat (length x.1) <= INT_MAX)).
  - unfold when_, counted. destruct (hasMask opMask kHasResults).
    + apply wp_skip. intros [numResults reader5] s5.
      destruct (Z.ltb_spec INT_MAX numResults); [done|].
      eapply wp_mono; [apply parseTypes_length|cbv beta|done].
      intros x _ ->. unfold INT_MAX in *. lia.
    + apply wp_ret. done.
  - intros [resultTypes reader5] s5 Hlen. cbn in Hlen.
    apply wp_skip. intros [operands reader6] s6.
    apply wp_skip. intros [successors reader7] s7.
    apply wp_skip. intros [regionsFlag reader8] s8.
    apply wp_ret. exact Hlen.
  - done.
Qed.

Lemma curBlockOf_regions rs s s' block :
  curBlockOf rs s = Done block s ->
  ir_regions (ir s') = ir_regions (ir s) ->
  curBlockOf rs s' = Done block s'.
Proof.
  unfold curBlockOf, curRegionBlocks, mbind, M_bind, get. intros H E.
  rewrite E. destruct (regions rs !! curRegion rs); [|done].
  destruct (ir_regions (ir s) !! _); [|done]. cbn in *.
  destruct (curBlock rs); [|done]. destruct (_ !! _); [|done].
  unfold mret, M_ret in *. congruence.
Qed.

Lemma TopInv_module rs sh :
  TopInv [rs] sh -> curBlock rs <> None -> sh = [(0%nat, [0])].
Proof. intros [_ [[H _]|[H _]]] Hb; done. Qed.


End Family_weak.

(** ** Reading the tables leaves the heap, the scopes and the block alone *)

Create HintDb spec_tab.

Ltac tab_leaf :=
  unfold RD_tab, RF_tab in *; unfold RD_tab in *;
  try match goal with |- context [set_entriesOf ?k] => destruct k end;
  simpl in *; try (intuition (auto; congruence)).

Ltac tab_rel :=
  first
    [ solve [eauto with spec_tab]
    | apply rel_spec_intro; [typeclasses eauto|]; intros ? ?; tab_auto ]
with tab_call :=
  lazymatch goal with
  | |- wpR _ _ _ (_ ≫= _) _ =>
      eapply wpR_bind_spec;
      [typeclasses eauto|tab_rel|tab_leaf|intros ? ? ?; cbv beta]
  | |- wpR _ _ _ _ _ =>
      eapply wpR_call; [typeclasses eauto|tab_rel|tab_leaf]
  end
with tab_auto := repeat first [wpR_step tab_leaf | tab_call].

Ltac tab_spec :=
  intros; apply rel_spec_intro; [typeclasses eauto|];
  intros ? ?; tab_auto.

#[export] Instance Frame_tab : Frame RD_tab RF_tab.
Proof.
  split; unfold RF_tab, RD_tab.
  - done.
  - intros s1 s2 s3 (A1 & B1 & C1) (A2 & B2 & C2). repeat split; congruence.
  - intros s1 s2 s3 (A1 & B1 & C1) (A2 & B2 & C2). repeat split; congruence.
Qed.

Section Family_tab.

Variable ctx : MLIRContext.

Lemma resolveEntry_tab n index str :
  rel_spec RD_tab RF_tab (resolveEntry n index str).
Proof. unfold resolveEntry. tab_spec. Qed.
Hint Resolve resolveEntry_tab : spec_tab.

Lemma parseEntry_tab reader n str :
  rel_spec RD_tab RF_tab (parseEntry reader n str).
Proof. unfold parseEntry. tab_spec. Qed.
Hint Resolve parseEntry_tab : spec_tab.

Lemma stringContents_tab str :
  rel_spec RD_tab RF_tab (stringContents str).
Proof. unfold stringContents. tab_spec. Qed.
Hint Resolve stringContents_tab : spec_tab.

Lemma parseSharedString_tab reader :
  rel_spec RD_tab RF_tab (parseSharedString reader).
Proof. unfold parseSharedString. tab_spec. Qed.
Hint Resolve parseSharedString_tab : spec_tab.

Lemma forEntries_tab {A} n cb d (a : A) reader :
  (forall d a r, rel_spec RD_tab RF_tab (cb d a r)) ->
  rel_spec RD_tab RF_tab (forEntries n cb d a reader).
Proof.
  intros Hcb. revert a reader.
  induction n as [|? IH]; intros a reader; cbn [forEntries]; tab_spec.
Qed.
Hint Resolve forEntries_tab : spec_tab.

Lemma parseDialectGrouping_tab {A} reader cb (a : A) :
  (forall d a r, rel_spec RD_tab RF_tab (cb d a r)) ->
  rel_spec RD_tab RF_tab (parseDialectGrouping reader cb a).
Proof. intros Hcb. unfold parseDialectGrouping. tab_spec. Qed.
Hint Resolve parseDialectGrouping_tab : spec_tab.

Lemma parseDialectNames_tab n i reader :
  rel_spec RD_tab RF_tab (parseDialectNames n i reader).
Proof.
  revert i reader.
  induction n as [|? IH]; intros i reader; cbn [parseDialectNames]; tab_spec.
Qed.
Hint Resolve parseDialectNames_tab : spec_tab.

Lemma parseOpNameEntry_tab d u reader :
  rel_spec RD_tab RF_tab (parseOpNameEntry d u reader).
Proof. unfold parseOpNameEntry. tab_spec. Qed.
Hint Resolve parseOpNameEntry_tab : spec_tab.

Lemma parseOpNameGroups_tab fuel reader :
  rel_spec RD_tab RF_tab (parseOpNameGroups fuel reader).
Proof.
  revert reader.
  induction fuel as [|? IH]; intros reader; cbn [parseOpNameGroups]; tab_spec.
Qed.
Hint Resolve parseOpNameGroups_tab : spec_tab.

Lemma parseDialectSection_tab data :
  rel_spec RD_tab RF_tab (parseDialectSection data).
Proof. unfold parseDialectSection. tab_spec. Qed.
Hint Resolve parseDialectSection_tab : spec_tab.

Lemma parseEntryFn_tab kind data d st reader :
  rel_spec RD_tab RF_tab (parseEntryFn kind data d st reader).
Proof. unfold parseEntryFn. tab_spec. Qed.
Hint Resolve parseEntryFn_tab : spec_tab.

Lemma parseEntries_tab kind fuel data st reader :
  rel_spec RD_tab RF_tab (parseEntries kind fuel data st reader).
Proof.
  revert st reader.
  induction fuel as [|? IH]; intros st reader; cbn [parseEntries]; tab_spec.
Qed.
Hint Resolve parseEntries_tab : spec_tab.

Lemma initialize_tab data offsets :
  rel_spec RD_tab RF_tab (initialize data offsets).
Proof. unfold initialize. tab_spec. Qed.
Hint Resolve initialize_tab : spec_tab.

Lemma parseVersion_tab kVersion reader :
  rel_spec RD_tab RF_tab (parseVersion kVersion reader).
Proof. unfold parseVersion. tab_spec. Qed.
Hint Resolve parseVersion_tab : spec_tab.

Lemma parseSections_tab fuel reader datas :
  rel_spec RD_tab RF_tab (parseSections fuel reader datas).
Proof.
  revert reader datas.
  induction fuel as [|? IH]; intros reader datas; cbn [parseSections]; tab_spec.
Qed.
Hint Resolve parseSections_tab : spec_tab.

Lemma checkSections_tab i datas :
  rel_spec RD_tab RF_tab (checkSections i datas).
Proof.
  revert i. induction datas as [|[d|] datas IH]; intros i;
    cbn [checkSections]; tab_spec.
Qed.
Hint Resolve checkSections_tab : spec_tab.

Lemma sectionData_of_tab datas i :
  rel_spec RD_tab RF_tab (sectionData_of datas i).
Proof. unfold sectionData_of. tab_spec. Qed.
Hint Resolve sectionData_of_tab : spec_tab.

Lemma parseStringSectionM_tab data :
  rel_spec RD_tab RF_tab (parseStringSectionM data).
Proof. unfold parseStringSectionM. tab_spec. Qed.
Hint Resolve parseStringSectionM_tab : spec_tab.

End Family_tab.

(** ** The heap while the module is read *)

Lemma RD_heap_refl s : RD_heap s s.
Proof.
  unfold RD_heap. repeat split; eauto.
Qed.

Lemma RD_heap_trans s1 s2 s3 : RD_heap s1 s2 -> RD_heap s2 s3 -> RD_heap s1 s3.
Proof.
  intros (R1 & R2 & B1 & O1) (R1' & R2' & B1' & O1').
  refine (conj _ (conj _ (conj _ _))).
  - eauto.
  - eauto.
  - intros b k Hk. destruct (B1 _ _ Hk) as (k1 & Hk1 & E1).
    destruct (B1' _ _ Hk1) as (k2 & Hk2 & E2). exists k2. split; congruence.
  - intros o op Ho. destruct (O1 _ _ Ho) as (op1 & Ho1 & ? & ? & ?).
    destruct (O1' _ _ Ho1) as (op2 & Ho2 & ? & ? & ?). exists op2.
    repeat split; congruence.
Qed.

(** The relation looks at the heap only. *)
Lemma RD_heap_ir s s1 s2 : ir s2 = ir s1 -> RD_heap s s1 -> RD_heap s s2.
Proof. unfold RD_heap. by intros ->. Qed.

Lemma heap_ops_app s op :
  RD_heap s (set_ir (set_ir_ops (ir_ops (ir s) ++ [op]) (ir s)) s).
Proof.
  unfold RD_heap. cbn. refine (conj _ (conj _ (conj _ _))); eauto.
  intros o op0 Ho. exists op0. split; [|done].
  by apply lookup_app_l_Some.
Qed.

Lemma heap_blocks_app s k :
  RD_heap s (set_ir (set_ir_blocks (ir_blocks (ir s) ++ [k]) (ir s)) s).
Proof.
  unfold RD_heap. cbn. refine (conj _ (conj _ (conj _ _))); eauto.
  intros b k0 Hb. exists k0. split; [|done].
  by apply lookup_app_l_Some.
Qed.

Lemma heap_regions_app s :
  RD_heap s (set_ir (set_ir_regions (ir_regions (ir s) ++ [[]]) (ir s)) s).
Proof.
  unfold RD_heap. cbn. refine (conj _ (conj _ (conj _ _))); eauto.
  - intros r bs Hr. by apply lookup_app_l_Some.
  - intros r bs Hr Hne. apply lookup_app_Some in Hr as [Hr|[_ Hr]]; [done|].
    apply list_lookup_singleton_Some in Hr as [_ <-]. done.
Qed.

Lemma heap_block_args s b (f : Block -> Block) :
  (forall k, blk_ops (f k) = blk_ops k) ->
  RD_heap s (set_ir (set_ir_blocks (alter f b (ir_blocks (ir s))) (ir s)) s).
Proof.
  intros Hf. unfold RD_heap. cbn. refine (conj _ (conj _ (conj _ _))); eauto.
  intros b0 k Hb. destruct (decide (b0 = b)) as [->|Hne].
  - exists (f k). split; [|apply Hf].
    by rewrite list_lookup_alter_eq, Hb.
  - exists k. split; [|done]. by rewrite list_lookup_alter_ne.
Qed.

Lemma heap_ops_map s (f : Operation -> Operation) :
  (forall op, op_name (f op) = op_name op /\ op_types (f op) = op_types op
              /\ op_regions (f op) = op_regions op) ->
  RD_heap s (set_ir (set_ir_ops (map f (ir_ops (ir s))) (ir s)) s).
Proof.
  intros Hf. unfold RD_heap. cbn. refine (conj _ (conj _ (conj _ _))); eauto.
  intros o op Ho. exists (f op). split; [|apply Hf].
  change (map f ?l) with (f <$> l). by rewrite list_lookup_fmap, Ho.
Qed.

Create HintDb spec_heap.

Ltac heap_leaf :=
  unfold RF_heap in *;
  try match goal with |- context [set_entriesOf ?k] => destruct k end;
  try (eapply RD_heap_ir; [|eassumption]; reflexivity).

Ltac heap_rel :=
  first
    [ solve [eauto with spec_heap]
    | apply rel_spec_intro; [typeclasses eauto|]; intros ? ?; heap_auto ]
with heap_call :=
  lazymatch goal with
  | |- wpR _ _ _ (_ ≫= _) _ =>
      eapply wpR_bind_spec;
      [typeclasses eauto|heap_rel|heap_leaf|intros ? ? ?; cbv beta]
  | |- wpR _ _ _ _ _ =>
      eapply wpR_call; [typeclasses eauto|heap_rel|heap_leaf]
  end
with heap_auto := repeat first [wpR_step heap_leaf | heap_call].

Ltac heap_spec :=
  intros; apply rel_spec_intro; [typeclasses eauto|];
  intros ? ?; heap_auto.

#[export] Instance Frame_heap : Frame RD_heap RF_heap.
Proof.
  split; unfold RF_heap.
  - apply RD_heap_refl.
  - apply RD_heap_trans.
  - apply RD_heap_trans.
Qed.

Section Family_heap.

Variable ctx : MLIRContext.

Lemma resolveEntry_heap n index str :
  rel_spec RD_heap RF_heap (resolveEntry n index str).
Proof. unfold resolveEntry. heap_spec. Qed.
Hint Resolve resolveEntry_heap : spec_heap.

Lemma parseEntry_heap reader n str :
  rel_spec RD_heap RF_heap (parseEntry reader n str).
Proof. unfold parseEntry. heap_spec. Qed.
Hint Resolve parseEntry_heap : spec_heap.

Lemma stringContents_heap str :
  rel_spec RD_heap RF_heap (stringContents str).
Proof. unfold stringContents. heap_spec. Qed.
Hint Resolve stringContents_heap : spec_heap.

Lemma parseSharedString_heap reader :
  rel_spec RD_heap RF_heap (parseSharedString reader).
Proof. unfold parseSharedString. heap_spec. Qed.
Hint Resolve parseSharedString_heap : spec_heap.

Lemma load_heap i :
  rel_spec RD_heap RF_heap (load ctx i).
Proof. unfold load. heap_spec. Qed.
Hint Resolve load_heap : spec_heap.

Lemma forEntries_heap {A} n cb d (a : A) reader :
  (forall d a r, rel_spec RD_heap RF_heap (cb d a r)) ->
  rel_spec RD_heap RF_heap (forEntries n cb d a reader).
Proof.
  intros Hcb. revert a reader.
  induction n as [|? IH]; intros a reader; cbn [forEntries]; heap_spec.
Qed.
Hint Resolve forEntries_heap : spec_heap.

Lemma parseDialectGrouping_heap {A} reader cb (a : A) :
  (forall d a r, rel_spec RD_heap RF_heap (cb d a r)) ->
  rel_spec RD_heap RF_heap (parseDialectGrouping reader cb a).
Proof. intros Hcb. unfold parseDialectGrouping. heap_spec. Qed.
Hint Resolve parseDialectGrouping_heap : spec_heap.

Lemma parseDialectNames_heap n i reader :
  rel_spec RD_heap RF_heap (parseDialectNames n i reader).
Proof.
  revert i reader.
  induction n as [|? IH]; intros i reader; cbn [parseDialectNames]; heap_spec.
Qed.
Hint Resolve parseDialectNames_heap : spec_heap.

Lemma parseOpNameEntry_heap d u reader :
  rel_spec RD_heap RF_heap (parseOpNameEntry d u reader).
Proof. unfold parseOpNameEntry. heap_spec. Qed.
Hint Resolve parseOpNameEntry_heap : spec_heap.

Lemma parseOpNameGroups_heap fuel reader :
  rel_spec RD_heap RF_heap (parseOpNameGroups fuel reader).
Proof.
  revert reader.
  induction fuel as [|? IH]; intros reader; cbn [parseOpNameGroups]; heap_spec.
Qed.
Hint Resolve parseOpNameGroups_heap : spec_heap.

Lemma parseDialectSection_heap data :
  rel_spec RD_heap RF_heap (parseDialectSection data).
Proof. unfold parseDialectSection. heap_spec. Qed.
Hint Resolve parseDialectSection_heap : spec_heap.

Lemma parseOpName_heap reader :
  rel_spec RD_heap RF_heap (parseOpName ctx reader).
Proof. unfold parseOpName. heap_spec. Qed.
Hint Resolve parseOpName_heap : spec_heap.

Lemma parseEntryFn_heap kind data d st reader :
  rel_spec RD_heap RF_heap (parseEntryFn kind data d st reader).
Proof. unfold parseEntryFn. heap_spec. Qed.
Hint Resolve parseEntryFn_heap : spec_heap.

Lemma parseEntries_heap kind fuel data st reader :
  rel_spec RD_heap RF_heap (parseEntries kind fuel data st reader).
Proof.
  revert st reader.
  induction fuel as [|? IH]; intros st reader; cbn [parseEntries]; heap_spec.
Qed.
Hint Resolve parseEntries_heap : spec_heap.

Lemma initialize_heap data offsets :
  rel_spec RD_heap RF_heap (initialize data offsets).
Proof. unfold initialize. heap_spec. Qed.
Hint Resolve initialize_heap : spec_heap.

Lemma parseAsmEntry_heap kind i reader custom :
  rel_spec RD_heap RF_heap (parseAsmEntry ctx kind i reader custom).
Proof. unfold parseAsmEntry. heap_spec. Qed.
Hint Resolve parseAsmEntry_heap : spec_heap.

Lemma resolveAttrType_heap kind index :
  rel_spec RD_heap RF_heap (resolveAttrType ctx kind index).
Proof. unfold resolveAttrType. heap_spec. Qed.
Hint Resolve resolveAttrType_heap : spec_heap.

Lemma parseAttribute_heap reader :
  rel_spec RD_heap RF_heap (parseAttribute ctx reader).
Proof. unfold parseAttribute. heap_spec. Qed.
Hint Resolve parseAttribute_heap : spec_heap.

Lemma parseType_heap reader :
  rel_spec RD_heap RF_heap (parseType ctx reader).
Proof. unfold parseType. heap_spec. Qed.
Hint Resolve parseType_heap : spec_heap.

Lemma parseAttributeOf_heap isa name reader :
  rel_spec RD_heap RF_heap (parseAttributeOf ctx isa name reader).
Proof. unfold parseAttributeOf. heap_spec. Qed.
Hint Resolve parseAttributeOf_heap : spec_heap.

Lemma createOperation_heap op :
  rel_spec RD_heap RF_heap (createOperation op).
Proof.
  intros s. unfold wpR, wp, createOperation, mbind, M_bind, get, put, modify, mret, M_ret.
  cbn. apply heap_ops_app.
Qed.
Hint Resolve createOperation_heap : spec_heap.

Lemma createBlock_heap  :
  rel_spec RD_heap RF_heap createBlock.
Proof.
  intros s. unfold wpR, wp, createBlock, mbind, M_bind, get, put, modify, mret, M_ret.
  cbn. apply heap_blocks_app.
Qed.
Hint Resolve createBlock_heap : spec_heap.

Lemma createRegion_heap  :
  rel_spec RD_heap RF_heap createRegion.
Proof.
  intros s. unfold wpR, wp, createRegion, mbind, M_bind, get, put, modify, mret, M_ret.
  cbn. apply heap_regions_app.
Qed.
Hint Resolve createRegion_heap : spec_heap.

Lemma addArguments_heap b args :
  rel_spec RD_heap RF_heap (addArguments b args).
Proof.
  intros s. unfold wpR, wp, addArguments, mbind, M_bind, get, put, modify, mret, M_ret.
  cbn. by apply heap_block_args.
Qed.
Hint Resolve addArguments_heap : spec_heap.

Lemma getArguments_heap b :
  rel_spec RD_heap RF_heap (getArguments b).
Proof. unfold getArguments. heap_spec. Qed.
Hint Resolve getArguments_heap : spec_heap.

Lemma replaceAllUsesWith_heap a b :
  rel_spec RD_heap RF_heap (replaceAllUsesWith a b).
Proof.
  intros s. unfold wpR, wp, replaceAllUsesWith, mbind, M_bind, get, put, modify, mret, M_ret.
  cbn. by apply heap_ops_map.
Qed.
Hint Resolve replaceAllUsesWith_heap : spec_heap.

Lemma onBackScope_heap f :
  rel_spec RD_heap RF_heap (onBackScope f).
Proof. unfold onBackScope. heap_spec. Qed.
Hint Resolve onBackScope_heap : spec_heap.

Lemma createForwardRef_heap  :
  rel_spec RD_heap RF_heap (createForwardRef ctx).
Proof. unfold createForwardRef. heap_spec. Qed.
Hint Resolve createForwardRef_heap : spec_heap.

Lemma parseOperand_heap reader :
  rel_spec RD_heap RF_heap (parseOperand ctx reader).
Proof. unfold parseOperand. heap_spec. Qed.
Hint Resolve parseOperand_heap : spec_heap.

Lemma defineValue_heap v :
  rel_spec RD_heap RF_heap (defineValue v).
Proof. unfold defineValue. heap_spec. Qed.
Hint Resolve defineValue_heap : spec_heap.

Lemma defineValuesLoop_heap vs :
  rel_spec RD_heap RF_heap (defineValuesLoop vs).
Proof.
  induction vs as [|? ? IH]; cbn [defineValuesLoop]; heap_spec.
Qed.
Hint Resolve defineValuesLoop_heap : spec_heap.

Lemma defineValues_heap vs :
  rel_spec RD_heap RF_heap (defineValues vs).
Proof. unfold defineValues. heap_spec. Qed.
Hint Resolve defineValues_heap : spec_heap.

Lemma curRegionBlocks_heap rs :
  rel_spec RD_heap RF_heap (curRegionBlocks rs).
Proof. unfold curRegionBlocks. heap_spec. Qed.
Hint Resolve curRegionBlocks_heap : spec_heap.

Lemma curBlockOf_heap rs :
  rel_spec RD_heap RF_heap (curBlockOf rs).
Proof. unfold curBlockOf. heap_spec. Qed.
Hint Resolve curBlockOf_heap : spec_heap.

Lemma parseArgs_heap n reader :
  rel_spec RD_heap RF_heap (parseArgs ctx n reader).
Proof.
  revert reader.
  induction n as [|? IH]; intros reader; cbn [parseArgs]; heap_spec.
Qed.
Hint Resolve parseArgs_heap : spec_heap.

Lemma parseBlockArguments_heap reader b :
  rel_spec RD_heap RF_heap (parseBlockArguments ctx reader b).
Proof. unfold parseBlockArguments. heap_spec. Qed.
Hint Resolve parseBlockArguments_heap : spec_heap.

Lemma parseBlock_heap reader rs :
  rel_spec RD_heap RF_heap (parseBlock ctx reader rs).
Proof. unfold parseBlock. heap_spec. Qed.
Hint Resolve parseBlock_heap : spec_heap.

Lemma parseTypes_heap n reader :
  rel_spec RD_heap RF_heap (parseTypes ctx n reader).
Proof.
  revert reader.
  induction n as [|? IH]; intros reader; cbn [parseTypes]; heap_spec.
Qed.
Hint Resolve parseTypes_heap : spec_heap.

Lemma parseOperands_heap n reader :
  rel_spec RD_heap RF_heap (parseOperands ctx n reader).
Proof.
  revert reader.
  induction n as [|? IH]; intros reader; cbn [parseOperands]; heap_spec.
Qed.
Hint Resolve parseOperands_heap : spec_heap.

Lemma parseSuccessors_heap n bs reader :
  rel_spec RD_heap RF_heap (parseSuccessors n bs reader).
Proof.
  revert reader.
  induction n as [|? IH]; intros reader; cbn [parseSuccessors]; heap_spec.
Qed.
Hint Resolve parseSuccessors_heap : spec_heap.

Lemma createRegions_heap n :
  rel_spec RD_heap RF_heap (createRegions n).
Proof.
  induction n as [|? IH]; cbn [createRegions]; heap_spec.
Qed.
Hint Resolve createRegions_heap : spec_heap.

Lemma parseOperationState_heap reader rs :
  rel_spec RD_heap RF_heap (parseOperationState ctx reader rs).
Proof. unfold parseOperationState, when_, counted. heap_spec. Qed.
Hint Resolve parseOperationState_heap : spec_heap.


(** ** The body of the module while the regions are read *)

(** Operations, blocks and regions are named by natural numbers. *)
Ltac ids := unfold OpId, BlockId, RegionId in *.

Lemma BodyInv_heap m r0 b0 s s' :
  RD_heap s s' -> BodyInv m r0 b0 s -> BodyInv m r0 b0 s'.
Proof.
  intros (R1 & R2 & B1 & O1) (M0 & M1 & M2 & M3 & M4). ids.
  refine (conj _ (conj _ (conj _ (conj _ _)))).
  - destruct M0 as (op & Hop & Hn & Hr).
    destruct (O1 _ _ Hop) as (op' & Hop' & ? & ? & ?).
    exists op'. split; [done|]. split; [by rewrite H|by rewrite H1].
  - eauto.
  - destruct M2 as [k Hk]. destruct (B1 _ _ Hk) as (k' & Hk' & _). eauto.
  - intros r bs Hr Hin. apply (M3 r bs); [|done]. apply R2; [done|].
    intros ->. by apply elem_of_nil in Hin.
  - intros k' o Hk' Ho. ids. destruct M2 as [k Hk].
    destruct (B1 _ _ Hk) as (k'' & Hk'' & E).
    rewrite Hk' in Hk''. injection Hk'' as <-. rewrite E in Ho.
    destruct (M4 k o Hk Ho) as (op & Hop & Ht).
    destruct (O1 _ _ Hop) as (op' & Hop' & _ & Ht' & _).
    exists op'. split; [done|by rewrite Ht'].
Qed.

Lemma BodyInv_ir m r0 b0 s s' :
  ir s' = ir s -> BodyInv m r0 b0 s -> BodyInv m r0 b0 s'.
Proof. unfold BodyInv, no_result. by intros ->. Qed.

Lemma BodyInv_shape m r0 b0 s : BodyInv m r0 b0 s -> ModuleShape m r0 b0 s.
Proof. intros (M0 & M1 & M2 & M3 & _). by repeat split. Qed.

Lemma BodyInv_fail m r0 b0 s : BodyInv m r0 b0 s -> FailInv m r0 b0 s.
Proof.
  intros Hb. split; [by apply BodyInv_shape|].
  destruct Hb as (_ & _ & _ & _ & M4). intros k o op Hk Ho Hop Hne.
  destruct (M4 k o Hk Ho) as (op' & Hop' & Ht). congruence.
Qed.

Lemma ModuleShape_ir m r0 b0 s s' :
  ir s' = ir s -> ModuleShape m r0 b0 s -> ModuleShape m r0 b0 s'.
Proof. unfold ModuleShape. by intros ->. Qed.

Lemma ModuleShape_push m r0 b0 s b o :
  ModuleShape m r0 b0 s ->
  ModuleShape m r0 b0
    (set_ir (set_ir_blocks
               (alter (fun k => mkBlock (blk_args k) (blk_ops k ++ [o])) b
                      (ir_blocks (ir s))) (ir s)) s).
Proof.
  intros (M0 & M1 & [k Hk] & M3). ids.
  refine (conj _ (conj _ (conj _ _))); cbn; ids; try done.
  destruct (decide (b0 = b)) as [->|Hne].
  - rewrite list_lookup_alter_eq, Hk. by eexists.
  - rewrite list_lookup_alter_ne by done. by eexists.
Qed.

(** A function that leaves the blocks and the regions as they are keeps
    the invariant, and its failures too. *)
Lemma wp_body {A} (mm : M A) m r0 b0 s :
  rel_spec RD_heap RF_heap mm -> BodyInv m r0 b0 s ->
  wp mm (fun _ s' => RD_heap s s' /\ BodyInv m r0 b0 s') (FailInv m r0 b0) s.
Proof.
  intros Hm Hb. eapply wp_mono; [apply (Hm s)| |]; cbn.
  - intros a s' H. split; [done|]. by eapply BodyInv_heap.
  - intros s' H. eapply BodyInv_fail, BodyInv_heap; eauto.
Qed.

Lemma wpH_bind_spec {A B} (mm : M A) (k : A -> M B) Q s0 s :
  rel_spec RD_heap RF_heap mm -> RD_heap s0 s ->
  (forall a s', RD_heap s0 s' -> wp (k a) Q (fun _ => True) s') ->
  wp (mm ≫= k) Q (fun _ => True) s.
Proof.
  intros Hm Hs Hk. apply wp_bind. specialize (Hm s).
  eapply wp_mono; [exact Hm| |done]; cbn.
  intros a s' H. apply Hk. eapply RD_heap_trans; eauto.
Qed.

Lemma RD_heap_regions_length s s' :
  RD_heap s s' ->
  (length (ir_regions (ir s)) <= length (ir_regions (ir s')))%nat.
Proof.
  intros (R1 & _).
  destruct (Nat.le_gt_cases (length (ir_regions (ir s)))
              (length (ir_regions (ir s')))) as [|Hgt]; [done|].
  destruct (lookup_lt_is_Some_2 (ir_regions (ir s))
              (length (ir_regions (ir s'))) Hgt) as [bs Hbs].
  apply R1, lookup_lt_Some in Hbs. lia.
Qed.

(** The regions of a new operation are new. *)
Lemma createRegions_fresh n :
  forall s,
    wp (createRegions n)
       (fun rs s' => RD_heap s s'
                     /\ forall r, r ∈ rs ->
                          (length (ir_regions (ir s)) <= r)%nat)
       (fun _ => True) s.
Proof.
  induction n as [|n IH]; intros s; cbn [createRegions].
  - apply wp_ret. split; [apply RD_heap_refl|].
    intros r Hr. by apply elem_of_nil in Hr.
  - unfold createRegion. repeat wp_step.
    apply wp_bind. eapply wp_mono; [apply IH|cbv beta|done].
    intros rs s2 [H2 Hfresh]. apply wp_ret. split.
    + eapply RD_heap_trans; [apply heap_regions_app|exact H2].
    + intros r [->|Hr]%elem_of_cons; [done|].
      specialize (Hfresh r Hr). cbn in Hfresh. rewrite length_app in Hfresh.
      lia.
Qed.

Ltac heapQ_step :=
  lazymatch goal with
  | |- wp (_ ≫= _) _ _ _ =>
      eapply wpH_bind_spec; [heap_rel|eassumption|intros ? ? ?; cbv beta]
  end.

Lemma parseOperationState_fresh reader rs s :
  wp (parseOperationState ctx reader rs)
     (fun x s' => forall r, r ∈ op_regions x.1.1 ->
                            (length (ir_regions (ir s)) <= r)%nat)
     (fun _ => True) s.
Proof.
  assert (H0 : RD_heap s s) by apply RD_heap_refl.
  unfold parseOperationState, when_, counted.
  heapQ_step. destruct a as [opName reader1].
  heapQ_step. destruct a as [opMask reader2].
  heapQ_step. destruct a as [opLoc reader3].
  heapQ_step. destruct a as [attrs reader4].
  heapQ_step. destruct a as [resultTypes reader5].
  heapQ_step. destruct a as [operands reader6].
  heapQ_step. destruct a as [successors reader7].
  apply wp_bind.
  eapply (wp_mono _ (fun x _ => forall r, r ∈ x.1.1 ->
                         (length (ir_regions (ir s)) <= r)%nat)
            _ (fun _ => True)).
  - destruct (hasMask opMask kHasInlineRegions).
    + apply wp_bind, wp_liftR; [|done]. intros numFlag reader8 _. cbv beta.
      apply wp_bind. eapply wp_mono; [apply createRegions_fresh|cbv beta|done].
      intros regs s8 [_ Hfresh]. apply wp_ret. cbn. intros r Hr.
      specialize (Hfresh r Hr).
      pose proof (RD_heap_regions_length _ _ H6). lia.
    + apply wp_ret. cbn. intros r Hr. by apply elem_of_nil in Hr.
  - intros [regionsFlag reader8] s8 Hfresh. apply wp_ret. exact Hfresh.
  - done.
Qed.

Lemma curBlockOf_in rs s :
  wp (curBlockOf rs)
     (fun b s' => s' = s
                  /\ exists r bs,
                       regions rs !! curRegion rs = Some r
                       /\ ir_regions (ir s) !! r = Some bs /\ b ∈ bs)
     (fun _ => False) s.
Proof.
  unfold curBlockOf, curRegionBlocks. repeat wp_step; try done.
  split; [done|]. eexists _, _. split; [done|]. split; [done|].
  by eapply list_elem_of_lookup_2.
Qed.

(** An operation is put at the back of a block: of the body of the module
    only when it has no result. *)
Lemma BodyInv_push m r0 b0 s b o :
  BodyInv m r0 b0 s -> (b = b0 -> no_result s o) ->
  BodyInv m r0 b0
    (set_ir (set_ir_blocks
               (alter (fun k => mkBlock (blk_args k) (blk_ops k ++ [o])) b
                      (ir_blocks (ir s))) (ir s)) s).
Proof.
  intros (M0 & M1 & M2 & M3 & M4) Hno. ids.
  refine (conj _ (conj _ (conj _ (conj _ _)))); cbn; ids; try done.
  - destruct M2 as [k Hk]. destruct (decide (b0 = b)) as [->|Hne].
    + rewrite list_lookup_alter_eq, Hk. by eexists.
    + rewrite list_lookup_alter_ne by done. by eexists.
  - intros k o'. unfold no_result. cbn.
    destruct (decide (b0 = b)) as [->|Hne].
    + rewrite list_lookup_alter_eq.
      destruct (ir_blocks (ir s) !! b) as [k0|] eqn:Hk0; [|done].
      intros [= <-]. cbn.
      intros [Ho'| ->%list_elem_of_singleton]%elem_of_app.
      * by apply (M4 k0).
      * by apply Hno.
    + rewrite list_lookup_alter_ne by done. apply M4.
Qed.

Lemma no_result_ops_app s op o :
  no_result s o ->
  no_result (set_ir (set_ir_ops (ir_ops (ir s) ++ [op]) (ir s)) s) o.
Proof.
  intros (op' & Hop' & Ht). exists op'. split; [|done]. cbn.
  by apply lookup_app_l_Some.
Qed.

Ltac body_fail :=
  solve [eapply BodyInv_fail, BodyInv_ir; [|eassumption]; reflexivity].

(** [parseOpWithoutRegions] in the block of the module, where the value
    scope has no slot, and in another block. *)
Lemma parseOpWithoutRegions_body m r0 b0 reader rs s :
  BodyInv m r0 b0 s ->
  (regions rs = [r0] /\ map shape (valueScopes s) = [(0%nat, [0])])
  \/ (r0 ∉ regions rs) ->
  wp (parseOpWithoutRegions ctx reader rs)
     (fun x s' => BodyInv m r0 b0 s'
                  /\ exists op, ir_ops (ir s') !! x.1.1 = Some op
                                /\ (r0 ∉ op_regions op))
     (FailInv m r0 b0) s.
Proof.
  intros Hbody Hcase. unfold parseOpWithoutRegions. apply wp_bind.
  eapply wp_mono;
    [exact (wp_conj _ _ _ _ _ _
              (wp_conj _ _ _ _ _ _ (parseOperationState_heap reader rs s)
                 (parseOperationState_fresh reader rs s))
              (wp_conj _ _ _ _ _ _ (parseOperationState_shape ctx reader rs s)
                 (parseOperationState_types ctx reader rs s)))
    |cbv beta|].
  2: { intros s' [[H _] _]. eapply BodyInv_fail, BodyInv_heap; eauto. }
  intros [[opState isolated] reader1] s1 [[Hh Hfresh] [Hsh Hty]].
  cbn [fst snd] in *. unfold RD_shape in Hsh.
  pose proof (BodyInv_heap _ _ _ _ _ Hh Hbody) as Hb1.
  assert (Hr0 : r0 ∉ op_regions opState).
  { intros Hin. apply Hfresh in Hin. destruct Hbody as (_ & M1 & _).
    apply lookup_lt_Some in M1. lia. }
  unfold createOperation. repeat wp_step.
  set (s2 := set_ir _ s1).
  assert (Hb2 : BodyInv m r0 b0 s2)
    by (eapply BodyInv_heap; [apply heap_ops_app|done]).
  assert (Hop2 : ir_ops (ir s2) !! length (ir_ops (ir s1)) = Some opState)
    by (cbn; by rewrite lookup_app_r, Nat.sub_diag).
  apply wp_bind. eapply wp_mono; [apply curBlockOf_in|cbv beta|done].
  intros b s2' [-> (r & bs & Hr & Hbs & Hin)].
  unfold Block_push_back. apply wp_bind, wp_modify. cbv beta.
  set (s3 := set_ir _ s2).
  assert (Hop3 : ir_ops (ir s3) !! length (ir_ops (ir s1)) = Some opState)
    by exact Hop2.
  destruct (Nat.eqb_spec (length (op_types opState)) 0) as [Hz|Hz].
  - apply wp_bind, wp_ret, wp_ret. cbn [fst snd]. split.
    + apply BodyInv_push; [exact Hb2|]. intros _. exists opState.
      split; [exact Hop2|]. by destruct (op_types opState).
    + exists opState. by split.
  - destruct Hcase as [[Hregs Hshape]|Hnot].
    + (* the block of the module *)
      assert (b = b0) as ->.
      { rewrite Hregs in Hr. apply list_elem_of_lookup_2 in Hr.
        apply list_elem_of_singleton in Hr. subst r.
        destruct Hb2 as (_ & M1 & _). ids. rewrite M1 in Hbs.
        injection Hbs as <-. by apply list_elem_of_singleton in Hin. }
      apply wp_bind. unfold wp at 1.
      erewrite defineValues_module_diag.
      * split.
        { apply (ModuleShape_ir _ _ _ s3); [reflexivity|].
          by apply ModuleShape_push, BodyInv_shape. }
        intros k o op Hk Ho Hop Hne. cbn in Hk, Hop.
        destruct Hb2 as (_ & _ & [k2 Hk2] & _ & M4). ids.
        pose proof Hk2 as Hk2'. cbn in Hk2'.
        rewrite list_lookup_alter_eq, Hk2' in Hk. cbn in Hk.
        injection Hk as <-. cbn in Ho.
        apply elem_of_app in Ho as [Ho| ->%list_elem_of_singleton].
        -- destruct (M4 k2 o Hk2 Ho) as (op' & Hop' & Ht).
           unfold s2 in Hop'. cbn in Hop'. ids. rewrite Hop in Hop'.
           injection Hop' as <-. done.
        -- rewrite lookup_app_r, Nat.sub_diag in Hop by lia.
           injection Hop as <-. cbn. rewrite last_snoc.
           unfold getResults. by rewrite length_map, length_seq.
      * cbn. by rewrite Hsh.
      * unfold getResults. rewrite length_map, length_seq.
        unfold INT_MAX in Hty. lia.
    + (* another block *)
      assert (Hne : b <> b0).
      { intros ->. apply Hnot. destruct Hb2 as (_ & _ & _ & M3 & _).
        rewrite <- (M3 r bs Hbs Hin). by eapply list_elem_of_lookup_2. }
      assert (Hb3 : BodyInv m r0 b0 s3) by (by apply BodyInv_push).
      apply wp_bind.
      eapply wp_mono;
        [apply (wp_body _ m r0 b0 s3 (defineValues_heap _) Hb3)|cbv beta|done].
      intros [] s4 [(_ & _ & _ & O1) Hb4]. apply wp_ret. split; [done|].
      destruct (O1 _ _ Hop3) as (op' & Hop' & _ & _ & Hreg'). exists op'.
      cbn [fst snd]. split; [done|]. by rewrite Hreg'.
Qed.

(** A new block is put into a region that is not the region of the
    module. *)
Lemma BodyInv_region_push m r0 b0 s region b :
  region <> r0 -> b <> b0 -> BodyInv m r0 b0 s ->
  BodyInv m r0 b0
    (set_ir (set_ir_regions
               (alter (fun bs => bs ++ [b]) region (ir_regions (ir s)))
               (ir s)) s).
Proof.
  intros Hr Hb (M0 & M1 & M2 & M3 & M4). ids.
  refine (conj _ (conj _ (conj _ (conj _ _)))); cbn; ids; try done.
  - by rewrite list_lookup_alter_ne.
  - intros r bs. destruct (decide (r = region)) as [->|Hne].
    + rewrite list_lookup_alter_eq.
      intros Hl Hin. apply fmap_Some in Hl as (bs0 & Hbs0 & ->).
      apply elem_of_app in Hin as [Hin|Hin].
      2: { apply list_elem_of_singleton in Hin. congruence. }
      by apply (M3 region bs0).
    + rewrite list_lookup_alter_ne by done. apply M3.
Qed.

Lemma createBlocks_body m r0 b0 n region :
  region <> r0 ->
  forall s, BodyInv m r0 b0 s ->
    wp (createBlocks n region) (fun _ s' => BodyInv m r0 b0 s')
       (fun _ => False) s.
Proof.
  intros Hr. induction n as [|n IH]; intros s Hb; cbn [createBlocks].
  - by apply wp_ret.
  - unfold createBlock, Region_push_back. repeat wp_step.
    apply wp_bind. eapply wp_mono; [apply IH|cbv beta|done].
    + apply BodyInv_region_push; [done| |].
      * destruct Hb as (_ & _ & [k Hk] & _). apply lookup_lt_Some in Hk.
        cbn. lia.
      * eapply BodyInv_heap; [apply heap_blocks_app|done].
    + intros bs s' Hb'. by apply wp_ret.
Qed.

Lemma parseRegion_body m r0 b0 reader rs s :
  BodyInv m r0 b0 s -> (r0 ∉ regions rs) ->
  wp (parseRegion ctx reader rs) (fun _ s' => BodyInv m r0 b0 s')
     (FailInv m r0 b0) s.
Proof.
  intros Hb Hr. unfold parseRegion.
  apply wp_bind, wp_liftR; [|intros; body_fail].
  intros numBlocks reader1 _. cbv beta.
  destruct (numBlocks =? 0); [by apply wp_ret|].
  apply wp_bind, wp_liftR; [|intros; body_fail].
  intros numValues reader2 _. cbv beta. cbn [regions curRegion set_numValues].
  destruct (regions rs !! curRegion rs) as [region|] eqn:Hreg; [|done].
  assert (Hne : region <> r0).
  { intros ->. apply Hr. by eapply list_elem_of_lookup_2. }
  apply wp_bind.
  eapply wp_mono; [by apply (createBlocks_body m r0 b0)|cbv beta|done].
  intros blocks s1 Hb1. unfold onBackScope. repeat wp_step.
  eapply wp_mono;
    [apply (wp_body _ m r0 b0 _ (parseBlock_heap _ _))|cbv beta|done].
  - eapply BodyInv_ir; [|exact Hb1]. reflexivity.
  - intros x s2 [_ H2]. exact H2.
Qed.

(** ** The frames of the region stack *)

Lemma frames_ok_ext r0 f f' rest :
  regions f' = regions f -> frames_ok r0 (f :: rest) ->
  frames_ok r0 (f' :: rest).
Proof. intros E. cbn. by rewrite E. Qed.

Lemma frames_ok_tail r0 f rest :
  frames_ok r0 (f :: rest) -> frames_ok r0 rest.
Proof. destruct rest; [done|]. by intros [_ H]. Qed.

Lemma frames_ok_push r0 f rest opRegions isolated :
  (r0 ∉ opRegions) -> frames_ok r0 (f :: rest) ->
  frames_ok r0 (RegionReadState_of opRegions isolated :: f :: rest).
Proof. intros Hr H. by split. Qed.

Ltac wp_next lem :=
  apply wp_bind; eapply wp_mono; [apply lem|cbv beta|done].

(** Each call of [parseRegions] keeps the invariant of the region stack,
    that of the body of the module and that of the frames; a failure
    leaves in the body of the module an operation that declares results
    only when it is the value-index error of that operation. *)
Lemma parseRegions_body m r0 b0 fuel :
  forall reader stack rs s,
    TopInv (rs :: stack) (map shape (valueScopes s)) ->
    BodyInv m r0 b0 s -> frames_ok r0 (rs :: stack) ->
    wp (parseRegions ctx fuel reader stack rs)
       (fun x s' => TopInv x.1 (map shape (valueScopes s'))
                    /\ BodyInv m r0 b0 s' /\ frames_ok r0 x.1)
       (FailInv m r0 b0) s.
Proof.
  induction fuel as [|fuel IH]; intros reader stack rs s Hinv Hbody Hfr;
    cbn [parseRegions]; [apply wp_out_of_fuel|].
  destruct (Nat.eqb_spec (curRegion rs) (length (regions rs))) as [Hend|Hend].
  { (* the frame is popped *)
    pose proof (TopInv_pop _ _ _ Hend Hinv) as Hpop.
    pose proof (frames_ok_tail _ _ _ Hfr) as Hfr'.
    destruct (isIsolatedFromAbove rs); repeat wp_step; done. }
  destruct (curBlock rs) as [i|] eqn:Hb.
  - destruct (numOpsRemaining rs =? 0) eqn:Hops.
    + (* end of the block *)
      wp_next curRegionBlocks_pure. intros blocks s1 [-> _].
      destruct (S i =? length blocks)%nat.
      * (* end of the region *)
        unfold onBackScope. repeat wp_step. apply IH.
        -- cbn.
           assert (Hb' : curBlock (set_numOpsRemaining (u64 (0 - 1)) rs)
                         <> None) by (cbn; congruence).
           match goal with
           | Hp : ValueScope_pop _ ?sc = Some ?sc' |- _ =>
               apply (TopInv_close (set_numOpsRemaining (u64 (0 - 1)) rs)
                        stack sc _ sc' Hb' Hp)
           end.
           eapply TopInv_ext; [..|exact Hinv]; done.
        -- eapply BodyInv_ir; [|exact Hbody]. reflexivity.
        -- eapply frames_ok_ext; [|exact Hfr]. reflexivity.
      * (* next block *)
        set (rs1 := set_curBlock (Some (S i))
                      (set_numOpsRemaining (u64 (0 - 1)) rs)).
        assert (Hinv1 : TopInv (rs1 :: stack) (map shape (valueScopes s))).
        { eapply TopInv_ext; [..|exact Hinv]; try done.
          subst rs1; cbn; rewrite Hb; split; discriminate. }
        assert (Hfr1 : frames_ok r0 (rs1 :: stack))
          by (eapply frames_ok_ext; [|exact Hfr]; reflexivity).
        destruct stack as [|g stack'].
        -- destruct Hinv1 as [Hwf [[Hn _]|(Hsh & Hnv & Hcr & Hbn)]]; [done|].
           apply wp_bind.
           eapply wp_mono;
             [exact (wp_conj _ _ _ _ _ _ (parseBlock_module ctx reader rs1 s Hsh)
                       (wp_body _ m r0 b0 s (parseBlock_heap reader rs1) Hbody))
             |cbv beta|by intros ? [_ ?]].
           intros [rs2 reader2] s2 [[Hsh2 [n Hn]] [_ Hb2]]. cbn in Hn.
           subst rs2. apply IH; [|done|done].
           cbn. split; [done|]. right. by rewrite Hsh2.
        -- apply wp_bind.
           eapply wp_mono;
             [exact (wp_conj _ _ _ _ _ _ (parseBlock_frame ctx reader rs1 s)
                       (wp_body _ m r0 b0 s (parseBlock_heap reader rs1) Hbody))
             |cbv beta|by intros ? [_ ?]].
           intros [rs2 reader2] s2 [[Hw [n Hn]] [_ Hb2]]. cbn in Hn.
           subst rs2. apply IH; [|done|done].
           apply RD_weak_wrel in Hw.
           eapply TopInv_wrel; [|exact Hw|]; [done|].
           eapply TopInv_ext; [..|exact Hinv1]; done.
    + (* an operation *)
      set (rs1 := set_numOpsRemaining (numOpsRemaining rs - 1) rs).
      assert (Hinv1 : TopInv (rs1 :: stack) (map shape (valueScopes s))).
      { eapply TopInv_ext; [..|exact Hinv]; done. }
      assert (Hfr1 : frames_ok r0 (rs1 :: stack))
        by (eapply frames_ok_ext; [|exact Hfr]; reflexivity).
      assert (Hb1 : curBlock rs1 <> None) by (subst rs1; cbn; congruence).
      assert (Hop : wp (parseOpWithoutRegions ctx reader rs1)
                (fun x s' =>
                   TopInv (rs1 :: stack) (map shape (valueScopes s'))
                   /\ BodyInv m r0 b0 s'
                   /\ exists op, ir_ops (ir s') !! x.1.1 = Some op
                                 /\ (r0 ∉ op_regions op))
                (FailInv m r0 b0) s).
      { destruct stack as [|g stack'].
        - destruct Hinv1 as [Hwf [[Hn _]|(Hsh & Hnv & Hcr & Hbn)]]; [done|].
          eapply wp_mono;
            [exact (wp_conj _ _ _ _ _ _
                      (parseOpWithoutRegions_module ctx reader rs1 s Hsh)
                      (parseOpWithoutRegions_body m r0 b0 reader rs1 s Hbody
                         (or_introl (conj Hfr1 Hsh))))
            |cbv beta|by intros ? [_ ?]].
          intros x s1 [[Hsh1 _] [Hb2 Hx]]. split; [|done].
          cbn. split; [done|]. right. by rewrite Hsh1.
        - eapply wp_mono;
            [exact (wp_conj _ _ _ _ _ _
                      (parseOpWithoutRegions_weak ctx reader rs1 s)
                      (parseOpWithoutRegions_body m r0 b0 reader rs1 s Hbody
                         (or_intror (proj1 Hfr1))))
            |cbv beta|by intros ? [_ ?]].
          intros x s1 [Hw [Hb2 Hx]]. split; [|done].
          cbn in Hw. apply RD_weak_wrel in Hw.
          eapply TopInv_wrel; [|exact Hw|]; done. }
      apply wp_bind. eapply wp_mono; [exact Hop|cbv beta|done].
      intros [[op isolated] reader1] s1 (Hinv2 & Hb2 & opr & Hopr & Hr0).
      cbn [fst snd] in Hopr.
      apply wp_bind, wp_get. cbv beta. cbn [fst snd].
      rewrite Hopr.
      destruct (op_regions opr) as [|r l] eqn:Hregs; [by apply IH|].
      destruct isolated; repeat wp_step; cbn [fst snd].
      * split; [apply (TopInv_push rs1 stack _ (r :: l) true Hinv2)|].
        split; [eapply BodyInv_ir; [|exact Hb2]; reflexivity|].
        by apply frames_ok_push.
      * split; [apply (TopInv_push rs1 stack _ (r :: l) false Hinv2)|].
        split; [done|]. by apply frames_ok_push.
  - (* the header of a region *)
    assert (Hr0 : r0 ∉ regions rs).
    { destruct stack as [|g stack']; [|apply Hfr].
      destruct Hinv as [_ [[_ Hc]|(_ & _ & _ & Hbn)]]; done. }
    apply wp_bind.
    eapply wp_mono;
      [exact (wp_conj _ _ _ _ _ _ (parseRegion_frame ctx reader rs s)
                (parseRegion_body m r0 b0 reader rs s Hbody Hr0))
      |cbv beta|by intros ? [_ ?]].
    intros [rs' reader'] s1 [Hcase Hb1]. cbn [fst] in Hcase.
    wp_next curRegionBlocks_pure. intros blocks s2 [-> (rg & Hrg & Hbs)].
    destruct Hcase
      as [[-> Hsh]|(sc & rest & nv & bs & n & Hs & Hnv & Hw & -> & Hne)].
    + rewrite <- Hsh in Hinv. destruct blocks; [|by apply IH].
      apply IH; [|done|eapply frames_ok_ext; [|exact Hfr]; reflexivity].
      destruct Hinv as [Hwf Hrest]. cbn [TopInv]. split; [done|].
      destruct stack as [|g stack'].
      * destruct Hrest as [[? ?]|(? & ? & ? & ?)]; done.
      * unfold leaveFrame, closeRegion in *. cbn.
        rewrite Hb in Hrest |- *. exact Hrest.
    + cbn in Hrg. specialize (Hne rg Hrg).
      destruct blocks as [|b blocks]; [done|].
      apply IH; [|done|eapply frames_ok_ext; [|exact Hfr]; reflexivity].
      rewrite Hs in Hinv.
      by apply (TopInv_open rs stack sc rest nv bs n).
Qed.

End Family_heap.

(** ** Functions that do not ask the host for a dialect *)

Create HintDb spec_asked.

Ltac asked_leaf :=
  unfold RD_asked, RF_asked in *;
  try match goal with |- context [set_entriesOf ?k] => destruct k end;
  simpl in *; try (intuition (auto; congruence)).

Ltac asked_rel :=
  first
    [ solve [eauto with spec_asked]
    | apply rel_spec_intro; [typeclasses eauto|]; intros ? ?; asked_auto ]
with asked_call :=
  lazymatch goal with
  | |- wpR _ _ _ (_ ≫= _) _ =>
      eapply wpR_bind_spec;
      [typeclasses eauto|asked_rel|asked_leaf|intros ? ? ?; cbv beta]
  | |- wpR _ _ _ _ _ =>
      eapply wpR_call; [typeclasses eauto|asked_rel|asked_leaf]
  end
with asked_auto := repeat first [wpR_step asked_leaf | asked_call].

Ltac asked_spec :=
  intros; apply rel_spec_intro; [typeclasses eauto|];
  intros ? ?; asked_auto.

#[export] Instance Frame_asked : Frame RD_asked RF_asked.
Proof.
  split; unfold RD_asked, RF_asked; [done|congruence|congruence].
Qed.

Section Family_asked.

Variable ctx : MLIRContext.

Lemma resolveEntry_asked n index str :
  rel_spec RD_asked RF_asked (resolveEntry n index str).
Proof. unfold resolveEntry. asked_spec. Qed.
Hint Resolve resolveEntry_asked : spec_asked.

Lemma parseEntry_asked reader n str :
  rel_spec RD_asked RF_asked (parseEntry reader n str).
Proof. unfold parseEntry. asked_spec. Qed.
Hint Resolve parseEntry_asked : spec_asked.

Lemma stringContents_asked str :
  rel_spec RD_asked RF_asked (stringContents str).
Proof. unfold stringContents. asked_spec. Qed.
Hint Resolve stringContents_asked : spec_asked.

Lemma parseSharedString_asked reader :
  rel_spec RD_asked RF_asked (parseSharedString reader).
Proof. unfold parseSharedString. asked_spec. Qed.
Hint Resolve parseSharedString_asked : spec_asked.

Lemma forEntries_asked {A} n cb d (a : A) reader :
  (forall d a r, rel_spec RD_asked RF_asked (cb d a r)) ->
  rel_spec RD_asked RF_asked (forEntries n cb d a reader).
Proof.
  intros Hcb. revert a reader.
  induction n as [|? IH]; intros a reader; cbn [forEntries]; asked_spec.
Qed.
Hint Resolve forEntries_asked : spec_asked.

Lemma parseDialectGrouping_asked {A} reader cb (a : A) :
  (forall d a r, rel_spec RD_asked RF_asked (cb d a r)) ->
  rel_spec RD_asked RF_asked (parseDialectGrouping reader cb a).
Proof. intros Hcb. unfold parseDialectGrouping. asked_spec. Qed.
Hint Resolve parseDialectGrouping_asked : spec_asked.

Lemma parseDialectNames_asked n i reader :
  rel_spec RD_asked RF_asked (parseDialectNames n i reader).
Proof.
  revert i reader.
  induction n as [|? IH]; intros i reader; cbn [parseDialectNames]; asked_spec.
Qed.
Hint Resolve parseDialectNames_asked : spec_asked.

Lemma parseOpNameEntry_asked d u reader :
  rel_spec RD_asked RF_asked (parseOpNameEntry d u reader).
Proof. unfold parseOpNameEntry. asked_spec. Qed.
Hint Resolve parseOpNameEntry_asked : spec_asked.

Lemma parseOpNameGroups_asked fuel reader :
  rel_spec RD_asked RF_asked (parseOpNameGroups fuel reader).
Proof.
  revert reader.
  induction fuel as [|? IH]; intros reader; cbn [parseOpNameGroups]; asked_spec.
Qed.
Hint Resolve parseOpNameGroups_asked : spec_asked.

Lemma parseDialectSection_asked data :
  rel_spec RD_asked RF_asked (parseDialectSection data).
Proof. unfold parseDialectSection. asked_spec. Qed.
Hint Resolve parseDialectSection_asked : spec_asked.

Lemma parseVersion_asked kVersion reader :
  rel_spec RD_asked RF_asked (parseVersion kVersion reader).
Proof. unfold parseVersion. asked_spec. Qed.
Hint Resolve parseVersion_asked : spec_asked.

Lemma parseSections_asked fuel reader datas :
  rel_spec RD_asked RF_asked (parseSections fuel reader datas).
Proof.
  revert reader datas.
  induction fuel as [|? IH]; intros reader datas; cbn [parseSections]; asked_spec.
Qed.
Hint Resolve parseSections_asked : spec_asked.

Lemma checkSections_asked i datas :
  rel_spec RD_asked RF_asked (checkSections i datas).
Proof.
  revert i. induction datas as [|[d|] datas IH]; intros i;
    cbn [checkSections]; asked_spec.
Qed.
Hint Resolve checkSections_asked : spec_asked.

Lemma sectionData_of_asked datas i :
  rel_spec RD_asked RF_asked (sectionData_of datas i).
Proof. unfold sectionData_of. asked_spec. Qed.
Hint Resolve sectionData_of_asked : spec_asked.

Lemma parseStringSectionM_asked data :
  rel_spec RD_asked RF_asked (parseStringSectionM data).
Proof. unfold parseStringSectionM. asked_spec. Qed.
Hint Resolve parseStringSectionM_asked : spec_asked.

End Family_asked.

(** ** Each dialect is asked for at most once *)

Create HintDb spec_loads.

Ltac loads_leaf :=
  unfold RD_loads, RF_loads in *; unfold loads_ok, entries_stable in *;
  try match goal with |- context [set_entriesOf ?k] => destruct k end;
  simpl in *; try solve [assumption | intuition eauto].

Ltac loads_rel :=
  first
    [ solve [eauto with spec_loads]
    | apply rel_spec_intro; [typeclasses eauto|]; intros ? ?; loads_auto ]
with loads_call :=
  lazymatch goal with
  | |- wpR _ _ _ (_ ≫= _) _ =>
      eapply wpR_bind_spec;
      [typeclasses eauto|loads_rel|loads_leaf|intros ? ? ?; cbv beta]
  | |- wpR _ _ _ _ _ =>
      eapply wpR_call; [typeclasses eauto|loads_rel|loads_leaf]
  end
with loads_auto := repeat first [wpR_step loads_leaf | loads_call].

Ltac loads_spec :=
  intros; apply rel_spec_intro; [typeclasses eauto|];
  intros ? ?; loads_auto.

#[export] Instance Frame_loads : Frame RD_loads RF_loads.
Proof.
  split; unfold RD_loads, RF_loads.
  - intros s Hs. split; [done|]. by intros i d v Hd Hv.
  - intros s1 s2 s3 H12 H23 Hs.
    destruct (H12 Hs) as [Hs2 St12]. destruct (H23 Hs2) as [Hs3 St23].
    split; [done|]. intros i d v Hd Hv. eauto.
  - intros s1 s2 s3 H12 H23 Hs. destruct (H12 Hs) as [Hs2 _]. auto.
Qed.

Section Family_loads.

Variable ctx : MLIRContext.
Variable verify : IR -> OpId -> VerifyResult.

Lemma resolveEntry_loads n index str :
  rel_spec RD_loads RF_loads (resolveEntry n index str).
Proof. unfold resolveEntry. loads_spec. Qed.
Hint Resolve resolveEntry_loads : spec_loads.

Lemma parseEntry_loads reader n str :
  rel_spec RD_loads RF_loads (parseEntry reader n str).
Proof. unfold parseEntry. loads_spec. Qed.
Hint Resolve parseEntry_loads : spec_loads.

Lemma stringContents_loads str :
  rel_spec RD_loads RF_loads (stringContents str).
Proof. unfold stringContents. loads_spec. Qed.
Hint Resolve stringContents_loads : spec_loads.

Lemma parseSharedString_loads reader :
  rel_spec RD_loads RF_loads (parseSharedString reader).
Proof. unfold parseSharedString. loads_spec. Qed.
Hint Resolve parseSharedString_loads : spec_loads.

Lemma load_loads i :
  rel_spec RD_loads RF_loads (load ctx i).
Proof.
  intros s. unfold wpR, wp, load, stringContents.
  unfold mbind, M_bind, get, modify, emitError, emit, failure, mret, M_ret.
  cbn.
  destruct (dialects s !! i) as [d|] eqn:Hd; [|done].
  destruct (dialect d) as [v|] eqn:Hv.
  { intros Hs. split; [done|]. by intros j d' v' Hd' Hv'. }
  destruct (StringRef_bytes (stringData s) (dialect_name d)) as [name|];
    [|done].
  assert (Hnew : loads_ok s -> NoDup (dialectLoads s ++ [i])).
  { intros [Hnd Hrec]. apply list.NoDup_app. split; [done|]. split.
    - intros j Hj ->%list_elem_of_singleton.
      destruct (Hrec _ Hj) as (d' & v' & Hd' & Hv'). congruence.
    - apply list.NoDup_singleton. }
  destruct (negb (bool_decide (is_Some (getOrLoadDialect ctx name)))
            && negb (allowsUnregisteredDialects ctx)); cbn.
  - exact Hnew.
  - intros Hs. split; [split|]; cbn.
    + by apply Hnew.
    + intros j [Hj| ->%list_elem_of_singleton]%elem_of_app.
      * destruct Hs as [_ Hrec].
        destruct (Hrec _ Hj) as (d' & v' & Hd' & Hv').
        exists d', v'. split; [|done].
        rewrite list_lookup_insert_ne; [done|]. congruence.
      * eexists _, _. split.
        -- apply list_lookup_insert_eq. by eapply lookup_lt_Some.
        -- reflexivity.
    + intros j d' v' Hd' Hv'. cbn.
      rewrite list_lookup_insert_ne; [done|]. congruence.
Qed.
Hint Resolve load_loads : spec_loads.

Lemma forEntries_loads {A} n cb d (a : A) reader :
  (forall d a r, rel_spec RD_loads RF_loads (cb d a r)) ->
  rel_spec RD_loads RF_loads (forEntries n cb d a reader).
Proof.
  intros Hcb. revert a reader.
  induction n as [|? IH]; intros a reader; cbn [forEntries]; loads_spec.
Qed.
Hint Resolve forEntries_loads : spec_loads.

Lemma parseDialectGrouping_loads {A} reader cb (a : A) :
  (forall d a r, rel_spec RD_loads RF_loads (cb d a r)) ->
  rel_spec RD_loads RF_loads (parseDialectGrouping reader cb a).
Proof. intros Hcb. unfold parseDialectGrouping. loads_spec. Qed.
Hint Resolve parseDialectGrouping_loads : spec_loads.

Lemma parseOpNameEntry_loads d u reader :
  rel_spec RD_loads RF_loads (parseOpNameEntry d u reader).
Proof. unfold parseOpNameEntry. loads_spec. Qed.
Hint Resolve parseOpNameEntry_loads : spec_loads.

Lemma parseOpNameGroups_loads fuel reader :
  rel_spec RD_loads RF_loads (parseOpNameGroups fuel reader).
Proof.
  revert reader.
  induction fuel as [|? IH]; intros reader; cbn [parseOpNameGroups]; loads_spec.
Qed.
Hint Resolve parseOpNameGroups_loads : spec_loads.

Lemma parseOpName_loads reader :
  rel_spec RD_loads RF_loads (parseOpName ctx reader).
Proof. unfold parseOpName. loads_spec. Qed.
Hint Resolve parseOpName_loads : spec_loads.

Lemma parseEntryFn_loads kind data d st reader :
  rel_spec RD_loads RF_loads (parseEntryFn kind data d st reader).
Proof. unfold parseEntryFn. loads_spec. Qed.
Hint Resolve parseEntryFn_loads : spec_loads.

Lemma parseEntries_loads kind fuel data st reader :
  rel_spec RD_loads RF_loads (parseEntries kind fuel data st reader).
Proof.
  revert st reader.
  induction fuel as [|? IH]; intros st reader; cbn [parseEntries]; loads_spec.
Qed.
Hint Resolve parseEntries_loads : spec_loads.

Lemma initialize_loads data offsets :
  rel_spec RD_loads RF_loads (initialize data offsets).
Proof. unfold initialize. loads_spec. Qed.
Hint Resolve initialize_loads : spec_loads.

Lemma parseAsmEntry_loads kind i reader custom :
  rel_spec RD_loads RF_loads (parseAsmEntry ctx kind i reader custom).
Proof. unfold parseAsmEntry. loads_spec. Qed.
Hint Resolve parseAsmEntry_loads : spec_loads.

Lemma resolveAttrType_loads kind index :
  rel_spec RD_loads RF_loads (resolveAttrType ctx kind index).
Proof. unfold resolveAttrType. loads_spec. Qed.
Hint Resolve resolveAttrType_loads : spec_loads.

Lemma parseAttribute_loads reader :
  rel_spec RD_loads RF_loads (parseAttribute ctx reader).
Proof. unfold parseAttribute. loads_spec. Qed.
Hint Resolve parseAttribute_loads : spec_loads.

Lemma parseType_loads reader :
  rel_spec RD_loads RF_loads (parseType ctx reader).
Proof. unfold parseType. loads_spec. Qed.
Hint Resolve parseType_loads : spec_loads.

Lemma parseAttributeOf_loads isa name reader :
  rel_spec RD_loads RF_loads (parseAttributeOf ctx isa name reader).
Proof. unfold parseAttributeOf. loads_spec. Qed.
Hint Resolve parseAttributeOf_loads : spec_loads.

Lemma createOperation_loads op :
  rel_spec RD_loads RF_loads (createOperation op).
Proof. unfold createOperation. loads_spec. Qed.
Hint Resolve createOperation_loads : spec_loads.

Lemma createBlock_loads  :
  rel_spec RD_loads RF_loads createBlock.
Proof. unfold createBlock. loads_spec. Qed.
Hint Resolve createBlock_loads : spec_loads.

Lemma createRegion_loads  :
  rel_spec RD_loads RF_loads createRegion.
Proof. unfold createRegion. loads_spec. Qed.
Hint Resolve createRegion_loads : spec_loads.

Lemma Block_push_back_loads b op :
  rel_spec RD_loads RF_loads (Block_push_back b op).
Proof. unfold Block_push_back. loads_spec. Qed.
Hint Resolve Block_push_back_loads : spec_loads.

Lemma Region_push_back_loads r b :
  rel_spec RD_loads RF_loads (Region_push_back r b).
Proof. unfold Region_push_back. loads_spec. Qed.
Hint Resolve Region_push_back_loads : spec_loads.

Lemma addArguments_loads b args :
  rel_spec RD_loads RF_loads (addArguments b args).
Proof. unfold addArguments. loads_spec. Qed.
Hint Resolve addArguments_loads : spec_loads.

Lemma getArguments_loads b :
  rel_spec RD_loads RF_loads (getArguments b).
Proof. unfold getArguments. loads_spec. Qed.
Hint Resolve getArguments_loads : spec_loads.

Lemma replaceAllUsesWith_loads a b :
  rel_spec RD_loads RF_loads (replaceAllUsesWith a b).
Proof. unfold replaceAllUsesWith. loads_spec. Qed.
Hint Resolve replaceAllUsesWith_loads : spec_loads.

Lemma onBackScope_loads f :
  rel_spec RD_loads RF_loads (onBackScope f).
Proof. unfold onBackScope. loads_spec. Qed.
Hint Resolve onBackScope_loads : spec_loads.

Lemma createForwardRef_loads  :
  rel_spec RD_loads RF_loads (createForwardRef ctx).
Proof. unfold createForwardRef. loads_spec. Qed.
Hint Resolve createForwardRef_loads : spec_loads.

Lemma parseOperand_loads reader :
  rel_spec RD_loads RF_loads (parseOperand ctx reader).
Proof. unfold parseOperand. loads_spec. Qed.
Hint Resolve parseOperand_loads : spec_loads.

Lemma defineValue_loads v :
  rel_spec RD_loads RF_loads (defineValue v).
Proof. unfold defineValue. loads_spec. Qed.
Hint Resolve defineValue_loads : spec_loads.

Lemma defineValuesLoop_loads vs :
  rel_spec RD_loads RF_loads (defineValuesLoop vs).
Proof.
  induction vs as [|? ? IH]; cbn [defineValuesLoop]; loads_spec.
Qed.
Hint Resolve defineValuesLoop_loads : spec_loads.

Lemma defineValues_loads vs :
  rel_spec RD_loads RF_loads (defineValues vs).
Proof. unfold defineValues. loads_spec. Qed.
Hint Resolve defineValues_loads : spec_loads.

Lemma curRegionBlocks_loads rs :
  rel_spec RD_loads RF_loads (curRegionBlocks rs).
Proof. unfold curRegionBlocks. loads_spec. Qed.
Hint Resolve curRegionBlocks_loads : spec_loads.

Lemma curBlockOf_loads rs :
  rel_spec RD_loads RF_loads (curBlockOf rs).
Proof. unfold curBlockOf. loads_spec. Qed.
Hint Resolve curBlockOf_loads : spec_loads.

Lemma parseArgs_loads n reader :
  rel_spec RD_loads RF_loads (parseArgs ctx n reader).
Proof.
  revert reader.
  induction n as [|? IH]; intros reader; cbn [parseArgs]; loads_spec.
Qed.
Hint Resolve parseArgs_loads : spec_loads.

Lemma parseBlockArguments_loads reader b :
  rel_spec RD_loads RF_loads (parseBlockArguments ctx reader b).
Proof. unfold parseBlockArguments. loads_spec. Qed.
Hint Resolve parseBlockArguments_loads : spec_loads.

Lemma parseBlock_loads reader rs :
  rel_spec RD_loads RF_loads (parseBlock ctx reader rs).
Proof. unfold parseBlock. loads_spec. Qed.
Hint Resolve parseBlock_loads : spec_loads.

Lemma createBlocks_loads n r :
  rel_spec RD_loads RF_loads (createBlocks n r).
Proof.
  induction n as [|? IH]; cbn [createBlocks]; loads_spec.
Qed.
Hint Resolve createBlocks_loads : spec_loads.

Lemma parseRegion_loads reader rs :
  rel_spec RD_loads RF_loads (parseRegion ctx reader rs).
Proof. unfold parseRegion. loads_spec. Qed.
Hint Resolve parseRegion_loads : spec_loads.

Lemma parseTypes_loads n reader :
  rel_spec RD_loads RF_loads (parseTypes ctx n reader).
Proof.
  revert reader.
  induction n as [|? IH]; intros reader; cbn [parseTypes]; loads_spec.
Qed.
Hint Resolve parseTypes_loads : spec_loads.

Lemma parseOperands_loads n reader :
  rel_spec RD_loads RF_loads (parseOperands ctx n reader).
Proof.
  revert reader.
  induction n as [|? IH]; intros reader; cbn [parseOperands]; loads_spec.
Qed.
Hint Resolve parseOperands_loads : spec_loads.

Lemma parseSuccessors_loads n bs reader :
  rel_spec RD_loads RF_loads (parseSuccessors n bs reader).
Proof.
  revert reader.
  induction n as [|? IH]; intros reader; cbn [parseSuccessors]; loads_spec.
Qed.
Hint Resolve parseSuccessors_loads : spec_loads.

Lemma createRegions_loads n :
  rel_spec RD_loads RF_loads (createRegions n).
Proof.
  induction n as [|? IH]; cbn [createRegions]; loads_spec.
Qed.
Hint Resolve createRegions_loads : spec_loads.

Lemma parseOperationState_loads reader rs :
  rel_spec RD_loads RF_loads (parseOperationState ctx reader rs).
Proof. unfold parseOperationState, when_, counted. loads_spec. Qed.
Hint Resolve parseOperationState_loads : spec_loads.

Lemma parseOpWithoutRegions_loads reader rs :
  rel_spec RD_loads RF_loads (parseOpWithoutRegions ctx reader rs).
Proof. unfold parseOpWithoutRegions. loads_spec. Qed.
Hint Resolve parseOpWithoutRegions_loads : spec_loads.

Lemma parseRegions_loads fuel reader stack rs :
  rel_spec RD_loads RF_loads (parseRegions ctx fuel reader stack rs).
Proof.
  revert reader stack rs.
  induction fuel as [|? IH]; intros reader stack rs; cbn [parseRegions]; loads_spec.
Qed.
Hint Resolve parseRegions_loads : spec_loads.

Lemma parseRegionStack_loads fuel reader stack :
  rel_spec RD_loads RF_loads (parseRegionStack ctx fuel reader stack).
Proof.
  revert reader stack.
  induction fuel as [|? IH]; intros reader [|rs stack];
    cbn [parseRegionStack]; loads_spec.
Qed.
Hint Resolve parseRegionStack_loads : spec_loads.

Lemma ModuleOp_create_loads fileLoc :
  rel_spec RD_loads RF_loads (ModuleOp_create fileLoc).
Proof. unfold ModuleOp_create. loads_spec. Qed.
Hint Resolve ModuleOp_create_loads : spec_loads.

Lemma enterModule_loads fileLoc reader :
  rel_spec RD_loads RF_loads (enterModule ctx fileLoc reader).
Proof. unfold enterModule. loads_spec. Qed.
Hint Resolve enterModule_loads : spec_loads.

Lemma parseTopLevel_loads fileLoc data :
  rel_spec RD_loads RF_loads (parseTopLevel ctx fileLoc data).
Proof. unfold parseTopLevel. loads_spec. Qed.
Hint Resolve parseTopLevel_loads : spec_loads.

Lemma parseVersion_loads kVersion reader :
  rel_spec RD_loads RF_loads (parseVersion kVersion reader).
Proof. unfold parseVersion. loads_spec. Qed.
Hint Resolve parseVersion_loads : spec_loads.

Lemma parseSections_loads fuel reader datas :
  rel_spec RD_loads RF_loads (parseSections fuel reader datas).
Proof.
  revert reader datas.
  induction fuel as [|? IH]; intros reader datas; cbn [parseSections]; loads_spec.
Qed.
Hint Resolve parseSections_loads : spec_loads.

Lemma checkSections_loads i datas :
  rel_spec RD_loads RF_loads (checkSections i datas).
Proof.
  revert i. induction datas as [|[d|] datas IH]; intros i;
    cbn [checkSections]; loads_spec.
Qed.
Hint Resolve checkSections_loads : spec_loads.

Lemma sectionData_of_loads datas i :
  rel_spec RD_loads RF_loads (sectionData_of datas i).
Proof. unfold sectionData_of. loads_spec. Qed.
Hint Resolve sectionData_of_loads : spec_loads.

Lemma parseStringSectionM_loads data :
  rel_spec RD_loads RF_loads (parseStringSectionM data).
Proof. unfold parseStringSectionM. loads_spec. Qed.
Hint Resolve parseStringSectionM_loads : spec_loads.


Lemma spliceModule_loads moduleOp body :
  rel_spec RD_loads RF_loads (spliceModule verify moduleOp body).
Proof. unfold spliceModule. loads_spec. Qed.
Hint Resolve spliceModule_loads : spec_loads.

Lemma parseIRSection_loads fileLoc data :
  rel_spec RD_loads RF_loads (parseIRSection ctx verify fileLoc data).
Proof. unfold parseIRSection. loads_spec. Qed.
Hint Resolve parseIRSection_loads : spec_loads.

Lemma loads_ok_fresh s : dialectLoads s = [] -> loads_ok s.
Proof.
  intros H. unfold loads_ok. rewrite H. split; [constructor|].
  intros i Hi. by apply elem_of_nil in Hi.
Qed.

(** The two phases of [read]: until the dialect section has been read the
    host is not asked; from then on it is asked at most once for each
    entry. *)
Lemma asked_bind {A B} (m : M A) (k : A -> M B) Q s :
  rel_spec RD_asked RF_asked m -> dialectLoads s = [] ->
  (forall a s', dialectLoads s' = [] ->
                wp (k a) Q (fun s' => NoDup (dialectLoads s')) s') ->
  wp (m ≫= k) Q (fun s' => NoDup (dialectLoads s')) s.
Proof.
  intros Hm Hs Hk. apply wp_bind.
  eapply wp_mono; [apply (Hm s)| |]; cbn.
  - intros a s' H. apply Hk. unfold RD_asked in H. congruence.
  - intros s' H. unfold RF_asked in H. rewrite H, Hs. constructor.
Qed.

Lemma loads_bind {A B} (m : M A) (k : A -> M B) Q s :
  rel_spec RD_loads RF_loads m -> loads_ok s ->
  (forall a s', loads_ok s' ->
                wp (k a) Q (fun s' => NoDup (dialectLoads s')) s') ->
  wp (m ≫= k) Q (fun s' => NoDup (dialectLoads s')) s.
Proof.
  intros Hm Hs Hk. apply wp_bind.
  eapply wp_mono; [apply (Hm s)| |]; cbn.
  - intros a s' H. apply Hk. by apply H.
  - intros s' H. by apply H.
Qed.

Ltac asked_next lem :=
  eapply asked_bind; [apply lem|by cbn|intros ? ? ?; cbv beta].

Ltac loads_next :=
  eapply loads_bind;
  [solve [eauto with spec_loads]|done|intros ? ? ?; cbv beta].

Lemma read_loads kVersion fileLoc buffer s :
  dialectLoads s = [] ->
  wp (read ctx verify kVersion fileLoc buffer)
     (fun _ s' => NoDup (dialectLoads s'))
     (fun s' => NoDup (dialectLoads s')) s.
Proof.
  intros H0. unfold read.
  apply wp_bind, wp_liftR;
    [intros ? ? _; cbv beta iota|intros ? _; cbn; rewrite H0; constructor].
  asked_next parseVersion_asked.
  apply wp_bind, wp_liftR;
    [intros ? ? _; cbv beta iota|intros ? _; cbn; by apply loads_ok_fresh].
  apply wp_bind, wp_modify; cbv beta.
  asked_next parseSections_asked.
  asked_next checkSections_asked.
  asked_next sectionData_of_asked.
  asked_next parseStringSectionM_asked.
  asked_next sectionData_of_asked.
  asked_next parseDialectSection_asked.
  asked_next sectionData_of_asked.
  asked_next sectionData_of_asked.
  eapply loads_bind;
    [apply initialize_loads|by apply loads_ok_fresh|intros ? ? Hok; cbv beta].
  eapply loads_bind;
    [apply sectionData_of_loads|done|intros ? ? Hok'; cbv beta].
  eapply wp_mono; [apply parseIRSection_loads| |]; cbn.
  - intros _ sF HF. by apply HF.
  - intros sF HF. by apply HF.
Qed.

(** C6, amended: every parse returns (the loops of the model never run
    out of fuel), and over a whole parse the host is asked for each dialect
    entry at most once, whether the parse succeeds or fails.  A use of an
    entry that has recorded an answer (a handle, or the failure recorded
    when unregistered dialects are allowed) changes nothing and does not
    ask again.  A use of an entry that has not asks the host once: when
    the dialect is unknown and unregistered dialects are not allowed, the
    use emits the diagnostic and fails with the entry left as it was;
    otherwise the entry records the answer.  And an entry that has
    recorded an answer is the same at the end of the IR section. *)
Theorem dialect_asked_at_most_once :
  (forall kVersion fileLoc buffer block,
      match readBytecodeFile ctx verify kVersion fileLoc buffer block with
      | Done _ s' => NoDup (dialectLoads s')
      | Failed s' => NoDup (dialectLoads s')
      | Undefined => True
      | OutOfFuel => False
      end)
  /\ (forall i d v s,
        dialects s !! i = Some d -> dialect d = Some v ->
        load ctx i s = Done tt s)
  /\ (forall i d name s,
        dialects s !! i = Some d -> dialect d = None ->
        StringRef_bytes (stringData s) (dialect_name d) = Some name ->
        let asked := set_dialectLoads (dialectLoads s ++ [i]) s in
        load ctx i s
        = if negb (bool_decide (is_Some (getOrLoadDialect ctx name)))
             && negb (allowsUnregisteredDialects ctx)
          then Failed (set_diagnostics
                         (diagnostics s ++ [dialect_unknown name]) asked)
          else Done tt
                 (set_dialects
                    (<[i := mkBytecodeDialect
                              (Some (getOrLoadDialect ctx name))
                              (dialect_name d)]> (dialects s)) asked))
  /\ (forall fileLoc data s u s',
        loads_ok s ->
        parseIRSection ctx verify fileLoc data s = Done u s' ->
        loads_ok s' /\ entries_stable s s').
Proof.
  split; [|split; [|split]].
  - intros kVersion fileLoc buffer block. unfold readBytecodeFile.
    destruct (isBytecode buffer); cbn [negb].
    + pose proof (read_loads kVersion fileLoc buffer
                    (set_destOps block initial_BytecodeReader) eq_refl) as H.
      pose proof (read_fueled ctx verify kVersion fileLoc buffer
                    (set_destOps block initial_BytecodeReader)) as Hf.
      unfold wp in H. unfold fueled in Hf. by destruct (read _ _ _ _ _ _).
    + cbn. constructor.
  - intros i d v s Hd Hv.
    unfold load, mbind, M_bind, get. by rewrite Hd, Hv.
  - intros i d name s Hd Hv Hname. cbn zeta.
    unfold load, stringContents, mbind, M_bind, get, modify. cbn.
    rewrite Hd, Hv, Hname. cbn.
    by destruct (negb _ && negb _).
  - intros fileLoc data s u s' Hs Hrun.
    exact (wp_Done _ _ _ _ _ _ (parseIRSection_loads fileLoc data s) Hrun Hs).
Qed.

End Family_loads.

(** ** Functions that leave the pools, the operations and the scopes alone *)

Create HintDb spec_refs.

Ltac refs_leaf :=
  unfold RD_refs, RF_refs in *;
  try match goal with |- context [set_entriesOf ?k] => destruct k end;
  simpl in *; try (intuition (auto; congruence)).

Ltac refs_rel :=
  first
    [ solve [eauto with spec_refs]
    | apply rel_spec_intro; [typeclasses eauto|]; intros ? ?; refs_auto ]
with refs_call :=
  lazymatch goal with
  | |- wpR _ _ _ (_ ≫= _) _ =>
      eapply wpR_bind_spec;
      [typeclasses eauto|refs_rel|refs_leaf|intros ? ? ?; cbv beta]
  | |- wpR _ _ _ _ _ =>
      eapply wpR_call; [typeclasses eauto|refs_rel|refs_leaf]
  end
with refs_auto := repeat first [wpR_step refs_leaf | refs_call].

Ltac refs_spec :=
  intros; apply rel_spec_intro; [typeclasses eauto|];
  intros ? ?; refs_auto.

#[export] Instance Frame_refs : Frame RD_refs RF_refs.
Proof.
  split; unfold RD_refs, RF_refs; [done| |done].
  intros s1 s2 s3 (A1 & B1 & C1 & D1) (A2 & B2 & C2 & D2).
  repeat split; congruence.
Qed.

Section Family_refs.

Variable ctx : MLIRContext.
Variable verify : IR -> OpId -> VerifyResult.

Lemma resolveEntry_refs n index str :
  rel_spec RD_refs RF_refs (resolveEntry n index str).
Proof. unfold resolveEntry. refs_spec. Qed.
Hint Resolve resolveEntry_refs : spec_refs.

Lemma parseEntry_refs reader n str :
  rel_spec RD_refs RF_refs (parseEntry reader n str).
Proof. unfold parseEntry. refs_spec. Qed.
Hint Resolve parseEntry_refs : spec_refs.

Lemma stringContents_refs str :
  rel_spec RD_refs RF_refs (stringContents str).
Proof. unfold stringContents. refs_spec. Qed.
Hint Resolve stringContents_refs : spec_refs.

Lemma parseSharedString_refs reader :
  rel_spec RD_refs RF_refs (parseSharedString reader).
Proof. unfold parseSharedString. refs_spec. Qed.
Hint Resolve parseSharedString_refs : spec_refs.

Lemma load_refs i :
  rel_spec RD_refs RF_refs (load ctx i).
Proof. unfold load. refs_spec. Qed.
Hint Resolve load_refs : spec_refs.

Lemma forEntries_refs {A} n cb d (a : A) reader :
  (forall d a r, rel_spec RD_refs RF_refs (cb d a r)) ->
  rel_spec RD_refs RF_refs (forEntries n cb d a reader).
Proof.
  intros Hcb. revert a reader.
  induction n as [|? IH]; intros a reader; cbn [forEntries]; refs_spec.
Qed.
Hint Resolve forEntries_refs : spec_refs.

Lemma parseDialectGrouping_refs {A} reader cb (a : A) :
  (forall d a r, rel_spec RD_refs RF_refs (cb d a r)) ->
  rel_spec RD_refs RF_refs (parseDialectGrouping reader cb a).
Proof. intros Hcb. unfold parseDialectGrouping. refs_spec. Qed.
Hint Resolve parseDialectGrouping_refs : spec_refs.

Lemma parseDialectNames_refs n i reader :
  rel_spec RD_refs RF_refs (parseDialectNames n i reader).
Proof.
  revert i reader.
  induction n as [|? IH]; intros i reader; cbn [parseDialectNames]; refs_spec.
Qed.
Hint Resolve parseDialectNames_refs : spec_refs.

Lemma parseOpNameEntry_refs d u reader :
  rel_spec RD_refs RF_refs (parseOpNameEntry d u reader).
Proof. unfold parseOpNameEntry. refs_spec. Qed.
Hint Resolve parseOpNameEntry_refs : spec_refs.

Lemma parseOpNameGroups_refs fuel reader :
  rel_spec RD_refs RF_refs (parseOpNameGroups fuel reader).
Proof.
  revert reader.
  induction fuel as [|? IH]; intros reader; cbn [parseOpNameGroups]; refs_spec.
Qed.
Hint Resolve parseOpNameGroups_refs : spec_refs.

Lemma parseDialectSection_refs data :
  rel_spec RD_refs RF_refs (parseDialectSection data).
Proof. unfold parseDialectSection. refs_spec. Qed.
Hint Resolve parseDialectSection_refs : spec_refs.

Lemma parseOpName_refs reader :
  rel_spec RD_refs RF_refs (parseOpName ctx reader).
Proof. unfold parseOpName. refs_spec. Qed.
Hint Resolve parseOpName_refs : spec_refs.

Lemma parseEntryFn_refs kind data d st reader :
  rel_spec RD_refs RF_refs (parseEntryFn kind data d st reader).
Proof. unfold parseEntryFn. refs_spec. Qed.
Hint Resolve parseEntryFn_refs : spec_refs.

Lemma parseEntries_refs kind fuel data st reader :
  rel_spec RD_refs RF_refs (parseEntries kind fuel data st reader).
Proof.
  revert st reader.
  induction fuel as [|? IH]; intros st reader; cbn [parseEntries]; refs_spec.
Qed.
Hint Resolve parseEntries_refs : spec_refs.

Lemma initialize_refs data offsets :
  rel_spec RD_refs RF_refs (initialize data offsets).
Proof. unfold initialize. refs_spec. Qed.
Hint Resolve initialize_refs : spec_refs.

Lemma parseAsmEntry_refs kind i reader custom :
  rel_spec RD_refs RF_refs (parseAsmEntry ctx kind i reader custom).
Proof. unfold parseAsmEntry. refs_spec. Qed.
Hint Resolve parseAsmEntry_refs : spec_refs.

Lemma resolveAttrType_refs kind index :
  rel_spec RD_refs RF_refs (resolveAttrType ctx kind index).
Proof. unfold resolveAttrType. refs_spec. Qed.
Hint Resolve resolveAttrType_refs : spec_refs.

Lemma parseAttribute_refs reader :
  rel_spec RD_refs RF_refs (parseAttribute ctx reader).
Proof. unfold parseAttribute. refs_spec. Qed.
Hint Resolve parseAttribute_refs : spec_refs.

Lemma parseType_refs reader :
  rel_spec RD_refs RF_refs (parseType ctx reader).
Proof. unfold parseType. refs_spec. Qed.
Hint Resolve parseType_refs : spec_refs.

Lemma parseAttributeOf_refs isa name reader :
  rel_spec RD_refs RF_refs (parseAttributeOf ctx isa name reader).
Proof. unfold parseAttributeOf. refs_spec. Qed.
Hint Resolve parseAttributeOf_refs : spec_refs.

Lemma createBlock_refs  :
  rel_spec RD_refs RF_refs createBlock.
Proof. unfold createBlock. refs_spec. Qed.
Hint Resolve createBlock_refs : spec_refs.

Lemma createRegion_refs  :
  rel_spec RD_refs RF_refs createRegion.
Proof. unfold createRegion. refs_spec. Qed.
Hint Resolve createRegion_refs : spec_refs.

Lemma Block_push_back_refs b op :
  rel_spec RD_refs RF_refs (Block_push_back b op).
Proof. unfold Block_push_back. refs_spec. Qed.
Hint Resolve Block_push_back_refs : spec_refs.

Lemma Region_push_back_refs r b :
  rel_spec RD_refs RF_refs (Region_push_back r b).
Proof. unfold Region_push_back. refs_spec. Qed.
Hint Resolve Region_push_back_refs : spec_refs.

Lemma addArguments_refs b args :
  rel_spec RD_refs RF_refs (addArguments b args).
Proof. unfold addArguments. refs_spec. Qed.
Hint Resolve addArguments_refs : spec_refs.

Lemma getArguments_refs b :
  rel_spec RD_refs RF_refs (getArguments b).
Proof. unfold getArguments. refs_spec. Qed.
Hint Resolve getArguments_refs : spec_refs.

Lemma curRegionBlocks_refs rs :
  rel_spec RD_refs RF_refs (curRegionBlocks rs).
Proof. unfold curRegionBlocks. refs_spec. Qed.
Hint Resolve curRegionBlocks_refs : spec_refs.

Lemma curBlockOf_refs rs :
  rel_spec RD_refs RF_refs (curBlockOf rs).
Proof. unfold curBlockOf. refs_spec. Qed.
Hint Resolve curBlockOf_refs : spec_refs.

Lemma parseArgs_refs n reader :
  rel_spec RD_refs RF_refs (parseArgs ctx n reader).
Proof.
  revert reader.
  induction n as [|? IH]; intros reader; cbn [parseArgs]; refs_spec.
Qed.
Hint Resolve parseArgs_refs : spec_refs.

Lemma createBlocks_refs n r :
  rel_spec RD_refs RF_refs (createBlocks n r).
Proof.
  induction n as [|? IH]; cbn [createBlocks]; refs_spec.
Qed.
Hint Resolve createBlocks_refs : spec_refs.

Lemma parseTypes_refs n reader :
  rel_spec RD_refs RF_refs (parseTypes ctx n reader).
Proof.
  revert reader.
  induction n as [|? IH]; intros reader; cbn [parseTypes]; refs_spec.
Qed.
Hint Resolve parseTypes_refs : spec_refs.

Lemma parseSuccessors_refs n bs reader :
  rel_spec RD_refs RF_refs (parseSuccessors n bs reader).
Proof.
  revert reader.
  induction n as [|? IH]; intros reader; cbn [parseSuccessors]; refs_spec.
Qed.
Hint Resolve parseSuccessors_refs : spec_refs.

Lemma createRegions_refs n :
  rel_spec RD_refs RF_refs (createRegions n).
Proof.
  induction n as [|? IH]; cbn [createRegions]; refs_spec.
Qed.
Hint Resolve createRegions_refs : spec_refs.

Lemma parseVersion_refs kVersion reader :
  rel_spec RD_refs RF_refs (parseVersion kVersion reader).
Proof. unfold parseVersion. refs_spec. Qed.
Hint Resolve parseVersion_refs : spec_refs.

Lemma parseSections_refs fuel reader datas :
  rel_spec RD_refs RF_refs (parseSections fuel reader datas).
Proof.
  revert reader datas.
  induction fuel as [|? IH]; intros reader datas; cbn [parseSections]; refs_spec.
Qed.
Hint Resolve parseSections_refs : spec_refs.

Lemma checkSections_refs i datas :
  rel_spec RD_refs RF_refs (checkSections i datas).
Proof.
  revert i. induction datas as [|[d|] datas IH]; intros i;
    cbn [checkSections]; refs_spec.
Qed.
Hint Resolve checkSections_refs : spec_refs.

Lemma sectionData_of_refs datas i :
  rel_spec RD_refs RF_refs (sectionData_of datas i).
Proof. unfold sectionData_of. refs_spec. Qed.
Hint Resolve sectionData_of_refs : spec_refs.

Lemma parseStringSectionM_refs data :
  rel_spec RD_refs RF_refs (parseStringSectionM data).
Proof. unfold parseStringSectionM. refs_spec. Qed.
Hint Resolve parseStringSectionM_refs : spec_refs.


(** *** The invariant of the forward references *)

Lemma elem_of_map {A B} (f : A -> B) (l : list A) (y : B) :
  y ∈ map f l <-> exists x, y = f x /\ x ∈ l.
Proof. change (map f l) with (f <$> l). apply list_elem_of_fmap. Qed.

Lemma valid_view s s' v : RD_refs s s' -> valid s v -> valid s' v.
Proof.
  intros (A & B & C & D). unfold valid. destruct v; [|done].
  by rewrite A, B, C.
Qed.

Lemma refs_ok_view s s' : RD_refs s s' -> refs_ok s -> refs_ok s'.
Proof.
  intros (A & B & C & D). unfold refs_ok, valid. by rewrite A, B, C, D.
Qed.

Lemma defined_valid s v : defined s v -> valid s v.
Proof. destruct v; [|done]. intros (H1 & H2 & H3). by repeat split. Qed.

Lemma grows_refl s : grows s s.
Proof. unfold grows. repeat split; auto. Qed.

Lemma grows_view s s' : RD_refs s s' -> grows s s'.
Proof.
  intros (A & B & C & D). unfold grows. rewrite A, B, C.
  repeat split; auto.
Qed.

Lemma grows_trans s1 s2 s3 : grows s1 s2 -> grows s2 s3 -> grows s1 s3.
Proof.
  intros (L1 & O1 & F1 & N1) (L2 & O2 & F2 & N2). repeat split.
  - lia.
  - auto.
  - auto.
  - intros p Hp. destruct (N2 p Hp) as [H|[H|H]].
    + auto.
    + right. left. auto.
    + right. right. lia.
Qed.

Lemma valid_grows s s' v : grows s s' -> valid s v -> valid s' v.
Proof.
  intros (L & O & F & N). destruct v as [p k|]; [|done].
  intros (Hl & Ho & Hk). repeat split.
  - lia.
  - intros H. by apply Ho, O.
  - intros H. destruct (N p H) as [H'|[H'|H']]; [auto|done|lia].
Qed.

(** The invariant when an operation whose operands are valid is added to
    the heap. *)
Lemma refs_ok_createOperation s op :
  refs_ok s -> (forall v, v ∈ op_operands op -> valid s v) ->
  refs_ok (set_ir (set_ir_ops (ir_ops (ir s) ++ [op]) (ir s)) s).
Proof.
  intros (P1 & P2 & P3 & P4 & P5) Hop.
  assert (Hv : forall v, valid s v ->
            valid (set_ir (set_ir_ops (ir_ops (ir s) ++ [op]) (ir s)) s) v).
  { intros [p k|]; [|done]. cbn. rewrite length_app. cbn.
    intros (H1 & H2 & H3). repeat split; [lia|done|done]. }
  unfold refs_ok. cbn. refine (conj _ (conj _ (conj _ (conj _ _)))).
  - done.
  - intros p Hp. rewrite length_app. cbn. apply P2 in Hp. lia.
  - intros a i v H. apply Hv. eauto.
  - intros o v [Ho| ->%list_elem_of_singleton]%elem_of_app Hin;
      apply Hv; eauto.
  - exact P5.
Qed.

(** The invariant after a step that resolves no placeholder and leaves the
    slots alone. *)
Lemma refs_ok_grows s s' :
  refs_ok s -> grows s s' -> valueScopes s' = valueScopes s ->
  NoDup (forwardRefOps s' ++ openForwardRefOps s') ->
  (forall p, p ∈ forwardRefOps s' ++ openForwardRefOps s' ->
             (p < length (ir_ops (ir s')))%nat) ->
  (forall o v, o ∈ ir_ops (ir s') -> v ∈ op_operands o -> valid s' v) ->
  refs_ok s'.
Proof.
  intros (P1 & P2 & P3 & P4 & P5) Hg Hsc Q1 Q2 Q4.
  refine (conj Q1 (conj Q2 (conj _ (conj Q4 _)))); rewrite Hsc.
  - intros a i v H. eapply valid_grows; eauto.
  - intros a i b j p k k' Ha Hb Hp.
    destruct (P3 _ _ _ Ha) as (Hl & Ho & _).
    destruct Hg as (_ & _ & _ & N).
    destruct (N p Hp) as [H|[H|H]]; [eauto|done|lia].
Qed.

Lemma createForwardRef_refs s :
  refs_ok s ->
  wp (createForwardRef ctx)
     (fun v s' =>
        refs_ok s' /\ grows s s' /\ valueScopes s' = valueScopes s
        /\ exists p, v = OpResult p 0 /\ p ∈ forwardRefOps s'
                     /\ (p ∈ openForwardRefOps s
                         \/ p = length (ir_ops (ir s))))
     (fun _ => True) s.
Proof.
  intros Hok. pose proof Hok as (P1 & P2 & P3 & P4 & P5).
  unfold createForwardRef, createOperation, wp.
  unfold mbind, M_bind, get, put, modify, mret, M_ret. cbn.
  destruct (list.last (openForwardRefOps s)) as [op|] eqn:Hlast; cbn.
  - apply last_Some in Hlast as [l' Hl'].
    assert (Htake : take (length (openForwardRefOps s) - 1)
                      (openForwardRefOps s) = l').
    { rewrite Hl', length_app. cbn.
      replace (length l' + 1 - 1)%nat with (length l') by lia.
      apply take_app_length. }
    rewrite Htake.
    rewrite Hl' in P1. apply list.NoDup_app in P1 as (N1 & N2 & N3).
    apply list.NoDup_app in N3 as (N3 & N4 & _).
    match goal with |- refs_ok ?s1 /\ _ => set (s1' := s1) end.
    assert (Hg : grows s s1').
    { unfold grows. cbn. rewrite Hl'. refine (conj _ (conj _ (conj _ _))).
      - lia.
      - intros p Hp. apply elem_of_app. by left.
      - intros p Hp. apply elem_of_app. by left.
      - intros p [Hp| ->%list_elem_of_singleton]%elem_of_app; [by left|].
        right. left. apply elem_of_app. right. by apply list_elem_of_singleton. }
    split; [|split; [done|split; [done|]]].
    + apply (refs_ok_grows s); [done|done|done| | |]; cbn.
      * apply list.NoDup_app. split; [|split; [|done]].
        -- apply list.NoDup_app. split; [done|]. split.
           ++ intros x Hx ->%list_elem_of_singleton.
              apply (N2 _ Hx). apply elem_of_app. right.
              by apply list_elem_of_singleton.
           ++ apply list.NoDup_singleton.
        -- intros x [Hx| ->%list_elem_of_singleton]%elem_of_app Hx'.
           ++ apply (N2 _ Hx). apply elem_of_app. by left.
           ++ apply (N4 _ Hx'). by apply list_elem_of_singleton.
      * intros p Hp. apply P2. rewrite Hl'.
        rewrite !elem_of_app in *. rewrite list_elem_of_singleton in *.
        tauto.
      * intros o v Ho Hv. eapply valid_grows; eauto.
    + exists op. split; [done|]. split.
      * apply elem_of_app. right. by apply list_elem_of_singleton.
      * left. rewrite Hl'. apply elem_of_app. right.
        by apply list_elem_of_singleton.
  - apply last_None in Hlast.
    match goal with |- refs_ok ?s1 /\ _ => set (s1' := s1) end.
    assert (Hg : grows s s1').
    { unfold grows. cbn. rewrite length_app, Hlast. cbn.
      refine (conj _ (conj _ (conj _ _))).
      - lia.
      - done.
      - intros p Hp. apply elem_of_app. by left.
      - intros p [Hp| ->%list_elem_of_singleton]%elem_of_app; [by left|].
        right. right. lia. }
    split; [|split; [done|split; [done|]]].
    + apply (refs_ok_grows s); [done|done|done| | |]; cbn.
      * rewrite Hlast in *. rewrite app_nil_r in *.
        apply list.NoDup_app. split; [done|]. split.
        -- intros x Hx ->%list_elem_of_singleton.
           apply P2 in Hx. lia.
        -- apply list.NoDup_singleton.
      * intros p Hp. rewrite length_app. cbn.
        rewrite Hlast, app_nil_r in *.
        apply elem_of_app in Hp as [Hp| ->%list_elem_of_singleton];
          [apply P2 in Hp|]; lia.
      * intros o v [Ho| ->%list_elem_of_singleton]%elem_of_app Hv.
        -- eapply valid_grows; eauto.
        -- cbn in Hv. by apply elem_of_nil in Hv.
    + eexists. split; [done|]. split; [|by right].
      apply elem_of_app. right. by apply list_elem_of_singleton.
Qed.

(** *** Slots *)

Lemma slot_at_0 sc rest i v :
  slot_at (sc :: rest) 0 i v <-> values sc !! i = Some (Some v).
Proof.
  unfold slot_at. cbn. split.
  - by intros (sc' & [= <-] & H).
  - intros H. by exists sc.
Qed.

Lemma slot_at_S sc rest a i v :
  slot_at (sc :: rest) (S a) i v <-> slot_at rest a i v.
Proof. done. Qed.

Lemma slot_at_nil a i v : ~ slot_at [] a i v.
Proof. by intros (sc & H & _). Qed.

(** What a slot of the scope on top holds once slot [i] has been
    written. *)
Lemma slot_at_insert vals ids sc rest i x a j v :
  values sc = vals ->
  slot_at (mkValueScope (<[i := x]> vals) ids :: rest) a j v ->
  (a = 0%nat /\ j = i /\ x = Some v)
  \/ (~ (a = 0%nat /\ j = i) /\ slot_at (sc :: rest) a j v).
Proof.
  intros <- H. destruct a as [|a].
  - apply slot_at_0 in H. cbn in H.
    destruct (decide (j = i)) as [->|Hne].
    + left. apply list_lookup_insert_Some in H as [(_ & <- & _)|[? _]];
        done.
    + right. split; [by intros [_ ?]|]. apply slot_at_0.
      by rewrite list_lookup_insert_ne in H.
  - right. split; [by intros [? _]|]. done.
Qed.

(** The invariant when slots are dropped or emptied and nothing else
    changes: [f] tells where each slot that is left was. *)
Lemma refs_ok_embed s s' (f : nat -> nat) :
  forwardRefOps s' = forwardRefOps s ->
  openForwardRefOps s' = openForwardRefOps s ->
  ir_ops (ir s') = ir_ops (ir s) ->
  (forall a i v, slot_at (valueScopes s') a i v ->
                 slot_at (valueScopes s) (f a) i v) ->
  (forall a b i j v w,
      slot_at (valueScopes s') a i v -> slot_at (valueScopes s') b j w ->
      f a = f b -> a = b) ->
  refs_ok s -> refs_ok s'.
Proof.
  intros A B C Hf Hinj (P1 & P2 & P3 & P4 & P5).
  assert (Hv : forall v, valid s v -> valid s' v).
  { intros [p k|]; [|done]. cbn. by rewrite A, B, C. }
  unfold refs_ok. rewrite A, B, C.
  refine (conj P1 (conj P2 (conj _ (conj _ _)))).
  - intros a i v H. apply Hv. eauto.
  - intros o v Ho Hin. apply Hv. eauto.
  - intros a i b j p k k' Ha Hb Hp.
    destruct (P5 _ _ _ _ _ _ _ (Hf _ _ _ Ha) (Hf _ _ _ Hb) Hp) as [E ->].
    split; [|done]. eapply Hinj; eauto.
Qed.

(** The scope on top of the stack is replaced by one whose slots were
    already there. *)
Lemma refs_ok_top s sc rest sc' :
  valueScopes s = sc :: rest ->
  (forall i v, values sc' !! i = Some (Some v) ->
               values sc !! i = Some (Some v)) ->
  refs_ok s -> refs_ok (set_valueScopes (sc' :: rest) s).
Proof.
  intros Hs Hsub. apply (refs_ok_embed _ _ id); try done.
  - cbn. rewrite Hs. intros [|a] i v H.
    + apply slot_at_0. apply slot_at_0 in H. auto.
    + done.
Qed.

(** A placeholder in use that no slot holds is written into a slot of the
    scope on top. *)
Lemma refs_ok_write s sc rest i ids p :
  valueScopes s = sc :: rest -> refs_ok s ->
  p ∈ forwardRefOps s ->
  (forall a j k, ~ slot_at (valueScopes s) a j (OpResult p k)) ->
  refs_ok (set_valueScopes
             (mkValueScope (<[i := Some (OpResult p 0)]> (values sc)) ids
                :: rest) s).
Proof.
  intros Hs (P1 & P2 & P3 & P4 & P5) Hp Hfree. rewrite Hs in *.
  unfold refs_ok. cbn.
  refine (conj P1 (conj P2 (conj _ (conj P4 _)))).
  - intros a j v H.
    apply (slot_at_insert _ _ sc) in H as [(-> & -> & Ev)|[_ H]];
      [|eauto|done].
    simplify_eq. cbn. split; [apply P2, elem_of_app; by left|]. split; [|done].
    intros Ho. apply list.NoDup_app in P1 as (_ & Hdisj & _).
    by apply (Hdisj p).
  - intros a j b j' q k k' Ha Hb Hq.
    apply (slot_at_insert _ _ sc) in Ha as [(Ea & Ej & Ev)|[Na Ha]];
      [| |done];
      (apply (slot_at_insert _ _ sc) in Hb as [(Eb & Ej' & Ew)|[Nb Hb]];
       [| |done]); simplify_eq.
    + done.
    + by destruct (Hfree _ _ _ Hb).
    + by destruct (Hfree _ _ _ Ha).
    + eauto.
Qed.

Lemma parseOperand_refs reader s :
  refs_ok s ->
  wp (parseOperand ctx reader)
     (fun x s' => refs_ok s' /\ grows s s' /\ valid s' x.1)
     (fun _ => True) s.
Proof.
  intros Hok. unfold parseOperand. apply wp_bind, wp_get.
  destruct (valueScopes s) as [|scope rest] eqn:Hs; [done|].
  apply wp_bind.
  eapply wp_mono;
    [apply (parseEntry_refs reader (length (values scope)) "value")| |done].
  cbn. intros [i reader1] s1 H1.
  pose proof (refs_ok_view _ _ H1 Hok) as Hok1.
  pose proof (grows_view _ _ H1) as Hg1.
  destruct H1 as (A1 & B1 & C1 & D1).
  destruct (values scope !! i) as [[v|]|] eqn:Hi; [| |done].
  - apply wp_ret. split; [done|]. split; [done|]. cbn.
    destruct Hok1 as (_ & _ & P3 & _). apply (P3 0%nat i).
    rewrite D1, Hs. by apply slot_at_0.
  - apply wp_bind.
    eapply wp_mono; [apply (createForwardRef_refs s1 Hok1)| |done].
    cbn. intros v s2 (Hok2 & Hg2 & Hsc2 & p & -> & Hp & Hfresh).
    unfold onBackScope. apply wp_bind_assoc. apply wp_bind, wp_get.
    cbv beta. rewrite Hsc2, D1, Hs. apply wp_bind, wp_put. cbv beta.
    apply wp_ret. cbn [fst].
    assert (Hfree : forall a j k,
               ~ slot_at (valueScopes s2) a j (OpResult p k)).
    { intros a j k H. rewrite Hsc2 in H.
      destruct Hok1 as (_ & _ & P3 & _). apply P3 in H as (Hl & Ho & _).
      destruct Hfresh as [?| ->]; [done|lia]. }
    assert (Hs2 : valueScopes s2 = scope :: rest) by congruence.
    pose proof (refs_ok_write s2 scope rest i (nextValueIDs scope) p
                  Hs2 Hok2 Hp Hfree) as Hok3.
    split; [done|]. split.
    + eapply grows_trans; [exact Hg1|]. exact Hg2.
    + destruct Hok2 as (P1 & P2 & _). cbn.
      split; [apply P2, elem_of_app; by left|]. split; [|done].
      intros Ho. apply list.NoDup_app in P1 as (_ & Hdisj & _).
      by apply (Hdisj p).
Qed.

Lemma parseOperands_refs n :
  forall reader s,
    refs_ok s ->
    wp (parseOperands ctx n reader)
       (fun x s' => refs_ok s' /\ grows s s'
                    /\ forall v, v ∈ x.1 -> valid s' v)
       (fun _ => True) s.
Proof.
  induction n as [|n IH]; intros reader s Hok; cbn [parseOperands].
  - apply wp_ret. split; [done|]. split; [apply grows_refl|].
    intros v Hv. by apply elem_of_nil in Hv.
  - apply wp_bind.
    eapply wp_mono; [apply (parseOperand_refs reader s Hok)| |done].
    cbn. intros [operand reader1] s1 (Hok1 & Hg1 & Hv1).
    apply wp_bind. eapply wp_mono; [apply (IH reader1 s1 Hok1)| |done].
    cbn. intros [rest reader2] s2 (Hok2 & Hg2 & Hv2).
    apply wp_ret. split; [done|]. split; [by eapply grows_trans|].
    cbn. intros v [->|Hv]%elem_of_cons; [|auto].
    by eapply valid_grows.
Qed.

Lemma wp_view {A B} (m : M A) (k : A -> M B) Q s :
  rel_spec RD_refs RF_refs m ->
  (forall a s', RD_refs s s' -> wp (k a) Q (fun _ => True) s') ->
  wp (m ≫= k) Q (fun _ => True) s.
Proof.
  intros Hm Hk. apply wp_bind. eapply wp_mono; [apply (Hm s)| |done].
  cbn. intros a s' H. by apply Hk.
Qed.

Lemma RD_refs_trans s1 s2 s3 : RD_refs s1 s2 -> RD_refs s2 s3 -> RD_refs s1 s3.
Proof.
  intros (A1 & B1 & C1 & D1) (A2 & B2 & C2 & D2). repeat split; congruence.
Qed.

(** The state of an operation is read: its operands are valid. *)
Lemma parseOperationState_refs reader rs s :
  refs_ok s ->
  wp (parseOperationState ctx reader rs)
     (fun x s' => refs_ok s'
                  /\ forall v, v ∈ op_operands x.1.1 -> valid s' v)
     (fun _ => True) s.
Proof.
  intros Hok. unfold parseOperationState.
  eapply wp_view; [refs_rel|]. intros [opName reader1] s1 H1.
  apply wp_bind, wp_liftR; [|done]. intros opMask reader2 _. cbv beta.
  eapply wp_view; [refs_rel|]. intros [opLoc reader3] s2 H2.
  eapply wp_view; [unfold when_; refs_rel|]. intros [attrs reader4] s3 H3.
  eapply wp_view; [unfold when_, counted; refs_rel|].
  intros [resultTypes reader5] s4 H4.
  pose proof (RD_refs_trans _ _ _ (RD_refs_trans _ _ _
                (RD_refs_trans _ _ _ H1 H2) H3) H4) as H04.
  pose proof (refs_ok_view _ _ H04 Hok) as Hok4.
  apply wp_bind.
  eapply (wp_mono _ (fun x s' => refs_ok s'
                                 /\ forall v, v ∈ x.1 -> valid s' v)
                    _ (fun _ => True)).
  - unfold when_, counted. destruct (hasMask opMask kHasOperands).
    + apply wp_bind, wp_liftR; [|done]. intros n reader6 _. cbv beta.
      destruct (INT_MAX <? n); [done|].
      eapply wp_mono; [apply (parseOperands_refs _ reader6 s4 Hok4)| |done].
      cbn. intros x s' (? & _ & ?). done.
    + apply wp_ret. split; [done|]. intros v Hv. by apply elem_of_nil in Hv.
  - cbn. intros [operands reader6] s5 [Hok5 Hv5]. cbn in Hv5.
    eapply wp_view; [unfold when_, counted; refs_rel|].
    intros [successors reader7] s6 H6.
    eapply wp_view; [unfold when_; refs_rel|].
    intros [regionsFlag reader8] s7 H7.
    pose proof (RD_refs_trans _ _ _ H6 H7) as H57.
    apply wp_ret. split; [by eapply refs_ok_view|]. cbn.
    intros v Hv. eapply valid_view; eauto.
  - done.
Qed.

Lemma Value_eqb_eq a b : Value_eqb a b = true <-> a = b.
Proof.
  destruct a, b; cbn; rewrite ?andb_true_iff, ?Nat.eqb_eq;
    split; try done; try (intros [-> ->]; done); intros [= -> ->]; done.
Qed.

(** A slot of the scope on top is filled with a value that is not the
    result of a placeholder. *)
Lemma refs_ok_fill s scope scopes i ids v :
  refs_ok s -> valueScopes s = scope :: scopes -> defined s v ->
  refs_ok (set_valueScopes
             (mkValueScope (<[i := Some v]> (values scope)) ids :: scopes) s).
Proof.
  intros (P1 & P2 & P3 & P4 & P5) Hs Hdef. rewrite Hs in *.
  unfold refs_ok. cbn.
  refine (conj P1 (conj P2 (conj _ (conj P4 _)))).
  - intros a j w H.
    apply (slot_at_insert _ _ scope) in H as [(-> & -> & Ev)|[_ H]];
      [|eauto|done].
    simplify_eq. by apply defined_valid.
  - intros a j b j' q k k' Ha Hb Hq.
    apply (slot_at_insert _ _ scope) in Ha as [(Ea & Ej & Ev)|[Na Ha]];
      [| |done];
      (apply (slot_at_insert _ _ scope) in Hb as [(Eb & Ej' & Ew)|[Nb Hb]];
       [| |done]); simplify_eq; try (by destruct Hdef as (_ & ? & _)).
    eauto.
Qed.

(** The step of [defineValues] on a slot that holds a placeholder: the
    uses of the placeholder are replaced and the placeholder is freed. *)
Lemma refs_ok_define s s2 scope scopes i ids fr idx v :
  refs_ok s -> valueScopes s = scope :: scopes ->
  values scope !! i = Some (Some (OpResult fr idx)) ->
  fr ∈ forwardRefOps s -> defined s v ->
  forwardRefOps s2 = filter (fun o => o <> fr) (forwardRefOps s) ->
  openForwardRefOps s2 = openForwardRefOps s ++ [fr] ->
  ir_ops (ir s2)
  = map (replaceUsesIn (OpResult fr idx) v) (ir_ops (ir s)) ->
  valueScopes s2
  = mkValueScope (<[i := Some v]> (values scope)) ids :: scopes ->
  refs_ok s2.
Proof.
  intros (P1 & P2 & P3 & P4 & P5) Hs Hi Hfr Hdef A B C D. rewrite Hs in *.
  assert (Hold : slot_at (scope :: scopes) 0 i (OpResult fr idx))
    by (by apply slot_at_0).
  destruct (P3 _ _ _ Hold) as (Hlen & Hnopen & Hidx).
  specialize (Hidx Hfr). subst idx.
  pose proof P1 as (N1 & Ndisj & N2)%list.NoDup_app.
  assert (Hlen2 : length (ir_ops (ir s2)) = length (ir_ops (ir s)))
    by (by rewrite C, length_map).
  assert (Hkeep : forall w, valid s w -> (forall k, w <> OpResult fr k) ->
                            valid s2 w).
  { intros [r k|]; [|done]. cbn. rewrite A, B, Hlen2.
    intros (H1 & H2 & H3) Hne. split; [done|]. split.
    - intros [?| ->%list_elem_of_singleton]%elem_of_app; [done|].
      by apply (Hne k).
    - intros [_ ?]%list_elem_of_filter. auto. }
  assert (Hnew : valid s2 v).
  { destruct v as [q kq|]; [|done]. destruct Hdef as (H1 & H2 & H3).
    cbn. rewrite A, B, Hlen2. split; [done|]. split.
    - intros [?| ->%list_elem_of_singleton]%elem_of_app; done.
    - by intros [_ ?]%list_elem_of_filter. }
  unfold refs_ok. rewrite A, B, D, Hlen2.
  refine (conj _ (conj _ (conj _ (conj _ _)))).
  - apply list.NoDup_app. split; [by apply list.NoDup_filter|]. split.
    + intros x [Hx Hin]%list_elem_of_filter
             [?| ->%list_elem_of_singleton]%elem_of_app; [|done].
      by apply (Ndisj x).
    + apply list.NoDup_app. split; [done|]. split.
      * intros x Hx ->%list_elem_of_singleton. done.
      * apply list.NoDup_singleton.
  - intros p Hp. apply P2.
    rewrite !elem_of_app in *. rewrite list_elem_of_filter in Hp.
    rewrite list_elem_of_singleton in Hp. destruct Hp as [[_ ?]|[?| ->]]; auto.
  - intros a j w H.
    apply (slot_at_insert _ _ scope) in H as [(-> & -> & Ev)|[Na H]];
      [|auto|done].
    + by simplify_eq.
    + apply Hkeep; [eauto|]. intros k ->.
      destruct (P5 _ _ _ _ _ _ _ H Hold Hfr) as [-> ->]. by apply Na.
  - rewrite C. intros o' w' (o & -> & Ho)%elem_of_map. cbn.
    intros (w & -> & Hw)%elem_of_map. unfold replaceUse.
    destruct (Value_eqb w (OpResult fr 0)) eqn:E; [done|].
    apply Hkeep; [eauto|]. intros k ->.
    destruct (P4 _ _ Ho Hw) as (_ & _ & Hk). rewrite (Hk Hfr) in E.
    assert (Value_eqb (OpResult fr 0) (OpResult fr 0) = true)
      by (by apply Value_eqb_eq).
    congruence.
  - intros a j b j' q k k' Ha Hb [Hq Hqin]%list_elem_of_filter.
    apply (slot_at_insert _ _ scope) in Ha as [(Ea & Ej & Ev)|[Na Ha]];
      [| |done];
      (apply (slot_at_insert _ _ scope) in Hb as [(Eb & Ej' & Ew)|[Nb Hb]];
       [| |done]); simplify_eq; try (by destruct Hdef as (_ & ? & _)).
    eauto.
Qed.

Lemma defined_same s s' v :
  length (ir_ops (ir s')) = length (ir_ops (ir s)) ->
  (forall p, p ∈ forwardRefOps s' ++ openForwardRefOps s'
             <-> p ∈ forwardRefOps s ++ openForwardRefOps s) ->
  defined s v -> defined s' v.
Proof.
  intros Hl Hp. destruct v as [q k|]; [|done]. cbn. rewrite Hl.
  intros (H1 & H2 & H3). split; [done|].
  split; intros H.
  - assert (H' : q ∈ forwardRefOps s' ++ openForwardRefOps s')
      by (apply elem_of_app; by left).
    apply Hp, elem_of_app in H' as [?|?]; done.
  - assert (H' : q ∈ forwardRefOps s' ++ openForwardRefOps s')
      by (apply elem_of_app; by right).
    apply Hp, elem_of_app in H' as [?|?]; done.
Qed.

Lemma defineValue_refs v s :
  refs_ok s -> defined s v ->
  wp (defineValue v)
     (fun _ s' =>
        refs_ok s'
        /\ length (ir_ops (ir s')) = length (ir_ops (ir s))
        /\ forall p, p ∈ forwardRefOps s' ++ openForwardRefOps s'
                     <-> p ∈ forwardRefOps s ++ openForwardRefOps s)
     (fun _ => True) s.
Proof.
  intros Hok Hdef. unfold defineValue. apply wp_bind, wp_get. cbv beta.
  destruct (valueScopes s) as [|scope scopes] eqn:Hs; [done|].
  destruct (nextValueIDs scope) as [|valueID ids] eqn:Hids; [done|].
  destruct (values scope !! Z.to_nat valueID) as [old|] eqn:Hold; [|done].
  apply wp_bind, wp_put. cbv beta.
  destruct old as [[fr idx|]|].
  - apply wp_bind, wp_get. cbv beta. cbn [forwardRefOps set_valueScopes].
    destruct (bool_decide (fr ∈ forwardRefOps s)) eqn:Hin; [|done].
    apply bool_decide_eq_true in Hin.
    unfold replaceAllUsesWith. apply wp_bind, wp_modify. cbv beta.
    apply wp_modify. split; [|split].
    + eapply (refs_ok_define s _ scope scopes); eauto; reflexivity.
    + cbn. by rewrite length_map.
    + cbn. intros p. rewrite !elem_of_app, list_elem_of_filter.
      rewrite list_elem_of_singleton.
      destruct (decide (p = fr)) as [->|]; tauto.
  - done.
  - apply wp_ret. split; [|done].
    by apply (refs_ok_fill s scope scopes).
Qed.

Lemma defineValuesLoop_refs vs :
  forall s,
    refs_ok s -> (forall v, v ∈ vs -> defined s v) ->
    wp (defineValuesLoop vs) (fun _ s' => refs_ok s') (fun _ => True) s.
Proof.
  induction vs as [|v vs IH]; intros s Hok Hdef; cbn [defineValuesLoop].
  - by apply wp_ret.
  - apply wp_bind.
    eapply wp_mono; [apply (defineValue_refs v s Hok)| |done].
    + apply Hdef. apply list_elem_of_here.
    + cbn. intros _ s1 (Hok1 & Hl & Hp). apply IH; [done|].
      intros w Hw. eapply defined_same; eauto.
      apply Hdef. by apply list_elem_of_further.
Qed.

Lemma defineValues_refs vs s :
  refs_ok s -> (forall v, v ∈ vs -> defined s v) ->
  wp (defineValues vs) (fun _ s' => refs_ok s') (fun _ => True) s.
Proof.
  intros Hok Hdef. unfold defineValues. apply wp_bind, wp_get. cbv beta.
  destruct (valueScopes s) as [|scope scopes]; [done|].
  destruct (nextValueIDs scope) as [|valueID ids]; [done|].
  destruct (_ <? _); [done|]. by apply defineValuesLoop_refs.
Qed.

Lemma parseBlockArguments_refs reader block s :
  refs_ok s ->
  wp (parseBlockArguments ctx reader block) (fun _ s' => refs_ok s')
     (fun _ => True) s.
Proof.
  intros Hok. unfold parseBlockArguments.
  apply wp_bind, wp_liftR; [|done]. intros numArgs reader1 _. cbv beta.
  eapply wp_view; [refs_rel|]. intros [args reader2] s1 H1.
  eapply wp_view; [refs_rel|]. intros [] s2 H2.
  unfold getArguments. apply wp_bind_assoc, wp_bind, wp_get. cbv beta.
  destruct (ir_blocks (ir s2) !! block) as [k|]; [|done].
  apply wp_bind, wp_ret. cbv beta. apply wp_bind.
  eapply wp_mono; [apply defineValues_refs| |done].
  - eapply refs_ok_view; [|exact Hok]. by eapply RD_refs_trans.
  - by intros v (i & -> & _)%elem_of_map.
  - intros ? s3 Hok3. by apply wp_ret.
Qed.

Lemma parseBlock_refs reader rs s :
  refs_ok s ->
  wp (parseBlock ctx reader rs) (fun _ s' => refs_ok s') (fun _ => True) s.
Proof.
  intros Hok. unfold parseBlock.
  apply wp_bind, wp_liftR; [|done]. intros [numOps flag] reader1 _.
  cbv beta. cbn [fst snd]. destruct flag; [|by apply wp_ret].
  eapply wp_view; [refs_rel|]. intros block s1 H1.
  apply wp_bind.
  eapply wp_mono; [apply parseBlockArguments_refs| |done].
  - by eapply refs_ok_view.
  - intros r s2 Hok2. by apply wp_ret.
Qed.

Lemma parseOpWithoutRegions_refs reader rs s :
  refs_ok s ->
  wp (parseOpWithoutRegions ctx reader rs) (fun _ s' => refs_ok s')
     (fun _ => True) s.
Proof.
  intros Hok. unfold parseOpWithoutRegions. apply wp_bind.
  eapply wp_mono; [apply (parseOperationState_refs reader rs s Hok)| |done].
  cbn. intros [[opState isolated] reader1] s1 [Hok1 Hv1]. cbn in Hv1.
  unfold createOperation. apply wp_bind_assoc, wp_bind, wp_get. cbv beta.
  apply wp_bind_assoc, wp_bind, wp_put. cbv beta.
  apply wp_bind, wp_ret. cbv beta.
  pose proof (refs_ok_createOperation s1 opState Hok1 Hv1) as Hok2.
  set (s2 := set_ir _ s1) in *.
  eapply wp_view; [refs_rel|]. intros block s3 H3.
  eapply wp_view; [refs_rel|]. intros [] s4 H4.
  pose proof (RD_refs_trans _ _ _ H3 H4) as H24.
  pose proof (refs_ok_view _ _ H24 Hok2) as Hok4.
  apply wp_bind.
  eapply (wp_mono _ (fun _ s' => refs_ok s') _ (fun _ => True)).
  - destruct (Nat.eqb _ _); [by apply wp_ret|].
    apply defineValues_refs; [done|].
    intros v (i & -> & _)%elem_of_map. cbn.
    destruct H24 as (A & B & C & D). rewrite A, B, C.
    destruct Hok1 as (_ & P2 & _). subst s2. cbn.
    rewrite length_app. cbn. split; [lia|].
    split; intros Hp.
    + assert (H' : length (ir_ops (ir s1))
                   ∈ forwardRefOps s1 ++ openForwardRefOps s1)
        by (apply elem_of_app; by left).
      apply P2 in H'. lia.
    + assert (H' : length (ir_ops (ir s1))
                   ∈ forwardRefOps s1 ++ openForwardRefOps s1)
        by (apply elem_of_app; by right).
      apply P2 in H'. lia.
  - intros ? s5 Hok5. by apply wp_ret.
  - done.
Qed.

Lemma onBackScope_refs f s :
  refs_ok s ->
  (forall sc sc' i v,
      f sc = Some sc' -> values sc' !! i = Some (Some v) ->
      values sc !! i = Some (Some v)) ->
  wp (onBackScope f) (fun _ s' => refs_ok s') (fun _ => True) s.
Proof.
  intros Hok Hf. unfold onBackScope. apply wp_bind, wp_get. cbv beta.
  destruct (valueScopes s) as [|sc rest] eqn:Hs; [done|].
  destruct (f sc) as [sc'|] eqn:Hfsc; [|done].
  apply wp_put. apply (refs_ok_top s sc rest sc'); eauto.
Qed.

Lemma push_slots rs sc sc' i v :
  Some (ValueScope_push rs sc) = Some sc' ->
  values sc' !! i = Some (Some v) -> values sc !! i = Some (Some v).
Proof.
  intros [= <-]. unfold ValueScope_push. cbn.
  intros [H|[_ H]]%lookup_app_Some; [done|].
  by apply lookup_replicate in H as [? _].
Qed.

Lemma pop_slots rs sc sc' i v :
  ValueScope_pop rs sc = Some sc' ->
  values sc' !! i = Some (Some v) -> values sc !! i = Some (Some v).
Proof.
  unfold ValueScope_pop. destruct (nextValueIDs sc); [done|].
  destruct (_ <? _); [done|]. intros [= <-]. cbn.
  by intros [H _]%lookup_take_Some.
Qed.

(** A value scope without slot is pushed. *)
Lemma refs_ok_push_scope s ids :
  refs_ok s ->
  refs_ok (set_valueScopes (mkValueScope [] ids :: valueScopes s) s).
Proof.
  apply (refs_ok_embed _ _ pred); try done; cbn.
  - intros [|a] i v H; [|done]. by apply slot_at_0 in H.
  - intros [|a] [|b] i j v w Ha Hb E; try done.
    + by apply slot_at_0 in Ha.
    + by apply slot_at_0 in Hb.
    + cbn in E. by subst.
Qed.

(** The value scope on top is popped. *)
Lemma refs_ok_pop_scope s sc rest :
  valueScopes s = sc :: rest -> refs_ok s ->
  refs_ok (set_valueScopes rest s).
Proof.
  intros Hs. apply (refs_ok_embed _ _ S); try done; cbn.
  - intros a i v H. by rewrite Hs.
  - intros a b i j v w _ _ [= ->]. done.
Qed.

Lemma parseRegion_refs reader rs s :
  refs_ok s ->
  wp (parseRegion ctx reader rs) (fun _ s' => refs_ok s') (fun _ => True) s.
Proof.
  intros Hok. unfold parseRegion.
  apply wp_bind, wp_liftR; [|done]. intros numBlocks reader1 _. cbv beta.
  destruct (numBlocks =? 0); [by apply wp_ret|].
  apply wp_bind, wp_liftR; [|done]. intros nv reader2 _. cbv beta.
  cbn [regions curRegion set_numValues].
  destruct (regions rs !! curRegion rs) as [region|]; [|done].
  eapply wp_view; [refs_rel|]. intros blocks s1 H1.
  apply wp_bind.
  eapply wp_mono; [apply onBackScope_refs| |done].
  - by eapply refs_ok_view.
  - intros sc sc' i v. apply push_slots.
  - intros ? s2 Hok2. by apply parseBlock_refs.
Qed.

Lemma parseRegions_refs fuel :
  forall reader stack rs s,
    refs_ok s ->
    wp (parseRegions ctx fuel reader stack rs) (fun _ s' => refs_ok s')
       (fun _ => True) s.
Proof.
  induction fuel as [|fuel IH]; intros reader stack rs s Hok;
    cbn [parseRegions]; [done|].
  destruct (Nat.eqb _ _).
  { apply wp_bind.
    eapply (wp_mono _ (fun _ s' => refs_ok s') _ (fun _ => True)).
    - destruct (isIsolatedFromAbove rs); [|by apply wp_ret].
      apply wp_bind, wp_get. cbv beta.
      destruct (valueScopes s) as [|sc vs] eqn:Hs; [done|].
      apply wp_put. by apply (refs_ok_pop_scope s sc vs).
    - intros ? s1 Hok1. by apply wp_ret.
    - done. }
  destruct (curBlock rs) as [i|].
  - destruct (numOpsRemaining rs =? 0).
    + eapply wp_view; [refs_rel|]. intros blocks s1 H1.
      pose proof (refs_ok_view _ _ H1 Hok) as Hok1.
      destruct (Nat.eqb _ _).
      * apply wp_bind.
        eapply wp_mono; [apply onBackScope_refs| |done]; [done| |].
        -- intros sc sc' j v. apply pop_slots.
        -- intros ? s2 Hok2. by apply IH.
      * apply wp_bind.
        eapply wp_mono; [by apply parseBlock_refs| |done].
        intros [rs' reader'] s2 Hok2. by apply IH.
    + apply wp_bind.
      eapply wp_mono; [by apply parseOpWithoutRegions_refs| |done].
      intros [opIso reader'] s1 Hok1. apply wp_bind, wp_get. cbv beta.
      destruct (ir_ops (ir s1) !! opIso.1) as [op|]; [|done].
      destruct (op_regions op); [by apply IH|].
      apply wp_bind.
      eapply (wp_mono _ (fun _ s' => refs_ok s') _ (fun _ => True)).
      * destruct opIso.2; [|by apply wp_ret].
        apply wp_modify. by apply refs_ok_push_scope.
      * intros ? s2 Hok2. by apply wp_ret.
      * done.
  - apply wp_bind.
    eapply wp_mono; [by apply parseRegion_refs| |done].
    intros [rs' reader'] s1 Hok1.
    eapply wp_view; [refs_rel|]. intros blocks s2 H2.
    pose proof (refs_ok_view _ _ H2 Hok1) as Hok2.
    destruct blocks; by apply IH.
Qed.

Lemma parseRegionStack_refs fuel :
  forall reader stack s,
    refs_ok s ->
    wp (parseRegionStack ctx fuel reader stack) (fun _ s' => refs_ok s')
       (fun _ => True) s.
Proof.
  induction fuel as [|fuel IH]; intros reader [|rs stack] s Hok;
    cbn [parseRegionStack]; try done.
  apply wp_bind.
  eapply wp_mono; [by apply parseRegions_refs| |done].
  intros [stack' reader'] s1 Hok1. by apply IH.
Qed.

Lemma enterModule_refs fileLoc reader s :
  refs_ok s ->
  wp (enterModule ctx fileLoc reader) (fun _ s' => refs_ok s')
     (fun _ => True) s.
Proof.
  intros Hok. unfold enterModule, ModuleOp_create.
  apply wp_bind_assoc.
  eapply wp_view; [refs_rel|]. intros r s1 H1.
  apply wp_bind_assoc.
  eapply wp_view; [refs_rel|]. intros b s2 H2.
  apply wp_bind_assoc.
  eapply wp_view; [refs_rel|]. intros [] s3 H3.
  pose proof (RD_refs_trans _ _ _ (RD_refs_trans _ _ _ H1 H2) H3) as H03.
  pose proof (refs_ok_view _ _ H03 Hok) as Hok3.
  unfold createOperation.
  repeat (lazymatch goal with
          | |- wp ((_ ≫= _) ≫= _) _ _ _ => apply wp_bind_assoc
          | |- wp (get ≫= _) _ _ _ => apply wp_bind, wp_get
          | |- wp (put _ ≫= _) _ _ _ => apply wp_bind, wp_put
          | |- wp (mret _ ≫= _) _ _ _ => apply wp_bind, wp_ret
          end; cbv beta iota).
  match goal with |- wp _ _ _ ?s4 =>
    assert (Hok4 : refs_ok s4) end.
  { apply refs_ok_createOperation; [done|]. cbn.
    intros v Hv. by apply elem_of_nil in Hv. }
  apply wp_bind.
  eapply wp_mono; [by apply parseBlock_refs| |done].
  intros [rs' reader'] s5 Hok5. apply wp_bind, wp_modify. cbv beta.
  apply wp_bind.
  eapply wp_mono; [apply onBackScope_refs| |done].
  - by apply refs_ok_push_scope.
  - intros sc sc' i v. apply push_slots.
  - intros ? s6 Hok6. by apply wp_ret.
Qed.

Lemma parseTopLevel_refs fileLoc data s :
  refs_ok s ->
  wp (parseTopLevel ctx fileLoc data) (fun _ s' => refs_ok s')
     (fun _ => True) s.
Proof.
  intros Hok. unfold parseTopLevel. apply wp_bind.
  eapply wp_mono; [by apply enterModule_refs| |done].
  intros [[[moduleOp body] rs] reader] s1 Hok1. apply wp_bind.
  eapply wp_mono; [by apply parseRegionStack_refs| |done].
  intros reader' s2 Hok2. by apply wp_ret.
Qed.

Lemma spliceModule_refs moduleOp body s :
  refs_ok s ->
  wp (spliceModule verify moduleOp body)
     (fun _ s' => refs_ok s' /\ forwardRefOps s' = [])
     (fun _ => True) s.
Proof.
  intros Hok. unfold spliceModule. apply wp_bind, wp_get. cbv beta.
  destruct (bool_decide (forwardRefOps s = [])) eqn:Hempty; [|done].
  apply bool_decide_eq_true in Hempty. cbn [negb].
  apply wp_bind, wp_modify. cbv beta.
  destruct (verify_ok _); [|done]. cbn [negb].
  destruct (ir_blocks (ir s) !! body) as [k|]; [|done].
  apply wp_bind, wp_modify. cbv beta. apply wp_modify.
  split; [|done]. eapply refs_ok_view; [|exact Hok]. by repeat split.
Qed.

Lemma parseIRSection_refs fileLoc data s :
  refs_ok s ->
  wp (parseIRSection ctx verify fileLoc data)
     (fun _ s' => refs_ok s' /\ forwardRefOps s' = [])
     (fun _ => True) s.
Proof.
  intros Hok. unfold parseIRSection. apply wp_bind.
  eapply wp_mono; [by apply parseTopLevel_refs| |done].
  intros [moduleOp body] s1 Hok1. by apply spliceModule_refs.
Qed.

Lemma refs_ok_initial block :
  refs_ok (set_destOps block initial_BytecodeReader).
Proof.
  unfold refs_ok. cbn. refine (conj _ (conj _ (conj _ (conj _ _)))).
  - constructor.
  - intros p Hp. by apply elem_of_nil in Hp.
  - intros a i v H. by apply slot_at_nil in H.
  - intros o v Ho. by apply elem_of_nil in Ho.
  - intros a i b j p k k' H. by apply slot_at_nil in H.
Qed.

Lemma read_refs kVersion fileLoc buffer s :
  refs_ok s ->
  wp (read ctx verify kVersion fileLoc buffer)
     (fun _ s' => refs_ok s' /\ forwardRefOps s' = [])
     (fun _ => True) s.
Proof.
  intros Hok. unfold read.
  apply wp_bind, wp_liftR; [|done]. intros ? reader0 _. cbv beta iota.
  eapply wp_view; [refs_rel|]. intros reader1 s1 H1.
  apply wp_bind, wp_liftR; [|done]. intros prod reader2 _. cbv beta iota.
  apply wp_bind, wp_modify. cbv beta.
  eapply wp_view; [refs_rel|]. intros datas s2 H2.
  eapply wp_view; [refs_rel|]. intros [] s3 H3.
  eapply wp_view; [refs_rel|]. intros stringSection s4 H4.
  eapply wp_view; [refs_rel|]. intros [] s5 H5.
  eapply wp_view; [refs_rel|]. intros dialectSection s6 H6.
  eapply wp_view; [refs_rel|]. intros [] s7 H7.
  eapply wp_view; [refs_rel|]. intros attrTypeSection s8 H8.
  eapply wp_view; [refs_rel|]. intros offsetSection s9 H9.
  eapply wp_view; [refs_rel|]. intros [] s10 H10.
  eapply wp_view; [refs_rel|]. intros irSection s11 H11.
  apply parseIRSection_refs.
  assert (Hok1 : refs_ok s1) by (by eapply refs_ok_view).
  assert (Hok1' : refs_ok (set_producer prod s1))
    by (eapply refs_ok_view; [|exact Hok1]; by repeat split).
  eapply refs_ok_view; [exact H11|]. eapply refs_ok_view; [exact H10|].
  eapply refs_ok_view; [exact H9|]. eapply refs_ok_view; [exact H8|].
  eapply refs_ok_view; [exact H7|]. eapply refs_ok_view; [exact H6|].
  eapply refs_ok_view; [exact H5|]. eapply refs_ok_view; [exact H4|].
  eapply refs_ok_view; [exact H3|]. eapply refs_ok_view; [exact H2|].
  exact Hok1'.
Qed.

(** No placeholder survives a successful parse.  When [readBytecodeFile]
    succeeds, no placeholder is in use any more, the free placeholders are
    operations of the heap, each once in the pool, and every operand of
    every operation of the heap that is the result of an operation is the
    result of an operation of the heap that is not a placeholder: each use
    of a value before its definition has been replaced.  And a parse of the
    IR section that reaches its end with a placeholder in use fails with
    the diagnostic of the unresolved forward references. *)
Theorem no_placeholder_survives :
  (forall kVersion fileLoc buffer block u s',
      readBytecodeFile ctx verify kVersion fileLoc buffer block = Done u s' ->
      forwardRefOps s' = []
      /\ NoDup (openForwardRefOps s')
      /\ (forall p, p ∈ openForwardRefOps s' ->
                    (p < length (ir_ops (ir s')))%nat)
      /\ forall o p k,
           o ∈ ir_ops (ir s') -> OpResult p k ∈ op_operands o ->
           (p < length (ir_ops (ir s')))%nat
           /\ (p ∉ openForwardRefOps s'))
  /\ (forall moduleOp body s,
        forwardRefOps s <> [] ->
        spliceModule verify moduleOp body s
        = Failed (set_diagnostics
                    (diagnostics s ++ [unresolved_forward_references]) s)).
Proof.
  split.
  - intros kVersion fileLoc buffer block u s'. unfold readBytecodeFile.
    destruct (isBytecode buffer); cbn [negb]; [|done].
    intros Hrun.
    destruct (wp_Done _ _ _ _ _ _
                (read_refs kVersion fileLoc buffer _ (refs_ok_initial block))
                Hrun) as [(P1 & P2 & _ & P4 & _) Hempty].
    rewrite Hempty in *. cbn in P1, P2.
    split; [done|]. split; [done|]. split; [done|].
    intros o p k Ho Hv. destruct (P4 _ _ Ho Hv) as (? & ? & _). done.
  - intros moduleOp body s Hne. unfold spliceModule, mbind, M_bind, get.
    destruct (bool_decide (forwardRefOps s = [])) eqn:E; [|done].
    by apply bool_decide_eq_true in E.
Qed.

(** The invariant of the forward references is kept by the loop over the
    regions and by what it calls: when [parseRegions] returns, the two
    pools are still disjoint and without duplicate, every slot and every
    operand holds a value of the heap that is not a free placeholder, and
    a placeholder in use is held by at most one slot. *)
Theorem parseRegions_keeps_refs_ok fuel reader stack rs s x s' :
  refs_ok s ->
  parseRegions ctx fuel reader stack rs s = Done x s' ->
  refs_ok s'.
Proof.
  intros Hok Hrun.
  exact (wp_Done _ _ _ _ _ _ (parseRegions_refs fuel reader stack rs s Hok)
           Hrun).
Qed.

End Family_refs.

(** ** The concrete files *)

Lemma test_host_reports : host_reports test_context test_verify.
Proof. repeat split; intros; discriminate. Qed.



Lemma readBytecodeFile_failure_witness :
  host_reports test_context test_verify
  /\ (exists s',
        readBytecodeFile test_context test_verify 0 7%nat
          truncated_offsets_file [HostOp 5; HostOp 6] = Failed s'
        /\ destOps s' = [HostOp 5; HostOp 6]
        /\ diagnostics s'
           = [[Str "attempting to parse a byte at the end of the bytecode"]])
  /\ exists s',
       readBytecodeFile test_context test_verify 0 7%nat top_level_result_file
         [HostOp 5; HostOp 6] = Failed s'
       /\ destOps s' = [HostOp 5; HostOp 6] /\ diagnostics s' <> [].
Proof.
  split; [exact test_host_reports|]. split.
  - destruct (readBytecodeFile test_context test_verify 0 7%nat
                truncated_offsets_file [HostOp 5; HostOp 6])
      as [u s'|s'| |] eqn:Hrun;
      try (vm_compute in Hrun; discriminate).
    exists s'. split; [reflexivity|].
    destruct (readBytecodeFile_failure test_context test_verify
                test_host_reports 0 7%nat truncated_offsets_file
                [HostOp 5; HostOp 6]) as [_ Hfail].
    split; [exact (proj1 (Hfail s' Hrun))|].
    vm_compute in Hrun. injection Hrun as <-. reflexivity.
  - destruct (readBytecodeFile test_context test_verify 0 7%nat
                top_level_result_file [HostOp 5; HostOp 6])
      as [u s'|s'| |] eqn:Hrun;
      try (vm_compute in Hrun; discriminate).
    exists s'. split; [reflexivity|].
    destruct (readBytecodeFile_failure test_context test_verify
                test_host_reports 0 7%nat top_level_result_file
                [HostOp 5; HostOp 6]) as [_ Hfail].
    exact (Hfail s' Hrun).
Defined.


(** C5: the claim does not hold of [parseIRSection].  The function reads
    the header of the module block before it pushes the first value scope,
    where [parseRegion] prepares the scope before it reads the header of
    an entry block: [defineValues] takes [valueScopes.back()], which is not
    defined on a reader without value scope; so no IR section whose module
    block header announces block arguments is ever read with success, and
    reading [block_args_file], whose header announces zero block
    arguments, is undefined. *)
Theorem module_header_read_before_first_scope :
  (forall newValues s,
      valueScopes s = [] -> defineValues newValues s = Undefined)
  /\ (forall ctx fileLoc data numOps r s x s',
        valueScopes s = [] ->
        parseVarIntWithFlag data = ROk (numOps, true) r ->
        parseTopLevel ctx fileLoc data s <> Done x s')
  /\ readBytecodeFile test_context test_verify 0 7%nat block_args_file
       [HostOp 5] = Undefined.
Proof.
  split; [|split].
  - intros newValues s Hs. by apply defineValues_no_scope.
  - intros ctx fileLoc data numOps r s x s' Hs Hhdr.
    by apply (parseTopLevel_header_before_scope ctx fileLoc data numOps r).
  - vm_compute. reflexivity.
Qed.

Lemma module_header_read_before_first_scope_witness :
  defineValues [] initial_BytecodeReader = Undefined
  /\ forall x s',
       parseTopLevel test_context 7%nat block_args_ir
         initial_BytecodeReader <> Done x s'.
Proof.
  destruct module_header_read_before_first_scope as (Hdef & Htop & _).
  split.
  - apply Hdef. reflexivity.
  - intros x s'.
    apply (Htop test_context 7%nat block_args_ir 0 [x01]);
      [reflexivity|vm_compute; reflexivity].
Defined.

Lemma dialect_asked_at_most_once_witness :
  load test_context 0 loaded_state = Done tt loaded_state
  /\ (exists s',
        load strict_context 0 tables_state = Failed s'
        /\ map dialect (dialects s') = [None])
  /\ exists s',
       parseIRSection test_context test_verify 7%nat forward_ref_ir
         tables_state = Done tt s'
       /\ loads_ok s' /\ entries_stable tables_state s'.
Proof.
  destruct (dialect_asked_at_most_once test_context test_verify)
    as (_ & Huse & _ & Hir).
  destruct (dialect_asked_at_most_once strict_context test_verify)
    as (_ & _ & Hfirst & _).
  split; [|split].
  - eapply Huse; vm_compute; reflexivity.
  - eexists. split.
    + erewrite (Hfirst 0%nat _ _ tables_state);
        [reflexivity|vm_compute; reflexivity..].
    + vm_compute. reflexivity.
  - eassert (Hrun : parseIRSection test_context test_verify 7%nat
                      forward_ref_ir tables_state = Done tt _)
      by (vm_compute; reflexivity).
    assert (Hok : loads_ok tables_state)
      by (apply loads_ok_fresh; vm_compute; reflexivity).
    eexists. split; [exact Hrun|].
    apply (Hir _ _ _ _ _ Hok Hrun).
Defined.

(** C6, as stated, fails when the dialect of an entry is unknown and
    unregistered dialects are not allowed: the first use of the entry asks
    the host, emits the diagnostic and fails, and the entry is left
    unloaded, neither resolved nor failed; the outcome is not recorded, and
    a later use of the entry would ask the host again. *)
Lemma failed_load_is_not_recorded :
  exists s',
    readBytecodeFile strict_context test_verify 0 7%nat forward_ref_file []
    = Failed s'
    /\ diagnostics s' = [dialect_unknown [x74; x65; x73; x74]]
    /\ dialectLoads s' = [0%nat]
    /\ map dialect (dialects s') = [None]
    /\ exists s'',
         load strict_context 0 s' = Failed s''
         /\ dialectLoads s'' = [0%nat; 0%nat].
Proof.
  eexists. split; [vm_compute; reflexivity|].
  repeat split; try (vm_compute; reflexivity).
  eexists. split; vm_compute; reflexivity.
Qed.

(** ** More on the primitives of [EncodingReader] *)

Lemma parseVarInt_prefix (r r' : EncodingReader.t) (v : Z) :
  parseVarInt r = ROk v r' ->
  exists bs,
    r = bs ++ r' /\ (1 <= length bs <= 9)%nat /\ 0 <= v < 2 ^ 64
    /\ forall rest, parseVarInt (bs ++ rest) = ROk v rest.
Proof.
  intros Hrun. pose proof (parseVarInt_range _ _ _ Hrun) as [Hv _].
  revert Hrun. unfold parseVarInt, parseByte.
  destruct r as [|b r0]; [discriminate|].
  pose proof (byteZ_range b) as Hb.
  destruct (Z.odd (byteZ b)) eqn:Ho.
  - intros [= <- <-]. exists [b]. split; [done|]. split; [simpl; lia|].
    split; [done|]. intros rest. cbn. by rewrite Ho.
  - destruct (Z.eqb_spec (byteZ b) 0) as [E0|Hne].
    + unfold parseBytesInto.
      destruct (parseBytes 8 r0) as [bs r1|d] eqn:E; [|discriminate].
      apply parseBytes_ok in E as [-> Hl]; [|lia].
      intros [= <- <-]. exists (b :: bs). split; [done|].
      split; [simpl; lia|]. split; [done|]. intros rest. cbn.
      rewrite Ho. destruct (Z.eqb_spec (byteZ b) 0); [|done].
      unfold parseBytesInto. replace 8 with (Z.of_nat (length bs)) by lia.
      by rewrite parseBytes_app.
    + unfold parseMultiByteVarInt, parseBytesInto.
      assert (Hc : 0 <= countTrailingZeros (byteZ b) < 8).
      { unfold countTrailingZeros, u32, UINT32_MOD.
        rewrite Z.mod_small by lia.
        apply (ctz_fuel_lt 32 8). change (2 ^ Z.of_nat 8) with 256. lia. }
      destruct (parseBytes _ r0) as [bs r1|d] eqn:E; [|discriminate].
      apply parseBytes_ok in E as [-> Hl]; [|lia].
      intros [= <- <-]. exists (b :: bs). split; [done|].
      split; [simpl; lia|]. split; [done|]. intros rest. cbn.
      rewrite Ho. destruct (Z.eqb_spec (byteZ b) 0); [done|].
      unfold parseMultiByteVarInt, parseBytesInto.
      rewrite <- Hl at 1. by rewrite parseBytes_app.
Qed.

(** A variable-length integer is decoded from the bytes it consumes and
    from nothing else: a successful [parseVarInt] consumes between one and
    nine bytes at the front of the reader, returns a value below [2^64],
    and returns the same value whatever follows these bytes. *)
Theorem parseVarInt_consumes (r r' : EncodingReader.t) (v : Z) :
  parseVarInt r = ROk v r' ->
  exists bs,
    r = bs ++ r' /\ (1 <= length bs <= 9)%nat /\ 0 <= v < 2 ^ 64
    /\ forall rest, parseVarInt (bs ++ rest) = ROk v rest.
Proof. apply parseVarInt_prefix. Qed.

Lemma parseVarInt_consumes_witness :
  exists bs,
    [x06; x01; x07] = bs ++ [x07] /\ (1 <= length bs <= 9)%nat
    /\ 0 <= 65 < 2 ^ 64
    /\ forall rest, parseVarInt (bs ++ rest) = ROk 65 rest.
Proof. apply (parseVarInt_consumes [x06; x01; x07] [x07] 65). reflexivity. Defined.

(** The number of bytes that the first byte of a variable-length integer
    announces after itself. *)
Lemma announced_range (b : byte) :
  byteZ b <> 0 -> 0 <= countTrailingZeros (byteZ b) < 8.
Proof.
  intros Hne. pose proof (byteZ_range b) as Hb.
  unfold countTrailingZeros, u32, UINT32_MOD. rewrite Z.mod_small by lia.
  apply (ctz_fuel_lt 32 8). change (2 ^ Z.of_nat 8) with 256. lia.
Qed.

(** [parseVarInt] fails on an empty reader, and otherwise exactly when the
    reader ends before the bytes that the first byte announces: none when
    the first byte is odd, eight when it is zero, and as many as it has
    trailing zero bits otherwise.  The diagnostic tells how many bytes
    were asked for and how many remain. *)
Theorem parseVarInt_truncated (b : byte) (rest : EncodingReader.t) :
  parseVarInt []
  = RErr [Str "attempting to parse a byte at the end of the bytecode"]
  /\ let n := if Z.odd (byteZ b) then 0
              else if byteZ b =? 0 then 8
                   else countTrailingZeros (byteZ b) in
     (n <= size rest -> exists v r', parseVarInt (b :: rest) = ROk v r')
     /\ (size rest < n ->
         parseVarInt (b :: rest)
         = RErr [Str "attempting to parse "; Num n;
                 Str " bytes when only "; Num (size rest); Str " remain"]).
Proof.
  split; [done|]. cbn zeta. unfold parseVarInt, parseByte.
  destruct (Z.odd (byteZ b)) eqn:Ho.
  - split; [eauto|]. unfold size. lia.
  - destruct (Z.eqb_spec (byteZ b) 0) as [E0|Hne].
    + unfold parseBytesInto, parseBytes.
      destruct (Z.ltb_spec (size rest) 8); (split; [|intros ?]);
        try lia; eauto.
    + unfold parseMultiByteVarInt, parseBytesInto, parseBytes.
      destruct (Z.ltb_spec (size rest) (countTrailingZeros (byteZ b)));
        (split; [|intros ?]); try lia; eauto.
Qed.

Lemma parseVarInt_truncated_witness :
  (exists v r', parseVarInt [x06; x01; x07] = ROk v r')
  /\ parseVarInt [x00; x01; x02]
     = RErr [Str "attempting to parse "; Num 8;
             Str " bytes when only "; Num 2; Str " remain"].
Proof.
  split.
  - apply (parseVarInt_truncated x06 [x01; x07]). vm_compute. discriminate.
  - apply (parseVarInt_truncated x00 [x01; x02]). reflexivity.
Defined.

Lemma split_nul_app (s rest : list byte) :
  x00 ∉ s -> split_nul (s ++ x00 :: rest) = Some (s, rest).
Proof.
  induction s as [|c s IH]; intros Hs; [done|].
  apply not_elem_of_cons in Hs as [Hc Hs]. cbn.
  destruct (Byte.eqb c x00) eqn:E.
  - apply Byte.byte_dec_bl in E. congruence.
  - by rewrite IH.
Qed.

Lemma split_nul_Some (r s r' : list byte) :
  split_nul r = Some (s, r') -> r = s ++ x00 :: r' /\ x00 ∉ s.
Proof.
  revert s r'. induction r as [|c r IH]; intros s r'; [done|]. cbn.
  destruct (Byte.eqb c x00) eqn:E.
  - apply Byte.byte_dec_bl in E. intros [= <- <-]. subst c.
    split; [done|]. apply not_elem_of_nil.
  - destruct (split_nul r) as [[s0 r0]|]; [|done].
    intros [= <- <-]. destruct (IH _ _ eq_refl) as [-> Hs0].
    split; [done|]. apply not_elem_of_cons. split; [|done].
    intros <-. discriminate E.
Qed.

Lemma split_nul_None (r : list byte) : split_nul r = None -> x00 ∉ r.
Proof.
  induction r as [|c r IH]; [intros _; apply not_elem_of_nil|]. cbn.
  destruct (Byte.eqb c x00) eqn:E; [done|].
  destruct (split_nul r) as [[s0 r0]|]; [done|]. intros _.
  apply not_elem_of_cons. split; [|by apply IH].
  intros <-. discriminate E.
Qed.

(** [parseNullTerminatedString] reads up to the first NUL of the reader:
    a string without NUL followed by a NUL is read back as it is, the
    reader being left after the NUL; a success always splits the reader in
    this way; and the function fails exactly when the reader holds no NUL
    at all. *)
Theorem parseNullTerminatedString_first_nul :
  (forall s rest,
      x00 ∉ s ->
      parseNullTerminatedString (s ++ x00 :: rest) = ROk s rest)
  /\ (forall r s r',
        parseNullTerminatedString r = ROk s r' ->
        r = s ++ x00 :: r' /\ x00 ∉ s)
  /\ (forall r d,
        parseNullTerminatedString r = RErr d ->
        x00 ∉ r
        /\ d = [Str "malformed null-terminated string, no null character found"]).
Proof.
  unfold parseNullTerminatedString. split; [|split].
  - intros s rest Hs. by rewrite split_nul_app.
  - intros r s r'. destruct (split_nul r) as [[s0 r0]|] eqn:E; [|done].
    intros [= <- <-]. by apply split_nul_Some.
  - intros r d. destruct (split_nul r) as [[s0 r0]|] eqn:E; [done|].
    intros [= <-]. split; [by apply split_nul_None|done].
Qed.

Lemma parseNullTerminatedString_first_nul_witness :
  parseNullTerminatedString ([x78; x79] ++ x00 :: [x00; x7a])
  = ROk [x78; x79] [x00; x7a]
  /\ (x00 ∉ [x78; x79])
  /\ (x00 ∉ [x78; x79; x7a]).
Proof.
  destruct parseNullTerminatedString_first_nul as (Hrt & Hinv & Herr).
  assert (H1 : x00 ∉ [x78; x79]).
  { apply (Hinv [x78; x79; x00; x00; x7a] [x78; x79] [x00; x7a]).
    reflexivity. }
  split; [by apply Hrt|]. split; [done|].
  eapply (Herr [x78; x79; x7a]). reflexivity.
Defined.

(** A section that [parseSection] returns has an id below
    [kNumSections], and the reader splits into a header of two to ten
    bytes (the id and the length), the data of the section, and the reader
    that is returned. *)
Theorem parseSection_splits (r r' : EncodingReader.t) (id : Z)
    (data : list byte) :
  parseSection r = ROk (id, data) r' ->
  0 <= id < kNumSections
  /\ exists hdr,
       r = hdr ++ data ++ r' /\ (2 <= length hdr <= 10)%nat
       /\ parseVarInt (drop 1 hdr) = ROk (Z.of_nat (length data)) [].
Proof.
  unfold parseSection, parseByte. destruct r as [|b r1]; [discriminate|].
  destruct (parseVarInt r1) as [len r2|] eqn:Hlen; [|discriminate].
  destruct (Z.leb_spec kNumSections (byteZ b)); [discriminate|].
  destruct (parseBytes len r2) as [bs r3|] eqn:Hbs; [|discriminate].
  intros [= <- <- <-].
  destruct (parseVarInt_prefix _ _ _ Hlen) as (vb & -> & Hl & Hv & Hany).
  apply parseBytes_ok in Hbs as [-> Hl']; [|lia].
  pose proof (byteZ_range b). split; [lia|].
  exists (b :: vb). split; [done|].
  split; [simpl; lia|]. cbn. rewrite drop_0.
  rewrite <- (app_nil_r vb) at 1. by rewrite Hany, Hl'.
Qed.

Lemma parseSection_splits_witness :
  0 <= 4 < kNumSections
  /\ exists hdr,
       [x04; x05; x01; x02; x09] = hdr ++ [x01; x02] ++ [x09]
       /\ (2 <= length hdr <= 10)%nat
       /\ parseVarInt (drop 1 hdr) = ROk (Z.of_nat (length [x01; x02])) [].
Proof.
  apply (parseSection_splits [x04; x05; x01; x02; x09] [x09] 4 [x01; x02]).
  reflexivity.
Defined.

(** ** The string table lies within its section *)

Lemma parseStringSizes_bounds (n : nat) :
  forall (r data : EncodingReader.t) (e tot tot' : Z)
         (strs tbl : list StringRef),
    0 <= e -> 0 <= tot < 2 ^ 64 ->
    parseStringSizes n r e tot strs = ROk (tbl, tot') data ->
    exists new e',
      tbl = new ++ strs /\ 0 <= e' <= e /\ tot' = u64 (tot + (e - e'))
      /\ forall str, str ∈ new -> sr_size str <> 2 ^ 64 - 1 ->
           0 <= sr_size str
           /\ e' <= sr_offset str /\ sr_offset str + sr_size str + 1 <= e.
Proof.
  induction n as [|n IH]; intros r data e tot tot' strs tbl He Htot; cbn.
  - intros [= <- <- <-]. exists [], e. split; [done|]. split; [lia|].
    split.
    + unfold u64, UINT64_MOD. rewrite Z.sub_diag, Z.add_0_r.
      by rewrite Z.mod_small.
    + intros str Hstr. by apply elem_of_nil in Hstr.
  - destruct (parseVarInt r) as [sz r1|] eqn:Hsz; [|done].
    apply parseVarInt_range in Hsz as [Hsz _].
    destruct (Z.ltb_spec e sz); [done|]. intros Hrun.
    apply IH in Hrun as (new & e' & -> & He' & -> & Hnew); [|lia|].
    2:{ unfold u64, UINT64_MOD. apply Z.mod_pos_bound. lia. }
    exists (new ++ [mkStringRef (e - sz) (u64 (sz - 1))]), e'.
    split; [by rewrite <- app_assoc|]. split; [lia|]. split.
    + rewrite u64_add_l. f_equal. lia.
    + intros str [Hstr| ->%list_elem_of_singleton]%elem_of_app Hw.
      * destruct (Hnew _ Hstr Hw) as (? & ? & ?). lia.
      * cbn in *. unfold u64, UINT64_MOD in *.
        destruct (Z.eq_dec sz 0) as [->|Hnz]; [done|].
        rewrite Z.mod_small by lia. lia.
Qed.

(** When [parseStringSection] succeeds, every string of the table whose
    size has not wrapped (it wraps for a stored size of zero) lies, with
    the NUL
    that follows it, within the bytes that the section holds after the
    sizes; so its characters can be read from the section. *)
Theorem parseStringSection_in_bounds (sectionData : list byte)
    (strings : list StringRef) (data : EncodingReader.t) (str : StringRef) :
  size sectionData < 2 ^ 64 ->
  parseStringSection sectionData = ROk strings data ->
  str ∈ strings -> sr_size str <> 2 ^ 64 - 1 ->
  size sectionData - size data <= sr_offset str
  /\ sr_offset str + sr_size str + 1 <= size sectionData
  /\ is_Some (StringRef_bytes sectionData str).
Proof.
  intros Hlen. unfold parseStringSection.
  destruct (parseVarInt sectionData) as [numStrings r|]; [|done].
  destruct (parseStringSizes _ r _ 0 []) as [[tbl tot'] r'|] eqn:Hsz; [|done].
  destruct (Z.eqb_spec (size r') tot') as [Heq|]; [|done].
  intros [= <- <-] Hstr Hw.
  assert (Hsize : 0 <= size sectionData) by (unfold size; lia).
  apply parseStringSizes_bounds in Hsz as (new & e' & -> & He' & -> & Hnew);
    [|done|lia].
  rewrite app_nil_r in Hstr. destruct (Hnew _ Hstr Hw) as (H0 & H1 & H2).
  unfold u64, UINT64_MOD in Heq. rewrite Z.mod_small in Heq by lia.
  split; [lia|]. split; [done|].
  unfold StringRef_bytes.
  destruct (Z.leb_spec 0 (sr_offset str)); [|lia].
  destruct (Z.leb_spec (sr_offset str + sr_size str) (size sectionData));
    [|lia].
  cbn. eauto.
Qed.

Lemma parseStringSection_in_bounds_witness :
  size two_string_section - size [x61; x62; x00; x63; x00] <= 3
  /\ 3 + 2 + 1 <= size two_string_section
  /\ is_Some (StringRef_bytes two_string_section (mkStringRef 3 2)).
Proof.
  apply (parseStringSection_in_bounds two_string_section
           [mkStringRef 3 2; mkStringRef 6 1] [x61; x62; x00; x63; x00]
           (mkStringRef 3 2)).
  - vm_compute. reflexivity.
  - vm_compute. reflexivity.
  - apply list_elem_of_here.
  - vm_compute. discriminate.
Defined.

(** ** Value scopes *)

(** [ValueScope::pop] undoes [ValueScope::push] for the same region read
    state: the slots reserved for the region are dropped, the slots that
    were there before are kept with what they hold, and the stack of next
    ids is as it was. *)
Theorem ValueScope_pop_push (readState : RegionReadState) (v : ValueScope) :
  0 <= numValues readState ->
  ValueScope_pop readState (ValueScope_push readState v) = Some v
  /\ length (values (ValueScope_push readState v))
     = (length (values v) + Z.to_nat (numValues readState))%nat
  /\ forall i, (i < length (values v))%nat ->
       values (ValueScope_push readState v) !! i = values v !! i.
Proof.
  intros Hn. destruct v as [vals ids].
  unfold ValueScope_pop, ValueScope_push. cbn.
  rewrite length_app, length_replicate.
  destruct (Z.ltb_spec
              (Z.of_nat (length vals + Z.to_nat (numValues readState)))
              (numValues readState)); [lia|].
  split; [|split; [done|]].
  - f_equal. f_equal.
    replace (length vals + Z.to_nat (numValues readState)
             - Z.to_nat (numValues readState))%nat
      with (length vals) by lia.
    apply take_app_length.
  - intros i Hi. by apply lookup_app_l.
Qed.

Lemma ValueScope_pop_push_witness :
  ValueScope_pop (set_numValues 2 (RegionReadState_of [] false))
    (ValueScope_push (set_numValues 2 (RegionReadState_of [] false))
       (mkValueScope [Some (OpResult 0%nat 0%nat)] [0]))
  = Some (mkValueScope [Some (OpResult 0%nat 0%nat)] [0]).
Proof.
  apply (ValueScope_pop_push (set_numValues 2 (RegionReadState_of [] false))
           (mkValueScope [Some (OpResult 0%nat 0%nat)] [0])).
  vm_compute. discriminate.
Defined.

(** ** The lazy tables memoize *)

Lemma parseEntry_Done (reader : EncodingReader.t) (n : nat) (str : string)
    (s s' : BytecodeReader) (x : nat * EncodingReader.t) :
  parseEntry reader n str s = Done x s' ->
  s' = s /\ (x.1 < n)%nat
  /\ forall s2, parseEntry reader n str s2 = Done x s2.
Proof.
  unfold parseEntry, resolveEntry, liftR, emitError, emit.
  unfold mbind, M_bind, mret, M_ret.
  destruct (parseVarInt reader) as [v r|] eqn:Hv; [|done]. cbn.
  apply parseVarInt_range in Hv as [Hv _].
  destruct (Z.leb_spec (Z.of_nat n) v); [done|]. cbn.
  intros [= <- <-]. cbn. split; [done|]. split; [lia|done].
Qed.

Lemma stringContents_Done (str : StringRef) (s s' : BytecodeReader)
    (bs : list byte) :
  stringContents str s = Done bs s' ->
  s' = s /\ StringRef_bytes (stringData s) str = Some bs.
Proof.
  unfold stringContents, mbind, M_bind, get.
  destruct (StringRef_bytes _ _); [|done]. by intros [= <- <-].
Qed.

Lemma load_Done (ctx : MLIRContext) (i : nat) (s s' : BytecodeReader) u :
  load ctx i s = Done u s' ->
  opNames s' = opNames s /\ stringData s' = stringData s
  /\ length (dialects s') = length (dialects s)
  /\ forall j, j <> i -> dialects s' !! j = dialects s !! j.
Proof.
  unfold load, stringContents, mbind, M_bind, get, modify, emitError, emit.
  cbn. destruct (dialects s !! i) as [d|]; [|done].
  destruct (dialect d).
  { by intros [= _ <-]. }
  destruct (StringRef_bytes _ _); [|done]. cbn.
  destruct (negb _ && negb _); [done|]. cbn. intros [= _ <-]. cbn.
  split; [done|]. split; [done|]. split; [by rewrite length_insert|].
  intros j Hj. by rewrite list_lookup_insert_ne.
Qed.

(** The operation names are memoized: once [parseOpName] has returned the
    name of an entry, reading the same reference again returns the same
    name and changes nothing, so the dialect is not loaded again and the
    name is not rebuilt. *)
Theorem parseOpName_memoized (ctx : MLIRContext) (reader : EncodingReader.t)
    (s s1 : BytecodeReader) (x : list byte * EncodingReader.t) :
  parseOpName ctx reader s = Done x s1 ->
  parseOpName ctx reader s1 = Done x s1.
Proof.
  intros Hrun.
  assert (Hfacts : exists i e1,
             (forall s2, parseEntry reader (length (opNames s))
                           "operation name" s2 = Done (i, x.2) s2)
             /\ length (opNames s1) = length (opNames s)
             /\ opNames s1 !! i = Some e1 /\ opName e1 = Some x.1).
  { revert Hrun. unfold parseOpName.
    unfold mbind, M_bind, get, modify, mret, M_ret.
    destruct (parseEntry reader (length (opNames s)) "operation name" s)
      as [[i r] s0| | |] eqn:Hi; try done.
    apply parseEntry_Done in Hi as (-> & Hlt & Hany). cbn in Hlt.
    destruct (opNames s !! i) as [e|] eqn:He; [|done].
    destruct (opName e) as [name|] eqn:Hname.
    { intros [= <- <-]. by exists i, e. }
    destruct (load ctx (opn_dialect e) s) as [[] s2| | |] eqn:Hload;
      try done.
    apply load_Done in Hload as (Hops & Hdata & _).
    destruct (dialects s2 !! opn_dialect e) as [d|]; [|done].
    destruct (stringContents (dialect_name d) s2) as [dn s3| | |] eqn:Hd;
      try done.
    apply stringContents_Done in Hd as [-> _].
    destruct (stringContents (opn_name e) s2) as [ln s3| | |] eqn:Hl;
      try done.
    apply stringContents_Done in Hl as [-> _].
    intros [= <- <-]. cbn. eexists i, _. split; [done|].
    rewrite length_insert, Hops. split; [done|]. split.
    - by apply list_lookup_insert_eq.
    - reflexivity. }
  destruct Hfacts as (i & e1 & Hany & Hlen & He1 & Hname1).
  unfold parseOpName. unfold mbind, M_bind, get, modify, mret, M_ret.
  rewrite Hlen, Hany, He1, Hname1. by destruct x.
Qed.

Lemma parseOpName_memoized_witness :
  exists x s1,
    parseOpName test_context [x01] tables_state = Done x s1
    /\ parseOpName test_context [x01] s1 = Done x s1.
Proof.
  eassert (Hrun : parseOpName test_context [x01] tables_state = Done _ _)
    by (vm_compute; reflexivity).
  eexists _, _. split; [exact Hrun|].
  exact (parseOpName_memoized _ _ _ _ _ Hrun).
Defined.

Lemma parseAsmEntry_Done (ctx : MLIRContext) (kind : EntryKind) (i : nat)
    (reader r' : EncodingReader.t) (custom : bool) (s s' : BytecodeReader) :
  parseAsmEntry ctx kind i reader custom s = Done r' s' ->
  length (entriesOf kind s') = length (entriesOf kind s).
Proof.
  unfold parseAsmEntry. destruct custom; [done|]. cbn [negb].
  unfold mbind, M_bind, liftR, modify, failure, emitError, emit, mret, M_ret.
  destruct (parseNullTerminatedString reader) as [str r|]; [|done]. cbn.
  destruct (asm_result _); [|done]. cbn.
  destruct (negb _); [done|]. intros [= _ <-].
  destruct kind; cbn; by rewrite length_alter.
Qed.

(** The attributes and the types are memoized: once [resolveEntry] has
    returned the attribute or the type of an index, resolving the index
    again returns the same result and changes nothing; the assembly
    parser of the host is not asked again. *)
Theorem resolveAttrType_memoized (ctx : MLIRContext) (kind : EntryKind)
    (index : Z) (s s1 : BytecodeReader) (h : nat) :
  resolveAttrType ctx kind index s = Done h s1 ->
  resolveAttrType ctx kind index s1 = Done h s1.
Proof.
  intros Hrun.
  assert (Hfacts : index < Z.of_nat (length (entriesOf kind s1))
             /\ exists e1, entriesOf kind s1 !! Z.to_nat index = Some e1
                           /\ entry e1 = Some h).
  { revert Hrun. unfold resolveAttrType.
    unfold mbind, M_bind, get, emitError, emit, mret, M_ret.
    destruct (Z.leb_spec (Z.of_nat (length (entriesOf kind s))) index);
      [done|].
    destruct (entriesOf kind s !! Z.to_nat index) as [e|] eqn:He; [|done].
    destruct (entry e) as [h0|] eqn:Hentry.
    { intros [= <- <-]. split; [done|]. by exists e. }
    destruct (parseAsmEntry ctx kind (Z.to_nat index) (entry_data e)
                (hasCustomEncoding e) s) as [r s2| | |] eqn:Hasm; try done.
    apply parseAsmEntry_Done in Hasm.
    destruct (negb (empty r)); [done|].
    destruct (entriesOf kind s2 !! Z.to_nat index) as [[[h1|] ? ? ?]|]
      eqn:He2; try done.
    intros [= <- <-]. split; [lia|]. eexists. split; [done|]. done. }
  destruct Hfacts as (Hlt & e1 & He1 & Hentry1).
  unfold resolveAttrType. unfold mbind, M_bind, get, mret, M_ret.
  destruct (Z.leb_spec (Z.of_nat (length (entriesOf kind s1))) index);
    [lia|].
  by rewrite He1, Hentry1.
Qed.

Lemma resolveAttrType_memoized_witness :
  exists h s1,
    resolveAttrType test_context TypeKind 0 tables_state = Done h s1
    /\ resolveAttrType test_context TypeKind 0 s1 = Done h s1.
Proof.
  eassert (Hrun : resolveAttrType test_context TypeKind 0 tables_state
                  = Done _ _) by (vm_compute; reflexivity).
  eexists _, _. split; [exact Hrun|].
  exact (resolveAttrType_memoized _ _ _ _ _ _ Hrun).
Defined.

(** ** Forward references, on the concrete file *)

Lemma no_placeholder_survives_witness :
  (exists s',
      readBytecodeFile test_context test_verify 0 7%nat forward_ref_file
        [HostOp 5] = Done tt s'
      /\ forwardRefOps s' = []
      /\ forall o p k,
           o ∈ ir_ops (ir s') -> OpResult p k ∈ op_operands o ->
           (p < length (ir_ops (ir s')))%nat
           /\ (p ∉ openForwardRefOps s'))
  /\ spliceModule test_verify 0%nat 0%nat
       (set_forwardRefOps [2%nat] initial_BytecodeReader)
     = Failed (set_diagnostics [unresolved_forward_references]
                 (set_forwardRefOps [2%nat] initial_BytecodeReader)).
Proof.
  destruct (no_placeholder_survives test_context test_verify)
    as [Hrun Hfail].
  split.
  - eassert (Hr : readBytecodeFile test_context test_verify 0 7%nat
                    forward_ref_file [HostOp 5] = Done tt _)
      by (vm_compute; reflexivity).
    eexists. split; [exact Hr|].
    destruct (Hrun _ _ _ _ _ _ Hr) as (H1 & _ & _ & H4). by split.
  - apply (Hfail 0%nat 0%nat
             (set_forwardRefOps [2%nat] initial_BytecodeReader)).
    discriminate.
Defined.

Lemma tables_state_refs_ok : refs_ok tables_state.
Proof.
  assert (Hrun : read test_context test_verify 0 7%nat empty_module_file
                   (set_destOps [] initial_BytecodeReader)
                 = Done tt tables_state) by (vm_compute; reflexivity).
  exact (proj1 (wp_Done _ _ _ _ _ _
                  (read_refs test_context test_verify 0 7%nat
                     empty_module_file _ (refs_ok_initial [])) Hrun)).
Qed.

(** The region loop on [forward_ref_ir]: the first call reads the
    top-level operation and pushes the frame of its region; the second
    reads the region, where an operand is read before its definition: a
    placeholder is made, resolved by the definition and put in the free
    pool. *)
Lemma parseRegions_keeps_refs_ok_witness :
  exists x1 s1 f2 stack2 r2 s2 x3 s3,
    enterModule test_context 7%nat forward_ref_ir tables_state = Done x1 s1
    /\ parseRegions test_context 42 x1.2 [] x1.1.2 s1
       = Done (f2 :: stack2, r2) s2
    /\ parseRegions test_context 42 r2 stack2 f2 s2 = Done x3 s3
    /\ openForwardRefOps s2 = []
    /\ openForwardRefOps s3 = [3%nat]
    /\ refs_ok s2 /\ refs_ok s3.
Proof.
  eassert (He : enterModule test_context 7%nat forward_ref_ir tables_state
                = Done _ _) by (vm_compute; reflexivity).
  lazymatch type of He with
  | _ = Done ?x ?s1 =>
      assert (Hok1 : refs_ok s1)
        by exact (wp_Done _ _ _ _ _ _
                    (enterModule_refs test_context 7%nat forward_ref_ir
                       tables_state tables_state_refs_ok) He);
      eassert (H2 : parseRegions test_context 42 x.2 [] x.1.2 s1
                    = Done (_ :: _, _) _) by (vm_compute; reflexivity);
      exists x, s1
  end.
  lazymatch type of H2 with
  | _ = Done (?f :: ?st, ?r) ?s2 =>
      eassert (H3 : parseRegions test_context 42 r st f s2 = Done _ _)
        by (vm_compute; reflexivity);
      exists f, st, r, s2
  end.
  pose proof (parseRegions_keeps_refs_ok test_context _ _ _ _ _ _ _
                Hok1 H2) as Hok2.
  pose proof (parseRegions_keeps_refs_ok test_context _ _ _ _ _ _ _
                Hok2 H3) as Hok3.
  eexists _, _. split; [exact He|]. split; [exact H2|]. split; [exact H3|].
  split; [vm_compute; reflexivity|]. split; [vm_compute; reflexivity|].
  split; [exact Hok2|exact Hok3].
Defined.

Lemma replaceUse_ne (old new w : Value) :
  new <> old -> replaceUse old new w <> old.
Proof.
  intros Hne. unfold replaceUse. destruct (Value_eqb w old) eqn:E; [done|].
  intros ->. assert (Value_eqb old old = true) by (by apply Value_eqb_eq).
  congruence.
Qed.

(** The definition of a value whose slot holds the result of a placeholder
    in use: the slot takes the new value and the next id moves on; in
    every operation of the heap the operands that were the result of the
    placeholder become the new value and the others are kept, so that no
    operand is the result of the placeholder any more; and the
    placeholder leaves the pool of those in use for the end of the pool of
    the free ones. *)
Theorem defineValue_resolves (s : BytecodeReader) (scope : ValueScope)
    (scopes : list ValueScope) (valueID : Z) (ids : list Z)
    (fr : OpId) (idx : nat) (newValue : Value) :
  valueScopes s = scope :: scopes ->
  nextValueIDs scope = valueID :: ids ->
  values scope !! Z.to_nat valueID = Some (Some (OpResult fr idx)) ->
  fr ∈ forwardRefOps s ->
  newValue <> OpResult fr idx ->
  exists s',
    defineValue newValue s = Done tt s'
    /\ valueScopes s'
       = mkValueScope (<[Z.to_nat valueID := Some newValue]> (values scope))
                      (u32 (valueID + 1) :: ids) :: scopes
    /\ length (ir_ops (ir s')) = length (ir_ops (ir s))
    /\ (forall n o,
          ir_ops (ir s) !! n = Some o ->
          exists o',
            ir_ops (ir s') !! n = Some o'
            /\ op_operands o'
               = map (replaceUse (OpResult fr idx) newValue) (op_operands o)
            /\ (OpResult fr idx ∉ op_operands o'))
    /\ (fr ∉ forwardRefOps s')
    /\ openForwardRefOps s' = openForwardRefOps s ++ [fr]
    /\ (forall p, p <> fr -> (p ∈ forwardRefOps s' <-> p ∈ forwardRefOps s)).
Proof.
  intros Hs Hids Hold Hfr Hne. eexists. split.
  - unfold defineValue, replaceAllUsesWith.
    unfold mbind, M_bind, get, put, modify, mret, M_ret.
    rewrite Hs, Hids, Hold. cbn.
    rewrite bool_decide_eq_true_2 by done. reflexivity.
  - cbn. split; [done|]. split; [by rewrite length_map|].
    split; [|split; [|split; [done|]]].
    + intros n o Ho. eexists. split.
      * change (map ?f ?l) with (f <$> l). by rewrite list_lookup_fmap, Ho.
      * cbn. split; [done|].
        intros (w & Hw & _)%elem_of_map. symmetry in Hw.
        by apply replaceUse_ne in Hw.
    + by intros [? _]%list_elem_of_filter.
    + intros p Hp. rewrite list_elem_of_filter. tauto.
Qed.

Lemma defineValue_resolves_witness :
  exists s',
    defineValue (OpResult 1%nat 0%nat)
      (set_ir (mkIR [mkOperation [] 0%nat None [] [OpResult 0%nat 0%nat]
                       [] []] [] [])
         (set_forwardRefOps [0%nat]
            (set_valueScopes
               [mkValueScope [Some (OpResult 0%nat 0%nat)] [0]]
               initial_BytecodeReader)))
    = Done tt s'
    /\ (OpResult 0%nat 0%nat ∉ [OpResult 1%nat 0%nat])
    /\ openForwardRefOps s' = [0%nat].
Proof.
  destruct (defineValue_resolves
              (set_ir (mkIR [mkOperation [] 0%nat None []
                               [OpResult 0%nat 0%nat] [] []] [] [])
                 (set_forwardRefOps [0%nat]
                    (set_valueScopes
                       [mkValueScope [Some (OpResult 0%nat 0%nat)] [0]]
                       initial_BytecodeReader)))
              (mkValueScope [Some (OpResult 0%nat 0%nat)] [0]) [] 0 []
              0%nat 0%nat (OpResult 1%nat 0%nat))
    as (s' & Hrun & _ & _ & Hops & _ & Hopen & _).
  - reflexivity.
  - reflexivity.
  - reflexivity.
  - cbn. apply list_elem_of_here.
  - discriminate.
  - exists s'. split; [exact Hrun|]. split; [|exact Hopen].
    destruct (Hops 0%nat _ eq_refl) as (o' & _ & Hmap & Hno).
    rewrite Hmap in Hno. exact Hno.
Defined.

(** ** The entries of the attribute and type table tile the section *)

Lemma parseVarIntWithFlag_range (r r' : EncodingReader.t) (v : Z) (f : bool) :
  parseVarIntWithFlag r = ROk (v, f) r' -> 0 <= v < 2 ^ 63.
Proof.
  unfold parseVarIntWithFlag.
  destruct (parseVarInt r) as [w r1|] eqn:E; [|done].
  apply parseVarInt_range in E as [Hw _]. intros [= <- _ _].
  rewrite Z.shiftr_div_pow2 by lia. change (2 ^ 1) with 2.
  split; [apply Z.div_pos; lia|]. apply Z.div_lt_upper_bound; lia.
Qed.

Lemma elem_of_insert_inv {A} (l : list A) (i : nat) (x y : A) :
  y ∈ <[i := x]> l -> y = x \/ y ∈ l.
Proof.
  intros [j Hj]%list_elem_of_lookup_1.
  apply list_lookup_insert_Some in Hj as [(_ & <- & _)|[_ Hj]]; [by left|].
  right. by eapply list_elem_of_lookup_2.
Qed.

Lemma entriesOf_set (kind : EntryKind) (v : list Entry) (s : BytecodeReader) :
  entriesOf kind (set_entriesOf kind v s) = v.
Proof. by destruct kind. Qed.

Lemma set_entriesOf_twice (kind : EntryKind) (v w : list Entry)
    (s : BytecodeReader) :
  set_entriesOf kind v (set_entriesOf kind w s) = set_entriesOf kind v s.
Proof. by destruct kind. Qed.

Lemma set_entriesOf_dialects (kind : EntryKind) (v : list Entry)
    (s : BytecodeReader) :
  dialects (set_entriesOf kind v s) = dialects s.
Proof. by destruct kind. Qed.

Lemma set_entriesOf_same (kind : EntryKind) (s : BytecodeReader) :
  set_entriesOf kind (entriesOf kind s) s = s.
Proof. by destruct kind, s. Qed.

Lemma fills_refl (kind : EntryKind) (s : BytecodeReader) : fills kind s s.
Proof. split; [by rewrite set_entriesOf_same|done]. Qed.

Lemma fills_trans (kind : EntryKind) (s1 s2 s3 : BytecodeReader) :
  fills kind s1 s2 -> fills kind s2 s3 -> fills kind s1 s3.
Proof.
  intros [E1 L1] [E2 L2]. split; [|congruence].
  rewrite E2 at 1. rewrite E1. by rewrite set_entriesOf_twice.
Qed.

Lemma fills_dialects (kind : EntryKind) (s s' : BytecodeReader) :
  fills kind s s' -> dialects s' = dialects s.
Proof. intros [-> _]. apply set_entriesOf_dialects. Qed.

Lemma parseEntryFn_tile (kind : EntryKind) (data : list byte) (nd : nat)
    (off0 : Z) (d : nat) (st : OffsetState) (reader : EncodingReader.t)
    (s : BytecodeReader) :
  size data < 2 ^ 63 -> (d < nd)%nat ->
  entries_tile data nd off0 (entriesOf kind s) st ->
  wp (parseEntryFn kind data d st reader)
     (fun x s' => fills kind s s'
                  /\ entries_tile data nd off0 (entriesOf kind s') x.1)
     (fun _ => True) s.
Proof.
  intros Hsize Hd (Hidx & Hoff0 & Hoff & Hcat & Hnone & Hdial).
  unfold parseEntryFn. apply wp_bind, wp_get. cbv beta.
  destruct (entriesOf kind s !! currentIndex st) as [e|] eqn:He; [|done].
  apply wp_bind, wp_liftR; [|done]. intros [sz flag] r' Hsz. cbv beta.
  cbn [fst snd]. apply parseVarIntWithFlag_range in Hsz.
  apply wp_bind, wp_modify. cbv beta.
  assert (Hu : u64 (currentOffset st + sz) = currentOffset st + sz).
  { unfold u64, UINT64_MOD. apply Z.mod_small. lia. }
  rewrite Hu. destruct (Z.ltb_spec (size data) (currentOffset st + sz));
    [done|].
  apply wp_bind, wp_modify. cbv beta.
  apply wp_ret. rewrite !entriesOf_set, !set_entriesOf_twice.
  rewrite list_insert_insert_eq.
  pose proof (lookup_lt_Some _ _ _ He) as Hlt.
  split; [split; [by rewrite entriesOf_set
                 |by rewrite entriesOf_set, length_insert]|].
  rewrite ?entriesOf_set.
  unfold entries_tile. cbn. rewrite length_insert.
  refine (conj _ (conj _ (conj _ (conj _ (conj _ _))))); try lia.
  - rewrite (take_S_r _ _ (mkEntry (entry e) (Some d) flag
               (take (Z.to_nat sz)
                  (drop (Z.to_nat (currentOffset st)) data))))
      by (by apply list_lookup_insert_eq).
    rewrite take_insert_ge by lia.
    change (map ?f ?l) with (f <$> l). rewrite fmap_app, concat_app.
    change (?f <$> ?l) with (map f l). rewrite Hcat. cbn.
    rewrite app_nil_r.
    replace (drop (Z.to_nat (currentOffset st)) data)
      with (drop (Z.to_nat (currentOffset st - off0))
              (drop (Z.to_nat off0) data))
      by (rewrite drop_drop; f_equal; lia).
    rewrite take_take_drop. f_equal. lia.
  - intros e' He'. apply elem_of_insert_inv in He' as [->|He']; [|auto].
    cbn. apply Hnone. by eapply list_elem_of_lookup_2.
  - rewrite (take_S_r _ _ (mkEntry (entry e) (Some d) flag
               (take (Z.to_nat sz)
                  (drop (Z.to_nat (currentOffset st)) data))))
      by (by apply list_lookup_insert_eq).
    rewrite take_insert_ge by lia.
    intros e' [He'| ->%list_elem_of_singleton]%elem_of_app; [auto|].
    cbn. eauto.
Qed.

Lemma forEntries_tile (kind : EntryKind) (data : list byte) (nd : nat)
    (off0 : Z) (d : nat) (n : nat) :
  size data < 2 ^ 63 -> (d < nd)%nat ->
  forall st reader s,
    entries_tile data nd off0 (entriesOf kind s) st ->
    wp (forEntries n (parseEntryFn kind data) d st reader)
       (fun x s' => fills kind s s'
                    /\ entries_tile data nd off0 (entriesOf kind s') x.1)
       (fun _ => True) s.
Proof.
  intros Hsize Hd. induction n as [|n IH]; intros st reader s Hinv;
    cbn [forEntries].
  - apply wp_ret. split; [apply fills_refl|done].
  - apply wp_bind.
    eapply wp_mono; [by apply (parseEntryFn_tile kind data nd off0)| |done].
    intros [st1 r1] s1 (Hf1 & Hinv1). cbn in Hinv1.
    eapply wp_mono; [by apply IH| |done].
    intros [st2 r2] s2 (Hf2 & Hinv2). cbn in *.
    split; [by eapply fills_trans|done].
Qed.

Lemma parseEntries_tile (kind : EntryKind) (data : list byte) (off0 : Z)
    (fuel : nat) :
  size data < 2 ^ 63 ->
  forall st reader s,
    entries_tile data (length (dialects s)) off0 (entriesOf kind s) st ->
    wp (parseEntries kind fuel data st reader)
       (fun x s' => fills kind s s'
                    /\ entries_tile data (length (dialects s)) off0
                         (entriesOf kind s') x.1
                    /\ currentIndex x.1 = length (entriesOf kind s'))
       (fun _ => True) s.
Proof.
  intros Hsize. induction fuel as [|fuel IH]; intros st reader s Hinv;
    cbn [parseEntries]; apply wp_bind, wp_get; cbv beta.
  - destruct (Nat.eqb_spec (currentIndex st) (length (entriesOf kind s)));
      [|done].
    apply wp_ret. split; [apply fills_refl|done].
  - destruct (Nat.eqb_spec (currentIndex st) (length (entriesOf kind s))).
    { apply wp_ret. split; [apply fills_refl|done]. }
    apply wp_bind. unfold parseDialectGrouping.
    apply wp_bind, wp_get. cbv beta. apply wp_bind.
    destruct (parseEntry reader (length (dialects s)) "dialect" s)
      as [[d r1] s1| | |] eqn:Hd; unfold wp at 1; rewrite Hd; try done.
    apply parseEntry_Done in Hd as (-> & Hlt & _). cbn in Hlt.
    apply wp_bind, wp_liftR; [|done]. intros numEntries r2 _. cbv beta.
    eapply wp_mono;
      [by apply (forEntries_tile kind data (length (dialects s)) off0)|
      |done].
    intros [st1 r3] s1 (Hf1 & Hinv1). cbn in Hinv1.
    rewrite <- (fills_dialects _ _ _ Hf1) in Hinv1.
    eapply wp_mono; [by apply IH| |done].
    intros [st2 r4] s2 (Hf2 & Hinv2 & Hend). cbn in *.
    rewrite (fills_dialects _ _ _ Hf1) in Hinv2.
    split; [by eapply fills_trans|done].
Qed.

Lemma entries_tile_start (data : list byte) (nd n : nat) (off : Z) :
  0 <= off <= size data ->
  entries_tile data nd off (replicate n default_Entry) (mkOffsetState 0 off).
Proof.
  intros Hoff. unfold entries_tile. cbn. rewrite Z.sub_diag.
  refine (conj _ (conj _ (conj _ (conj _ (conj _ _))))); try lia; try done.
  - intros e [-> _]%elem_of_replicate. done.
  - intros e He. by apply elem_of_nil in He.
Qed.

Lemma initialize_tiles_wp (sectionData offsets : list byte)
    (s : BytecodeReader) :
  size sectionData < 2 ^ 63 ->
  wp (initialize sectionData offsets)
     (fun _ s' =>
  (exists numAttributes r numTypes r',
      parseVarInt offsets = ROk numAttributes r
      /\ parseVarInt r = ROk numTypes r'
      /\ length (attributes s') = Z.to_nat numAttributes
      /\ length (types s') = Z.to_nat numTypes)
  /\ (exists total,
        (total <= length sectionData)%nat
        /\ concat (map entry_data (attributes s' ++ types s'))
           = take total sectionData)
  /\ (forall e, e ∈ attributes s' ++ types s' ->
        entry e = None
        /\ exists d, entry_dialect e = Some d
                     /\ (d < length (dialects s'))%nat)
  /\ dialects s' = dialects s)
     (fun _ => True) s.
Proof.
  intros Hsize.
  assert (Hsz : 0 <= size sectionData) by (unfold size; lia).
  unfold initialize.
  apply wp_bind, wp_liftR; [|done]. intros nA r1 HnA. cbv beta.
  apply wp_bind, wp_liftR; [|done]. intros nT r2 HnT. cbv beta.
  apply wp_bind, wp_modify. apply wp_bind, wp_modify.
  set (s0 := set_types _ (set_attributes _ s)).
  apply wp_bind.
  eapply wp_mono;
    [apply (parseEntries_tile AttributeKind sectionData 0 _ Hsize _ _ s0),
       entries_tile_start; lia| |done].
  intros [st1 r3] s1 (Hf1 & Hinv1 & Hend1). cbn in Hinv1, Hend1.
  apply wp_bind.
  destruct Hinv1 as (_ & Hoff1 & Hle1 & Hcat1 & Hnone1 & Hdial1).
  assert (Ht1 : types s1 = replicate (Z.to_nat nT) default_Entry).
  { destruct Hf1 as [-> _]. done. }
  assert (Hd1 : dialects s1 = dialects s).
  { destruct Hf1 as [-> _]. done. }
  assert (Hl1 : length (attributes s1) = Z.to_nat nA).
  { destruct Hf1 as [_ Hl]. cbn in Hl. by rewrite length_replicate in Hl. }
  eapply wp_mono;
    [apply (parseEntries_tile TypeKind sectionData (currentOffset st1) _
              Hsize _ _ s1); cbn [entriesOf]; rewrite Ht1;
       apply entries_tile_start; lia| |done].
  intros [st2 r4] s2 (Hf2 & Hinv2 & Hend2). cbn in Hinv2, Hend2.
  destruct Hinv2 as (_ & Hoff2 & Hle2 & Hcat2 & Hnone2 & Hdial2).
  assert (Ha2 : attributes s2 = attributes s1).
  { destruct Hf2 as [-> _]. done. }
  assert (Hd2 : dialects s2 = dialects s1).
  { destruct Hf2 as [-> _]. done. }
  assert (Hl2 : length (types s2) = Z.to_nat nT).
  { destruct Hf2 as [_ Hl]. cbn in Hl.
    by rewrite Ht1, length_replicate in Hl. }
  destruct (negb (empty r4)); [done|]. apply wp_ret.
  rewrite Hend1, firstn_all in Hcat1, Hdial1.
  rewrite Hend2, firstn_all in Hcat2, Hdial2.
  rewrite Ha2, Hd2, Hd1. rewrite Hd1 in Hdial2. cbn in Hdial1.
  split; [by exists nA, r1, nT, r2|]. split; [|split; [|done]].
  - exists (Z.to_nat (currentOffset st2)). split; [unfold size in *; lia|].
    change (map ?f ?l) with (f <$> l). rewrite fmap_app, concat_app.
    change (?f <$> ?l) with (map f l). rewrite Hcat1, Hcat2.
    rewrite Z.sub_0_r. cbn [Z.to_nat drop]. rewrite take_take_drop.
    f_equal. lia.
  - intros e [He|He]%elem_of_app; split; auto.
Qed.

(** When [AttrTypeReader::initialize] succeeds, the table has as many
    attributes and types as the offset section announces; the data of the
    entries, attributes first and then types, are consecutive slices of
    the section that start at its first byte and stay within it (they
    need not reach its end); no entry is resolved yet, and each has a
    dialect of the dialect table.  In particular the groupings never
    announce more entries than the table has. *)
Theorem initialize_tiles (sectionData offsets : list byte)
    (s s' : BytecodeReader) (u : unit) :
  size sectionData < 2 ^ 63 ->
  initialize sectionData offsets s = Done u s' ->
  (exists numAttributes r numTypes r',
      parseVarInt offsets = ROk numAttributes r
      /\ parseVarInt r = ROk numTypes r'
      /\ length (attributes s') = Z.to_nat numAttributes
      /\ length (types s') = Z.to_nat numTypes)
  /\ (exists total,
        (total <= length sectionData)%nat
        /\ concat (map entry_data (attributes s' ++ types s'))
           = take total sectionData)
  /\ (forall e, e ∈ attributes s' ++ types s' ->
        entry e = None
        /\ exists d, entry_dialect e = Some d
                     /\ (d < length (dialects s'))%nat)
  /\ dialects s' = dialects s.
Proof.
  intros Hsize Hrun.
  exact (wp_Done _ _ _ _ _ _
           (initialize_tiles_wp sectionData offsets s Hsize) Hrun).
Qed.

Lemma initialize_tiles_witness :
  exists s',
    initialize [x6c; x6f; x63; x00; x69; x33; x32; x00]
      [x03; x03; x01; x03; x11; x01; x03; x11] tables_state = Done tt s'
    /\ (exists total,
          (total <= 8)%nat
          /\ concat (map entry_data (attributes s' ++ types s'))
             = take total [x6c; x6f; x63; x00; x69; x33; x32; x00])
    /\ dialects s' = dialects tables_state.
Proof.
  assert (Hsize : size [x6c; x6f; x63; x00; x69; x33; x32; x00] < 2 ^ 63)
    by (vm_compute; reflexivity).
  eassert (Hrun : initialize [x6c; x6f; x63; x00; x69; x33; x32; x00]
                    [x03; x03; x01; x03; x11; x01; x03; x11] tables_state
                  = Done tt _) by (vm_compute; reflexivity).
  eexists. split; [exact Hrun|].
  pose proof (initialize_tiles _ _ _ _ _ Hsize Hrun) as (_ & Htile & _ & Hd).
  split; [exact Htile|exact Hd].
Defined.

(** ** The tables of the dialect section *)

Lemma parseSharedString_Done (reader : EncodingReader.t)
    (s s' : BytecodeReader) (x : StringRef * EncodingReader.t) :
  parseSharedString reader s = Done x s' -> s' = s /\ x.1 ∈ strings s.
Proof.
  unfold parseSharedString. unfold mbind, M_bind, get, mret, M_ret.
  destruct (parseEntry reader (length (strings s)) "string" s)
    as [[i r] s1| | |] eqn:Hi; try done.
  apply parseEntry_Done in Hi as (-> & _ & _).
  destruct (strings s !! i) as [str|] eqn:Hstr; [|done].
  intros [= <- <-]. split; [done|]. by eapply list_elem_of_lookup_2.
Qed.

(** An operation name entry as [parseDialectSection] leaves it: not yet
    resolved, owned by a dialect of the table, named by a string of the
    string table. *)
Lemma parseDialectNames_table (n : nat) :
  forall (i : nat) (reader : EncodingReader.t) (s : BytecodeReader),
    wp (parseDialectNames n i reader)
       (fun _ s' =>
          strings s' = strings s /\ opNames s' = opNames s
          /\ length (dialects s') = length (dialects s)
          /\ forall j d, dialects s' !! j = Some d ->
               (((j < i)%nat \/ (i + n <= j)%nat)
                /\ dialects s !! j = Some d)
               \/ ((i <= j < i + n)%nat /\ dialect d = None
                   /\ dialect_name d ∈ strings s))
       (fun _ => True) s.
Proof.
  induction n as [|n IH]; intros i reader s; cbn [parseDialectNames].
  - apply wp_ret. repeat split; auto. intros j d Hj. left.
    split; [lia|done].
  - apply wp_bind.
    destruct (parseSharedString reader s) as [[name r1] s1| | |] eqn:Hname;
      unfold wp at 1; rewrite Hname; try done.
    apply parseSharedString_Done in Hname as [-> Hin]. cbn in Hin.
    apply wp_bind, wp_modify. cbv beta.
    eapply wp_mono; [apply IH| |done].
    intros r2 s2 (Hstr & Hops & Hlen & Hd). cbn in *.
    rewrite length_insert in Hlen.
    split; [done|]. split; [done|]. split; [done|].
    intros j d Hj. destruct (Hd j d Hj) as [[Hr H]|(Hle & Hnone & Hn)].
    + apply list_lookup_insert_Some in H as [(-> & <- & _)|[Hne H]].
      * right. cbn. split; [lia|]. done.
      * left. split; [lia|done].
    + right. split; [lia|]. done.
Qed.

Lemma forEntries_opNames (n : nat) (d : nat) :
  forall (reader : EncodingReader.t) (s : BytecodeReader),
    wp (forEntries n parseOpNameEntry d tt reader)
       (fun _ s' =>
          strings s' = strings s /\ dialects s' = dialects s
          /\ exists new,
               opNames s' = opNames s ++ new
               /\ forall e, e ∈ new ->
                    opName e = None /\ opn_dialect e = d
                    /\ opn_name e ∈ strings s)
       (fun _ => True) s.
Proof.
  induction n as [|n IH]; intros reader s; cbn [forEntries].
  - apply wp_ret. split; [done|]. split; [done|]. exists [].
    split; [by rewrite app_nil_r|]. intros e He. by apply elem_of_nil in He.
  - apply wp_bind. unfold parseOpNameEntry at 1. apply wp_bind.
    destruct (parseSharedString reader s) as [[name r1] s1| | |] eqn:Hname;
      unfold wp at 1; rewrite Hname; try done.
    apply parseSharedString_Done in Hname as [-> Hin]. cbn in Hin.
    apply wp_bind, wp_modify. cbv beta. apply wp_ret.
    eapply wp_mono; [apply IH| |done].
    intros x s2 (Hstr & Hdial & new & Hops & Hnew). cbn in *.
    split; [done|]. split; [done|].
    exists (mkBytecodeOperationName None d name :: new).
    split; [by rewrite Hops, <- app_assoc|].
    intros e [->|He]%elem_of_cons; [done|]. auto.
Qed.

Lemma parseOpNameGroups_table (fuel : nat) :
  forall (reader : EncodingReader.t) (s : BytecodeReader),
    wp (parseOpNameGroups fuel reader)
       (fun _ s' =>
          strings s' = strings s /\ dialects s' = dialects s
          /\ exists new,
               opNames s' = opNames s ++ new
               /\ forall e, e ∈ new ->
                    opName e = None
                    /\ (opn_dialect e < length (dialects s))%nat
                    /\ opn_name e ∈ strings s)
       (fun _ => True) s.
Proof.
  induction fuel as [|fuel IH]; intros reader s; cbn [parseOpNameGroups].
  - destruct (empty reader); [|done]. apply wp_ret.
    split; [done|]. split; [done|]. exists [].
    split; [by rewrite app_nil_r|]. intros e He. by apply elem_of_nil in He.
  - destruct (empty reader).
    { apply wp_ret. split; [done|]. split; [done|]. exists [].
      split; [by rewrite app_nil_r|].
      intros e He. by apply elem_of_nil in He. }
    apply wp_bind. unfold parseDialectGrouping.
    apply wp_bind, wp_get. cbv beta. apply wp_bind.
    destruct (parseEntry reader (length (dialects s)) "dialect" s)
      as [[d r1] s1| | |] eqn:Hd; unfold wp at 1; rewrite Hd; try done.
    apply parseEntry_Done in Hd as (-> & Hlt & _). cbn in Hlt.
    apply wp_bind, wp_liftR; [|done]. intros numEntries r2 _. cbv beta.
    eapply wp_mono; [apply forEntries_opNames| |done].
    intros [[] r3] s1 (Hstr1 & Hdial1 & new1 & Hops1 & Hnew1).
    eapply wp_mono; [apply IH| |done].
    intros [] s2 (Hstr2 & Hdial2 & new2 & Hops2 & Hnew2).
    split; [congruence|]. split; [congruence|].
    exists (new1 ++ new2). split; [by rewrite Hops2, Hops1, <- app_assoc|].
    intros e [He|He]%elem_of_app.
    + destruct (Hnew1 e He) as (? & -> & ?). done.
    + destruct (Hnew2 e He) as (? & ? & ?).
      rewrite Hdial1, Hstr1 in *. done.
Qed.

Lemma parseDialectSection_table_wp (sectionData : list byte)
    (s : BytecodeReader) :
  wp (parseDialectSection sectionData)
     (fun _ s' =>
        strings s' = strings s
        /\ (exists numDialects r,
               parseVarInt sectionData = ROk numDialects r
               /\ length (dialects s') = Z.to_nat numDialects)
        /\ (forall d, d ∈ dialects s' ->
               dialect d = None /\ dialect_name d ∈ strings s)
        /\ exists new,
             opNames s' = opNames s ++ new
             /\ forall e, e ∈ new ->
                  opName e = None
                  /\ (opn_dialect e < length (dialects s'))%nat
                  /\ opn_name e ∈ strings s)
     (fun _ => True) s.
Proof.
  unfold parseDialectSection.
  apply wp_bind, wp_liftR; [|done]. intros n r Hn. cbv beta.
  apply wp_bind, wp_modify. cbv beta. apply wp_bind.
  eapply wp_mono; [apply parseDialectNames_table| |done].
  intros r1 s1 (Hstr1 & Hops1 & Hlen1 & Hd1). cbn in *.
  rewrite length_replicate in Hlen1.
  eapply wp_mono; [apply parseOpNameGroups_table| |done].
  intros [] s2 (Hstr2 & Hdial2 & new & Hops2 & Hnew).
  split; [congruence|]. split; [|split].
  - exists n, r. split; [done|]. congruence.
  - rewrite Hdial2. intros d [j Hj]%list_elem_of_lookup_1.
    destruct (Hd1 j d Hj) as [[Hr H]|(_ & ? & ?)]; [|done].
    apply lookup_lt_Some in Hj. lia.
  - exists new. split; [congruence|]. intros e He.
    destruct (Hnew e He) as (? & ? & ?). rewrite Hdial2, <- Hstr1. done.
Qed.

(** When [parseDialectSection] succeeds, the dialect table has as many
    entries as the section announces, none of them loaded and each named
    by a string of the string table; and every operation name that the
    section adds is unresolved, owned by a dialect of the table, and named
    by a string of the string table: the dialect of an operation name is
    always an entry of the dialect table. *)
Theorem parseDialectSection_table (sectionData : list byte)
    (s s' : BytecodeReader) (u : unit) :
  parseDialectSection sectionData s = Done u s' ->
  strings s' = strings s
  /\ (exists numDialects r,
         parseVarInt sectionData = ROk numDialects r
         /\ length (dialects s') = Z.to_nat numDialects)
  /\ (forall d, d ∈ dialects s' ->
         dialect d = None /\ dialect_name d ∈ strings s)
  /\ exists new,
       opNames s' = opNames s ++ new
       /\ forall e, e ∈ new ->
            opName e = None
            /\ (opn_dialect e < length (dialects s'))%nat
            /\ opn_name e ∈ strings s.
Proof.
  intros Hrun.
  exact (wp_Done _ _ _ _ _ _ (parseDialectSection_table_wp sectionData s)
           Hrun).
Qed.

Lemma parseDialectSection_table_witness :
  exists s',
    parseDialectSection [x03; x01; x01; x05; x03; x05]
      (set_strings [mkStringRef 4 4; mkStringRef 9 2; mkStringRef 12 4]
         initial_BytecodeReader) = Done tt s'
    /\ (forall d, d ∈ dialects s' -> dialect d = None)
    /\ forall e, e ∈ opNames s' -> (opn_dialect e < length (dialects s'))%nat.
Proof.
  eassert (Hrun : parseDialectSection [x03; x01; x01; x05; x03; x05]
                    (set_strings
                       [mkStringRef 4 4; mkStringRef 9 2; mkStringRef 12 4]
                       initial_BytecodeReader)
                  = Done tt _) by (vm_compute; reflexivity).
  eexists. split; [exact Hrun|].
  pose proof (parseDialectSection_table _ _ _ _ Hrun)
    as (_ & _ & Hd & new & Hops & Hnew).
  split.
  - intros d Hin. by destruct (Hd d Hin).
  - intros e He. rewrite Hops in He. cbn in He. by destruct (Hnew e He) as (_ & ? & _).
Defined.
